(** * SimpleFS: a shallow embedding of [src/src/disk.c] and [src/src/fs.c]

    The block device of [disk.c] and the storage engine of [fs.c]
    (format, mount, create, remove, stat, read, write, the free block
    bitmap) are rendered as Rocq functions over an explicit store of
    disks and an explicit [FileSystem] record.

    Conventions.
    - C integers are [Z]; where unsigned arithmetic can wrap, the
      reduction modulo [2^64] ([size_t]) or [2^32] ([uint32_t]) is
      written out.
    - A [Block] is the 4096 byte buffer of the C union; the views
      [super], [inodes], [pointers] and [data] of the union are accessor
      functions over the same bytes (little-endian [uint32_t] fields).
    - A [Disk *] is an index into a store of disks, [None] being the
      null pointer.
    - Behaviour that the C standard leaves undefined (use of a buffer
      that no read has filled, an index outside an array, a [memcpy]
      past the end of a block or of the caller's buffer) is the outcome
      [Undef].
    - The buffer passed to [fs_write] is the list of its bytes; the
      buffer passed to [fs_read] holds the [length] bytes asked for. *)

From Stdlib Require Import ZArith Lia.
From Stdlib.Strings Require Import Byte.
From stdpp Require Import base option list list_numbers relations.

Local Open Scope Z_scope.

(** ** Outcomes *)

Inductive res (A : Type) : Type :=
| Ok (a : A)
| Undef
| OutOfFuel.
Arguments Ok {A} a.
Arguments Undef {A}.
Arguments OutOfFuel {A}.

#[global] Instance res_ret : MRet res := λ A a, Ok a.
#[global] Instance res_bind : MBind res := λ A B k m,
  match m with
  | Ok a => k a
  | Undef => Undef
  | OutOfFuel => OutOfFuel
  end.

(** ** Constants of the missing headers *)

(** Modelled from the spec: [sfs/disk.h] is not part of the sources; the
    spec gives the block size of the reference as 4096 bytes. *)
Definition BLOCK_SIZE : Z := 4096.

(** Modelled from the spec: [sfs/disk.h] is not part of the sources; the
    device reports [FAILURE], a value distinct from every byte count.
    The SimpleFS header has [-1]. *)
Definition DISK_FAILURE : Z := -1.

(** Modelled from the spec: [sfs/fs.h] is not part of the sources; the
    spec requires a fixed sentinel. The SimpleFS header has
    [0xf0f03410]. *)
Definition MAGIC_NUMBER : Z := 0xf0f03410.

(** Modelled from the spec: [sfs/fs.h] is not part of the sources; the
    spec gives [D = 5] direct pointers per inode. *)
Definition POINTERS_PER_INODE : Z := 5.

(** Modelled from the spec: [sfs/fs.h] is not part of the sources; the
    spec gives [P = BLOCK_SIZE / pointer_size], pointers being the 32 bit
    block indices printed with [%u] in [fs_debug]. *)
Definition POINTERS_PER_BLOCK : Z := 1024.

(** Modelled from the spec: [sfs/fs.h] is not part of the sources; an
    inode record is [valid], [size], [D] direct pointers and one indirect
    pointer, eight 32 bit words, so 128 records fill a block. *)
Definition INODES_PER_BLOCK : Z := 128.

Definition wrap32 (z : Z) : Z := z mod 2 ^ 32.
Definition wrap64 (z : Z) : Z := z mod 2 ^ 64.

(** ** Blocks: 4096 bytes under four views *)

Abbreviation Block := (list byte).

Definition byte_val (b : byte) : Z := Z.of_N (Byte.to_N b).

Definition byte_of (z : Z) : byte :=
  default x00 (Byte.of_N (Z.to_N (z mod 256))).

Definition zero_block : Block := replicate (Z.to_nat BLOCK_SIZE) x00.

(** [char buffer[BLOCK_SIZE] = {0}] and [Block b = {{0}}]. *)
Definition byte_at (b : Block) (o : nat) : Z := byte_val (default x00 (b !! o)).

(** Word [w] of the block read as a little-endian [uint32_t]. *)
Definition load32 (b : Block) (w : Z) : Z :=
  let o := Z.to_nat (4 * w) in
  byte_at b o + 2 ^ 8 * byte_at b (o + 1)
  + 2 ^ 16 * byte_at b (o + 2) + 2 ^ 24 * byte_at b (o + 3).

(** Word [w] of the block overwritten with [v], truncated to 32 bits. *)
Definition store32 (b : Block) (w : Z) (v : Z) : Block :=
  let o := Z.to_nat (4 * w) in
  <[o := byte_of v]>
    (<[(o + 1)%nat := byte_of (v / 2 ^ 8)]>
       (<[(o + 2)%nat := byte_of (v / 2 ^ 16)]>
          (<[(o + 3)%nat := byte_of (v / 2 ^ 24)]> b))).

(** [block.super]: four words at the start of the block. *)
Definition super_magic_number (b : Block) : Z := load32 b 0.
Definition super_blocks (b : Block) : Z := load32 b 1.
Definition super_inode_blocks (b : Block) : Z := load32 b 2.
Definition super_inodes (b : Block) : Z := load32 b 3.

(** [block.inodes[i]]: eight words per record. *)
Definition inode_valid (b : Block) (i : Z) : Z := load32 b (8 * i).
Definition inode_size (b : Block) (i : Z) : Z := load32 b (8 * i + 1).
Definition inode_direct (b : Block) (i k : Z) : Z := load32 b (8 * i + 2 + k).
Definition inode_indirect (b : Block) (i : Z) : Z := load32 b (8 * i + 7).

Definition set_inode_valid (b : Block) (i v : Z) : Block := store32 b (8 * i) v.
Definition set_inode_size (b : Block) (i v : Z) : Block := store32 b (8 * i + 1) v.
Definition set_inode_direct (b : Block) (i k v : Z) : Block :=
  store32 b (8 * i + 2 + k) v.
Definition set_inode_indirect (b : Block) (i v : Z) : Block :=
  store32 b (8 * i + 7) v.

(** [block.pointers[p]]. *)
Definition pointers (b : Block) (p : Z) : Z := load32 b p.
Definition set_pointers (b : Block) (p v : Z) : Block := store32 b p v.

(** [memcpy(dst + off, src, length src)] inside one buffer. *)
Definition blit {A : Type} (dst : list A) (off : nat) (src : list A) : list A :=
  take off dst ++ src ++ drop (off + length src)%nat dst.

(** ** Lemmas on the word view *)

Lemma byte_val_range b : 0 ≤ byte_val b < 256.
Proof.
  unfold byte_val. pose proof (Byte.to_N_bounded b). lia.
Qed.

Lemma byte_val_of z : byte_val (byte_of z) = z mod 256.
Proof.
  unfold byte_val, byte_of.
  assert (Hr : 0 ≤ z mod 256 < 256) by (apply Z.mod_pos_bound; lia).
  destruct (Byte.of_N (Z.to_N (z mod 256))) as [b|] eqn:E.
  - apply Byte.to_of_N in E. simpl. rewrite E. lia.
  - apply Byte.of_N_None_iff in E. lia.
Qed.

Lemma byte_at_range b o : 0 ≤ byte_at b o < 256.
Proof. apply byte_val_range. Qed.

Lemma load32_range b w : 0 ≤ load32 b w < 2 ^ 32.
Proof.
  unfold load32.
  pose proof (byte_at_range b (Z.to_nat (4 * w))).
  pose proof (byte_at_range b (Z.to_nat (4 * w) + 1)).
  pose proof (byte_at_range b (Z.to_nat (4 * w) + 2)).
  pose proof (byte_at_range b (Z.to_nat (4 * w) + 3)).
  lia.
Qed.

Lemma length_store32 b w v : length (store32 b w v) = length b.
Proof. unfold store32. by rewrite !length_insert. Qed.

Lemma byte_at_insert_eq (b : Block) o x :
  (o < length b)%nat → byte_at (<[o := x]> b) o = byte_val x.
Proof. intros H. unfold byte_at. by rewrite list_lookup_insert_eq. Qed.

Lemma byte_at_insert_ne (b : Block) o o' x :
  o ≠ o' → byte_at (<[o := x]> b) o' = byte_at b o'.
Proof. intros H. unfold byte_at. by rewrite list_lookup_insert_ne. Qed.

Lemma le32_decode v :
  v mod 256 + 2 ^ 8 * ((v / 2 ^ 8) mod 256)
  + 2 ^ 16 * ((v / 2 ^ 16) mod 256) + 2 ^ 24 * ((v / 2 ^ 24) mod 256)
  = v mod 2 ^ 32.
Proof.
  change (2 ^ 32) with (2 ^ 8 * (2 ^ 8 * (2 ^ 8 * 2 ^ 8))).
  rewrite !Z.rem_mul_r by lia.
  change (2 ^ 16) with (2 ^ 8 * 2 ^ 8).
  change (2 ^ 24) with (2 ^ 8 * (2 ^ 8 * 2 ^ 8)).
  rewrite <- !Z.div_div by lia.
  change (2 ^ 8) with 256. lia.
Qed.

Lemma load32_store32_eq b w v :
  0 ≤ w → 4 * w + 4 ≤ Z.of_nat (length b) →
  load32 (store32 b w v) w = wrap32 v.
Proof.
  intros Hw Hlen. unfold load32, store32, wrap32.
  set (o := Z.to_nat (4 * w)).
  assert (o + 3 < length b)%nat by lia.
  rewrite byte_at_insert_eq by (rewrite !length_insert; lia).
  rewrite (byte_at_insert_ne _ o (o + 1)%nat) by lia.
  rewrite byte_at_insert_eq by (rewrite !length_insert; lia).
  rewrite (byte_at_insert_ne _ o (o + 2)%nat) by lia.
  rewrite (byte_at_insert_ne _ (o + 1)%nat (o + 2)%nat) by lia.
  rewrite byte_at_insert_eq by (rewrite !length_insert; lia).
  rewrite (byte_at_insert_ne _ o (o + 3)%nat) by lia.
  rewrite (byte_at_insert_ne _ (o + 1)%nat (o + 3)%nat) by lia.
  rewrite (byte_at_insert_ne _ (o + 2)%nat (o + 3)%nat) by lia.
  rewrite byte_at_insert_eq by lia.
  rewrite !byte_val_of. apply le32_decode.
Qed.

Lemma load32_store32_ne b w w' v :
  0 ≤ w → 0 ≤ w' → w ≠ w' →
  load32 (store32 b w v) w' = load32 b w'.
Proof.
  intros Hw Hw' Hne. unfold load32, store32.
  set (o := Z.to_nat (4 * w)). set (o' := Z.to_nat (4 * w')).
  assert (o + 4 ≤ o' ∨ o' + 4 ≤ o)%nat by lia.
  rewrite !byte_at_insert_ne by lia. reflexivity.
Qed.

(** ** disk.c: the block device *)

(** A disk is the sequence of its blocks; [disk->blocks] is its length.
    The counters [reads] and [writes], which [disk_close] prints and
    nothing reads, are left out. *)
Abbreviation Disk := (list Block).

(** [disk_blocks h disk] is [disk->blocks]. *)
Definition disk_blocks (h : list Disk) (dsk : option nat) : Z :=
  match dsk ≫= (h !!.) with
  | Some d => Z.of_nat (length d)
  | None => 0
  end.

(** A [char *data] argument is given by what disk.c looks at: whether
    the pointer is null, and for [disk_write] the block it points to.
    [disk_sanity_check h disk block data] has [data = false] for a null
    buffer. *)
Definition disk_sanity_check (h : list Disk) (dsk : option nat) (block : Z)
    (data : bool) : bool :=
  match dsk ≫= (h !!.) with
  | None => false
  | Some d =>
      if bool_decide (Z.of_nat (length d) ≤ block) then false
      else if negb data then false
      else true
  end.

(** [None] stands for the return value [DISK_FAILURE], [Some b] for
    [BLOCK_SIZE] with the buffer filled with [b]. The host's [lseek],
    [read] and [write] are taken to do their work on a block of the disk:
    [readed > 0] and [written > 0] hold once the check has passed. *)
Definition disk_read_buffer (h : list Disk) (dsk : option nat) (block : Z)
    (data : bool) : option Block :=
  if disk_sanity_check h dsk block data then
    d ← dsk ≫= (h !!.); d !! Z.to_nat block
  else None.

Definition disk_write_buffer (h : list Disk) (dsk : option nat) (block : Z)
    (data : option Block) : option (list Disk) :=
  if disk_sanity_check h dsk block (if data is Some _ then true else false) then
    b ← data; a ← dsk; d ← h !! a; Some (<[a := <[Z.to_nat block := b]> d]> h)
  else None.

(** Every call in fs.c passes the [data] member of a local [Block]: a
    buffer that is not null. [disk_read] and [disk_write] are the calls
    with such a buffer. *)
Definition disk_read (h : list Disk) (dsk : option nat) (block : Z) : option Block :=
  disk_read_buffer h dsk block true.

Definition disk_write (h : list Disk) (dsk : option nat) (block : Z)
    (data : Block) : option (list Disk) :=
  disk_write_buffer h dsk block (Some data).

(** The [ssize_t] that [disk_read] and [disk_write] return. *)
Definition ret_code {A : Type} (r : option A) : Z :=
  match r with
  | Some _ => BLOCK_SIZE
  | None => DISK_FAILURE
  end.

(** ** fs.c: the storage engine *)

Record SuperBlock : Type := mkSuperBlock {
  magic_number : Z;
  blocks : Z;
  inode_blocks : Z;
  inodes : Z
}.

Record FileSystem : Type := mkFileSystem {
  disk : option nat;
  free_blocks : option (list bool);
  meta_data : SuperBlock
}.

Definition set_free_blocks (fs : FileSystem) (bm : option (list bool)) : FileSystem :=
  {| disk := disk fs; free_blocks := bm; meta_data := meta_data fs |}.

(** [free_blocks[p] = v]; the array must exist and hold index [p]. *)
Definition bitmap_set (bm : option (list bool)) (p : Z) (v : bool)
    : res (option (list bool)) :=
  match bm with
  | None => Undef
  | Some l =>
      if bool_decide (p < Z.of_nat (length l)) then Ok (Some (<[Z.to_nat p := v]> l))
      else Undef
  end.

(** [free_blocks[p]]. *)
Definition bitmap_get (bm : option (list bool)) (p : Z) : res bool :=
  match bm ≫= (.!! Z.to_nat p) with
  | Some v => Ok v
  | None => Undef
  end.

(** *** fs_format *)

(** The local [format_block] that [fs_format] fills and never writes. *)
Definition format_super (disk_blocks : Z) : SuperBlock :=
  let sb_blocks := wrap32 disk_blocks in
  let sb_inode_blocks :=
    if sb_blocks mod 10 =? 0 then wrap32 (disk_blocks / 10)
    else wrap32 (disk_blocks / 10 + 1) in
  {| magic_number := MAGIC_NUMBER;
     blocks := sb_blocks;
     inode_blocks := sb_inode_blocks;
     inodes := wrap32 (sb_inode_blocks * INODES_PER_BLOCK) |}.

(** [for (size_t i = 1; i < disk->blocks; i++)
       if (!disk_write(disk, i, buffer)) return false;] *)
Fixpoint format_blocks (h : list Disk) (dsk : option nat) (slots : list Z)
    : bool * list Disk :=
  match slots with
  | [] => (true, h)
  | i :: slots' =>
      let r := disk_write h dsk i zero_block in
      if ret_code r =? 0 then (false, h)
      else format_blocks (default h r) dsk slots'
  end.

Definition fs_format (h : list Disk) (fs : FileSystem) (dsk : option nat)
    : bool * list Disk :=
  match dsk with
  | None => (false, h)
  | Some _ =>
      if bool_decide (disk fs ≠ None) then (false, h)
      else if bool_decide (free_blocks fs ≠ None) then (false, h)
      else
        let format_block := format_super (disk_blocks h dsk) in
        format_blocks h dsk (seqZ 1 (disk_blocks h dsk - 1))
  end.

(** *** fs_initialize_free_block_bitmap *)

(** [for p in ps: if (p != 0) free_blocks[p] = v;] *)
Fixpoint mark_pointers (v : bool) (bm : option (list bool)) (ps : list Z)
    : res (option (list bool)) :=
  match ps with
  | [] => Ok bm
  | p :: ps' =>
      if p =? 0 then mark_pointers v bm ps'
      else bm' ← bitmap_set bm p v; mark_pointers v bm' ps'
  end.

(** One inode of the scan; the boolean is [false] when the function
    returns early because the indirect block cannot be read. *)
Definition init_inode (h : list Disk) (dsk : option nat) (block : Block)
    (bm : option (list bool)) (inode : Z) : res (bool * option (list bool)) :=
  if inode_valid block inode =? 0 then Ok (true, bm)
  else
    bm1 ← mark_pointers false bm
            (inode_direct block inode <$> seqZ 0 POINTERS_PER_INODE);
    if inode_indirect block inode =? 0 then Ok (true, bm1)
    else
      bm2 ← bitmap_set bm1 (inode_indirect block inode) false;
      match disk_read h dsk (inode_indirect block inode) with
      | None => Ok (false, bm2)
      | Some indirect_block =>
          bm3 ← mark_pointers false bm2
                  (pointers indirect_block <$> seqZ 0 POINTERS_PER_BLOCK);
          Ok (true, bm3)
      end.

Fixpoint init_inodes (h : list Disk) (dsk : option nat) (block : Block)
    (bm : option (list bool)) (slots : list Z) : res (bool * option (list bool)) :=
  match slots with
  | [] => Ok (true, bm)
  | inode :: slots' =>
      '(go, bm1) ← init_inode h dsk block bm inode;
      if go : bool then init_inodes h dsk block bm1 slots' else Ok (false, bm1)
  end.

Fixpoint init_inode_blocks (h : list Disk) (dsk : option nat)
    (bm : option (list bool)) (ibs : list Z) : res (option (list bool)) :=
  match ibs with
  | [] => Ok bm
  | inode_block :: ibs' =>
      match disk_read h dsk inode_block with
      | None => Ok bm
      | Some block =>
          '(go, bm1) ← init_inodes h dsk block bm (seqZ 0 INODES_PER_BLOCK);
          if go : bool then
            bm2 ← bitmap_set bm1 inode_block false;
            init_inode_blocks h dsk bm2 ibs'
          else Ok bm1
      end
  end.

Definition fs_initialize_free_block_bitmap (h : list Disk) (fs : FileSystem)
    : res FileSystem :=
  let bm0 := Some (replicate (Z.to_nat (blocks (meta_data fs))) true) in
  bm1 ← bitmap_set bm0 0 false;
  bm ← init_inode_blocks h (disk fs) bm1 (seqZ 1 (inode_blocks (meta_data fs)));
  Ok (set_free_blocks fs bm).

(** *** fs_mount and fs_unmount *)

Definition fs_mount (h : list Disk) (fs : FileSystem) (dsk : option nat)
    : res (bool * FileSystem) :=
  if bool_decide (disk fs = dsk) then Ok (false, fs)
  else
    let r := disk_read h dsk 0 in
    if ret_code r =? 0 then Ok (false, fs)
    else
      match r with
      | None => Undef
      | Some sb =>
          if bool_decide (super_magic_number sb ≠ MAGIC_NUMBER) then Ok (false, fs)
          else if bool_decide
                    (super_inodes sb < wrap32 (super_inode_blocks sb * INODES_PER_BLOCK))
               then Ok (false, fs)
          else if bool_decide (super_blocks sb < 3) then Ok (false, fs)
          else if bool_decide (super_inode_blocks sb < super_blocks sb / 10)
               then Ok (false, fs)
          else
            let fs1 :=
              {| disk := dsk;
                 free_blocks := free_blocks fs;
                 meta_data :=
                   {| magic_number := super_magic_number sb;
                      blocks := super_blocks sb;
                      inode_blocks := super_inode_blocks sb;
                      inodes := super_inodes sb |} |} in
            fs2 ← fs_initialize_free_block_bitmap h fs1;
            Ok (true, fs2)
      end.

Definition fs_unmount (fs : FileSystem) : FileSystem :=
  {| disk := None; free_blocks := None; meta_data := meta_data fs |}.

(** *** find_free_block *)

(** [for (int i = 0; i < fs->meta_data.blocks; i++)], with [n] the
    number of indices still to visit. *)
Fixpoint find_free_from (bm : option (list bool)) (i : Z) (n : nat)
    : res (option Z) :=
  match n with
  | O => Ok None
  | S n' =>
      v ← bitmap_get bm i;
      if v : bool then Ok (Some i) else find_free_from bm (i + 1) n'
  end.

Definition find_free_block (fs : FileSystem) : res (Z * FileSystem) :=
  r ← find_free_from (free_blocks fs) 0 (Z.to_nat (blocks (meta_data fs)));
  match r with
  | Some i =>
      bm ← bitmap_set (free_blocks fs) i false;
      Ok (i, set_free_blocks fs bm)
  | None => Ok (0, fs)
  end.

(** *** fs_create *)

(** The scan of one inode block: [inl (inode, inode_count)] when slot
    [inode] is free, [inr inode_count] after a block without free slot. *)
Fixpoint create_scan (block : Block) (slots : list Z) (inode_count : Z)
    : Z * Z + Z :=
  match slots with
  | [] => inr inode_count
  | inode :: slots' =>
      if inode_valid block inode =? 0 then inl (inode, inode_count)
      else create_scan block slots' (inode_count + 1)
  end.

Fixpoint create_loop (h : list Disk) (dsk : option nat) (ibs : list Z)
    (inode_count : Z) : res (Z * list Disk) :=
  match ibs with
  | [] => Ok (-1, h)
  | inode_block :: ibs' =>
      match disk_read h dsk inode_block with
      | None => Undef
      | Some block =>
          match create_scan block (seqZ 0 INODES_PER_BLOCK) inode_count with
          | inl (inode, n) =>
              let block' := set_inode_valid block inode 1 in
              Ok (n, default h (disk_write h dsk inode_block block'))
          | inr n => create_loop h dsk ibs' n
          end
      end
  end.

Definition fs_create (h : list Disk) (fs : FileSystem) : res (Z * list Disk) :=
  create_loop h (disk fs) (seqZ 1 (inode_blocks (meta_data fs))) 0.

(** *** fs_remove *)

Fixpoint release_direct (inode_i : Z) (dps : list Z) (bm : option (list bool))
    (blk : Block) : res (option (list bool) * Block) :=
  match dps with
  | [] => Ok (bm, blk)
  | dp :: dps' =>
      if inode_direct blk inode_i dp =? 0 then release_direct inode_i dps' bm blk
      else
        bm' ← bitmap_set bm (inode_direct blk inode_i dp) true;
        release_direct inode_i dps' bm' (set_inode_direct blk inode_i dp 0)
  end.

Fixpoint release_pointers (ips : list Z) (bm : option (list bool))
    (ind_blk : Block) : res (option (list bool) * Block) :=
  match ips with
  | [] => Ok (bm, ind_blk)
  | ip :: ips' =>
      if pointers ind_blk ip =? 0 then release_pointers ips' bm ind_blk
      else
        bm' ← bitmap_set bm (pointers ind_blk ip) true;
        release_pointers ips' bm' (set_pointers ind_blk ip 0)
  end.

(** Lines 255-270: the indirect block, when there is one. *)
Definition release_indirect (h : list Disk) (dsk : option nat)
    (bm : option (list bool)) (blk : Block) (inode_i : Z)
    : res (list Disk * option (list bool) * Block) :=
  if inode_indirect blk inode_i =? 0 then Ok (h, bm, blk)
  else
    match disk_read h dsk (inode_indirect blk inode_i) with
    | None => Undef
    | Some ind_blk =>
        '(bm', ind_blk') ← release_pointers (seqZ 0 POINTERS_PER_BLOCK) bm ind_blk;
        bm'' ← bitmap_set bm' (inode_indirect blk inode_i) true;
        let h' := default h (disk_write h dsk (inode_indirect blk inode_i)
                               ind_blk') in
        Ok (h', bm'', set_inode_indirect blk inode_i 0)
    end.

Definition fs_remove (h : list Disk) (fs : FileSystem) (inode_number : Z)
    : res (bool * list Disk * FileSystem) :=
  let block_num := inode_number / INODES_PER_BLOCK + 1 in
  let inode_i := inode_number mod INODES_PER_BLOCK in
  match disk_read h (disk fs) block_num with
  | None => Undef
  | Some blk =>
      if inode_valid blk inode_i =? 0 then Ok (false, h, fs)
      else
        '(bm1, blk1) ← release_direct inode_i (seqZ 0 POINTERS_PER_INODE)
                         (free_blocks fs) blk;
        '(h2, bm2, blk2) ← release_indirect h (disk fs) bm1 blk1 inode_i;
        let blk3 := set_inode_valid (set_inode_size blk2 inode_i 0) inode_i 0 in
        let h3 := default h2 (disk_write h2 (disk fs) block_num blk3) in
        Ok (true, h3, set_free_blocks fs bm2)
  end.

(** *** fs_stat *)

Definition fs_stat (h : list Disk) (fs : FileSystem) (inode_number : Z) : res Z :=
  let block_num := inode_number / INODES_PER_BLOCK + 1 in
  let inode_i := inode_number mod INODES_PER_BLOCK in
  match disk_read h (disk fs) block_num with
  | None => Undef
  | Some blk =>
      if inode_valid blk inode_i =? 0 then Ok (-1) else Ok (inode_size blk inode_i)
  end.

(** *** fs_read *)

(** Every turn of the byte range loops moves to the next logical block,
    and no turn gets past logical block [D + P]: this many turns are
    enough. *)
Definition walk_fuel : nat :=
  S (Z.to_nat (POINTERS_PER_INODE + POINTERS_PER_BLOCK)).

(** Lines 348-355: the data block of logical block [data_block]; [None]
    when a device read reports [DISK_FAILURE]. *)
Definition read_data_block (h : list Disk) (dsk : option nat) (blk : Block)
    (inode_i data_block : Z) : res (option Block) :=
  if bool_decide (data_block < POINTERS_PER_INODE) then
    Ok (disk_read h dsk (inode_direct blk inode_i data_block))
  else
    let indirect_offset := data_block - POINTERS_PER_INODE in
    match disk_read h dsk (inode_indirect blk inode_i) with
    | None => Ok None
    | Some indirect_blk =>
        if bool_decide (POINTERS_PER_BLOCK ≤ indirect_offset) then Undef
        else Ok (disk_read h dsk (pointers indirect_blk indirect_offset))
    end.

(** [memcpy(data + nread, data_blk.data + data_offset, ncopy)]: the bytes
    appended to what the caller's buffer holds so far. The copy has to
    stay inside [data_blk] and inside the caller's buffer, which holds
    [capacity] bytes. *)
Definition copy_out (data_blk : Block) (data_offset capacity nread ncopy : Z)
    : res (list byte) :=
  if bool_decide (BLOCK_SIZE < data_offset + ncopy) then Undef
  else if bool_decide (capacity < nread + ncopy) then Undef
  else Ok (take (Z.to_nat ncopy) (drop (Z.to_nat data_offset) data_blk)).

Fixpoint read_loop (fuel : nat) (h : list Disk) (dsk : option nat) (blk : Block)
    (inode_i capacity length data_block data_offset ncopy nread : Z)
    (data : list byte) : res (Z * list byte) :=
  if bool_decide (nread < length) then
    match fuel with
    | O => OutOfFuel
    | S fuel' =>
        r ← read_data_block h dsk blk inode_i data_block;
        match r with
        | None => Ok (-1, data)
        | Some data_blk =>
            bytes ← copy_out data_blk data_offset capacity nread ncopy;
            let nread' := nread + ncopy in
            let ncopy' :=
              if bool_decide (BLOCK_SIZE < wrap64 (length - nread')) then BLOCK_SIZE
              else wrap64 (length - nread') in
            read_loop fuel' h dsk blk inode_i capacity length (data_block + 1) 0
              ncopy' nread' (data ++ bytes)
        end
    end
  else Ok (nread, data).

(** The result is the return value and the bytes stored from the start
    of the caller's buffer, a buffer of the [length] bytes asked for. *)
Definition fs_read (h : list Disk) (fs : FileSystem) (inode_number : Z)
    (length offset : Z) : res (Z * list byte) :=
  let block_num := inode_number / INODES_PER_BLOCK + 1 in
  let inode_i := inode_number mod INODES_PER_BLOCK in
  match disk_read h (disk fs) block_num with
  | None => Undef
  | Some blk =>
      let capacity := length in
      let length :=
        if bool_decide (inode_size blk inode_i < wrap64 (length + offset))
        then wrap64 (inode_size blk inode_i - offset)
        else length in
      let data_block := offset / BLOCK_SIZE in
      let data_offset := offset mod BLOCK_SIZE in
      let ncopy :=
        if bool_decide (length < BLOCK_SIZE) then length
        else BLOCK_SIZE - data_offset in
      read_loop walk_fuel h (disk fs) blk inode_i capacity length data_block
        data_offset ncopy 0 []
  end.

(** *** fs_write *)

(** [memcpy(data_blk.data + data_offset, data + nwrite, ncopy)]. *)
Definition copy_in (data_blk : Block) (data_offset : Z) (data : list byte)
    (nwrite ncopy : Z) : res Block :=
  if bool_decide (BLOCK_SIZE < data_offset + ncopy) then Undef
  else if bool_decide (Z.of_nat (List.length data) < nwrite + ncopy) then Undef
  else Ok (blit data_blk (Z.to_nat data_offset)
             (take (Z.to_nat ncopy) (drop (Z.to_nat nwrite) data))).

(** What one turn of the loop leaves behind: a [return] with the state
    of the device and of the engine at that point, or the state with
    which the next turn starts. *)
Inductive wstep : Type :=
| WReturn (r : Z) (h : list Disk) (fs : FileSystem)
| WNext (h : list Disk) (fs : FileSystem) (blk : Block).

(** Lines 470-486: [nwrite += ncopy], the size update and the write of
    the inode block, whose result is not inspected. *)
Definition write_finish (h : list Disk) (fs : FileSystem) (blk : Block)
    (block_num inode_i offset nwrite ncopy : Z) : wstep :=
  let nwrite' := nwrite + ncopy in
  let blk' :=
    if bool_decide (inode_size blk inode_i < wrap64 (offset + nwrite'))
    then set_inode_size blk inode_i (wrap64 (offset + nwrite'))
    else blk in
  WNext (default h (disk_write h (disk fs) block_num blk')) fs blk'.

(** Lines 423-438: a logical block below [POINTERS_PER_INODE]. *)
Definition write_direct (h : list Disk) (fs : FileSystem) (blk : Block)
    (block_num inode_i : Z) (data : list byte)
    (offset data_block data_offset ncopy nwrite : Z) : res wstep :=
  (* the direct pointer: allocated when zero *)
  r1 ←
    (if inode_direct blk inode_i data_block =? 0 then
       '(new_block, fs1) ← find_free_block fs;
       if new_block =? 0 then Ok (inl fs1)
       else Ok (inr (fs1, set_inode_direct blk inode_i data_block new_block))
     else Ok (inr (fs, blk)));
  match r1 with
  | inl fs1 => Ok (WReturn (-1) h fs1)
  | inr (fs1, blk1) =>
      match disk_read h (disk fs) (inode_direct blk1 inode_i data_block) with
      | None => Ok (WReturn (-1) h fs1)
      | Some data_blk =>
          data_blk' ← copy_in data_blk data_offset data nwrite ncopy;
          match disk_write h (disk fs) (inode_direct blk1 inode_i data_block)
                  data_blk' with
          | None => Ok (WReturn (-1) h fs1)
          | Some h1 =>
              Ok (write_finish h1 fs1 blk1 block_num inode_i offset nwrite ncopy)
          end
      end
  end.

(** Lines 439-468: a logical block reached through the indirect block. *)
Definition write_indirect (h : list Disk) (fs : FileSystem) (blk : Block)
    (block_num inode_i : Z) (data : list byte)
    (offset data_block data_offset ncopy nwrite : Z) : res wstep :=
  let indirect_offset := data_block - POINTERS_PER_INODE in
  (* the indirect pointer: allocated, or the block it names read *)
  r1 ←
    (if inode_indirect blk inode_i =? 0 then
       '(new_block, fs1) ← find_free_block fs;
       if new_block =? 0 then Ok (inl fs1)
       else Ok (inr (fs1, set_inode_indirect blk inode_i new_block, zero_block))
     else
       match disk_read h (disk fs) (inode_indirect blk inode_i) with
       | None => Ok (inl fs)
       | Some indirect_blk => Ok (inr (fs, blk, indirect_blk))
       end);
  match r1 with
  | inl fs1 => Ok (WReturn (-1) h fs1)
  | inr (fs1, blk1, indirect_blk) =>
      if bool_decide (POINTERS_PER_BLOCK ≤ indirect_offset) then Undef
      else
        (* the pointer in the indirect block: allocated, or the data read *)
        r2 ←
          (if pointers indirect_blk indirect_offset =? 0 then
             '(new_block, fs2) ← find_free_block fs1;
             if new_block =? 0 then Ok (inl (h, fs2))
             else
               let indirect_blk' :=
                 set_pointers indirect_blk indirect_offset new_block in
               match disk_write h (disk fs) (inode_indirect blk1 inode_i)
                       indirect_blk' with
               | None => Ok (inl (h, fs2))
               | Some h1 => Ok (inr (h1, fs2, indirect_blk', zero_block))
               end
           else
             match disk_read h (disk fs)
                     (pointers indirect_blk indirect_offset) with
             | None => Ok (inl (h, fs1))
             | Some data_blk => Ok (inr (h, fs1, indirect_blk, data_blk))
             end);
        match r2 with
        | inl (h1, fs2) => Ok (WReturn (-1) h1 fs2)
        | inr (h1, fs2, indirect_blk', data_blk) =>
            data_blk' ← copy_in data_blk data_offset data nwrite ncopy;
            match disk_write h1 (disk fs)
                    (pointers indirect_blk' indirect_offset) data_blk' with
            | None => Ok (WReturn (-1) h1 fs2)
            | Some h2 =>
                Ok (write_finish h2 fs2 blk1 block_num inode_i offset nwrite ncopy)
            end
        end
  end.

Definition write_turn (h : list Disk) (fs : FileSystem) (blk : Block)
    (block_num inode_i : Z) (data : list byte)
    (offset data_block data_offset ncopy nwrite : Z) : res wstep :=
  if bool_decide (data_block < POINTERS_PER_INODE) then
    write_direct h fs blk block_num inode_i data offset data_block data_offset
      ncopy nwrite
  else
    write_indirect h fs blk block_num inode_i data offset data_block data_offset
      ncopy nwrite.

Fixpoint write_loop (fuel : nat) (h : list Disk) (fs : FileSystem) (blk : Block)
    (block_num inode_i : Z) (data : list byte)
    (length offset data_block data_offset ncopy nwrite : Z)
    : res (Z * list Disk * FileSystem) :=
  if bool_decide (nwrite < length) then
    match fuel with
    | O => OutOfFuel
    | S fuel' =>
        s ← write_turn h fs blk block_num inode_i data offset data_block
              data_offset ncopy nwrite;
        match s with
        | WReturn r h' fs' => Ok (r, h', fs')
        | WNext h' fs' blk' =>
            let nwrite' := nwrite + ncopy in
            let ncopy' :=
              if bool_decide (BLOCK_SIZE < wrap64 (length - nwrite')) then BLOCK_SIZE
              else wrap64 (length - nwrite') in
            write_loop fuel' h' fs' blk' block_num inode_i data length offset
              (data_block + 1) 0 ncopy' nwrite'
        end
    end
  else Ok (nwrite, h, fs).

Definition fs_write (h : list Disk) (fs : FileSystem) (inode_number : Z)
    (data : list byte) (length offset : Z) : res (Z * list Disk * FileSystem) :=
  let block_num := inode_number / INODES_PER_BLOCK + 1 in
  let inode_i := inode_number mod INODES_PER_BLOCK in
  match disk_read h (disk fs) block_num with
  | None => Undef
  | Some blk =>
      let data_block := offset / BLOCK_SIZE in
      let data_offset := offset mod BLOCK_SIZE in
      let ncopy :=
        if bool_decide (length < BLOCK_SIZE) then length
        else BLOCK_SIZE - data_offset in
      if inode_valid blk inode_i =? 0 then Ok (-1, h, fs)
      else
        write_loop walk_fuel h fs blk block_num inode_i data length offset
          data_block data_offset ncopy 0
  end.

(** ** Images and engines used in the examples *)

#[global] Instance byte_eq_dec : EqDecision byte := Byte.byte_eq_dec.

(** A FileSystem structure as the shell allocates it: all fields zero. *)
Definition fresh_fs : FileSystem :=
  {| disk := None; free_blocks := None; meta_data := mkSuperBlock 0 0 0 0 |}.

(** A disk just opened: [ftruncate] leaves every block zero. *)
Definition blank_disk (n : nat) : Disk := replicate n zero_block.

(** Block 0 of an image that carries a superblock. *)
Definition super_image (n ib ino : Z) : Block :=
  store32 (store32 (store32 (store32 zero_block 0 MAGIC_NUMBER) 1 n) 2 ib) 3 ino.

(** A clean image of 20 blocks: superblock, two empty inode blocks, 17
    zeroed data blocks. *)
Definition image20 : Disk := super_image 20 2 256 :: replicate 19 zero_block.

(** The engine after [fs_mount] of [image20] held at address 0. *)
Definition mounted20 : FileSystem :=
  {| disk := Some 0%nat;
     free_blocks := Some ([false; false; false] ++ replicate 17 true);
     meta_data := mkSuperBlock MAGIC_NUMBER 20 2 256 |}.

(** All blocks of all disks have the size of the C union. *)
Definition wf_store (h : list Disk) : Prop :=
  ∀ a d n b, h !! a = Some d → d !! n = Some b →
    Z.of_nat (length b) = BLOCK_SIZE.

(** ** The device: reads after writes *)

Lemma disk_read_Some h dsk n b :
  disk_read h dsk n = Some b →
  ∃ a d, dsk = Some a ∧ h !! a = Some d ∧ d !! Z.to_nat n = Some b
         ∧ n < Z.of_nat (length d).
Proof.
  unfold disk_read, disk_read_buffer, disk_sanity_check.
  destruct dsk as [a|]; simpl; [|done].
  destruct (h !! a) as [d|] eqn:Hd; simpl; [|done].
  case_bool_decide; simpl; [done|]. intros Hb. exists a, d. repeat split; auto. lia.
Qed.

Lemma disk_write_Some h dsk n b h' :
  disk_write h dsk n b = Some h' →
  ∃ a d, dsk = Some a ∧ h !! a = Some d ∧ n < Z.of_nat (length d)
         ∧ h' = <[a := <[Z.to_nat n := b]> d]> h.
Proof.
  unfold disk_write, disk_write_buffer, disk_sanity_check.
  destruct dsk as [a|]; simpl; [|done].
  destruct (h !! a) as [d|] eqn:Hd; simpl; [|done].
  case_bool_decide; simpl; [done|]. intros [= <-]. exists a, d. repeat split; auto. lia.
Qed.

Lemma disk_write_is_Some h dsk n b0 b :
  disk_read h dsk n = Some b0 → is_Some (disk_write h dsk n b).
Proof.
  intros (a & d & -> & Hd & _ & Hn)%disk_read_Some.
  unfold disk_write, disk_write_buffer, disk_sanity_check. simpl.
  rewrite Hd. simpl.
  rewrite bool_decide_eq_false_2 by lia. simpl. eauto.
Qed.

Lemma disk_read_is_Some h dsk n b h' :
  0 ≤ n → disk_write h dsk n b = Some h' → is_Some (disk_read h dsk n).
Proof.
  intros Hn (a & d & -> & Hd & Hlen & _)%disk_write_Some.
  unfold disk_read, disk_read_buffer, disk_sanity_check. simpl.
  rewrite Hd. simpl.
  rewrite bool_decide_eq_false_2 by lia. simpl.
  apply lookup_lt_is_Some. lia.
Qed.

Lemma disk_read_write_eq h dsk n b h' :
  0 ≤ n → disk_write h dsk n b = Some h' → disk_read h' dsk n = Some b.
Proof.
  intros Hn (a & d & -> & Hd & Hlen & ->)%disk_write_Some.
  unfold disk_read, disk_read_buffer, disk_sanity_check. simpl.
  rewrite list_lookup_insert_eq by (by eapply lookup_lt_Some). simpl.
  rewrite length_insert, bool_decide_eq_false_2 by lia. simpl.
  apply list_lookup_insert_eq. lia.
Qed.

Lemma disk_read_write_ne h dsk n n' b h' :
  0 ≤ n → 0 ≤ n' → n ≠ n' →
  disk_write h dsk n b = Some h' → disk_read h' dsk n' = disk_read h dsk n'.
Proof.
  intros Hn Hn' Hne (a & d & -> & Hd & Hlen & ->)%disk_write_Some.
  unfold disk_read, disk_read_buffer, disk_sanity_check. simpl.
  rewrite list_lookup_insert_eq by (by eapply lookup_lt_Some).
  rewrite Hd. simpl. rewrite length_insert. case_bool_decide; simpl; [done|].
  apply list_lookup_insert_ne. lia.
Qed.

(** A write to one disk leaves the other disks as they are. *)
Lemma disk_read_write_other h a a' n n' b h' :
  a ≠ a' → disk_write h (Some a) n b = Some h' →
  disk_read h' (Some a') n' = disk_read h (Some a') n'.
Proof.
  intros Hne (? & d & [= <-] & Hd & Hlen & ->)%disk_write_Some.
  unfold disk_read, disk_read_buffer, disk_sanity_check. simpl.
  by rewrite list_lookup_insert_ne.
Qed.

Lemma disk_blocks_write h dsk dsk' n b h' :
  disk_write h dsk n b = Some h' → disk_blocks h' dsk' = disk_blocks h dsk'.
Proof.
  intros (a & d & -> & Hd & Hlen & ->)%disk_write_Some.
  unfold disk_blocks. destruct dsk' as [a'|]; simpl; [|done].
  destruct (decide (a = a')) as [<-|Hne].
  - rewrite list_lookup_insert_eq by (by eapply lookup_lt_Some).
    rewrite Hd. by rewrite length_insert.
  - by rewrite list_lookup_insert_ne.
Qed.

Lemma wf_store_write h dsk n b h' :
  wf_store h → Z.of_nat (length b) = BLOCK_SIZE →
  disk_write h dsk n b = Some h' → wf_store h'.
Proof.
  intros Hwf Hb (a & d & -> & Hd & Hlen & ->)%disk_write_Some a' d' m b' Ha' Hm.
  destruct (decide (a = a')) as [<-|Hne].
  - rewrite list_lookup_insert_eq in Ha' by (by eapply lookup_lt_Some).
    injection Ha' as <-.
    destruct (decide (Z.to_nat n = m)) as [<-|Hm'].
    + pose proof (lookup_lt_Some _ _ _ Hm) as Hlt. rewrite length_insert in Hlt.
      rewrite list_lookup_insert_eq in Hm by done. by injection Hm as <-.
    + rewrite list_lookup_insert_ne in Hm by done. eauto.
  - rewrite list_lookup_insert_ne in Ha' by done. eauto.
Qed.

Lemma wf_store_read h dsk n b :
  wf_store h → disk_read h dsk n = Some b → Z.of_nat (length b) = BLOCK_SIZE.
Proof. intros Hwf (a & d & -> & Hd & Hb & _)%disk_read_Some. eauto. Qed.

Lemma length_zero_block : Z.of_nat (length zero_block) = BLOCK_SIZE.
Proof. unfold zero_block. rewrite length_replicate. unfold BLOCK_SIZE. lia. Qed.

#[global] Instance res_fmap : FMap res := λ A B f m,
  match m with
  | Ok a => Ok (f a)
  | Undef => Undef
  | OutOfFuel => OutOfFuel
  end.

(** ** Format and mount *)

Lemma format_blocks_block0 h dsk idxs :
  Forall (λ i, 1 ≤ i) idxs →
  disk_read (format_blocks h dsk idxs).2 dsk 0 = disk_read h dsk 0.
Proof.
  intros Hidx. revert h. induction Hidx as [|i idxs Hi _ IH]; intros h; simpl; [done|].
  destruct (disk_write h dsk i zero_block) as [h1|] eqn:Hw; simpl.
  - change (BLOCK_SIZE =? 0) with false. simpl. rewrite IH.
    eapply disk_read_write_ne; [| |  |exact Hw]; lia.
  - change (DISK_FAILURE =? 0) with false. simpl. apply IH.
Qed.

Lemma fs_format_block0 h fs dsk :
  disk_read (fs_format h fs dsk).2 dsk 0 = disk_read h dsk 0.
Proof.
  unfold fs_format. destruct dsk as [a|]; [|done].
  repeat case_bool_decide; try done.
  apply format_blocks_block0. apply Forall_forall. intros i Hi.
  apply elem_of_seqZ in Hi. lia.
Qed.

Lemma fs_mount_image20 :
  fs_mount [image20] fresh_fs (Some 0%nat) = Ok (true, mounted20).
Proof. vm_compute. reflexivity. Qed.

(** C1 (the code does not do what the claim says). [fs_format] fills the
    superblock in a local buffer and never writes it: block 0 of the
    disk is after the call what it was before, for every disk and every
    engine. On a disk of 20 zeroed blocks and an unmounted engine
    [fs_format] reports success, and the following [fs_mount] reads a
    zero magic number and fails. *)
Theorem fs_format_never_writes_superblock :
  (∀ h fs dsk, disk_read (fs_format h fs dsk).2 dsk 0 = disk_read h dsk 0) ∧
  fs_format [blank_disk 20] fresh_fs (Some 0%nat) = (true, [blank_disk 20]) ∧
  fs_mount [blank_disk 20] fresh_fs (Some 0%nat) = Ok (false, fresh_fs).
Proof.
  split; [exact fs_format_block0|]. split; vm_compute; reflexivity.
Qed.





(** ** Inode numbers beyond the table *)

(** Thirty-two bytes of file data that read as an inode record: valid,
    16 bytes long, first direct pointer 4. *)
Definition forged_inode : list byte :=
  take 32 (set_inode_direct
             (set_inode_size (set_inode_valid zero_block 0 1) 0 16) 0 0 4).

(** [image20] is mounted, an inode is created (number 0) and the forged
    record is written to it: the data lands in block 3, the first free
    block. *)
Definition forged_state : res (list Disk * FileSystem) :=
  '(n, h1) ← fs_create [image20] mounted20;
  '(w, h2, fs2) ← fs_write h1 mounted20 n forged_inode 32 0;
  Ok (h2, fs2).

Definition forged_h : list Disk :=
  match forged_state with Ok (h, _) => h | _ => [] end.
Definition forged_fs : FileSystem :=
  match forged_state with Ok (_, fs) => fs | _ => fresh_fs end.

(** C10. In the state above the table has 256 inodes, and inode number
    256 maps to slot 0 of block 3, a data block below the 20 blocks of
    the disk: the block that holds the 32 bytes of inode 0. None of the
    four operations refuses the number, and each acts on the record
    that those bytes spell. [fs_stat] returns its size field, 16.
    [fs_read] follows its direct pointer to block 4. [fs_write] writes
    8 bytes through the same pointer, into a block that the bitmap
    holds available, and [fs_read] of number 256 then returns those
    bytes. [fs_remove] reports success and clears the record: block 3
    is all zero afterwards, so that inode 0, still 32 bytes long, reads
    zeros where its data were. *)
Theorem inode_number_is_not_checked :
  forged_state = Ok (forged_h, forged_fs) ∧
  inodes (meta_data forged_fs) ≤ 256 ∧
  256 / INODES_PER_BLOCK + 1 < blocks (meta_data forged_fs) ∧
  fs_read forged_h forged_fs 0 32 0 = Ok (32, forged_inode) ∧
  disk_read forged_h (disk forged_fs) 3
    = Some (blit zero_block 0 forged_inode) ∧
  disk_read forged_h (disk forged_fs) 4 = Some zero_block ∧
  bitmap_get (free_blocks forged_fs) 4 = Ok true ∧
  fs_stat forged_h forged_fs 256 = Ok 16 ∧
  fs_read forged_h forged_fs 256 16 0 = Ok (16, replicate 16 x00) ∧
  ('(w, h1, fs1) ← fs_write forged_h forged_fs 256 (replicate 8 x2a) 8 0;
   block4 ← default Undef (Ok <$> disk_read h1 (disk fs1) 4);
   r ← fs_read h1 fs1 256 16 0;
   Ok (w, block4, r))
  = Ok (8, blit zero_block 0 (replicate 8 x2a),
        (16, replicate 8 x2a ++ replicate 8 x00)) ∧
  ('(ok, h2, fs2) ← fs_remove forged_h forged_fs 256;
   block3 ← default Undef (Ok <$> disk_read h2 (disk fs2) 3);
   size256 ← fs_stat h2 fs2 256;
   size0 ← fs_stat h2 fs2 0;
   r0 ← fs_read h2 fs2 0 32 0;
   Ok (ok, block3, size256, size0, r0))
  = Ok (true, zero_block, -1, 32, (32, replicate 32 x00)).
Proof.
  repeat split; vm_compute; (reflexivity || congruence).
Qed.

(** ** fs_create: the first free slot *)

(** Whether the slot of inode number [n] holds a valid inode; [None]
    when its block cannot be read. *)
Definition inode_slot_valid (h : list Disk) (dsk : option nat) (n : Z)
    : option bool :=
  blk ← disk_read h dsk (n / INODES_PER_BLOCK + 1);
  Some (negb (inode_valid blk (n mod INODES_PER_BLOCK) =? 0)).

Section create.
Variables (blk : Block).

Lemma create_scan_full m : 0 ≤ m → ∀ j c,
  (∀ i, j ≤ i < j + m → inode_valid blk i ≠ 0) →
  create_scan blk (seqZ j m) c = inr (c + m).
Proof.
  intros Hm. pattern m. apply natlike_ind; [| |exact Hm]; clear m Hm.
  - intros j c _. simpl. f_equal. lia.
  - intros m Hm IH j c Hall. rewrite seqZ_cons by lia. simpl.
    rewrite (proj2 (Z.eqb_neq _ _)) by (apply Hall; lia).
    rewrite Z.pred_succ, IH by (intros; apply Hall; lia). f_equal. lia.
Qed.

Lemma create_scan_found m : 0 ≤ m → ∀ j c i,
  j ≤ i < j + m → inode_valid blk i = 0 →
  (∀ i', j ≤ i' < i → inode_valid blk i' ≠ 0) →
  create_scan blk (seqZ j m) c = inl (i, c + (i - j)).
Proof.
  intros Hm. pattern m. apply natlike_ind; [| |exact Hm]; clear m Hm.
  - intros; lia.
  - intros m Hm IH j c i Hi Hfree Hbefore. rewrite seqZ_cons by lia. simpl.
    destruct (decide (i = j)) as [->|Hne].
    + rewrite Hfree. simpl. do 2 f_equal. lia.
    + rewrite (proj2 (Z.eqb_neq _ _)) by (apply Hbefore; lia).
      rewrite Z.pred_succ, (IH _ _ i) by (auto with lia). do 2 f_equal. lia.
Qed.
End create.

Lemma INODES_PER_BLOCK_nonneg : 0 ≤ INODES_PER_BLOCK.
Proof. unfold INODES_PER_BLOCK. lia. Qed.

Lemma create_loop_full h dsk k : 0 ≤ k → ∀ s c,
  (∀ ib, s ≤ ib < s + k → ∃ blk, disk_read h dsk ib = Some blk ∧
     ∀ i, 0 ≤ i < INODES_PER_BLOCK → inode_valid blk i ≠ 0) →
  create_loop h dsk (seqZ s k) c = Ok (-1, h).
Proof.
  intros Hk. pattern k. apply natlike_ind; [| |exact Hk]; clear k Hk.
  - done.
  - intros k Hk IH s c Hall. rewrite seqZ_cons by lia. cbn [create_loop].
    destruct (Hall s) as (blk & -> & Hblk); [lia|].
    rewrite create_scan_full
      by (apply INODES_PER_BLOCK_nonneg || (intros; apply Hblk; lia)).
    rewrite Z.pred_succ. apply IH. intros; apply Hall; lia.
Qed.

Lemma create_loop_found h dsk k : 0 ≤ k → ∀ s c ib i blk,
  s ≤ ib < s + k → 0 ≤ i < INODES_PER_BLOCK →
  disk_read h dsk ib = Some blk → inode_valid blk i = 0 →
  (∀ i', 0 ≤ i' < i → inode_valid blk i' ≠ 0) →
  (∀ ib', s ≤ ib' < ib → ∃ blk', disk_read h dsk ib' = Some blk' ∧
     ∀ i', 0 ≤ i' < INODES_PER_BLOCK → inode_valid blk' i' ≠ 0) →
  create_loop h dsk (seqZ s k) c
  = Ok (c + (ib - s) * INODES_PER_BLOCK + i,
        default h (disk_write h dsk ib (set_inode_valid blk i 1))).
Proof.
  intros Hk. pattern k. apply natlike_ind; [| |exact Hk]; clear k Hk.
  - intros; lia.
  - intros k Hk IH s c ib i blk Hib Hi Hread Hfree Hslots Hblocks.
    rewrite seqZ_cons by lia. cbn [create_loop].
    destruct (decide (ib = s)) as [->|Hne].
    + rewrite Hread.
      rewrite (create_scan_found blk _ INODES_PER_BLOCK_nonneg 0 c i)
        by (done || lia || (intros; apply Hslots; lia)).
      do 2 f_equal. lia.
    + destruct (Hblocks s) as (blk' & -> & Hblk'); [lia|].
      rewrite create_scan_full
        by (apply INODES_PER_BLOCK_nonneg || (intros; apply Hblk'; lia)).
      rewrite Z.pred_succ.
      rewrite (IH _ _ ib i blk) by (auto with lia).
      do 2 f_equal. lia.
Qed.

Lemma inode_slot_valid_Some h dsk n v :
  inode_slot_valid h dsk n = Some v →
  ∃ blk, disk_read h dsk (n / INODES_PER_BLOCK + 1) = Some blk ∧
         v = negb (inode_valid blk (n mod INODES_PER_BLOCK) =? 0).
Proof.
  unfold inode_slot_valid. destruct (disk_read _ _ _) as [blk|]; simpl; [|done].
  intros [= <-]. eauto.
Qed.

(** The slots of block [ib] are the inode numbers
    [(ib - 1) * INODES_PER_BLOCK + i]. *)
Lemma inode_number_split ib i :
  0 ≤ i < INODES_PER_BLOCK →
  ((ib - 1) * INODES_PER_BLOCK + i) / INODES_PER_BLOCK + 1 = ib ∧
  ((ib - 1) * INODES_PER_BLOCK + i) mod INODES_PER_BLOCK = i.
Proof.
  unfold INODES_PER_BLOCK. intros Hi.
  replace ((ib - 1) * 128 + i) with (i + (ib - 1) * 128) by lia.
  rewrite Z.div_add, Z.mod_add, Z.div_small, Z.mod_small by lia. lia.
Qed.

Lemma block_full_of_slots h dsk count ib :
  1 ≤ ib → ib * INODES_PER_BLOCK ≤ count →
  (∀ m, 0 ≤ m < count → inode_slot_valid h dsk m = Some true) →
  ∃ blk, disk_read h dsk ib = Some blk ∧
         ∀ i, 0 ≤ i < INODES_PER_BLOCK → inode_valid blk i ≠ 0.
Proof.
  intros Hib Hcount Hall.
  destruct (inode_slot_valid_Some h dsk ((ib - 1) * INODES_PER_BLOCK) true)
    as (blk & Hblk & _).
  { apply Hall. unfold INODES_PER_BLOCK in *. lia. }
  destruct (inode_number_split ib 0) as [Hq _]; [unfold INODES_PER_BLOCK; lia|].
  rewrite Z.add_0_r in Hq. rewrite Hq in Hblk.
  exists blk. split; [done|]. intros i Hi.
  destruct (inode_slot_valid_Some h dsk ((ib - 1) * INODES_PER_BLOCK + i) true)
    as (blk' & Hblk' & Hv).
  { apply Hall. unfold INODES_PER_BLOCK in *. lia. }
  destruct (inode_number_split ib i Hi) as [Hq' Hr'].
  rewrite Hq', Hblk in Hblk'. injection Hblk' as <-. rewrite Hr' in Hv.
  destruct (inode_valid blk i =? 0) eqn:E; [done|]. by apply Z.eqb_neq.
Qed.

(** C8. Let the table have [inode_blocks * INODES_PER_BLOCK] slots,
    numbered densely in the order block by block, slot by slot. If slot
    [n] is free and every slot before it is valid, [fs_create] writes
    the block of slot [n] back with that slot marked valid and returns
    [n]; if every slot is valid it returns -1 and writes nothing. *)
Theorem fs_create_first_free h fs :
  let count := inode_blocks (meta_data fs) * INODES_PER_BLOCK in
  (∀ n, 0 ≤ n < count →
     inode_slot_valid h (disk fs) n = Some false →
     (∀ m, 0 ≤ m < n → inode_slot_valid h (disk fs) m = Some true) →
     ∃ blk h',
       disk_read h (disk fs) (n / INODES_PER_BLOCK + 1) = Some blk ∧
       disk_write h (disk fs) (n / INODES_PER_BLOCK + 1)
         (set_inode_valid blk (n mod INODES_PER_BLOCK) 1) = Some h' ∧
       fs_create h fs = Ok (n, h') ∧
       (wf_store h → inode_slot_valid h' (disk fs) n = Some true)) ∧
  ((∀ n, 0 ≤ n < count → inode_slot_valid h (disk fs) n = Some true) →
   fs_create h fs = Ok (-1, h)).
Proof.
  intros count. subst count. split.
  - intros n Hn Hfree Hbefore.
    apply inode_slot_valid_Some in Hfree as (blk & Hblk & Hv).
    set (ib := n / INODES_PER_BLOCK + 1) in *.
    set (i := n mod INODES_PER_BLOCK) in *.
    assert (Hi : 0 ≤ i < INODES_PER_BLOCK) by (apply Z.mod_pos_bound; done).
    assert (Hsplit : n = (ib - 1) * INODES_PER_BLOCK + i).
    { subst ib i. pose proof (Z.div_mod n INODES_PER_BLOCK). lia. }
    assert (Hib : 1 ≤ ib ≤ inode_blocks (meta_data fs)).
    { subst ib. pose proof (Z.div_pos n INODES_PER_BLOCK).
      assert (n / INODES_PER_BLOCK < inode_blocks (meta_data fs));
        [apply Z.div_lt_upper_bound|]; unfold INODES_PER_BLOCK in *; lia. }
    clearbody ib i.
    assert (Hz : inode_valid blk i = 0).
    { destruct (inode_valid blk i =? 0) eqn:E; [by apply Z.eqb_eq|done]. }
    destruct (disk_write_is_Some h (disk fs) ib blk (set_inode_valid blk i 1) Hblk)
      as [h' Hh'].
    exists blk, h'. split; [done|]. split; [done|]. split.
    + unfold fs_create.
      rewrite (create_loop_found h (disk fs) (inode_blocks (meta_data fs))
                 ltac:(lia) 1 0 ib i blk); try done.
      * rewrite Hh'. simpl. do 2 f_equal. lia.
      * lia.
      * intros i' Hi'.
        destruct (inode_slot_valid_Some h (disk fs)
                    ((ib - 1) * INODES_PER_BLOCK + i') true)
          as (blk' & Hblk' & Hv'); [apply Hbefore; unfold INODES_PER_BLOCK in *; lia|].
        destruct (inode_number_split ib i') as [Hq Hr]; [lia|].
        rewrite Hq, Hblk in Hblk'. injection Hblk' as <-. rewrite Hr in Hv'.
        destruct (inode_valid blk i' =? 0) eqn:E; [done|]. by apply Z.eqb_neq.
      * intros ib' Hib'. apply (block_full_of_slots h (disk fs) n); [lia| |done].
        unfold INODES_PER_BLOCK in *. lia.
    + intros Hwf. unfold inode_slot_valid. rewrite Hsplit.
      destruct (inode_number_split ib i Hi) as [-> ->].
      rewrite (disk_read_write_eq h (disk fs) ib _ _ ltac:(lia) Hh'). simpl.
      unfold set_inode_valid, inode_valid.
      rewrite load32_store32_eq.
      * done.
      * lia.
      * rewrite (wf_store_read _ _ _ _ Hwf Hblk).
        unfold BLOCK_SIZE, INODES_PER_BLOCK in *. lia.
  - intros Hall. unfold fs_create.
    destruct (Z_lt_le_dec (inode_blocks (meta_data fs)) 0) as [Hneg|Hpos].
    { by rewrite seqZ_nil by lia. }
    apply create_loop_full; [done|]. intros ib Hib.
    apply (block_full_of_slots h (disk fs)
             (inode_blocks (meta_data fs) * INODES_PER_BLOCK) ib); [lia| |done].
    unfold INODES_PER_BLOCK. lia.
Qed.

(** An image of 3 blocks whose single inode block is full. *)
Definition full_inode_block : Block :=
  mjoin (replicate 128 (x01 :: replicate 31 x00)).
Definition image3_full : Disk :=
  [super_image 3 1 128; full_inode_block; zero_block].
Definition mounted3_full : FileSystem :=
  {| disk := Some 0%nat;
     free_blocks := Some [false; false; true];
     meta_data := mkSuperBlock MAGIC_NUMBER 3 1 128 |}.

Lemma fs_create_first_free_witness :
  (∃ blk h',
     disk_read [image20] (disk mounted20) (0 / INODES_PER_BLOCK + 1) = Some blk ∧
     disk_write [image20] (disk mounted20) (0 / INODES_PER_BLOCK + 1)
       (set_inode_valid blk (0 mod INODES_PER_BLOCK) 1) = Some h' ∧
     fs_create [image20] mounted20 = Ok (0, h') ∧
     (wf_store [image20] → inode_slot_valid h' (disk mounted20) 0 = Some true)) ∧
  fs_create [image3_full] mounted3_full = Ok (-1, [image3_full]).
Proof.
  split.
  - apply (fs_create_first_free [image20] mounted20).
    + vm_compute. split; [congruence|reflexivity].
    + vm_compute. reflexivity.
    + intros m Hm. lia.
  - apply (fs_create_first_free [image3_full] mounted3_full).
    change (inode_blocks (meta_data mounted3_full) * INODES_PER_BLOCK) with (0 + 128).
    apply (Forall_seqZ (λ n, inode_slot_valid [image3_full] (Some 0%nat) n = Some true)).
    simpl.
    refine (bool_decide_unpack _ _). vm_compute. exact I.
Defined.

(** ** fs_remove: every block of the inode is released *)

(** The blocks an inode names: its non-zero direct pointers and, when
    the indirect pointer is not zero, the indirect block and the
    non-zero pointers stored in it. *)
Definition inode_pointers (h : list Disk) (dsk : option nat) (blk : Block)
    (i : Z) : list Z :=
  filter (λ p, p ≠ 0)
    ((inode_direct blk i <$> seqZ 0 POINTERS_PER_INODE) ++
     (if inode_indirect blk i =? 0 then []
      else inode_indirect blk i ::
           match disk_read h dsk (inode_indirect blk i) with
           | Some ind_blk => pointers ind_blk <$> seqZ 0 POINTERS_PER_BLOCK
           | None => []
           end)).

(** Both release loops of [fs_remove] walk a list of words of one block:
    a non-zero word is a block number, marked free and then zeroed. *)
Fixpoint release_words (ws : list Z) (bm : option (list bool)) (blk : Block)
    : res (option (list bool) * Block) :=
  match ws with
  | [] => Ok (bm, blk)
  | w :: ws' =>
      if load32 blk w =? 0 then release_words ws' bm blk
      else
        bm' ← bitmap_set bm (load32 blk w) true;
        release_words ws' bm' (store32 blk w 0)
  end.

Lemma release_direct_words i dps bm blk :
  release_direct i dps bm blk
  = release_words ((λ dp, 8 * i + 2 + dp) <$> dps) bm blk.
Proof.
  revert bm blk. induction dps as [|dp dps IH]; intros bm blk; simpl; [done|].
  unfold inode_direct, set_inode_direct. destruct (load32 _ _ =? 0); [done|].
  destruct (bitmap_set _ _ _); simpl; auto.
Qed.

Lemma release_pointers_words ips bm blk :
  release_pointers ips bm blk = release_words ips bm blk.
Proof.
  revert bm blk. induction ips as [|ip ips IH]; intros bm blk; simpl; [done|].
  unfold pointers, set_pointers. destruct (load32 _ _ =? 0); [done|].
  destruct (bitmap_set _ _ _); simpl; auto.
Qed.

Lemma bitmap_set_Some bm p v :
  0 ≤ p < Z.of_nat (length bm) →
  bitmap_set (Some bm) p v = Ok (Some (<[Z.to_nat p := v]> bm)).
Proof. intros Hp. unfold bitmap_set. by rewrite bool_decide_eq_true_2 by lia. Qed.

(** What a release loop leaves: the bitmap [bm'] only gained free
    blocks, among them every non-zero word of the list; these words are
    zero in [blk'] and the other words are as before. *)
Lemma release_words_spec ws : ∀ bm blk,
  NoDup ws → (∀ w, w ∈ ws → 0 ≤ w ∧ 4 * w + 4 ≤ Z.of_nat (length blk)) →
  (∀ w, w ∈ ws → load32 blk w ≠ 0 → load32 blk w < Z.of_nat (length bm)) →
  ∃ bm' blk',
    release_words ws (Some bm) blk = Ok (Some bm', blk') ∧
    length bm' = length bm ∧ length blk' = length blk ∧
    (∀ q, bm !! q = Some true → bm' !! q = Some true) ∧
    (∀ w, w ∈ ws → load32 blk w ≠ 0 →
       bm' !! Z.to_nat (load32 blk w) = Some true) ∧
    (∀ w, w ∈ ws → load32 blk' w = 0) ∧
    (∀ w, 0 ≤ w → w ∉ ws → load32 blk' w = load32 blk w).
Proof.
  induction ws as [|w ws IH]; intros bm blk Hnd Hws Hlt.
  - exists bm, blk. repeat split; auto; intros w Hw; by apply elem_of_nil in Hw.
  - apply NoDup_cons in Hnd as [Hw Hnd]. cbn [release_words].
    destruct (Hws w) as [Hw0 Hwlen]; [left|].
    pose proof (load32_range blk w) as Hrange.
    destruct (load32 blk w =? 0) eqn:Hz.
    + apply Z.eqb_eq in Hz.
      destruct (IH bm blk Hnd) as (bm' & blk' & -> & ? & ? & ? & Hfree & Hzero & Hother).
      { intros; apply Hws; by right. }
      { intros; apply Hlt; [by right|done]. }
      exists bm', blk'. repeat split; auto.
      * intros w' [->|Hw']%elem_of_cons; [congruence|auto].
      * intros w' [->|Hw']%elem_of_cons; [|auto]. rewrite Hother; auto.
      * intros w' Hw'0 Hw'%not_elem_of_cons. apply Hother; tauto.
    + apply Z.eqb_neq in Hz.
      rewrite bitmap_set_Some by (split; [lia|apply Hlt; [left|done]]).
      simpl.
      assert (Hkeep : ∀ w', w' ∈ ws → load32 (store32 blk w 0) w' = load32 blk w').
      { intros w' Hw'. apply load32_store32_ne; [done|by apply Hws; right|].
        intros ->. done. }
      destruct (IH (<[Z.to_nat (load32 blk w) := true]> bm) (store32 blk w 0) Hnd)
        as (bm' & blk' & -> & Hlen & Hlen' & Hmono & Hfree & Hzero & Hother).
      { intros w' Hw'. rewrite length_store32. apply Hws. by right. }
      { intros w' Hw'. rewrite Hkeep, length_insert by done. apply Hlt. by right. }
      rewrite length_insert in Hlen. rewrite length_store32 in Hlen'.
      exists bm', blk'. repeat split; auto.
      * intros q Hq. apply Hmono.
        destruct (decide (Z.to_nat (load32 blk w) = q)) as [<-|Hne].
        -- apply list_lookup_insert_eq. by eapply lookup_lt_Some.
        -- by rewrite list_lookup_insert_ne.
      * intros w' [->|Hw']%elem_of_cons Hnz.
        -- apply Hmono, list_lookup_insert_eq.
           assert (load32 blk w < Z.of_nat (length bm)) by (apply Hlt; [left|done]).
           lia.
        -- rewrite <- Hkeep by done. apply Hfree; [done|]. by rewrite Hkeep.
      * intros w' [->|Hw']%elem_of_cons; [|auto].
        rewrite Hother by done. rewrite load32_store32_eq by done. done.
      * intros w' Hw'0 Hw'%not_elem_of_cons. rewrite Hother by tauto.
        apply load32_store32_ne; [done..|]. intros ->. tauto.
Qed.

Lemma disk_sanity_check_write h dsk dsk' n m b h' data :
  disk_write h dsk n b = Some h' →
  disk_sanity_check h' dsk' m data = disk_sanity_check h dsk' m data.
Proof.
  intros (a & d & -> & Hd & Hlen & ->)%disk_write_Some.
  unfold disk_sanity_check. destruct dsk' as [a'|]; simpl; [|done].
  destruct (decide (a = a')) as [<-|Hne].
  - rewrite list_lookup_insert_eq by (by eapply lookup_lt_Some).
    rewrite Hd. simpl. by rewrite length_insert.
  - by rewrite list_lookup_insert_ne.
Qed.

Lemma disk_write_after_write h dsk n b h' m b0 b' :
  disk_write h dsk n b = Some h' →
  disk_read h dsk m = Some b0 → is_Some (disk_write h' dsk m b').
Proof.
  intros Hw Hr. pose proof (disk_sanity_check_write _ _ dsk _ m _ _ true Hw) as Hs.
  destruct (disk_write_Some _ _ _ _ _ Hw) as (a & d & -> & Hd & Hlen & ->).
  unfold disk_write, disk_write_buffer. rewrite Hs.
  unfold disk_read, disk_read_buffer in Hr.
  destruct (disk_sanity_check h (Some a) m true); [|done]. simpl.
  rewrite list_lookup_insert_eq by (by eapply lookup_lt_Some). simpl. eauto.
Qed.

Lemma elem_of_inode_pointers h dsk blk i p :
  p ∈ inode_pointers h dsk blk i ↔
  p ≠ 0 ∧
  ((∃ dp, 0 ≤ dp < POINTERS_PER_INODE ∧ p = inode_direct blk i dp) ∨
   (inode_indirect blk i ≠ 0 ∧
    (p = inode_indirect blk i ∨
     ∃ ind_blk ip, disk_read h dsk (inode_indirect blk i) = Some ind_blk ∧
                   0 ≤ ip < POINTERS_PER_BLOCK ∧ p = pointers ind_blk ip))).
Proof.
  unfold inode_pointers.
  rewrite list_elem_of_filter, elem_of_app, list_elem_of_fmap.
  setoid_rewrite elem_of_seqZ.
  assert (Hdirect :
    (∃ dp, p = inode_direct blk i dp ∧ 0 ≤ dp < 0 + POINTERS_PER_INODE) ↔
    (∃ dp, 0 ≤ dp < POINTERS_PER_INODE ∧ p = inode_direct blk i dp)).
  { split; intros (dp & ? & ?); exists dp; (split; [done || lia|done || lia]). }
  rewrite Hdirect. clear Hdirect.
  destruct (inode_indirect blk i =? 0) eqn:Hz.
  - apply Z.eqb_eq in Hz. rewrite elem_of_nil. tauto.
  - apply Z.eqb_neq in Hz. rewrite elem_of_cons.
    destruct (disk_read h dsk (inode_indirect blk i)) as [ind_blk|].
    + rewrite list_elem_of_fmap. setoid_rewrite elem_of_seqZ.
      split.
      * intros (? & [?|[?|(ip & ? & ?)]]); (split; [done|]); auto.
        right. split; [done|]. right. exists ind_blk, ip. repeat split; auto; lia.
      * intros (? & [?|(_ & [?|(b & ip & [= <-] & ? & ?)])]); (split; [done|]); auto.
        right. right. exists ip. split; [done|lia].
    + rewrite elem_of_nil. split.
      * intros (? & [?|[?|[]]]); (split; [done|]); auto.
      * intros (? & [?|(_ & [?|(b & ip & [=] & _)])]); (split; [done|]); auto.
Qed.

Lemma release_indirect_spec h dsk bm blk i :
  wf_store h →
  (inode_indirect blk i ≠ 0 →
   inode_indirect blk i < Z.of_nat (length bm) ∧
   ∃ ind_blk, disk_read h dsk (inode_indirect blk i) = Some ind_blk ∧
     ∀ ip, 0 ≤ ip < POINTERS_PER_BLOCK → pointers ind_blk ip ≠ 0 →
           pointers ind_blk ip < Z.of_nat (length bm)) →
  ∃ h2 bm2 blk2,
    release_indirect h dsk (Some bm) blk i = Ok (h2, Some bm2, blk2) ∧
    length blk2 = length blk ∧
    (∀ m b0 b, disk_read h dsk m = Some b0 → is_Some (disk_write h2 dsk m b)) ∧
    (∀ q, bm !! q = Some true → bm2 !! q = Some true) ∧
    (inode_indirect blk i ≠ 0 →
     bm2 !! Z.to_nat (inode_indirect blk i) = Some true ∧
     ∀ ind_blk ip, disk_read h dsk (inode_indirect blk i) = Some ind_blk →
       0 ≤ ip < POINTERS_PER_BLOCK → pointers ind_blk ip ≠ 0 →
       bm2 !! Z.to_nat (pointers ind_blk ip) = Some true).
Proof.
  intros Hwf Hind. unfold release_indirect.
  destruct (inode_indirect blk i =? 0) eqn:Hz.
  - apply Z.eqb_eq in Hz. exists h, bm, blk. repeat split; auto.
    + intros m b0 b Hr. by eapply disk_write_is_Some.
    + congruence.
    + congruence.
  - apply Z.eqb_neq in Hz.
    destruct (Hind Hz) as (Hlt & ind_blk & Hread & Hptrs). rewrite Hread.
    rewrite release_pointers_words.
    pose proof (wf_store_read _ _ _ _ Hwf Hread) as Hlen.
    destruct (release_words_spec (seqZ 0 POINTERS_PER_BLOCK) bm ind_blk)
      as (bm' & ind' & -> & Hlbm & Hlblk & Hmono & Hfree & _ & _).
    { apply NoDup_seqZ. }
    { intros w Hw%elem_of_seqZ. unfold POINTERS_PER_BLOCK, BLOCK_SIZE in *. lia. }
    { intros w Hw%elem_of_seqZ. apply Hptrs. lia. }
    pose proof (load32_range blk (8 * i + 7)) as Hrange. fold (inode_indirect blk i) in Hrange.
    cbn [mbind res_bind]. rewrite bitmap_set_Some by lia. cbn [mbind res_bind].
    destruct (disk_write_is_Some h dsk _ ind_blk ind' Hread) as [h' Hh'].
    rewrite Hh'. cbn [default].
    exists h', (<[Z.to_nat (inode_indirect blk i) := true]> bm'),
      (set_inode_indirect blk i 0).
    split; [done|]. split; [apply length_store32|].
    split; [|split; [|intros _; split]].
    + intros m b0 b Hr. by eapply disk_write_after_write.
    + intros q Hq. destruct (decide (Z.to_nat (inode_indirect blk i) = q)) as [<-|Hne].
      * apply list_lookup_insert_eq. lia.
      * rewrite list_lookup_insert_ne by done. auto.
    + apply list_lookup_insert_eq. lia.
    + intros ind_blk0 ip Hread0 Hip Hnz. injection Hread0 as <-.
      destruct (decide (Z.to_nat (inode_indirect blk i)
                        = Z.to_nat (pointers ind_blk ip))) as [<-|Hne].
      * apply list_lookup_insert_eq. lia.
      * rewrite list_lookup_insert_ne by done. apply Hfree; [|done].
        apply elem_of_seqZ. lia.
Qed.

Lemma inode_index_range n : 0 ≤ n mod INODES_PER_BLOCK < INODES_PER_BLOCK.
Proof. apply Z.mod_pos_bound. unfold INODES_PER_BLOCK. lia. Qed.

Lemma bitmap_get_Some bm p v :
  bm !! Z.to_nat p = Some v → bitmap_get (Some bm) p = Ok v.
Proof. intros H. unfold bitmap_get. simpl. by rewrite H. Qed.

Lemma fs_remove_invalid h fs n blk :
  disk_read h (disk fs) (n / INODES_PER_BLOCK + 1) = Some blk →
  inode_valid blk (n mod INODES_PER_BLOCK) = 0 →
  fs_remove h fs n = Ok (false, h, fs).
Proof. intros Hread Hz. unfold fs_remove. cbv zeta. by rewrite Hread, Hz. Qed.

Lemma fs_remove_valid h fs n bn i blk bm :
  bn = n / INODES_PER_BLOCK + 1 → i = n mod INODES_PER_BLOCK →
  wf_store h → 0 ≤ bn → 0 ≤ i < INODES_PER_BLOCK →
  disk_read h (disk fs) bn = Some blk →
  inode_valid blk i ≠ 0 →
  free_blocks fs = Some bm →
  (∀ p, p ∈ inode_pointers h (disk fs) blk i → p < Z.of_nat (length bm)) →
  (inode_indirect blk i ≠ 0 →
   is_Some (disk_read h (disk fs) (inode_indirect blk i))) →
  ∃ h' fs',
    fs_remove h fs n = Ok (true, h', fs') ∧
    fs_stat h' fs' n = Ok (-1) ∧
    ∀ p, p ∈ inode_pointers h (disk fs) blk i →
         bitmap_get (free_blocks fs') p = Ok true.
Proof.
  intros Ebn Ei Hwf Hbn Hi Hread Hvalid Hbm Hlt Hind.
  pose proof (wf_store_read _ _ _ _ Hwf Hread) as Hlen.
  unfold fs_remove, fs_stat. cbv zeta. rewrite <- !Ebn, <- !Ei. clear Ebn Ei n.
  rewrite Hread, (proj2 (Z.eqb_neq _ _) Hvalid), release_direct_words, Hbm.
  (* the direct pointers *)
  destruct (release_words_spec ((λ dp, 8 * i + 2 + dp) <$> seqZ 0 POINTERS_PER_INODE)
              bm blk) as (bm1 & blk1 & -> & Hlbm1 & Hlblk1 & Hmono1 & Hfree1 & _ & Hother1).
  { apply NoDup_fmap_2_strong; [|apply NoDup_seqZ].
    intros x y _ _ Heq. cbv beta in Heq. lia. }
  { intros w (dp & -> & Hdp%elem_of_seqZ)%list_elem_of_fmap.
    unfold POINTERS_PER_INODE, INODES_PER_BLOCK, BLOCK_SIZE in *. lia. }
  { intros w (dp & -> & Hdp%elem_of_seqZ)%list_elem_of_fmap Hnz.
    apply Hlt, elem_of_inode_pointers. split; [done|]. left. exists dp.
    split; [lia|done]. }
  cbn [mbind res_bind].
  assert (Hkeep : inode_indirect blk1 i = inode_indirect blk i).
  { apply Hother1; [lia|].
    intros (dp & ? & Hdp%elem_of_seqZ)%list_elem_of_fmap.
    unfold POINTERS_PER_INODE in *. lia. }
  (* the indirect block *)
  destruct (release_indirect_spec h (disk fs) bm1 blk1 i Hwf)
    as (h2 & bm2 & blk2 & -> & Hlblk2 & Hwrite & Hmono2 & Hfree2).
  { rewrite Hkeep. intros Hnz. split.
    - rewrite Hlbm1. apply Hlt, elem_of_inode_pointers. split; [done|].
      right. split; [done|]. by left.
    - destruct (Hind Hnz) as [ind_blk Hind_blk]. exists ind_blk. split; [done|].
      intros ip Hip Hpnz. rewrite Hlbm1. apply Hlt, elem_of_inode_pointers.
      split; [done|]. right. split; [done|]. right. by exists ind_blk, ip. }
  cbn [mbind res_bind].
  set (blk3 := set_inode_valid (set_inode_size blk2 i 0) i 0).
  destruct (Hwrite bn blk blk3 Hread) as [h3 Hh3]. rewrite Hh3. cbn [default].
  exists h3, (set_free_blocks fs (Some bm2)). split; [done|]. split.
  - cbn [disk set_free_blocks].
    rewrite (disk_read_write_eq h2 (disk fs) bn blk3 h3 Hbn Hh3).
    unfold blk3, set_inode_valid, inode_valid.
    rewrite load32_store32_eq; [done|lia|].
    unfold set_inode_size. rewrite length_store32, Hlblk2, Hlblk1.
    unfold INODES_PER_BLOCK, BLOCK_SIZE in *. lia.
  - intros p [Hp Hcases]%elem_of_inode_pointers. cbn [free_blocks set_free_blocks].
    apply bitmap_get_Some.
    destruct Hcases as [(dp & Hdp & ->)|(Hnz & [->|(ind_blk & ip & Hib & Hip & ->)])].
    + apply Hmono2, (Hfree1 (8 * i + 2 + dp)); [|done].
      apply list_elem_of_fmap. exists dp. split; [done|]. apply elem_of_seqZ. lia.
    + destruct Hfree2 as [Hf _]; [by rewrite Hkeep|]. by rewrite <- Hkeep.
    + destruct Hfree2 as [_ Hf]; [by rewrite Hkeep|].
      apply (Hf ind_blk ip); rewrite ?Hkeep; auto.
Qed.

(** C7, counterexample: an image that mounts and names a block its disk
    does not have. The superblock announces 20 blocks, the disk has 5,
    and inode 0 is valid with indirect pointer 10. [fs_mount] succeeds:
    the rebuild of the bitmap gives up at the read of block 10.
    [fs_remove] of inode 0 does not look at the result of the same read
    and releases what the buffer [ind_blk] holds, which nothing has
    filled: the call has no defined result, success or other. *)
Definition image5_short : Disk :=
  [super_image 20 2 256;
   set_inode_indirect (set_inode_valid zero_block 0 1) 0 10;
   zero_block; zero_block; zero_block].

Definition mounted5_short : FileSystem :=
  {| disk := Some 0%nat;
     free_blocks := Some (false :: replicate 9 true ++ false :: replicate 9 true);
     meta_data := mkSuperBlock MAGIC_NUMBER 20 2 256 |}.

Lemma fs_remove_unreadable_indirect :
  fs_mount [image5_short] fresh_fs (Some 0%nat) = Ok (true, mounted5_short) ∧
  inode_slot_valid [image5_short] (disk mounted5_short) 0 = Some true ∧
  disk_read [image5_short] (disk mounted5_short) 10 = None ∧
  fs_remove [image5_short] mounted5_short 0 = Undef.
Proof. repeat split; vm_compute; reflexivity. Qed.

(** C7, as amended. Let [blk] be the block that holds the slot of inode
    number [n]. If the slot is invalid, [fs_remove] fails and changes
    nothing. If it is valid, and the bitmap covers every block the inode
    names and the indirect block (if any) can be read, [fs_remove]
    succeeds, [fs_stat] of [n] then returns -1, and every block the
    inode named is marked free. *)
Theorem fs_remove_releases h fs n blk :
  wf_store h → 0 ≤ n →
  disk_read h (disk fs) (n / INODES_PER_BLOCK + 1) = Some blk →
  (inode_valid blk (n mod INODES_PER_BLOCK) = 0 →
   fs_remove h fs n = Ok (false, h, fs)) ∧
  (inode_valid blk (n mod INODES_PER_BLOCK) ≠ 0 →
   ∀ bm, free_blocks fs = Some bm →
   (∀ p, p ∈ inode_pointers h (disk fs) blk (n mod INODES_PER_BLOCK) →
         p < Z.of_nat (length bm)) →
   (inode_indirect blk (n mod INODES_PER_BLOCK) ≠ 0 →
    is_Some (disk_read h (disk fs) (inode_indirect blk (n mod INODES_PER_BLOCK)))) →
   ∃ h' fs',
     fs_remove h fs n = Ok (true, h', fs') ∧
     fs_stat h' fs' n = Ok (-1) ∧
     ∀ p, p ∈ inode_pointers h (disk fs) blk (n mod INODES_PER_BLOCK) →
          bitmap_get (free_blocks fs') p = Ok true).
Proof.
  intros Hwf Hn Hread. split; [by apply fs_remove_invalid|].
  intros Hvalid bm Hbm Hlt Hind.
  eapply fs_remove_valid; eauto using inode_index_range.
  pose proof (Z.div_pos n INODES_PER_BLOCK). unfold INODES_PER_BLOCK in *. lia.
Qed.

Lemma wf_store_Forall h :
  Forall (Forall (λ b : Block, Z.of_nat (length b) = BLOCK_SIZE)) h → wf_store h.
Proof.
  intros Hall a d n b Ha Hn.
  eapply Forall_lookup_1 in Ha; [|exact Hall].
  eapply Forall_lookup_1 in Hn; [|exact Ha]. done.
Qed.

(** A file of 30000 bytes on [image20]: the five direct blocks, the
    indirect block and three blocks named by it. *)
Definition written_state : res (list Disk * FileSystem) :=
  '(n, h1) ← fs_create [image20] mounted20;
  '(w, h2, fs2) ← fs_write h1 mounted20 n (replicate (Z.to_nat 30000) x2a) 30000 0;
  Ok (h2, fs2).

Definition written_h : list Disk :=
  match written_state with Ok (h, _) => h | _ => [] end.
Definition written_fs : FileSystem :=
  match written_state with Ok (_, fs) => fs | _ => fresh_fs end.
Definition written_blk : Block :=
  default [] (disk_read written_h (disk written_fs) 1).

Lemma written_pointers :
  inode_pointers written_h (disk written_fs) written_blk 0
  = [3; 4; 5; 6; 7; 8; 9; 10; 11].
Proof. vm_compute. reflexivity. Qed.

Lemma wf_store_written : wf_store written_h.
Proof.
  apply wf_store_Forall. refine (bool_decide_unpack _ _). vm_compute. exact I.
Qed.

Lemma fs_remove_releases_witness :
  fs_remove written_h written_fs 1 = Ok (false, written_h, written_fs) ∧
  ∃ h' fs',
    fs_remove written_h written_fs 0 = Ok (true, h', fs') ∧
    fs_stat h' fs' 0 = Ok (-1) ∧
    ∀ p, p ∈ inode_pointers written_h (disk written_fs) written_blk
               (0 mod INODES_PER_BLOCK) →
         bitmap_get (free_blocks fs') p = Ok true.
Proof.
  split.
  - apply (fs_remove_releases written_h written_fs 1 written_blk).
    + exact wf_store_written.
    + lia.
    + vm_compute. reflexivity.
    + vm_compute. reflexivity.
  - apply (fs_remove_releases written_h written_fs 0 written_blk)
      with (bm := replicate 12 false ++ replicate 8 true).
    + exact wf_store_written.
    + lia.
    + vm_compute. reflexivity.
    + vm_compute. congruence.
    + vm_compute. reflexivity.
    + change (0 mod INODES_PER_BLOCK) with 0. rewrite written_pointers.
      intros p Hp. rewrite !elem_of_cons, elem_of_nil in Hp. simpl. lia.
    + intros _. vm_compute. eauto.
Defined.

(** ** fs_read: the walk over the logical blocks *)

Lemma wrap64_small z : 0 ≤ z < 2 ^ 64 → wrap64 z = z.
Proof. intros Hz. unfold wrap64. by apply Z.mod_small. Qed.

Lemma read_data_block_Some h dsk blk inode_i db b :
  read_data_block h dsk blk inode_i db = Ok (Some b) →
  db < POINTERS_PER_INODE + POINTERS_PER_BLOCK.
Proof.
  unfold read_data_block. case_bool_decide as Hdirect.
  - unfold POINTERS_PER_BLOCK. lia.
  - destruct (disk_read h dsk (inode_indirect blk inode_i)); [|done].
    case_bool_decide; [done|lia].
Qed.

Lemma copy_out_Ok data_blk doff cap nread ncopy bytes :
  copy_out data_blk doff cap nread ncopy = Ok bytes → doff + ncopy ≤ BLOCK_SIZE.
Proof. unfold copy_out. case_bool_decide; [done|lia]. Qed.

Section read_loop.
Variables (h : list Disk) (dsk : option nat) (blk : Block).
Variables (inode_i cap len offset : Z).
Hypothesis Hlen : 0 ≤ len < 2 ^ 64.

(** The state at the head of the loop: [ncopy] is what is left of the
    range or what is left of the block, and while bytes are missing
    the walk stands at byte [offset + nread] of the file. *)
Definition walk_inv (db doff ncopy nread : Z) : Prop :=
  0 ≤ doff < BLOCK_SIZE ∧ 0 ≤ nread ≤ len ∧
  (ncopy = len - nread ∨ ncopy = BLOCK_SIZE - doff ∧ ncopy ≤ len - nread) ∧
  (nread < len → db * BLOCK_SIZE + doff = offset + nread) ∧
  (len ≤ nread → offset + len ≤ db * BLOCK_SIZE).

Lemma walk_inv_next db doff ncopy nread :
  walk_inv db doff ncopy nread → nread < len →
  doff + ncopy ≤ BLOCK_SIZE →
  walk_inv (db + 1) 0
    (if bool_decide (BLOCK_SIZE < wrap64 (len - (nread + ncopy)))
     then BLOCK_SIZE else wrap64 (len - (nread + ncopy)))
    (nread + ncopy).
Proof.
  intros (Hdoff & Hnread & Hncopy & Hpos & Hdone) Hlt Hfit.
  specialize (Hpos Hlt).
  assert (Hrest : 0 ≤ len - (nread + ncopy) < 2 ^ 64) by lia.
  rewrite (wrap64_small _ Hrest). unfold walk_inv, BLOCK_SIZE in *.
  case_bool_decide; lia.
Qed.

Lemma read_loop_fuel fuel : ∀ db doff ncopy nread data,
  (Z.to_nat (POINTERS_PER_INODE + POINTERS_PER_BLOCK - db) < fuel)%nat →
  read_loop fuel h dsk blk inode_i cap len db doff ncopy nread data ≠ OutOfFuel.
Proof.
  induction fuel as [|fuel IH]; intros db doff ncopy nread data Hfuel; [lia|].
  cbn [read_loop]. case_bool_decide; [|done].
  destruct (read_data_block h dsk blk inode_i db) as [[b|]| |] eqn:Hb;
    cbn [mbind res_bind]; try done.
  { apply read_data_block_Some in Hb.
    destruct (copy_out b doff cap nread ncopy) eqn:Hcopy;
      cbn [mbind res_bind]; try done.
    - apply IH. lia.
    - unfold copy_out in Hcopy. by repeat case_bool_decide. }
  unfold read_data_block in Hb. repeat (case_bool_decide || case_match); done.
Qed.

(** A call that returns a count returns [len], and it has read every
    logical block of the range. *)
Lemma read_loop_count fuel : ∀ db doff ncopy nread data r out,
  walk_inv db doff ncopy nread →
  read_loop fuel h dsk blk inode_i cap len db doff ncopy nread data = Ok (r, out) →
  r = -1 ∨
  (r = len ∧
   ∀ lb, db ≤ lb → lb * BLOCK_SIZE < offset + len →
     ∃ b, read_data_block h dsk blk inode_i lb = Ok (Some b)).
Proof.
  induction fuel as [|fuel IH]; intros db doff ncopy nread data r out Hinv;
    cbn [read_loop]; case_bool_decide as Hlt; try done.
  - intros [= <- <-]. right. destruct Hinv as (_ & ? & _ & _ & Hdone).
    split; [lia|]. intros lb Hlb Hrange. unfold BLOCK_SIZE in *. lia.
  - destruct (read_data_block h dsk blk inode_i db) as [[b|]| |] eqn:Hb;
      cbn [mbind res_bind]; try done.
    + destruct (copy_out b doff cap nread ncopy) as [bytes| |] eqn:Hcopy;
        cbn [mbind res_bind]; try done.
      apply copy_out_Ok in Hcopy. intros Hloop.
      apply (IH _ _ _ _ _ _ _ (walk_inv_next _ _ _ _ Hinv Hlt Hcopy)) in Hloop.
      destruct Hloop as [?|[-> Hblocks]]; [by left|]. right. split; [done|].
      intros lb Hlb Hrange. destruct (decide (lb = db)) as [->|Hne]; [eauto|].
      apply Hblocks; [lia|done].
    + intros [= <- <-]. by left.
  - intros [= <- <-]. right. destruct Hinv as (_ & ? & _ & _ & Hdone).
    split; [lia|]. intros lb Hlb Hrange. unfold BLOCK_SIZE in *. lia.
Qed.

(** A call that returns a count cannot have had more bytes to read
    than the logical blocks up to [D + P] hold. *)
Lemma read_loop_bound fuel : ∀ db doff ncopy nread data r out,
  0 ≤ doff →
  read_loop fuel h dsk blk inode_i cap len db doff ncopy nread data = Ok (r, out) →
  r ≠ -1 →
  len - nread
  ≤ BLOCK_SIZE * Z.max 0 (POINTERS_PER_INODE + POINTERS_PER_BLOCK - db).
Proof.
  induction fuel as [|fuel IH]; intros db doff ncopy nread data r out Hdoff;
    cbn [read_loop]; case_bool_decide as Hlt; try done;
    try (intros _ _; unfold BLOCK_SIZE; lia).
  destruct (read_data_block h dsk blk inode_i db) as [[b|]| |] eqn:Hb;
    cbn [mbind res_bind]; try done.
  - apply read_data_block_Some in Hb.
    destruct (copy_out b doff cap nread ncopy) as [bytes| |] eqn:Hcopy;
      cbn [mbind res_bind]; try done.
    apply copy_out_Ok in Hcopy. intros Hloop Hr.
    apply IH in Hloop; [|lia|done]. unfold BLOCK_SIZE in *. lia.
  - intros [= <- <-]. done.
Qed.
End read_loop.

Lemma wrap64_neg z : - 2 ^ 64 ≤ z < 0 → wrap64 z = z + 2 ^ 64.
Proof.
  intros Hz. unfold wrap64. symmetry. apply (Z.mod_unique z (2 ^ 64) (-1)); lia.
Qed.

Lemma read_loop_done fuel h dsk blk inode_i cap len db doff ncopy nread data :
  len ≤ nread →
  read_loop fuel h dsk blk inode_i cap len db doff ncopy nread data
  = Ok (nread, data).
Proof.
  intros Hdone. destruct fuel; cbn [read_loop]; by rewrite bool_decide_eq_false_2 by lia.
Qed.

Lemma walk_inv_init len offset :
  0 ≤ offset → 0 < len →
  walk_inv len offset (offset / BLOCK_SIZE) (offset mod BLOCK_SIZE)
    (if bool_decide (len < BLOCK_SIZE) then len
     else BLOCK_SIZE - offset mod BLOCK_SIZE) 0.
Proof.
  intros Hoff Hlen. unfold walk_inv.
  pose proof (Z.div_mod offset BLOCK_SIZE) as Hdm.
  pose proof (Z.mod_pos_bound offset BLOCK_SIZE) as Hmod.
  unfold BLOCK_SIZE in *. case_bool_decide; lia.
Qed.

(** The length [fs_read] works with, after the comparison with the
    size of the file. *)
Definition clamped_length (blk : Block) (inode_i length offset : Z) : Z :=
  if bool_decide (inode_size blk inode_i < wrap64 (length + offset))
  then wrap64 (inode_size blk inode_i - offset)
  else length.

Lemma clamped_length_range blk inode_i length offset :
  0 ≤ length < 2 ^ 64 → 0 ≤ clamped_length blk inode_i length offset < 2 ^ 64.
Proof.
  intros Hl. unfold clamped_length, wrap64. case_bool_decide; [|done].
  apply Z.mod_pos_bound. lia.
Qed.

Lemma fs_read_unfold h fs n length offset blk :
  disk_read h (disk fs) (n / INODES_PER_BLOCK + 1) = Some blk →
  fs_read h fs n length offset
  = let len := clamped_length blk (n mod INODES_PER_BLOCK) length offset in
    read_loop walk_fuel h (disk fs) blk (n mod INODES_PER_BLOCK) length len
      (offset / BLOCK_SIZE) (offset mod BLOCK_SIZE)
      (if bool_decide (len < BLOCK_SIZE) then len
       else BLOCK_SIZE - offset mod BLOCK_SIZE) 0 [].
Proof. intros Hread. unfold fs_read. cbv zeta. by rewrite Hread. Qed.

Lemma fs_read_fuel h fs n length offset :
  0 ≤ offset → fs_read h fs n length offset ≠ OutOfFuel.
Proof.
  intros Hoff. unfold fs_read. cbv zeta.
  destruct (disk_read h (disk fs) _); [|done].
  apply read_loop_fuel. unfold walk_fuel.
  pose proof (Z.div_pos offset BLOCK_SIZE). unfold BLOCK_SIZE in *. lia.
Qed.

(** While the range fits the caller's buffer, the size of the buffer
    does not matter. *)
Lemma read_loop_capacity h dsk blk inode_i len offset cap cap' fuel :
  0 ≤ len < 2 ^ 64 → len ≤ cap → len ≤ cap' →
  ∀ db doff ncopy nread data,
    walk_inv len offset db doff ncopy nread →
    read_loop fuel h dsk blk inode_i cap len db doff ncopy nread data
    = read_loop fuel h dsk blk inode_i cap' len db doff ncopy nread data.
Proof.
  intros Hlen Hcap Hcap'.
  induction fuel as [|fuel IH]; intros db doff ncopy nread data Hinv;
    cbn [read_loop]; [done|].
  case_bool_decide as Hlt; [|done].
  destruct (read_data_block h dsk blk inode_i db) as [[b|]| |];
    cbn [mbind res_bind]; try done.
  unfold copy_out.
  destruct (bool_decide (BLOCK_SIZE < doff + ncopy)) eqn:Hfit; [reflexivity|].
  apply bool_decide_eq_false in Hfit.
  assert (ncopy ≤ len - nread) as Hncopy.
  { destruct Hinv as (_ & _ & [->|[_ ?]] & _); lia. }
  rewrite (bool_decide_eq_false_2 (cap < nread + ncopy)),
    (bool_decide_eq_false_2 (cap' < nread + ncopy)) by lia.
  cbn [mbind res_bind]. apply IH.
  apply (walk_inv_next len offset Hlen db doff ncopy nread); [done..|lia].
Qed.

(** C4, counterexample: a read at the end of the file. The inode just
    created has size 0; reading 10 bytes at offset 0 returns 0, not the
    failure value. *)
Lemma fs_read_at_end_of_file :
  ('(n, h1) ← fs_create [image20] mounted20;
   size ← fs_stat h1 mounted20 n;
   r ← fs_read h1 mounted20 n 10 0;
   Ok (size, r)) = Ok (0, (0, [])).
Proof. vm_compute. reflexivity. Qed.

(** C4, as amended. Let [size] be the stored size and
    [size < offset + length], the sum being below [2 ^ 64], the range of
    [size_t]. With [offset < size] the call is the read of
    [size - offset] bytes at [offset], and a count it returns is
    [size - offset]. With [offset = size] it returns 0 and copies
    nothing. *)
Theorem fs_read_clamp h fs n length offset blk :
  0 ≤ offset → 0 ≤ length → length + offset < 2 ^ 64 →
  disk_read h (disk fs) (n / INODES_PER_BLOCK + 1) = Some blk →
  inode_size blk (n mod INODES_PER_BLOCK) < length + offset →
  (offset < inode_size blk (n mod INODES_PER_BLOCK) →
   fs_read h fs n length offset
   = fs_read h fs n (inode_size blk (n mod INODES_PER_BLOCK) - offset) offset ∧
   ∀ r out, fs_read h fs n length offset = Ok (r, out) →
     r = -1 ∨ r = inode_size blk (n mod INODES_PER_BLOCK) - offset) ∧
  (offset = inode_size blk (n mod INODES_PER_BLOCK) →
   fs_read h fs n length offset = Ok (0, [])).
Proof.
  intros Hoff Hlength Hsum Hread Hclamp.
  set (i := n mod INODES_PER_BLOCK) in *.
  pose proof (load32_range blk (8 * i + 1)) as Hsize.
  fold (inode_size blk i) in Hsize. set (size := inode_size blk i) in *.
  assert (Hlen : clamped_length blk i length offset = wrap64 (size - offset)).
  { unfold clamped_length. fold size. rewrite wrap64_small by lia.
    by rewrite bool_decide_eq_true_2. }
  rewrite !(fs_read_unfold _ _ _ _ _ _ Hread). fold i. cbv zeta. rewrite Hlen.
  split.
  - intros Hlt.
    assert (Hlen' : clamped_length blk i (size - offset) offset = size - offset).
    { unfold clamped_length. fold size.
      replace (size - offset + offset) with size by lia.
      rewrite wrap64_small by lia. by rewrite bool_decide_eq_false_2 by lia. }
    rewrite Hlen', wrap64_small by lia.
    assert (Hinv : walk_inv (size - offset) offset (offset / BLOCK_SIZE)
                     (offset mod BLOCK_SIZE)
                     (if bool_decide (size - offset < BLOCK_SIZE) then size - offset
                      else BLOCK_SIZE - offset mod BLOCK_SIZE) 0).
    { apply walk_inv_init; lia. }
    split.
    + apply (read_loop_capacity _ _ _ _ _ offset); [lia..|done].
    + intros r out Hloop.
      eapply (read_loop_count _ _ _ _ _ (size - offset) offset) in Hloop;
        [|lia|done].
      destruct Hloop as [?|[? _]]; auto.
  - intros ->. replace (size - size) with 0 by lia. rewrite wrap64_small by lia.
    by apply read_loop_done.
Qed.

Lemma written_blk_read :
  disk_read written_h (disk written_fs) (0 / INODES_PER_BLOCK + 1)
  = Some written_blk.
Proof. vm_compute. reflexivity. Qed.

Lemma written_size : inode_size written_blk (0 mod INODES_PER_BLOCK) = 30000.
Proof. vm_compute. reflexivity. Qed.

(** On the file of 30000 bytes: 40000 bytes asked for at offset 10000
    are the 20000 bytes up to the end of the file, and 5 bytes asked
    for at offset 30000 are none. *)
Lemma fs_read_clamp_witness :
  (fs_read written_h written_fs 0 40000 10000
   = fs_read written_h written_fs 0
       (inode_size written_blk (0 mod INODES_PER_BLOCK) - 10000) 10000 ∧
   ∀ r out, fs_read written_h written_fs 0 40000 10000 = Ok (r, out) →
     r = -1 ∨ r = inode_size written_blk (0 mod INODES_PER_BLOCK) - 10000) ∧
  fs_read written_h written_fs 0 5 30000 = Ok (0, []) ∧
  fst <$> fs_read written_h written_fs 0 40000 10000 = Ok 20000.
Proof.
  split; [|split].
  - apply (fs_read_clamp written_h written_fs 0 40000 10000 written_blk);
      try lia; try exact written_blk_read; rewrite written_size; lia.
  - apply (fs_read_clamp written_h written_fs 0 5 30000 written_blk);
      try lia; try exact written_blk_read; rewrite written_size; lia.
  - vm_compute. reflexivity.
Defined.

(** Beyond the end of the file [size - offset] wraps around in
    [size_t]: for 5 bytes asked for at offset 30001 of the same file the
    first [memcpy] is one of 1391 bytes, to the end of the block, into
    the buffer of 5. *)
Lemma fs_read_beyond_end_of_file :
  clamped_length written_blk 0 5 30001 = 2 ^ 64 - 1 ∧
  fs_read written_h written_fs 0 5 30001 = Undef.
Proof. split; vm_compute; reflexivity. Qed.

(** A hole. One byte is written at offset 4096 of a new inode, so the
    size is 4097 and the first direct pointer is still zero. *)
Definition hole_state : res (list Disk * FileSystem) :=
  '(n, h1) ← fs_create [image20] mounted20;
  '(w, h2, fs2) ← fs_write h1 mounted20 n [x2a] 1 4096;
  Ok (h2, fs2).

Definition hole_h : list Disk :=
  match hole_state with Ok (h, _) => h | _ => [] end.
Definition hole_fs : FileSystem :=
  match hole_state with Ok (_, fs) => fs | _ => fresh_fs end.
Definition hole_blk : Block :=
  default [] (disk_read hole_h (disk hole_fs) 1).

(** Reading the first block of that file does not fail: pointer 0 is
    read as block 0 and the call returns 4096 bytes, those of the
    superblock. *)
Lemma fs_read_through_zero_pointer :
  ('(n, h1) ← fs_create [image20] mounted20;
   '(w, h2, fs2) ← fs_write h1 mounted20 n [x2a] 1 4096;
   blk ← default Undef (Ok <$> disk_read h2 (disk fs2) 1);
   r ← fs_read h2 fs2 n 4096 0;
   Ok (inode_direct blk 0 0, r)) = Ok (0, (4096, super_image 20 2 256)).
Proof. vm_compute. reflexivity. Qed.

(** C5. [fs_read] has no test of a pointer against zero, where
    [fs_write], [fs_remove] and the rebuild of the bitmap all take a
    zero pointer for 'no block'. Let the range lie inside the file and
    inside one logical block. If the pointer of that logical block is
    zero (a direct pointer, or an entry of the indirect block, which is
    block 0 itself when the indirect pointer is zero), the call does not
    return -1: it reads block 0 and returns [length], with the bytes of
    block 0 in the buffer. *)
Theorem fs_read_zero_pointer h fs n length offset blk block0 :
  0 ≤ offset → 0 < length →
  offset mod BLOCK_SIZE + length ≤ BLOCK_SIZE →
  disk_read h (disk fs) (n / INODES_PER_BLOCK + 1) = Some blk →
  offset + length ≤ inode_size blk (n mod INODES_PER_BLOCK) →
  disk_read h (disk fs) 0 = Some block0 →
  (offset / BLOCK_SIZE < POINTERS_PER_INODE ∧
   inode_direct blk (n mod INODES_PER_BLOCK) (offset / BLOCK_SIZE) = 0
   ∨
   POINTERS_PER_INODE ≤ offset / BLOCK_SIZE
     < POINTERS_PER_INODE + POINTERS_PER_BLOCK ∧
   ∃ indirect_blk,
     disk_read h (disk fs) (inode_indirect blk (n mod INODES_PER_BLOCK))
     = Some indirect_blk ∧
     pointers indirect_blk (offset / BLOCK_SIZE - POINTERS_PER_INODE) = 0) →
  fs_read h fs n length offset
  = Ok (length,
        take (Z.to_nat length) (drop (Z.to_nat (offset mod BLOCK_SIZE)) block0)).
Proof.
  intros Hoff Hlength Hfit Hread Hsize Hzero Hptr.
  set (i := n mod INODES_PER_BLOCK) in *.
  pose proof (load32_range blk (8 * i + 1)) as Hrange.
  fold (inode_size blk i) in Hrange.
  pose proof (Z.mod_pos_bound offset BLOCK_SIZE) as Hmod.
  assert (Hdata : read_data_block h (disk fs) blk i (offset / BLOCK_SIZE)
                  = Ok (Some block0)).
  { unfold read_data_block.
    destruct Hptr as [[Hdirect Hz]|[Hindirect (ib & Hib & Hz)]].
    - by rewrite bool_decide_eq_true_2, Hz, Hzero by done.
    - rewrite bool_decide_eq_false_2, Hib by lia.
      by rewrite bool_decide_eq_false_2, Hz, Hzero by lia. }
  rewrite (fs_read_unfold _ _ _ _ _ _ Hread). fold i. cbv zeta.
  assert (Hlen : clamped_length blk i length offset = length).
  { unfold clamped_length. rewrite wrap64_small by lia.
    by rewrite bool_decide_eq_false_2 by lia. }
  rewrite Hlen.
  assert (Hncopy : (if bool_decide (length < BLOCK_SIZE) then length
                    else BLOCK_SIZE - offset mod BLOCK_SIZE) = length).
  { unfold BLOCK_SIZE in *. case_bool_decide; lia. }
  rewrite Hncopy. unfold walk_fuel. cbn [read_loop].
  rewrite bool_decide_eq_true_2 by done.
  rewrite Hdata. cbn [mbind res_bind]. unfold copy_out.
  rewrite (bool_decide_eq_false_2 (BLOCK_SIZE < _ + length)) by lia.
  rewrite (bool_decide_eq_false_2 (length < 0 + length)) by lia.
  cbn [mbind res_bind]. by rewrite read_loop_done by lia.
Qed.

Lemma hole_blk_read :
  disk_read hole_h (disk hole_fs) (0 / INODES_PER_BLOCK + 1) = Some hole_blk.
Proof. vm_compute. reflexivity. Qed.

(** A hole in the indirect region. One byte is written at the start of
    logical block 9 of a new inode: the indirect block is block 3, its
    entry 4 names block 4, and its entries 0 to 3 are zero. *)
Definition indirect_hole_state : res (list Disk * FileSystem) :=
  '(n, h1) ← fs_create [image20] mounted20;
  '(w, h2, fs2) ← fs_write h1 mounted20 n [x2a] 1 (9 * 4096);
  Ok (h2, fs2).

Definition indirect_hole_h : list Disk :=
  match indirect_hole_state with Ok (h, _) => h | _ => [] end.
Definition indirect_hole_fs : FileSystem :=
  match indirect_hole_state with Ok (_, fs) => fs | _ => fresh_fs end.
Definition indirect_hole_blk : Block :=
  default [] (disk_read indirect_hole_h (disk indirect_hole_fs) 1).

Lemma indirect_hole_blk_read :
  disk_read indirect_hole_h (disk indirect_hole_fs) (0 / INODES_PER_BLOCK + 1)
  = Some indirect_hole_blk.
Proof. vm_compute. reflexivity. Qed.

(** The first block of the file with the hole, and logical block 5 of
    the file with the hole in the indirect region. *)
Lemma fs_read_zero_pointer_witness :
  fs_read hole_h hole_fs 0 4096 0
  = Ok (4096,
        take (Z.to_nat 4096)
          (drop (Z.to_nat (0 mod BLOCK_SIZE)) (super_image 20 2 256))) ∧
  fs_read indirect_hole_h indirect_hole_fs 0 4096 (5 * 4096)
  = Ok (4096,
        take (Z.to_nat 4096)
          (drop (Z.to_nat ((5 * 4096) mod BLOCK_SIZE)) (super_image 20 2 256))).
Proof.
  split.
  - apply (fs_read_zero_pointer hole_h hole_fs 0 4096 0 hole_blk
             (super_image 20 2 256)).
    + lia.
    + lia.
    + vm_compute. congruence.
    + exact hole_blk_read.
    + vm_compute. congruence.
    + vm_compute. reflexivity.
    + left. split; vm_compute; reflexivity.
  - apply (fs_read_zero_pointer indirect_hole_h indirect_hole_fs 0 4096
             (5 * 4096) indirect_hole_blk (super_image 20 2 256)).
    + lia.
    + lia.
    + vm_compute. congruence.
    + exact indirect_hole_blk_read.
    + vm_compute. congruence.
    + vm_compute. reflexivity.
    + right. split; [vm_compute; split; congruence|].
      exists (set_pointers zero_block 4 4). split; vm_compute; reflexivity.
Defined.

(** ** fs_write: the size after each block *)

Lemma Ok_inj {A : Type} (a b : A) : Ok a = Ok b → a = b.
Proof. congruence. Qed.

Lemma bitmap_set_Ok bm p v bm' :
  bitmap_set bm p v = Ok bm' →
  ∃ l, bm = Some l ∧ p < Z.of_nat (length l) ∧ bm' = Some (<[Z.to_nat p := v]> l).
Proof.
  unfold bitmap_set. destruct bm as [l|]; [|done].
  case_bool_decide; [|done]. intros [= <-]. eauto.
Qed.

Lemma find_free_block_disk fs nb fs' :
  find_free_block fs = Ok (nb, fs') →
  disk fs' = disk fs ∧ meta_data fs' = meta_data fs.
Proof.
  unfold find_free_block.
  destruct (find_free_from _ _ _) as [[j|]| |]; cbn [mbind res_bind]; try done.
  - destruct (bitmap_set _ _ _); cbn [mbind res_bind]; try done.
    by intros [= <- <-].
  - by intros [= <- <-].
Qed.

Lemma disk_read_after_write h dsk n b h' m :
  disk_write h dsk n b = Some h' →
  is_Some (disk_read h dsk m) → is_Some (disk_read h' dsk m).
Proof.
  intros Hw [b0 Hr].
  destruct (disk_write_after_write _ _ _ _ _ m b0 b0 Hw Hr) as [h2 Hh2].
  destruct (disk_read_Some _ _ _ _ Hr) as (a & d & -> & Hd & Hb & Hlen).
  destruct (disk_write_Some _ _ _ _ _ Hw) as (a' & d' & [= <-] & Hd' & Hlen' & ->).
  rewrite Hd in Hd'. injection Hd' as <-.
  unfold disk_read, disk_read_buffer, disk_sanity_check. simpl.
  rewrite list_lookup_insert_eq by (by eapply lookup_lt_Some). simpl.
  rewrite length_insert, bool_decide_eq_false_2 by lia. simpl.
  apply lookup_lt_is_Some. rewrite length_insert. by eapply lookup_lt_Some.
Qed.

(** None of the pieces of a turn is a loop that can run out of fuel. *)
Lemma bind_fuel {A B : Type} (m : res A) (k : A → res B) :
  m ≠ OutOfFuel → (∀ a, k a ≠ OutOfFuel) → m ≫= k ≠ OutOfFuel.
Proof. destruct m; cbn [mbind res_bind]; auto. Qed.

Lemma bitmap_set_fuel bm p v : bitmap_set bm p v ≠ OutOfFuel.
Proof. unfold bitmap_set. destruct bm; [case_bool_decide|]; done. Qed.

Lemma find_free_from_fuel bm n : ∀ i, find_free_from bm i n ≠ OutOfFuel.
Proof.
  induction n as [|n IH]; intros i; cbn [find_free_from]; [done|].
  apply bind_fuel.
  - unfold bitmap_get. by destruct (bm ≫= _).
  - intros [|]; [done|apply IH].
Qed.

Lemma find_free_block_fuel fs : find_free_block fs ≠ OutOfFuel.
Proof.
  unfold find_free_block. apply bind_fuel; [apply find_free_from_fuel|].
  intros [i|]; [|done]. apply bind_fuel; [apply bitmap_set_fuel|done].
Qed.

Lemma copy_in_fuel data_blk doff data nwrite ncopy :
  copy_in data_blk doff data nwrite ncopy ≠ OutOfFuel.
Proof. unfold copy_in. by repeat case_bool_decide. Qed.

Lemma write_turn_fuel h fs blk bn inode_i data offset db doff ncopy nwrite :
  write_turn h fs blk bn inode_i data offset db doff ncopy nwrite ≠ OutOfFuel.
Proof.
  unfold write_turn. case_bool_decide.
  - unfold write_direct. apply bind_fuel.
    + destruct (_ =? 0); [|done]. apply bind_fuel; [apply find_free_block_fuel|].
      intros [nb fs1]. by destruct (nb =? 0).
    + intros [fs1|[fs1 blk1]]; [done|]. destruct (disk_read _ _ _); [|done].
      apply bind_fuel; [apply copy_in_fuel|]. intros b.
      by destruct (disk_write _ _ _ _).
  - unfold write_indirect. cbv zeta. apply bind_fuel.
    + destruct (_ =? 0).
      * apply bind_fuel; [apply find_free_block_fuel|].
        intros [nb fs1]. by destruct (nb =? 0).
      * by destruct (disk_read _ _ _).
    + intros [fs1|[[fs1 blk1] indirect_blk]]; [done|].
      case_bool_decide; [done|]. apply bind_fuel.
      * destruct (_ =? 0).
        -- apply bind_fuel; [apply find_free_block_fuel|].
           intros [nb fs2]. destruct (nb =? 0); [done|].
           by destruct (disk_write _ _ _ _).
        -- by destruct (disk_read _ _ _).
      * intros [[h1 fs2]|[[[h1 fs2] indirect_blk'] data_blk]]; [done|].
        apply bind_fuel; [apply copy_in_fuel|]. intros b.
        by destruct (disk_write _ _ _ _).
Qed.

Lemma bind_Ok {A B : Type} (m : res A) (k : A → res B) b :
  m ≫= k = Ok b → ∃ a, m = Ok a ∧ k a = Ok b.
Proof. destruct m; cbn [mbind res_bind]; [eauto|done..]. Qed.

(** Every [return] inside the loop is [return -1]. *)
Lemma write_turn_return h fs blk bn inode_i data offset db doff ncopy nwrite
    r h' fs' :
  write_turn h fs blk bn inode_i data offset db doff ncopy nwrite
  = Ok (WReturn r h' fs') → r = -1.
Proof.
  unfold write_turn. case_bool_decide.
  - unfold write_direct.
    intros ([fs1|[fs1 blk1]] & _ & Hk)%bind_Ok; [congruence|].
    destruct (disk_read _ _ _); [|congruence].
    apply bind_Ok in Hk as (b & _ & Hk).
    destruct (disk_write _ _ _ _); [done|congruence].
  - unfold write_indirect. cbv zeta.
    intros ([fs1|[[fs1 blk1] indirect_blk]] & _ & Hk)%bind_Ok; [congruence|].
    case_bool_decide; [done|].
    apply bind_Ok in Hk
      as ([[h1 fs2]|[[[h1 fs2] indirect_blk'] data_blk]] & _ & Hk); [congruence|].
    apply bind_Ok in Hk as (b & _ & Hk).
    destruct (disk_write _ _ _ _); [done|congruence].
Qed.

Section write_turn.
Variables (bn inode_i offset : Z) (data : list byte).
Hypothesis Hbn : 0 ≤ bn.
Hypothesis Hi : 0 ≤ inode_i < INODES_PER_BLOCK.

(** What a turn hands to [write_finish]: the engine is on the same
    disk, the inode block is still readable, and the in-memory inode
    block differs from the one the turn began with in at most the
    pointer of this turn and the indirect pointer. *)
Definition turn_pre (h : list Disk) (fs : FileSystem) (blk : Block) (db : Z)
    (h1 : list Disk) (fs1 : FileSystem) (blk1 : Block) : Prop :=
  disk fs1 = disk fs ∧
  (is_Some (disk_read h (disk fs) bn) → is_Some (disk_read h1 (disk fs) bn)) ∧
  length blk1 = length blk ∧
  (∀ w, 0 ≤ w → w ≠ 8 * inode_i + 2 + db → w ≠ 8 * inode_i + 7 →
        load32 blk1 w = load32 blk w).

Lemma copy_in_Ok data_blk doff nwrite ncopy b :
  copy_in data_blk doff data nwrite ncopy = Ok b → doff + ncopy ≤ BLOCK_SIZE.
Proof. unfold copy_in. repeat case_bool_decide; try done. lia. Qed.

Lemma write_turn_finish h fs blk db doff ncopy nwrite h' fs' blk' :
  0 ≤ db →
  write_turn h fs blk bn inode_i data offset db doff ncopy nwrite
  = Ok (WNext h' fs' blk') →
  ∃ h1 fs1 blk1,
    write_finish h1 fs1 blk1 bn inode_i offset nwrite ncopy = WNext h' fs' blk' ∧
    turn_pre h fs blk db h1 fs1 blk1 ∧
    db < POINTERS_PER_INODE + POINTERS_PER_BLOCK ∧
    doff + ncopy ≤ BLOCK_SIZE.
Proof.
  intros Hdb. unfold write_turn. case_bool_decide as Hdirect.
  - unfold write_direct.
    destruct (inode_direct blk inode_i db =? 0) eqn:Hz.
    + destruct (find_free_block fs) as [[nb fs1]| |] eqn:Hfree;
        cbn [mbind res_bind]; try done.
      apply find_free_block_disk in Hfree as [Hdisk _].
      destruct (nb =? 0); cbn [mbind res_bind]; [done|].
      destruct (disk_read h (disk fs) _) as [data_blk|]; [|done].
      destruct (copy_in data_blk doff data nwrite ncopy) as [data_blk'| |] eqn:Hc;
        cbn [mbind res_bind]; try done.
      apply copy_in_Ok in Hc.
      destruct (disk_write h (disk fs) _ data_blk') as [h1|] eqn:Hw; [|done].
      intros Hfin%Ok_inj. eexists _, _, _. split; [exact Hfin|].
      split; [|unfold POINTERS_PER_BLOCK; lia].
      split; [done|]. split; [by eapply disk_read_after_write|].
      split; [apply length_store32|].
      intros w Hw0 Hw1 Hw2. apply load32_store32_ne; lia.
    + cbn [mbind res_bind].
      destruct (disk_read h (disk fs) _) as [data_blk|]; [|done].
      destruct (copy_in data_blk doff data nwrite ncopy) as [data_blk'| |] eqn:Hc;
        cbn [mbind res_bind]; try done.
      apply copy_in_Ok in Hc.
      destruct (disk_write h (disk fs) _ data_blk') as [h1|] eqn:Hw; [|done].
      intros Hfin%Ok_inj. eexists _, _, _. split; [exact Hfin|].
      split; [|unfold POINTERS_PER_BLOCK; lia].
      split; [done|]. split; [by eapply disk_read_after_write|]. done.
  - unfold write_indirect. cbv zeta.
    match goal with |- (?m ≫= _) = _ → _ =>
      destruct m as [[fs1|[[fs1 blk1] indirect_blk]]| |] eqn:Hr1 end;
      cbn [mbind res_bind]; try done.
    assert (Hpre1 : disk fs1 = disk fs ∧ length blk1 = length blk ∧
              ∀ w, 0 ≤ w → w ≠ 8 * inode_i + 7 → load32 blk1 w = load32 blk w).
    { destruct (inode_indirect blk inode_i =? 0).
      - destruct (find_free_block fs) as [[nb fs0]| |] eqn:Hfree;
          cbn [mbind res_bind] in Hr1; try done.
        apply find_free_block_disk in Hfree as [Hdisk _].
        destruct (nb =? 0); [done|]. injection Hr1 as <- <- <-.
        split; [done|]. split; [apply length_store32|].
        intros w Hw0 Hw1. apply load32_store32_ne; lia.
      - destruct (disk_read h (disk fs) _); [|done]. by injection Hr1 as <- <- <-. }
    destruct Hpre1 as (Hdisk1 & Hlen1 & Hwords1). clear Hr1.
    case_bool_decide as Hoff; [done|].
    match goal with |- (?m ≫= _) = _ → _ =>
      destruct m as [[[h1 fs2]|[[[h1 fs2] indirect_blk'] data_blk]]| |] eqn:Hr2 end;
      cbn [mbind res_bind]; try done.
    assert (Hpre2 : disk fs2 = disk fs ∧
              (is_Some (disk_read h (disk fs) bn) →
               is_Some (disk_read h1 (disk fs) bn))).
    { destruct (pointers indirect_blk (db - POINTERS_PER_INODE) =? 0).
      - destruct (find_free_block fs1) as [[nb fs0]| |] eqn:Hfree;
          cbn [mbind res_bind] in Hr2; try done.
        apply find_free_block_disk in Hfree as [Hdisk _].
        destruct (nb =? 0); [done|].
        destruct (disk_write h (disk fs) _ _) as [h0|] eqn:Hw; [|done].
        injection Hr2 as <- <- <- <-. split; [congruence|].
        by eapply disk_read_after_write.
      - destruct (disk_read h (disk fs) (pointers _ _)); [|done].
        by injection Hr2 as <- <- <- <-. }
    destruct Hpre2 as (Hdisk2 & Hread2).
    destruct (copy_in data_blk doff data nwrite ncopy) as [data_blk'| |] eqn:Hc;
      cbn [mbind res_bind]; try done.
    apply copy_in_Ok in Hc.
    destruct (disk_write h1 (disk fs) _ data_blk') as [h2|] eqn:Hw; [|done].
    intros Hfin%Ok_inj. eexists _, _, _. split; [exact Hfin|].
    split; [|lia]. split; [done|]. split.
    { intros Hr. eapply disk_read_after_write; eauto. }
    split; [done|]. intros w Hw0 _ Hw2. by apply Hwords1.
Qed.
End write_turn.

Lemma wrap32_small z : 0 ≤ z < 2 ^ 32 → wrap32 z = z.
Proof. intros Hz. unfold wrap32. by apply Z.mod_small. Qed.

Section write_loop.
Variables (bn inode_i len offset : Z) (data : list byte).
Hypothesis Hbn : 0 ≤ bn.
Hypothesis Hi : 0 ≤ inode_i < INODES_PER_BLOCK.
Hypothesis Hlen : 0 ≤ len < 2 ^ 64.

(** One turn: the size becomes the larger of the old size and the
    end of what has been written, and the inode block is on the
    device when the turn ends. *)
Lemma write_turn_spec h fs blk db doff ncopy nwrite h' fs' blk' :
  0 ≤ db → 0 ≤ doff → 0 ≤ ncopy →
  db * BLOCK_SIZE + doff = offset + nwrite →
  Z.of_nat (length blk) = BLOCK_SIZE →
  is_Some (disk_read h (disk fs) bn) →
  write_turn h fs blk bn inode_i data offset db doff ncopy nwrite
  = Ok (WNext h' fs' blk') →
  disk fs' = disk fs ∧
  disk_read h' (disk fs') bn = Some blk' ∧
  length blk' = length blk ∧
  inode_valid blk' inode_i = inode_valid blk inode_i ∧
  inode_size blk' inode_i
  = Z.max (inode_size blk inode_i) (offset + (nwrite + ncopy)) ∧
  db < POINTERS_PER_INODE + POINTERS_PER_BLOCK ∧
  doff + ncopy ≤ BLOCK_SIZE.
Proof.
  intros Hdb Hdoff Hncopy Hpos Hblk Hreadable Hturn.
  apply write_turn_finish in Hturn
    as (h1 & fs1 & blk1 & Hfin & (Hdisk & Hread1 & Hlen1 & Hwords) & Hdblt & Hfit);
    [|done..].
  unfold write_finish in Hfin. injection Hfin as <- <- <-.
  assert (Hsize1 : inode_size blk1 inode_i = inode_size blk inode_i).
  { apply Hwords; lia. }
  assert (Hend : 0 ≤ offset + (nwrite + ncopy) < 2 ^ 32).
  { unfold BLOCK_SIZE, POINTERS_PER_INODE, POINTERS_PER_BLOCK in *. lia. }
  pose proof (load32_range blk (8 * inode_i + 1)) as Hrange.
  fold (inode_size blk inode_i) in Hrange.
  rewrite Hsize1, wrap64_small by lia.
  set (blk' := if bool_decide _ then _ else _).
  assert (Hlen' : length blk' = length blk).
  { subst blk'. case_bool_decide; [|done].
    unfold set_inode_size. by rewrite length_store32. }
  destruct (Hread1 Hreadable) as [b0 Hb0]. rewrite <- Hdisk in Hb0.
  destruct (disk_write_is_Some _ _ _ _ blk' Hb0) as [h' Hh']. rewrite Hh'.
  cbn [default]. split; [done|].
  split; [by eapply disk_read_write_eq|]. split; [done|].
  unfold INODES_PER_BLOCK, BLOCK_SIZE in *.
  subst blk'. case_bool_decide as Hgrow.
  - unfold set_inode_size, inode_valid, inode_size.
    rewrite load32_store32_ne, load32_store32_eq by lia.
    rewrite wrap32_small by done.
    split; [apply Hwords; lia|]. split; [|done].
    fold (inode_size blk inode_i). lia.
  - split; [apply Hwords; lia|]. split; [|done]. lia.
Qed.


(** The loop: a call that returns a count has written [len] bytes and
    left the inode on the device with the size raised to
    [offset + len] if it was smaller. *)
Lemma write_loop_size fuel : ∀ h fs blk db doff ncopy nwrite r h' fs',
  walk_inv len offset db doff ncopy nwrite → 0 ≤ db →
  Z.of_nat (length blk) = BLOCK_SIZE →
  disk_read h (disk fs) bn = Some blk →
  write_loop fuel h fs blk bn inode_i data len offset db doff ncopy nwrite
  = Ok (r, h', fs') →
  r ≠ -1 →
  r = len ∧
  ∃ blk', disk_read h' (disk fs') bn = Some blk' ∧
    inode_valid blk' inode_i = inode_valid blk inode_i ∧
    inode_size blk' inode_i
    = if bool_decide (nwrite < len)
      then Z.max (inode_size blk inode_i) (offset + len)
      else inode_size blk inode_i.
Proof.
  induction fuel as [|fuel IH];
    intros h fs blk db doff ncopy nwrite r h' fs' Hinv Hdb Hblk Hread;
    cbn [write_loop]; case_bool_decide as Hlt; try done;
    try (intros [= <- <- <-] _; destruct Hinv as (_ & ? & _); split; [lia|eauto]).
  destruct (write_turn h fs blk bn inode_i data offset db doff ncopy nwrite)
    as [[r0 h0 fs0|h0 fs0 blk0]| |] eqn:Hturn; cbn [mbind res_bind]; try done.
  - intros [= <- <- <-] Hr. by apply write_turn_return in Hturn.
  - intros Hloop Hr.
    pose proof Hinv as (Hdoff & Hnwrite & Hncopy & Hpos & _).
    specialize (Hpos Hlt).
    apply write_turn_spec in Hturn
      as (Hdisk & Hread0 & Hlen0 & Hvalid0 & Hsize0 & Hdblt & Hfit);
      [|done || lia || eauto..].
    apply IH in Hloop as (-> & blk' & Hread' & Hvalid' & Hsize');
      [|by apply (walk_inv_next len offset Hlen db doff)|lia|congruence|done|done].
    split; [done|]. exists blk'. split; [done|]. split; [congruence|].
    rewrite Hsize', Hsize0. case_bool_decide; lia.
Qed.
End write_loop.



Definition created_h : list Disk :=
  match fs_create [image20] mounted20 with Ok (_, h) => h | _ => [] end.


(** ** fs_write: a range that straddles a block boundary *)

(** C3 (the code does not do what the claim says). For a range shorter
    than a block the first [ncopy] is the whole length, whatever the
    offset inside the block. If the range starts inside one block and
    ends in the next, the [memcpy] of the first turn runs past the end
    of the block buffer: the call is undefined behaviour, unless it
    returns -1 before it gets there; it never returns a count. The
    bytes meant for the next block are never written there and cannot
    be read back. *)
Theorem fs_write_straddle h fs n data length offset :
  0 ≤ offset → 0 < length < BLOCK_SIZE →
  BLOCK_SIZE < offset mod BLOCK_SIZE + length →
  fs_write h fs n data length offset = Undef ∨
  ∃ h' fs', fs_write h fs n data length offset = Ok (-1, h', fs').
Proof.
  intros Hoff Hlength Hstraddle. unfold fs_write. cbv zeta.
  destruct (disk_read h (disk fs) _) as [blk|]; [|by left].
  destruct (_ =? 0); [right; eauto|].
  rewrite bool_decide_eq_true_2 by lia.
  unfold walk_fuel. cbn [write_loop]. rewrite bool_decide_eq_true_2 by lia.
  destruct (write_turn _ _ _ _ _ _ _ _ _ _ _) as [[r0 h0 fs0|h0 fs0 blk0]| |]
    eqn:Hturn; cbn [mbind res_bind].
  - apply write_turn_return in Hturn as ->. right. eauto.
  - apply write_turn_finish in Hturn as (? & ? & ? & _ & _ & _ & Hfit);
      [lia|apply inode_index_range|apply Z.div_pos; unfold BLOCK_SIZE; lia].
  - by left.
  - by apply write_turn_fuel in Hturn.
Qed.

(** On [image20] with one inode created: 200 bytes at offset 4000. *)
Lemma fs_write_straddle_witness :
  fs_write created_h mounted20 0 (replicate 200 x2a) 200 4000 = Undef ∨
  ∃ h' fs',
    fs_write created_h mounted20 0 (replicate 200 x2a) 200 4000 = Ok (-1, h', fs').
Proof.
  apply (fs_write_straddle created_h mounted20 0 (replicate 200 x2a) 200 4000).
  - lia.
  - unfold BLOCK_SIZE. lia.
  - vm_compute. reflexivity.
Defined.

Lemma fs_write_straddle_undefined :
  fs_write created_h mounted20 0 (replicate 200 x2a) 200 4000 = Undef.
Proof. vm_compute. reflexivity. Qed.

(** ** The blocks reachable from valid inodes *)

(** The number of slots of the inode table that the engine scans. *)
Definition table_slots (fs : FileSystem) : Z :=
  inode_blocks (meta_data fs) * INODES_PER_BLOCK.

(** The block indices reachable through the direct and indirect
    pointers of the valid inodes of the table. *)
Definition reachable_blocks (h : list Disk) (fs : FileSystem) : list Z :=
  n ← seqZ 0 (table_slots fs);
  match disk_read h (disk fs) (n / INODES_PER_BLOCK + 1) with
  | Some blk =>
      if inode_valid blk (n mod INODES_PER_BLOCK) =? 0 then []
      else inode_pointers h (disk fs) blk (n mod INODES_PER_BLOCK)
  | None => []
  end.

(** A place where a block pointer is stored: a direct pointer of an
    inode, its indirect pointer, or an entry of its indirect block. *)
Inductive loc : Type :=
| LDirect (n k : Z)
| LIndirect (n : Z)
| LEntry (n j : Z).

#[global] Instance loc_eq_dec : EqDecision loc.
Proof. solve_decision. Defined.

Definition loc_inode (l : loc) : Z :=
  match l with
  | LDirect n _ | LIndirect n | LEntry n _ => n
  end.

(** The pointer stored at a place, read from an inode block [blk] that
    holds the inode at index [i]; entries are read from the device. *)
Definition inode_ptr (h : list Disk) (dsk : option nat) (blk : Block) (i : Z)
    (l : loc) : Z :=
  match l with
  | LDirect _ k => inode_direct blk i k
  | LIndirect _ => inode_indirect blk i
  | LEntry _ j =>
      if inode_indirect blk i =? 0 then 0
      else match disk_read h dsk (inode_indirect blk i) with
           | Some ind_blk => pointers ind_blk j
           | None => 0
           end
  end.

(** The pointer stored at a place on the device; 0 where there is none. *)
Definition ptr_at (h : list Disk) (dsk : option nat) (l : loc) : Z :=
  match disk_read h dsk (loc_inode l / INODES_PER_BLOCK + 1) with
  | Some blk => inode_ptr h dsk blk (loc_inode l mod INODES_PER_BLOCK) l
  | None => 0
  end.

Definition loc_ok (fs : FileSystem) (l : loc) : Prop :=
  0 ≤ loc_inode l < table_slots fs ∧
  match l with
  | LDirect _ k => 0 ≤ k < POINTERS_PER_INODE
  | LIndirect _ => True
  | LEntry _ j => 0 ≤ j < POINTERS_PER_BLOCK
  end.

(** A place of a valid inode of the table. *)
Definition live (h : list Disk) (fs : FileSystem) (l : loc) : Prop :=
  loc_ok fs l ∧ inode_slot_valid h (disk fs) (loc_inode l) = Some true.

Lemma elem_of_reachable_blocks h fs p :
  p ∈ reachable_blocks h fs ↔
  p ≠ 0 ∧ ∃ l, live h fs l ∧ ptr_at h (disk fs) l = p.
Proof.
  unfold reachable_blocks. rewrite list_elem_of_bind.
  setoid_rewrite elem_of_seqZ. split.
  - intros (n & Hp & Hn).
    destruct (disk_read h (disk fs) (n / INODES_PER_BLOCK + 1)) as [blk|] eqn:Hblk;
      [|by apply elem_of_nil in Hp].
    destruct (inode_valid blk (n mod INODES_PER_BLOCK) =? 0) eqn:Hv;
      [by apply elem_of_nil in Hp|].
    apply elem_of_inode_pointers in Hp as [Hnz Hp]. split; [done|].
    assert (Hvalid : inode_slot_valid h (disk fs) n = Some true).
    { unfold inode_slot_valid. rewrite Hblk. simpl. by rewrite Hv. }
    destruct Hp as [(dp & Hdp & ->)|(Hind & [->|(ind_blk & ip & Hib & Hip & ->)])].
    + exists (LDirect n dp). split; [split; [split; [simpl; lia|done]|done]|].
      unfold ptr_at. simpl. by rewrite Hblk.
    + exists (LIndirect n). split; [split; [split; [simpl; lia|done]|done]|].
      unfold ptr_at. simpl. by rewrite Hblk.
    + exists (LEntry n ip). split; [split; [split; [simpl; lia|done]|done]|].
      unfold ptr_at. simpl. rewrite Hblk. simpl.
      by rewrite (proj2 (Z.eqb_neq _ _) Hind), Hib.
  - intros (Hnz & l & ((Hn & Hidx) & Hvalid) & <-).
    exists (loc_inode l). split; [|lia].
    apply inode_slot_valid_Some in Hvalid as (blk & Hblk & Hv).
    unfold ptr_at in *. rewrite Hblk in *.
    destruct (inode_valid blk _ =? 0); [done|].
    apply elem_of_inode_pointers. split; [done|].
    destruct l as [n k|n|n j]; simpl in *.
    + left. eauto.
    + right. split; [done|]. by left.
    + destruct (inode_indirect blk (n mod INODES_PER_BLOCK) =? 0) eqn:Hind; [done|].
      apply Z.eqb_neq in Hind. right. split; [done|]. right.
      destruct (disk_read h (disk fs) (inode_indirect _ _)) as [ind_blk|]; [|done].
      eauto.
Qed.

(** ** The invariant of a mounted engine *)

(** What the engine relies on in the image it mounts: the table lies
    inside the disk, free slots hold no pointers, the pointers of valid
    inodes name blocks of the data region, and no block is named
    twice. *)
Record image_ok (h : list Disk) (fs : FileSystem) : Prop := {
  img_wf : wf_store h;
  img_layout :
    0 ≤ inode_blocks (meta_data fs) < blocks (meta_data fs) ∧
    blocks (meta_data fs) ≤ disk_blocks h (disk fs) ∧
    blocks (meta_data fs) < 2 ^ 32;
  img_free_slot : ∀ l, loc_ok fs l →
    inode_slot_valid h (disk fs) (loc_inode l) = Some false →
    ptr_at h (disk fs) l = 0;
  img_range : ∀ l, live h fs l → ptr_at h (disk fs) l ≠ 0 →
    inode_blocks (meta_data fs) < ptr_at h (disk fs) l < blocks (meta_data fs);
  img_nodup : ∀ l1 l2, live h fs l1 → live h fs l2 →
    ptr_at h (disk fs) l1 = ptr_at h (disk fs) l2 →
    ptr_at h (disk fs) l1 ≠ 0 → l1 = l2
}.

(** The image together with the bitmap: the reserved blocks and every
    block named by a valid inode are marked unavailable. *)
Record fs_inv (h : list Disk) (fs : FileSystem) : Prop := {
  inv_image : image_ok h fs;
  inv_bitmap : ∃ bm, free_blocks fs = Some bm ∧
    Z.of_nat (length bm) = blocks (meta_data fs);
  inv_reserved : ∀ p, 0 ≤ p ≤ inode_blocks (meta_data fs) →
    bitmap_get (free_blocks fs) p = Ok false;
  inv_used : ∀ l, live h fs l → ptr_at h (disk fs) l ≠ 0 →
    bitmap_get (free_blocks fs) (ptr_at h (disk fs) l) = Ok false
}.

(** A block of the data region that is marked unavailable and that no
    valid inode names: allocated, not yet wired in. *)
Definition unreferenced (h : list Disk) (fs : FileSystem) (p : Z) : Prop :=
  inode_blocks (meta_data fs) < p < blocks (meta_data fs) ∧
  bitmap_get (free_blocks fs) p = Ok false ∧
  ∀ l, live h fs l → ptr_at h (disk fs) l ≠ p.

Lemma loc_ok_meta fs fs' l :
  meta_data fs' = meta_data fs → loc_ok fs' l ↔ loc_ok fs l.
Proof. intros Hm. unfold loc_ok, table_slots. by rewrite Hm. Qed.

(** A change of state that keeps every pointer, or puts an unreferenced
    block where there was none, and that may validate free slots,
    keeps the invariant. *)
Lemma fs_inv_extend h fs h' fs' :
  fs_inv h fs → wf_store h' →
  disk fs' = disk fs → meta_data fs' = meta_data fs →
  disk_blocks h' (disk fs) = disk_blocks h (disk fs) →
  (∃ bm, free_blocks fs' = Some bm ∧ Z.of_nat (length bm) = blocks (meta_data fs)) →
  (∀ p, bitmap_get (free_blocks fs) p = Ok false →
        bitmap_get (free_blocks fs') p = Ok false) →
  (∀ n, 0 ≤ n < table_slots fs →
        inode_slot_valid h' (disk fs) n = inode_slot_valid h (disk fs) n ∨
        inode_slot_valid h (disk fs) n = Some false ∧
        inode_slot_valid h' (disk fs) n = Some true) →
  (∀ l, loc_ok fs l →
        ptr_at h' (disk fs) l = ptr_at h (disk fs) l ∨
        live h fs l ∧ ptr_at h (disk fs) l = 0 ∧
        unreferenced h fs' (ptr_at h' (disk fs) l)) →
  (∀ l1 l2, loc_ok fs l1 → loc_ok fs l2 →
        ptr_at h (disk fs) l1 = 0 → ptr_at h (disk fs) l2 = 0 →
        ptr_at h' (disk fs) l1 = ptr_at h' (disk fs) l2 →
        ptr_at h' (disk fs) l1 ≠ 0 → l1 = l2) →
  fs_inv h' fs'.
Proof.
  intros [[Hwf Hlayout Hfree Hrange Hnodup] Hbm Hres Hused]
    Hwf' Hdisk Hmeta Hblocks Hbm' Hmono Hvalid Hptr Hnew.
  (* a place that is live afterwards, with a pointer, either was live
     with the same pointer or got an unreferenced block *)
  assert (Hcase : ∀ l, live h' fs' l → ptr_at h' (disk fs) l ≠ 0 →
    (live h fs l ∧ ptr_at h' (disk fs) l = ptr_at h (disk fs) l) ∨
    (live h fs l ∧ ptr_at h (disk fs) l = 0 ∧
     unreferenced h fs' (ptr_at h' (disk fs) l))).
  { intros l [Hok Hv] Hnz. rewrite Hdisk in Hv.
    apply (loc_ok_meta fs fs' l Hmeta) in Hok.
    destruct (Hptr l Hok) as [Heq|(Hlive & Hz & Hun)]; [|by right].
    left. split; [|done]. split; [done|].
    destruct (Hvalid (loc_inode l)) as [Hv'|[Hv' _]]; [apply Hok|congruence|].
    specialize (Hfree l Hok Hv'). congruence. }
  assert (Hun_old : ∀ l p, live h fs l → ptr_at h (disk fs) l ≠ 0 →
            unreferenced h fs' p → ptr_at h (disk fs) l ≠ p).
  { intros l p Hl _ (_ & _ & Hp). rewrite Hdisk in Hp. apply Hp.
    destruct Hl as [Hok Hv].
    split; [by apply (loc_ok_meta fs fs' l Hmeta)|by rewrite Hdisk]. }
  split; [split|..]; rewrite ?Hdisk, ?Hmeta; try done.
  - lia.
  - intros l Hok Hv. apply (loc_ok_meta fs fs' l Hmeta) in Hok.
    assert (Hv0 : inode_slot_valid h (disk fs) (loc_inode l) = Some false).
    { destruct (Hvalid (loc_inode l)) as [Hv'|[_ Hv']]; [apply Hok|congruence..]. }
    destruct (Hptr l Hok) as [->|([_ Hlive] & _)]; [auto|congruence].
  - intros l Hl Hnz.
    destruct (Hcase l Hl Hnz) as [[Hlive Heq]|(_ & _ & Hun & _)];
      [|by rewrite Hmeta in Hun].
    rewrite Heq in *. auto.
  - intros l1 l2 Hl1 Hl2 Heq Hnz.
    assert (Hnz2 : ptr_at h' (disk fs) l2 ≠ 0) by congruence.
    destruct (Hcase l1 Hl1 Hnz) as [[Hlive1 Heq1]|(Hlive1 & Hz1 & Hun1)],
             (Hcase l2 Hl2 Hnz2) as [[Hlive2 Heq2]|(Hlive2 & Hz2 & Hun2)].
    + apply Hnodup; congruence.
    + exfalso. eapply (Hun_old l1); [done| |exact Hun2|]; congruence.
    + exfalso. eapply (Hun_old l2); [done| |exact Hun1|]; congruence.
    + apply Hnew; try done; [apply Hlive1|apply Hlive2].
  - intros p Hp. by apply Hmono, Hres.
  - intros l Hl Hnz.
    destruct (Hcase l Hl Hnz) as [[Hlive Heq]|(_ & _ & _ & Hun & _)]; [|done].
    rewrite Heq in *. auto.
Qed.

(** ** Pointers after a write to the device *)

Lemma table_block_range fs n :
  0 ≤ n < table_slots fs →
  1 ≤ n / INODES_PER_BLOCK + 1 ≤ inode_blocks (meta_data fs).
Proof.
  unfold table_slots. intros Hn.
  pose proof (Z.div_pos n INODES_PER_BLOCK).
  assert (n / INODES_PER_BLOCK < inode_blocks (meta_data fs));
    [apply Z.div_lt_upper_bound|]; unfold INODES_PER_BLOCK in *; lia.
Qed.

Lemma inode_slot_valid_write_ne h dsk X b h' n :
  disk_write h dsk X b = Some h' → 0 ≤ X → 0 ≤ n →
  n / INODES_PER_BLOCK + 1 ≠ X →
  inode_slot_valid h' dsk n = inode_slot_valid h dsk n.
Proof.
  intros Hw HX Hn Hne. unfold inode_slot_valid.
  rewrite (disk_read_write_ne h dsk X (n / INODES_PER_BLOCK + 1) b h'); try done.
  pose proof (Z.div_pos n INODES_PER_BLOCK). unfold INODES_PER_BLOCK in *. lia.
Qed.

(** A write elsewhere than the inode block and the indirect block of a
    place keeps the pointer of the place. *)
Lemma ptr_at_write_ne h dsk X b h' l :
  disk_write h dsk X b = Some h' → 0 ≤ X → 0 ≤ loc_inode l →
  loc_inode l / INODES_PER_BLOCK + 1 ≠ X →
  (∀ n j, l = LEntry n j → ptr_at h dsk (LIndirect n) ≠ X) →
  ptr_at h' dsk l = ptr_at h dsk l.
Proof.
  intros Hw HX Hn Hne Hind. unfold ptr_at in *.
  assert (Hbn : 0 ≤ loc_inode l / INODES_PER_BLOCK + 1).
  { pose proof (Z.div_pos (loc_inode l) INODES_PER_BLOCK).
    unfold INODES_PER_BLOCK in *. lia. }
  rewrite (disk_read_write_ne h dsk X _ b h' HX Hbn (not_eq_sym Hne) Hw).
  destruct (disk_read h dsk _) as [blk|] eqn:Hblk; [|done].
  destruct l as [n k|n|n j]; simpl in *; try done.
  destruct (inode_indirect blk _ =? 0); [done|].
  specialize (Hind n j eq_refl). simpl in Hind. rewrite Hblk in Hind. simpl in Hind.
  pose proof (load32_range blk (8 * (n mod INODES_PER_BLOCK) + 7)) as Hr.
  fold (inode_indirect blk (n mod INODES_PER_BLOCK)) in Hr.
  by rewrite (disk_read_write_ne h dsk X _ b h' HX (proj1 Hr) (not_eq_sym Hind) Hw).
Qed.

(** A write to the indirect block of an inode: the entries now read
    from the new block. *)
Lemma ptr_at_write_indirect h dsk X b h' n j :
  disk_write h dsk X b = Some h' → 0 ≤ X → 0 ≤ n →
  n / INODES_PER_BLOCK + 1 ≠ X →
  ptr_at h dsk (LIndirect n) = X → X ≠ 0 →
  ptr_at h' dsk (LEntry n j) = pointers b j.
Proof.
  intros Hw HX Hn Hne Hind Hnz. unfold ptr_at in *. simpl in *.
  assert (Hbn : 0 ≤ n / INODES_PER_BLOCK + 1).
  { pose proof (Z.div_pos n INODES_PER_BLOCK). unfold INODES_PER_BLOCK in *. lia. }
  rewrite (disk_read_write_ne h dsk X _ b h' HX Hbn (not_eq_sym Hne) Hw).
  destruct (disk_read h dsk _) as [blk|] eqn:Hblk; [|done]. simpl in *.
  rewrite Hind, (proj2 (Z.eqb_neq _ _) Hnz).
  by rewrite (disk_read_write_eq h dsk X b h' HX Hw).
Qed.

(** A write of the inode block of a place: the pointer is read from
    the new block. *)
Lemma ptr_at_write_inode h dsk bn blk' h' l :
  disk_write h dsk bn blk' = Some h' → 0 ≤ bn →
  loc_inode l / INODES_PER_BLOCK + 1 = bn →
  ptr_at h' dsk l = inode_ptr h' dsk blk' (loc_inode l mod INODES_PER_BLOCK) l.
Proof.
  intros Hw Hbn Heq. unfold ptr_at. rewrite Heq.
  by rewrite (disk_read_write_eq h dsk bn blk' h' Hbn Hw).
Qed.

Lemma inode_slot_valid_write_inode h dsk bn blk' h' n :
  disk_write h dsk bn blk' = Some h' → 0 ≤ bn →
  n / INODES_PER_BLOCK + 1 = bn →
  inode_slot_valid h' dsk n
  = Some (negb (inode_valid blk' (n mod INODES_PER_BLOCK) =? 0)).
Proof.
  intros Hw Hbn Heq. unfold inode_slot_valid. rewrite Heq.
  by rewrite (disk_read_write_eq h dsk bn blk' h' Hbn Hw).
Qed.

Lemma loc_ok_nonneg fs l : loc_ok fs l → 0 ≤ loc_inode l.
Proof. intros [? _]. lia. Qed.

(** The words of an inode record. *)
Lemma inode_words_other i i' f f' :
  0 ≤ i → 0 ≤ i' → 0 ≤ f < 8 → 0 ≤ f' < 8 → i ≠ i' → 8 * i + f ≠ 8 * i' + f'.
Proof. lia. Qed.

(** ** Allocation *)

Lemma find_free_from_Some bm n : ∀ i j,
  0 ≤ i → find_free_from (Some bm) i n = Ok (Some j) →
  i ≤ j < i + Z.of_nat n ∧ bm !! Z.to_nat j = Some true.
Proof.
  induction n as [|n IH]; intros i j Hi; cbn [find_free_from]; [done|].
  unfold bitmap_get. simpl.
  destruct (bm !! Z.to_nat i) as [[|]|] eqn:Hbm; cbn [mbind res_bind]; try done.
  - intros [= <-]. split; [lia|done].
  - intros Hrec. apply IH in Hrec as [? ?]; [split; [lia|done]|lia].
Qed.

Lemma bitmap_get_set bm p q v :
  0 ≤ p < Z.of_nat (length bm) → 0 ≤ q →
  bitmap_get (Some (<[Z.to_nat p := v]> bm)) q
  = if decide (q = p) then Ok v else bitmap_get (Some bm) q.
Proof.
  intros Hp Hq. unfold bitmap_get. simpl. case_decide as Heq.
  - subst q. rewrite list_lookup_insert_eq by lia. done.
  - rewrite list_lookup_insert_ne by lia. done.
Qed.

Lemma bitmap_get_Ok bm p v :
  bitmap_get bm p = Ok v → ∃ l, bm = Some l ∧ l !! Z.to_nat p = Some v.
Proof.
  unfold bitmap_get. destruct bm as [l|]; simpl; [|done].
  destruct (l !! Z.to_nat p) eqn:E; [|done]. intros [= <-]. eauto.
Qed.

Lemma live_fs h fs fs' l :
  disk fs' = disk fs → meta_data fs' = meta_data fs →
  live h fs' l ↔ live h fs l.
Proof.
  intros Hd Hm. unfold live. by rewrite Hd, (loc_ok_meta fs fs' l Hm).
Qed.

(** [find_free_block] in a state that satisfies the invariant: either
    there is no space and nothing changes, or the block returned is in
    the data region, was available, and is now unreferenced. *)
Lemma fs_inv_alloc h fs nb fs1 :
  fs_inv h fs → find_free_block fs = Ok (nb, fs1) →
  (nb = 0 ∧ fs1 = fs) ∨
  (nb ≠ 0 ∧ fs_inv h fs1 ∧ disk fs1 = disk fs ∧ meta_data fs1 = meta_data fs ∧
   bitmap_get (free_blocks fs) nb = Ok true ∧
   unreferenced h fs1 nb ∧
   ∀ p, unreferenced h fs p → unreferenced h fs1 p).
Proof.
  intros Hinv. pose proof Hinv as [Himg (bm & Hbm & Hbmlen) Hres Hused].
  pose proof Himg as [_ Hlayout _ _ _].
  unfold find_free_block. rewrite Hbm.
  destruct (find_free_from (Some bm) 0 _) as [[j|]| |] eqn:Hfind;
    cbn [mbind res_bind]; try done; [|intros [= <- <-]; by left].
  apply find_free_from_Some in Hfind as [Hj Hbmj]; [|done].
  rewrite Z2Nat.id in Hj by lia.
  rewrite bitmap_set_Some by lia. cbn [mbind res_bind]. intros [= <- <-].
  assert (Hjfree : bitmap_get (free_blocks fs) j = Ok true).
  { rewrite Hbm. by apply bitmap_get_Some. }
  assert (Hjdata : inode_blocks (meta_data fs) < j).
  { destruct (Z_lt_le_dec (inode_blocks (meta_data fs)) j) as [|Hle]; [done|].
    rewrite Hres in Hjfree by lia. done. }
  assert (Hmono : ∀ p, bitmap_get (free_blocks fs) p = Ok false →
            bitmap_get (Some (<[Z.to_nat j := false]> bm)) p = Ok false).
  { intros p Hp. rewrite Hbm in Hp.
    destruct (bitmap_get_Ok _ _ _ Hp) as (? & [= <-] & Hlook).
    unfold bitmap_get. simpl.
    destruct (decide (Z.to_nat j = Z.to_nat p)) as [<-|Hne].
    - rewrite list_lookup_insert_eq by lia. done.
    - rewrite list_lookup_insert_ne by done. by rewrite Hlook. }
  assert (Hjunref : ∀ l, live h fs l → ptr_at h (disk fs) l ≠ j).
  { intros l Hl Heq. rewrite <- Heq in Hjfree.
    rewrite Hused in Hjfree; [done|done|]. rewrite Heq. lia. }
  right. split; [lia|].
  split; [|split; [done|split; [done|split; [by rewrite <- Hbm|split]]]].
  - apply (fs_inv_extend h fs); try done.
    + apply Himg.
    + exists (<[Z.to_nat j := false]> bm). split; [done|].
      by rewrite length_insert.
    + intros n Hn. by left.
    + intros l Hl. by left.
  - split; [simpl; lia|]. split.
    + simpl. rewrite bitmap_get_set by lia. by rewrite decide_True.
    + intros l Hl. apply Hjunref. revert Hl. by apply live_fs.
  - intros p (Hp & Hpbm & Hpun). split; [done|]. split; [by apply Hmono|].
    intros l Hl. apply Hpun. revert Hl. by apply live_fs.
Qed.

(** ** Writes that keep the invariant *)

Lemma disk_read_in_range h dsk m :
  0 ≤ m < disk_blocks h dsk → is_Some (disk_read h dsk m).
Proof.
  unfold disk_blocks, disk_read, disk_read_buffer, disk_sanity_check.
  destruct dsk as [a|]; simpl; [|lia].
  destruct (h !! a) as [d|]; simpl; [|lia]. intros Hm.
  rewrite bool_decide_eq_false_2 by lia. simpl.
  apply lookup_lt_is_Some. lia.
Qed.

Lemma table_slot_readable h fs n :
  image_ok h fs → 0 ≤ n < table_slots fs →
  ∃ blk, disk_read h (disk fs) (n / INODES_PER_BLOCK + 1) = Some blk ∧
         inode_slot_valid h (disk fs) n
         = Some (negb (inode_valid blk (n mod INODES_PER_BLOCK) =? 0)).
Proof.
  intros [_ Hlayout _ _ _] Hn. pose proof (table_block_range fs n Hn).
  destruct (disk_read_in_range h (disk fs) (n / INODES_PER_BLOCK + 1)) as [blk Hblk];
    [lia|].
  exists blk. split; [done|]. unfold inode_slot_valid. by rewrite Hblk.
Qed.

(** In the table a slot is valid or free. *)
Lemma table_slot_cases h fs n :
  image_ok h fs → 0 ≤ n < table_slots fs →
  inode_slot_valid h (disk fs) n = Some true ∨
  inode_slot_valid h (disk fs) n = Some false.
Proof.
  intros Himg Hn. destruct (table_slot_readable h fs n Himg Hn) as (blk & _ & ->).
  destruct (negb _); auto.
Qed.

Lemma indirect_not_unreferenced h fs X :
  fs_inv h fs → unreferenced h fs X →
  ∀ n, 0 ≤ n < table_slots fs → ptr_at h (disk fs) (LIndirect n) ≠ X.
Proof.
  intros [Himg _ _ _] (HX & _ & Hun) n Hn.
  destruct (table_slot_cases h fs n Himg Hn) as [Hv|Hv].
  - apply Hun. split; [split|]; done.
  - rewrite (img_free_slot h fs Himg (LIndirect n) (conj Hn I) Hv).
    destruct Himg as [_ Hlayout _ _ _]. lia.
Qed.

Lemma indirect_not_data h fs l :
  fs_inv h fs → live h fs l → ptr_at h (disk fs) l ≠ 0 →
  (∀ n, l ≠ LIndirect n) →
  ∀ n, 0 ≤ n < table_slots fs →
       ptr_at h (disk fs) (LIndirect n) ≠ ptr_at h (disk fs) l.
Proof.
  intros [Himg _ _ _] Hl Hnz Hdata n Hn Heq.
  destruct (table_slot_cases h fs n Himg Hn) as [Hv|Hv].
  - apply (Hdata n). symmetry.
    apply (img_nodup h fs Himg (LIndirect n) l); try done; try congruence.
  - pose proof (img_free_slot h fs Himg (LIndirect n) (conj Hn I) Hv) as Hz.
    congruence.
Qed.

Lemma fs_inv_write_block h fs X b h' :
  fs_inv h fs → inode_blocks (meta_data fs) < X →
  (∀ n, 0 ≤ n < table_slots fs → ptr_at h (disk fs) (LIndirect n) ≠ X) →
  Z.of_nat (length b) = BLOCK_SIZE →
  disk_write h (disk fs) X b = Some h' →
  fs_inv h' fs ∧
  (∀ l, loc_ok fs l → ptr_at h' (disk fs) l = ptr_at h (disk fs) l) ∧
  (∀ n, 0 ≤ n < table_slots fs →
        inode_slot_valid h' (disk fs) n = inode_slot_valid h (disk fs) n) ∧
  (∀ p, unreferenced h fs p → unreferenced h' fs p).
Proof.
  intros Hinv HX Hind Hb Hw.
  pose proof Hinv as [Himg Hbm _ _]. pose proof Himg as [Hwf Hlayout _ _ _].
  assert (Hptr : ∀ l, loc_ok fs l → ptr_at h' (disk fs) l = ptr_at h (disk fs) l).
  { intros l Hl. apply (ptr_at_write_ne h (disk fs) X b h'); try done; try lia.
    - apply Hl.
    - pose proof (table_block_range fs (loc_inode l) (proj1 Hl)). lia.
    - intros n j ->. apply Hind, Hl. }
  assert (Hvalid : ∀ n, 0 ≤ n < table_slots fs →
            inode_slot_valid h' (disk fs) n = inode_slot_valid h (disk fs) n).
  { intros n Hn. apply (inode_slot_valid_write_ne h (disk fs) X b h'); try done;
      try lia. pose proof (table_block_range fs n Hn). lia. }
  split; [|split; [done|split; [done|]]].
  - apply (fs_inv_extend h fs); try done.
    + by eapply wf_store_write.
    + by eapply disk_blocks_write.
    + intros n Hn. left. auto.
    + intros l Hl. left. auto.
    + intros l1 l2 Hl1 Hl2 Hz1 _ _ Hnz. rewrite Hptr in Hnz by done. done.
  - intros p (Hp & Hpbm & Hpun). split; [done|]. split; [done|].
    intros l [Hok Hv]. rewrite Hptr by done. apply Hpun. split; [done|].
    rewrite <- Hvalid; [done|apply Hok].
Qed.

(** A new entry in the indirect block of a valid inode. *)
Lemma fs_inv_write_entry h fs n0 off X ib Y h' :
  fs_inv h fs → 0 ≤ n0 < table_slots fs →
  inode_slot_valid h (disk fs) n0 = Some true →
  0 ≤ off < POINTERS_PER_BLOCK →
  ptr_at h (disk fs) (LIndirect n0) = X → X ≠ 0 →
  disk_read h (disk fs) X = Some ib → pointers ib off = 0 →
  unreferenced h fs Y →
  disk_write h (disk fs) X (set_pointers ib off Y) = Some h' →
  fs_inv h' fs ∧
  (∀ n, 0 ≤ n < table_slots fs →
        inode_slot_valid h' (disk fs) n = inode_slot_valid h (disk fs) n) ∧
  (∀ l, loc_ok fs l → l ≠ LEntry n0 off →
        ptr_at h' (disk fs) l = ptr_at h (disk fs) l) ∧
  ptr_at h' (disk fs) (LEntry n0 off) = Y ∧
  (∀ p, unreferenced h fs p → p ≠ Y → unreferenced h' fs p).
Proof.
  intros Hinv Hn0 Hv0 Hoff HX HXnz Hib Hzero HY Hw.
  pose proof Hinv as [Himg Hbm _ _]. pose proof Himg as [Hwf Hlayout _ _ _].
  assert (Hlive0 : live h fs (LIndirect n0)) by (split; [split|]; done).
  assert (HXdata : inode_blocks (meta_data fs) < X < blocks (meta_data fs)).
  { rewrite <- HX. apply (img_range h fs Himg); [done|congruence]. }
  pose proof (wf_store_read _ _ _ _ Hwf Hib) as Hiblen.
  assert (HYw : wrap32 Y = Y).
  { apply wrap32_small. destruct HY as (? & _). lia. }
  assert (Hvalid : ∀ n, 0 ≤ n < table_slots fs →
            inode_slot_valid h' (disk fs) n = inode_slot_valid h (disk fs) n).
  { intros n Hn. apply (inode_slot_valid_write_ne h (disk fs) X (set_pointers ib off Y) h'); try done;
      try lia. pose proof (table_block_range fs n Hn). lia. }
  assert (Hentry : ∀ j, 0 ≤ j < POINTERS_PER_BLOCK →
            ptr_at h (disk fs) (LEntry n0 j) = pointers ib j ∧
            ptr_at h' (disk fs) (LEntry n0 j)
            = if decide (j = off) then Y else pointers ib j).
  { intros j Hj. split.
    - unfold ptr_at in *. simpl in *.
      destruct (disk_read h (disk fs) (n0 / INODES_PER_BLOCK + 1)); [|done].
      simpl in *. by rewrite HX, (proj2 (Z.eqb_neq _ _) HXnz), Hib.
    - rewrite (ptr_at_write_indirect h (disk fs) X (set_pointers ib off Y) h' n0 j); try done; try lia.
      + unfold set_pointers, pointers. case_decide as Hj'.
        * subst j. rewrite load32_store32_eq; [done|lia|].
          unfold POINTERS_PER_BLOCK, BLOCK_SIZE in *. lia.
        * apply load32_store32_ne; lia.
      + pose proof (table_block_range fs n0 Hn0). lia. }
  assert (Hptr : ∀ l, loc_ok fs l → l ≠ LEntry n0 off →
            ptr_at h' (disk fs) l = ptr_at h (disk fs) l).
  { intros l Hl Hne.
    assert (Hcase : (∃ j, l = LEntry n0 j) ∨ ¬ ∃ j, l = LEntry n0 j).
    { destruct l as [n k|n|n j]; try (right; intros [? [=]]; done).
      destruct (decide (n = n0)) as [->|]; [left; eauto|].
      right. intros [? [=]]. done. }
    destruct Hcase as [[j ->]|Hother].
    - destruct (Hentry j) as [-> ->]; [apply Hl|].
      rewrite decide_False; [done|congruence].
    - apply (ptr_at_write_ne h (disk fs) X (set_pointers ib off Y) h'); try done; try lia.
      + apply Hl.
      + pose proof (table_block_range fs (loc_inode l) (proj1 Hl)). lia.
      + intros n j -> Heq. apply Hother. exists j. f_equal.
        destruct (table_slot_cases h fs n Himg (proj1 Hl)) as [Hv|Hv].
        * assert (LIndirect n = LIndirect n0) as [= ->]; [|done].
          apply (img_nodup h fs Himg); try done; try congruence.
          split; [split|]; try done. apply Hl.
        * pose proof (img_free_slot h fs Himg (LIndirect n) (conj (proj1 Hl) I) Hv).
          congruence. }
  assert (HptrY : ptr_at h' (disk fs) (LEntry n0 off) = Y).
  { destruct (Hentry off Hoff) as [_ ->]. by rewrite decide_True. }
  split; [|split; [done|split; [done|split; [done|]]]].
  - apply (fs_inv_extend h fs); try done.
    + eapply wf_store_write; [done| |exact Hw].
      unfold set_pointers. by rewrite length_store32.
    + by eapply disk_blocks_write.
    + intros n Hn. left. auto.
    + intros l Hl. destruct (decide (l = LEntry n0 off)) as [->|Hne].
      * right. split; [split; [done|done]|]. split; [|by rewrite HptrY].
        destruct (Hentry off Hoff) as [-> _]. done.
      * left. auto.
    + intros l1 l2 Hl1 Hl2 Hz1 Hz2 Heq Hnz.
      destruct (decide (l1 = LEntry n0 off)) as [->|Hne1];
        [|rewrite Hptr in Hnz by done; done].
      destruct (decide (l2 = LEntry n0 off)) as [->|Hne2]; [done|].
      rewrite (Hptr l2) in Heq by done. congruence.
  - intros p (Hp & Hpbm & Hpun) HpY. split; [done|]. split; [done|].
    intros l [Hok Hv]. destruct (decide (l = LEntry n0 off)) as [->|Hne].
    + by rewrite HptrY.
    + rewrite Hptr by done. apply Hpun. split; [done|].
      rewrite <- Hvalid; [done|apply Hok].
Qed.

Lemma ptr_range h fs l :
  image_ok h fs → loc_ok fs l →
  ptr_at h (disk fs) l = 0 ∨
  inode_blocks (meta_data fs) < ptr_at h (disk fs) l < blocks (meta_data fs).
Proof.
  intros Himg Hl.
  destruct (decide (ptr_at h (disk fs) l = 0)) as [|Hnz]; [by left|right].
  destruct (table_slot_cases h fs (loc_inode l) Himg (proj1 Hl)) as [Hv|Hv].
  - by apply (img_range h fs Himg).
  - by rewrite (img_free_slot h fs Himg l Hl Hv) in Hnz.
Qed.

Lemma inode_ptr_fields h dsk blk blk' i l :
  0 ≤ i →
  match l with LDirect _ k => 0 ≤ k < POINTERS_PER_INODE | _ => True end →
  (∀ f, 2 ≤ f ≤ 7 → load32 blk' (8 * i + f) = load32 blk (8 * i + f)) →
  inode_ptr h dsk blk' i l = inode_ptr h dsk blk i l.
Proof.
  intros Hi Hk Hsame. unfold inode_ptr, inode_direct, inode_indirect.
  destruct l as [n k|n|n j].
  - rewrite <- Z.add_assoc. apply Hsame. unfold POINTERS_PER_INODE in *. lia.
  - apply Hsame. lia.
  - by rewrite (Hsame 7) by lia.
Qed.

Lemma inode_ptr_disk h h' dsk blk i l :
  (inode_indirect blk i ≠ 0 →
   disk_read h' dsk (inode_indirect blk i) = disk_read h dsk (inode_indirect blk i)) →
  inode_ptr h' dsk blk i l = inode_ptr h dsk blk i l.
Proof.
  intros Hsame. destruct l as [n k|n|n j]; simpl; try done.
  destruct (inode_indirect blk i =? 0) eqn:Hz; [done|].
  apply Z.eqb_neq in Hz. by rewrite Hsame.
Qed.

(** The inode block of a valid inode written back with changes to the
    size and the pointers of that inode only, each pointer kept or
    changed from zero to an unreferenced block. *)
Lemma fs_inv_write_inode h fs n0 blk blk' h' :
  fs_inv h fs → 0 ≤ n0 < table_slots fs →
  disk_read h (disk fs) (n0 / INODES_PER_BLOCK + 1) = Some blk →
  inode_valid blk (n0 mod INODES_PER_BLOCK) ≠ 0 →
  length blk' = length blk →
  (∀ w, 0 ≤ w →
        w < 8 * (n0 mod INODES_PER_BLOCK) + 1 ∨ 8 * (n0 mod INODES_PER_BLOCK) + 7 < w →
        load32 blk' w = load32 blk w) →
  (∀ l, loc_ok fs l → loc_inode l = n0 →
        inode_ptr h (disk fs) blk' (n0 mod INODES_PER_BLOCK) l
        = inode_ptr h (disk fs) blk (n0 mod INODES_PER_BLOCK) l ∨
        inode_ptr h (disk fs) blk (n0 mod INODES_PER_BLOCK) l = 0 ∧
        unreferenced h fs (inode_ptr h (disk fs) blk' (n0 mod INODES_PER_BLOCK) l)) →
  (∀ l1 l2, loc_ok fs l1 → loc_ok fs l2 → loc_inode l1 = n0 → loc_inode l2 = n0 →
        inode_ptr h (disk fs) blk (n0 mod INODES_PER_BLOCK) l1 = 0 →
        inode_ptr h (disk fs) blk (n0 mod INODES_PER_BLOCK) l2 = 0 →
        inode_ptr h (disk fs) blk' (n0 mod INODES_PER_BLOCK) l1
        = inode_ptr h (disk fs) blk' (n0 mod INODES_PER_BLOCK) l2 →
        inode_ptr h (disk fs) blk' (n0 mod INODES_PER_BLOCK) l1 ≠ 0 → l1 = l2) →
  disk_write h (disk fs) (n0 / INODES_PER_BLOCK + 1) blk' = Some h' →
  fs_inv h' fs ∧
  (∀ n, 0 ≤ n < table_slots fs →
        inode_slot_valid h' (disk fs) n = inode_slot_valid h (disk fs) n) ∧
  (∀ l, loc_ok fs l →
        ptr_at h' (disk fs) l
        = if decide (loc_inode l = n0)
          then inode_ptr h (disk fs) blk' (n0 mod INODES_PER_BLOCK) l
          else ptr_at h (disk fs) l) ∧
  (∀ p, unreferenced h fs p →
        (∀ l, loc_ok fs l → loc_inode l = n0 →
              inode_ptr h (disk fs) blk' (n0 mod INODES_PER_BLOCK) l ≠ p) →
        unreferenced h' fs p).
Proof.
  intros Hinv Hn0 Hblk Hvalid0 Hlen Hwords Hkeep Hnew Hw.
  pose proof Hinv as [Himg Hbm _ _]. pose proof Himg as [Hwf Hlayout _ _ _].
  pose proof (table_block_range fs n0 Hn0) as Hbn.
  pose proof (inode_index_range n0) as Hi0.
  set (bn := n0 / INODES_PER_BLOCK + 1) in *.
  set (i0 := n0 mod INODES_PER_BLOCK) in *.
  assert (Hold : ∀ l, loc_inode l = n0 →
            ptr_at h (disk fs) l = inode_ptr h (disk fs) blk i0 l).
  { intros l Hl. unfold ptr_at. rewrite Hl. fold bn i0. by rewrite Hblk. }
  (* reads of data blocks are as before *)
  assert (Hdata : ∀ X, inode_blocks (meta_data fs) < X →
            disk_read h' (disk fs) X = disk_read h (disk fs) X).
  { intros X HX. apply (disk_read_write_ne h (disk fs) bn X blk' h'); try done; lia. }
  assert (Hvalid : ∀ n, 0 ≤ n < table_slots fs →
            inode_slot_valid h' (disk fs) n = inode_slot_valid h (disk fs) n).
  { intros n Hn. destruct (decide (n / INODES_PER_BLOCK + 1 = bn)) as [Heq|Hne].
    - rewrite (inode_slot_valid_write_inode h (disk fs) bn blk' h' n Hw); [|lia|done].
      unfold inode_slot_valid. rewrite Heq, Hblk. simpl. unfold inode_valid.
      rewrite Hwords; [done| |].
      + pose proof (inode_index_range n). lia.
      + pose proof (inode_index_range n).
        destruct (decide (n mod INODES_PER_BLOCK = i0)) as [->|]; lia.
    - apply (inode_slot_valid_write_ne h (disk fs) bn blk' h'); try done; lia. }
  assert (Hptr : ∀ l, loc_ok fs l →
            ptr_at h' (disk fs) l
            = if decide (loc_inode l = n0) then inode_ptr h (disk fs) blk' i0 l
              else ptr_at h (disk fs) l).
  { intros l Hl. case_decide as Hn.
    - rewrite (ptr_at_write_inode h (disk fs) bn blk' h' l Hw); [|lia|by rewrite Hn].
      rewrite Hn. fold i0. apply inode_ptr_disk. intros Hnz. apply Hdata.
      destruct (Hkeep (LIndirect n0) (conj Hn0 I) eq_refl) as [Heq|[_ (HX & _)]];
        simpl in *; [|lia].
      destruct (ptr_range h fs (LIndirect n0) Himg (conj Hn0 I)) as [Hz|Hr];
        rewrite (Hold (LIndirect n0) eq_refl) in *; simpl in *; [congruence|].
      rewrite Heq. lia.
    - destruct (decide (loc_inode l / INODES_PER_BLOCK + 1 = bn)) as [Heq|Hne].
      + rewrite (ptr_at_write_inode h (disk fs) bn blk' h' l Hw); [|lia|done].
        pose proof (inode_index_range (loc_inode l)) as Hi.
        assert (Hi' : loc_inode l mod INODES_PER_BLOCK ≠ i0).
        { intros Hmod. apply Hn.
          pose proof (Z.div_mod (loc_inode l) INODES_PER_BLOCK).
          pose proof (Z.div_mod n0 INODES_PER_BLOCK).
          unfold INODES_PER_BLOCK in *. subst bn i0. lia. }
        unfold ptr_at. rewrite Heq, Hblk.
        rewrite (inode_ptr_fields h' (disk fs) blk blk');
          [|lia|destruct l; try done; apply Hl|intros f Hf; apply Hwords; lia].
        apply inode_ptr_disk. intros Hnz. apply Hdata.
        destruct (ptr_range h fs (LIndirect (loc_inode l)) Himg (conj (proj1 Hl) I))
          as [Hz|Hr]; unfold ptr_at in *; simpl in *; rewrite Heq, Hblk in *;
          simpl in *; [congruence|lia].
      + apply (ptr_at_write_ne h (disk fs) bn blk' h'); try done; try lia.
        * apply Hl.
        * intros n j ->.
          destruct (ptr_range h fs (LIndirect n) Himg (conj (proj1 Hl) I)); lia. }
  split; [|split; [done|split; [done|]]].
  - apply (fs_inv_extend h fs); try done.
    + eapply wf_store_write; [done| |exact Hw].
      rewrite Hlen. by eapply wf_store_read.
    + by eapply disk_blocks_write.
    + intros n Hn. left. auto.
    + intros l Hl. rewrite (Hptr l Hl). case_decide as Hn; [|by left].
      rewrite (Hold l Hn). destruct (Hkeep l Hl Hn) as [?|[? ?]]; [by left|right].
      split; [|done]. split; [done|]. rewrite Hn.
      unfold inode_slot_valid. fold bn. rewrite Hblk. simpl. fold i0.
      by rewrite (proj2 (Z.eqb_neq _ _) Hvalid0).
    + intros l1 l2 Hl1 Hl2 Hz1 Hz2. rewrite (Hptr l1 Hl1), (Hptr l2 Hl2).
      destruct (decide (loc_inode l1 = n0)) as [Hn1|Hn1]; [|congruence].
      destruct (decide (loc_inode l2 = n0)) as [Hn2|Hn2]; [|congruence].
      rewrite (Hold l1 Hn1) in Hz1. rewrite (Hold l2 Hn2) in Hz2.
      by apply Hnew.
  - intros p (Hp & Hpbm & Hpun) Hfresh. split; [done|]. split; [done|].
    intros l [Hok Hv]. rewrite (Hptr l Hok). case_decide as Hn; [by apply Hfresh|].
    apply Hpun. split; [done|]. rewrite <- Hvalid; [done|apply Hok].
Qed.

(** ** A turn of the write loop keeps the invariant *)

Lemma length_blit {A : Type} (dst src : list A) off :
  (off + length src ≤ length dst)%nat → length (blit dst off src) = length dst.
Proof.
  intros Hfit. unfold blit. rewrite !length_app, length_take, length_drop. lia.
Qed.

Lemma copy_in_length data_blk doff data nwrite ncopy b :
  copy_in data_blk doff data nwrite ncopy = Ok b →
  0 ≤ doff → 0 ≤ ncopy → 0 ≤ nwrite →
  Z.of_nat (length data_blk) = BLOCK_SIZE →
  Z.of_nat (length b) = BLOCK_SIZE.
Proof.
  unfold copy_in. repeat case_bool_decide; try done.
  intros [= <-] Hdoff Hncopy Hnwrite Hlen.
  rewrite length_blit; [done|]. rewrite length_take, length_drop. lia.
Qed.

Lemma byte_at_zero_block o : byte_at zero_block o = 0.
Proof.
  unfold byte_at, zero_block.
  destruct (replicate _ _ !! o) as [b|] eqn:Hb; [|done].
  by apply lookup_replicate in Hb as [-> _].
Qed.

Lemma load32_zero_block w : load32 zero_block w = 0.
Proof. unfold load32. by rewrite !byte_at_zero_block. Qed.

Section finish.
Variables (n0 offset nwrite ncopy : Z).
Let bnum := n0 / INODES_PER_BLOCK + 1.
Let idx := n0 mod INODES_PER_BLOCK.

(** The end of a turn: [blk] is the inode block on the device and
    [blk1] the one in memory, where pointers of inode [n0] may have
    been set from zero to unreferenced blocks. *)
Lemma write_finish_inv h fs blk blk1 h' fs' blk' :
  fs_inv h fs → 0 ≤ n0 < table_slots fs →
  disk_read h (disk fs) bnum = Some blk →
  inode_valid blk idx ≠ 0 →
  length blk1 = length blk →
  (∀ w, 0 ≤ w → w < 8 * idx + 2 ∨ 8 * idx + 7 < w → load32 blk1 w = load32 blk w) →
  (∀ l, loc_ok fs l → loc_inode l = n0 →
        inode_ptr h (disk fs) blk1 idx l = inode_ptr h (disk fs) blk idx l ∨
        inode_ptr h (disk fs) blk idx l = 0 ∧
        unreferenced h fs (inode_ptr h (disk fs) blk1 idx l)) →
  (∀ l1 l2, loc_ok fs l1 → loc_ok fs l2 → loc_inode l1 = n0 → loc_inode l2 = n0 →
        inode_ptr h (disk fs) blk idx l1 = 0 →
        inode_ptr h (disk fs) blk idx l2 = 0 →
        inode_ptr h (disk fs) blk1 idx l1 = inode_ptr h (disk fs) blk1 idx l2 →
        inode_ptr h (disk fs) blk1 idx l1 ≠ 0 → l1 = l2) →
  write_finish h fs blk1 bnum idx offset nwrite ncopy = WNext h' fs' blk' →
  fs_inv h' fs' ∧ fs' = fs ∧
  disk_read h' (disk fs) bnum = Some blk' ∧ inode_valid blk' idx ≠ 0.
Proof.
  intros Hinv Hn0 Hblk Hvalid Hlen Hwords Hkeep Hnew.
  unfold write_finish. intros [= <- <- <-].
  pose proof (inode_index_range n0) as Hi0. fold idx in Hi0.
  pose proof (table_block_range fs n0 Hn0) as Hbn. fold bnum in Hbn.
  set (blk' := if bool_decide _ then _ else _).
  assert (Hlen' : length blk' = length blk).
  { subst blk'. case_bool_decide; [|done].
    unfold set_inode_size. by rewrite length_store32. }
  assert (Hwords' : ∀ w, 0 ≤ w → w ≠ 8 * idx + 1 → load32 blk' w = load32 blk1 w).
  { intros w Hw Hne. subst blk'. case_bool_decide; [|done].
    unfold set_inode_size. apply load32_store32_ne; lia. }
  assert (Hptr' : ∀ l, loc_ok fs l →
            inode_ptr h (disk fs) blk' idx l = inode_ptr h (disk fs) blk1 idx l).
  { intros l Hl. apply inode_ptr_fields; [lia|destruct l; try done; apply Hl|].
    intros f Hf. apply Hwords'; lia. }
  destruct (disk_write_is_Some h (disk fs) bnum blk blk' Hblk) as [h' Hh'].
  rewrite Hh'. cbn [default].
  destruct (fs_inv_write_inode h fs n0 blk blk' h') as (Hinv' & _); try done.
  - intros w Hw Hout. rewrite Hwords' by (fold idx in Hout; lia).
    apply Hwords; [done|]. fold idx in Hout. lia.
  - intros l Hl Hn. fold idx. rewrite (Hptr' l Hl). by apply Hkeep.
  - intros l1 l2 Hl1 Hl2 Hn1 Hn2. fold idx. rewrite (Hptr' l1 Hl1), (Hptr' l2 Hl2).
    by apply Hnew.
  - split; [done|]. split; [done|]. split.
    + apply (disk_read_write_eq h (disk fs) bnum blk' h'); [lia|done].
    + unfold inode_valid in *. rewrite Hwords', Hwords; [done|lia|lia|lia|lia].
Qed.

(** The special case where no pointer changes. *)
Lemma write_finish_inv_same h fs blk h' fs' blk' :
  fs_inv h fs → 0 ≤ n0 < table_slots fs →
  disk_read h (disk fs) bnum = Some blk →
  inode_valid blk idx ≠ 0 →
  write_finish h fs blk bnum idx offset nwrite ncopy = WNext h' fs' blk' →
  fs_inv h' fs' ∧ fs' = fs ∧
  disk_read h' (disk fs) bnum = Some blk' ∧ inode_valid blk' idx ≠ 0.
Proof.
  intros Hinv Hn0 Hblk Hvalid.
  apply (write_finish_inv h fs blk blk); try done.
  all: try (intros l _ _; by left).
  all: try (intros l1 l2 _ _ _ _ Hz1 _ _ Hnz; congruence).
Qed.
End finish.

Lemma fs_inv_write_unreferenced h fs X b h' :
  fs_inv h fs → unreferenced h fs X →
  Z.of_nat (length b) = BLOCK_SIZE →
  disk_write h (disk fs) X b = Some h' →
  fs_inv h' fs ∧
  (∀ l, loc_ok fs l → ptr_at h' (disk fs) l = ptr_at h (disk fs) l) ∧
  (∀ n, 0 ≤ n < table_slots fs →
        inode_slot_valid h' (disk fs) n = inode_slot_valid h (disk fs) n) ∧
  (∀ p, unreferenced h fs p → unreferenced h' fs p).
Proof.
  intros Hinv Hunref Hlen Hw.
  apply (fs_inv_write_block h fs X b h'); try done.
  - apply Hunref.
  - by apply indirect_not_unreferenced.
Qed.

Lemma fs_inv_write_data h fs l X b h' :
  fs_inv h fs → live h fs l → ptr_at h (disk fs) l = X → X ≠ 0 →
  (∀ n, l ≠ LIndirect n) →
  Z.of_nat (length b) = BLOCK_SIZE →
  disk_write h (disk fs) X b = Some h' →
  fs_inv h' fs ∧
  (∀ l, loc_ok fs l → ptr_at h' (disk fs) l = ptr_at h (disk fs) l) ∧
  (∀ n, 0 ≤ n < table_slots fs →
        inode_slot_valid h' (disk fs) n = inode_slot_valid h (disk fs) n) ∧
  (∀ p, unreferenced h fs p → unreferenced h' fs p).
Proof.
  intros Hinv Hlive <- Hnz Hdata Hlen Hw.
  apply (fs_inv_write_block h fs (ptr_at h (disk fs) l) b h'); try done.
  - apply (img_range h fs (inv_image h fs Hinv) l Hlive Hnz).
  - by apply indirect_not_data.
Qed.

(** What a turn leaves: the invariant, and for the next turn the inode
    block in memory equal to the one on the device. *)
Definition turn_post (fs : FileSystem) (bn i0 : Z) (s : wstep) : Prop :=
  match s with
  | WReturn _ h' fs' =>
      fs_inv h' fs' ∧ disk fs' = disk fs ∧ meta_data fs' = meta_data fs
  | WNext h' fs' blk' =>
      fs_inv h' fs' ∧ disk fs' = disk fs ∧ meta_data fs' = meta_data fs ∧
      disk_read h' (disk fs) bn = Some blk' ∧ inode_valid blk' i0 ≠ 0
  end.

Section turn_inv.
Variables (n0 : Z) (data : list byte) (offset db doff ncopy nwrite : Z).
Let bn := n0 / INODES_PER_BLOCK + 1.
Let i0 := n0 mod INODES_PER_BLOCK.
Hypothesis Hdoff : 0 ≤ doff.
Hypothesis Hncopy : 0 ≤ ncopy.
Hypothesis Hnwrite : 0 ≤ nwrite.

Lemma slot_of_block h fs blk :
  disk_read h (disk fs) bn = Some blk → inode_valid blk i0 ≠ 0 →
  inode_slot_valid h (disk fs) n0 = Some true ∧
  ∀ l, loc_inode l = n0 → ptr_at h (disk fs) l = inode_ptr h (disk fs) blk i0 l.
Proof.
  intros Hblk Hvalid. split.
  - unfold inode_slot_valid. fold bn i0. rewrite Hblk. cbn.
    by rewrite (proj2 (Z.eqb_neq _ _) Hvalid).
  - intros l Hl. unfold ptr_at. rewrite Hl. fold bn i0. by rewrite Hblk.
Qed.

Lemma write_direct_inv h fs blk s :
  fs_inv h fs → 0 ≤ n0 < table_slots fs →
  disk_read h (disk fs) bn = Some blk → inode_valid blk i0 ≠ 0 →
  0 ≤ db < POINTERS_PER_INODE →
  write_direct h fs blk bn i0 data offset db doff ncopy nwrite = Ok s →
  turn_post fs bn i0 s.
Proof.
  intros Hinv Hn0 Hblk Hvalid Hdb.
  pose proof (inode_index_range n0) as Hi0. fold i0 in Hi0.
  pose proof (table_block_range fs n0 Hn0) as Hbn. fold bn in Hbn.
  destruct (slot_of_block h fs blk Hblk Hvalid) as [Hslot Hptr].
  pose proof (wf_store_read h _ _ _ (img_wf _ _ (inv_image _ _ Hinv)) Hblk) as Hlen.
  assert (Hdb' : 0 ≤ db < 5) by (unfold POINTERS_PER_INODE in Hdb; lia).
  unfold write_direct. intros (r1 & Hr1 & Hrest)%bind_Ok.
  destruct (inode_direct blk i0 db =? 0) eqn:Hp.
  - apply Z.eqb_eq in Hp.
    apply bind_Ok in Hr1 as ([nb fs1] & Hfree & Hr1).
    destruct (fs_inv_alloc h fs nb fs1 Hinv Hfree)
      as [[-> ->]|(Hnb & Hinv1 & Hdisk1 & Hmeta1 & Hwas & Hunref & Hkeep)].
    { cbn in Hr1. injection Hr1 as <-. injection Hrest as <-. by cbn. }
    rewrite (proj2 (Z.eqb_neq _ _) Hnb) in Hr1. injection Hr1 as <-.
    set (blk1 := set_inode_direct blk i0 db nb) in *.
    assert (Hnew : inode_direct blk1 i0 db = nb).
    { unfold blk1, inode_direct, set_inode_direct.
      rewrite load32_store32_eq.
      - apply wrap32_small. destruct Hunref as [Hr _].
        pose proof (img_layout _ _ (inv_image _ _ Hinv1)). lia.
      - lia.
      - unfold POINTERS_PER_INODE, INODES_PER_BLOCK, BLOCK_SIZE in *. lia. }
    rewrite Hnew in Hrest.
    destruct (disk_read h (disk fs) nb) as [data_blk|] eqn:Hdata;
      [|injection Hrest as <-; by cbn].
    apply bind_Ok in Hrest as (data_blk' & Hcopy & Hrest).
    destruct (disk_write h (disk fs) nb data_blk') as [h1|] eqn:Hw;
      [|injection Hrest as <-; by cbn].
    apply Ok_inj in Hrest.
    rewrite <- Hdisk1 in Hw, Hblk, Hdata.
    destruct (fs_inv_write_unreferenced h fs1 nb data_blk' h1)
      as (Hinv1' & Hptr1 & Hval1 & Hunref1); try done.
    { apply (copy_in_length _ _ _ _ _ _ Hcopy); try done.
      apply (wf_store_read h _ _ _ (img_wf _ _ (inv_image _ _ Hinv)) Hdata). }
    assert (Hn1 : 0 ≤ n0 < table_slots fs1).
    { unfold table_slots in *. by rewrite Hmeta1. }
    assert (Hblk1 : disk_read h1 (disk fs1) bn = Some blk).
    { rewrite <- Hblk. apply (disk_read_write_ne h (disk fs1) nb bn data_blk' h1);
        [|lia| |done]; destruct Hunref as [Hr _]; rewrite Hmeta1 in Hr;
        pose proof (img_layout _ _ (inv_image _ _ Hinv)); lia. }
    assert (Hchg : ∀ l, loc_ok fs1 l → loc_inode l = n0 →
              l = LDirect n0 db ∨
              inode_ptr h1 (disk fs1) blk1 i0 l = inode_ptr h1 (disk fs1) blk i0 l).
    { intros l Hl Hn.
      destruct (decide (l = LDirect n0 db)) as [|Hne]; [by left|right].
      destruct l as [n k|n|n j]; cbn in Hn; subst n; cbn.
      - unfold blk1, inode_direct, set_inode_direct. apply load32_store32_ne.
        + lia.
        + destruct Hl as [_ Hk]. lia.
        + intros Heq. apply Hne. f_equal. lia.
      - unfold blk1, inode_indirect, set_inode_direct. apply load32_store32_ne; lia.
      - replace (inode_indirect blk1 i0) with (inode_indirect blk i0); [done|].
        unfold blk1, inode_indirect, set_inode_direct. symmetry.
        apply load32_store32_ne; lia. }
    destruct s as [r h' fs'|h' fs' blk']; [done|].
    destruct (write_finish_inv n0 offset nwrite ncopy h1 fs1 blk blk1 h' fs' blk')
      as (Hinv' & -> & Hblk' & Hvalid'); try done.
    + unfold blk1, set_inode_direct. by rewrite length_store32.
    + intros w Hw0 Hout. unfold blk1, set_inode_direct.
      apply load32_store32_ne; lia.
    + intros l Hl Hn. destruct (Hchg l Hl Hn) as [->|Heq]; [right|by left].
      fold i0. cbn [inode_ptr]. rewrite Hnew. split; [done|]. by apply Hunref1.
    + fold i0. intros l1 l2 Hl1 Hl2 Hn1' Hn2' Hz1 Hz2 Heq Hnz.
      destruct (Hchg l1 Hl1 Hn1') as [->|Heq1]; [|congruence].
      destruct (Hchg l2 Hl2 Hn2') as [->|Heq2]; [done|congruence].
    + cbn. by rewrite <- Hdisk1.
  - apply Z.eqb_neq in Hp. injection Hr1 as <-.
    destruct (disk_read h (disk fs) (inode_direct blk i0 db)) as [data_blk|] eqn:Hdata;
      [|injection Hrest as <-; by cbn].
    apply bind_Ok in Hrest as (data_blk' & Hcopy & Hrest).
    destruct (disk_write h (disk fs) (inode_direct blk i0 db) data_blk') as [h1|] eqn:Hw;
      [|injection Hrest as <-; by cbn].
    apply Ok_inj in Hrest.
    assert (Hlive : live h fs (LDirect n0 db)) by done.
    destruct (fs_inv_write_data h fs (LDirect n0 db) (inode_direct blk i0 db)
                data_blk' h1 Hinv Hlive)
      as (Hinv1' & Hptr1 & Hval1 & Hunref1); try done.
    { by rewrite Hptr. }
    { apply (copy_in_length _ _ _ _ _ _ Hcopy); try done.
      apply (wf_store_read h _ _ _ (img_wf _ _ (inv_image _ _ Hinv)) Hdata). }
    assert (Hblk1 : disk_read h1 (disk fs) bn = Some blk).
    { rewrite <- Hblk.
      pose proof (img_range h fs (inv_image h fs Hinv) (LDirect n0 db) Hlive) as Hr.
      rewrite Hptr in Hr by done. cbn [inode_ptr] in Hr. specialize (Hr Hp).
      apply (disk_read_write_ne h (disk fs) (inode_direct blk i0 db) bn data_blk' h1);
        [| | |done].
      all: pose proof (img_layout _ _ (inv_image _ _ Hinv)); lia. }
    destruct s as [r h' fs'|h' fs' blk']; [done|].
    destruct (write_finish_inv_same n0 offset nwrite ncopy h1 fs blk h' fs' blk')
      as (Hinv' & -> & Hblk' & Hvalid'); try done.
Qed.

Lemma write_indirect_inv h fs blk s :
  fs_inv h fs → 0 ≤ n0 < table_slots fs →
  disk_read h (disk fs) bn = Some blk → inode_valid blk i0 ≠ 0 →
  POINTERS_PER_INODE ≤ db →
  write_indirect h fs blk bn i0 data offset db doff ncopy nwrite = Ok s →
  turn_post fs bn i0 s.
Proof.
  intros Hinv Hn0 Hblk Hvalid Hdb.
  pose proof (inode_index_range n0) as Hi0. fold i0 in Hi0.
  pose proof (table_block_range fs n0 Hn0) as Hbn. fold bn in Hbn.
  destruct (slot_of_block h fs blk Hblk Hvalid) as [Hslot Hptr].
  pose proof (img_wf _ _ (inv_image _ _ Hinv)) as Hwf.
  pose proof (img_layout _ _ (inv_image _ _ Hinv)) as Hlay.
  pose proof (wf_store_read h _ _ _ Hwf Hblk) as Hlen.
  unfold write_indirect. set (off := db - POINTERS_PER_INODE).
  assert (Hoff0 : 0 ≤ off) by (unfold off; lia).
  assert (Hi0' : 0 ≤ i0 < 128) by (unfold INODES_PER_BLOCK in Hi0; lia).
  assert (Hlen' : Z.of_nat (length blk) = 4096) by (by rewrite Hlen).
  intros (r1 & Hr1 & Hrest)%bind_Ok.
  destruct (inode_indirect blk i0 =? 0) eqn:Hind.
  - (* no indirect block yet *)
    apply Z.eqb_eq in Hind.
    apply bind_Ok in Hr1 as ([X fs1] & Hfree & Hr1).
    destruct (fs_inv_alloc h fs X fs1 Hinv Hfree)
      as [[-> ->]|(HX & Hinv1 & Hdisk1 & Hmeta1 & HwasX & HunrefX & Hkeep1)].
    { cbn in Hr1. injection Hr1 as <-. injection Hrest as <-. by cbn. }
    rewrite (proj2 (Z.eqb_neq _ _) HX) in Hr1. injection Hr1 as <-.
    case_bool_decide as Hoff; [done|].
    assert (Hoff' : off < 1024) by (unfold POINTERS_PER_BLOCK in Hoff; lia).
    apply bind_Ok in Hrest as (r2 & Hr2 & Hrest).
    unfold pointers at 1 in Hr2. rewrite load32_zero_block in Hr2.
    cbn [Z.eqb] in Hr2.
    apply bind_Ok in Hr2 as ([Y fs2] & Hfree2 & Hr2).
    destruct (fs_inv_alloc h fs1 Y fs2 Hinv1 Hfree2)
      as [[-> ->]|(HY & Hinv2 & Hdisk2 & Hmeta2 & HwasY & HunrefY & Hkeep2)].
    { cbn in Hr2. injection Hr2 as <-. injection Hrest as <-. by cbn. }
    rewrite (proj2 (Z.eqb_neq _ _) HY) in Hr2.
    set (blk1 := set_inode_indirect blk i0 X) in *.
    assert (HrX : inode_blocks (meta_data fs) < X < blocks (meta_data fs)).
    { destruct HunrefX as [Hr _]. by rewrite Hmeta1 in Hr. }
    assert (HrY : inode_blocks (meta_data fs) < Y < blocks (meta_data fs)).
    { destruct HunrefY as [Hr _]. by rewrite Hmeta2, Hmeta1 in Hr. }
    assert (HnewX : inode_indirect blk1 i0 = X).
    { unfold blk1, inode_indirect, set_inode_indirect.
      rewrite load32_store32_eq; [apply wrap32_small|..]; lia. }
    rewrite HnewX in Hr2.
    set (ib' := set_pointers zero_block off Y) in *.
    assert (Hdisk : disk fs2 = disk fs) by congruence.
    assert (Hmeta : meta_data fs2 = meta_data fs) by congruence.
    destruct (disk_write h (disk fs) X ib') as [h1|] eqn:Hw1; injection Hr2 as <-;
      [|injection Hrest as <-; by cbn].
    apply bind_Ok in Hrest as (data_blk' & Hcopy & Hrest).
    assert (HptrY : pointers ib' off = Y).
    { unfold ib', pointers, set_pointers.
      rewrite load32_store32_eq; [apply wrap32_small|..]; try lia.
      pose proof length_zero_block. unfold BLOCK_SIZE in *. lia. }
    rewrite HptrY in Hrest.
    assert (HXY : X ≠ Y).
    { intros ->. destruct HunrefX as (_ & Hb & _). congruence. }
    rewrite <- Hdisk in Hw1, Hrest, Hblk.
    destruct (fs_inv_write_unreferenced h fs2 X ib' h1)
      as (Hinv2' & Hptr2 & Hval2 & Hunref2); try done.
    { by apply Hkeep2. }
    { unfold ib', set_pointers. rewrite length_store32. apply length_zero_block. }
    destruct (disk_write h1 (disk fs2) Y data_blk') as [h2|] eqn:Hw2;
      [|injection Hrest as <-; by cbn].
    apply Ok_inj in Hrest.
    destruct (fs_inv_write_unreferenced h1 fs2 Y data_blk' h2)
      as (Hinv3 & Hptr3 & Hval3 & Hunref3); try done.
    { by apply Hunref2. }
    { apply (copy_in_length _ _ _ _ _ _ Hcopy); try done; apply length_zero_block. }
    assert (Hn2 : 0 ≤ n0 < table_slots fs2).
    { unfold table_slots in *. by rewrite Hmeta. }
    assert (Hblk2 : disk_read h2 (disk fs2) bn = Some blk).
    { rewrite <- Hblk.
      rewrite (disk_read_write_ne h1 (disk fs2) Y bn data_blk' h2); [|lia..|done].
      apply (disk_read_write_ne h (disk fs2) X bn ib' h1); [lia..|done]. }
    assert (Hib2 : disk_read h2 (disk fs2) X = Some ib').
    { rewrite (disk_read_write_ne h1 (disk fs2) Y X data_blk' h2); [|lia..|done].
      apply (disk_read_write_eq h (disk fs2) X ib' h1); [lia|done]. }
    assert (Hchg : ∀ l, loc_ok fs2 l → loc_inode l = n0 →
              l = LIndirect n0 ∨ l = LEntry n0 off ∨
              inode_ptr h2 (disk fs2) blk1 i0 l = inode_ptr h2 (disk fs2) blk i0 l).
    { intros l Hl Hn.
      destruct l as [n k|n|n j]; cbn in Hn; subst n; cbn [inode_ptr].
      - right; right. unfold blk1, inode_direct, set_inode_indirect.
        destruct Hl as [_ Hk]. unfold POINTERS_PER_INODE in Hk.
        apply load32_store32_ne; lia.
      - by left.
      - destruct (decide (j = off)) as [->|Hj]; [by right; left|right; right].
        rewrite HnewX, Hind, Hib2, (proj2 (Z.eqb_neq _ _) HX). cbn [Z.eqb].
        unfold ib', pointers, set_pointers. destruct Hl as [_ Hj'].
        rewrite load32_store32_ne by lia. apply load32_zero_block. }
    assert (HvX : inode_ptr h2 (disk fs2) blk1 i0 (LIndirect n0) = X) by done.
    assert (HvY : inode_ptr h2 (disk fs2) blk1 i0 (LEntry n0 off) = Y).
    { cbn [inode_ptr]. by rewrite HnewX, Hib2, (proj2 (Z.eqb_neq _ _) HX). }
    assert (HzX : inode_ptr h2 (disk fs2) blk i0 (LIndirect n0) = 0) by done.
    assert (HzY : inode_ptr h2 (disk fs2) blk i0 (LEntry n0 off) = 0).
    { cbn [inode_ptr]. by rewrite Hind. }
    destruct s as [r h' fs'|h' fs' blk']; [done|].
    destruct (write_finish_inv n0 offset nwrite ncopy h2 fs2 blk blk1 h' fs' blk')
      as (Hinv' & -> & Hblk' & Hvalid'); try done.
    + unfold blk1, set_inode_indirect. by rewrite length_store32.
    + intros w Hw0 Hout. unfold blk1, set_inode_indirect.
      apply load32_store32_ne; lia.
    + fold i0. intros l Hl Hn. destruct (Hchg l Hl Hn) as [->|[->|Heq]]; [right|right|by left].
      * rewrite HvX. split; [done|]. by apply Hunref3, Hunref2, Hkeep2.
      * rewrite HvY. split; [done|]. by apply Hunref3, Hunref2.
    + fold i0. intros l1 l2 Hl1 Hl2 Hn1' Hn2' Hz1 Hz2 Heq Hnz.
      destruct (Hchg l1 Hl1 Hn1') as [->|[->|Heq1]]; [| |congruence].
      all: destruct (Hchg l2 Hl2 Hn2') as [->|[->|Heq2]]; [..|congruence]; try done.
      all: rewrite HvX, HvY in Heq; congruence.
    + cbn. by rewrite <- Hdisk.
  - (* the inode has an indirect block *)
    apply Z.eqb_neq in Hind. set (X := inode_indirect blk i0) in *.
    assert (HliveX : live h fs (LIndirect n0)) by done.
    assert (HptrX : ptr_at h (disk fs) (LIndirect n0) = X) by (by rewrite Hptr).
    assert (HrX : inode_blocks (meta_data fs) < X < blocks (meta_data fs)).
    { rewrite <- HptrX. apply (img_range h fs (inv_image h fs Hinv) _ HliveX).
      by rewrite HptrX. }
    destruct (disk_read h (disk fs) X) as [ib|] eqn:Hib; injection Hr1 as <-;
      [|injection Hrest as <-; by cbn].
    case_bool_decide as Hoff; [done|].
    assert (Hoff' : off < 1024) by (unfold POINTERS_PER_BLOCK in Hoff; lia).
    assert (Hok : loc_ok fs (LEntry n0 off)).
    { split; [done|]. unfold POINTERS_PER_BLOCK. lia. }
    assert (HptrE : ptr_at h (disk fs) (LEntry n0 off) = pointers ib off).
    { rewrite Hptr by done. cbn [inode_ptr]. fold X.
      by rewrite Hib, (proj2 (Z.eqb_neq _ _) Hind). }
    apply bind_Ok in Hrest as (r2 & Hr2 & Hrest).
    destruct (pointers ib off =? 0) eqn:Hent.
    + (* the entry is allocated *)
      apply Z.eqb_eq in Hent.
      apply bind_Ok in Hr2 as ([Y fs2] & Hfree2 & Hr2).
      destruct (fs_inv_alloc h fs Y fs2 Hinv Hfree2)
        as [[-> ->]|(HY & Hinv2 & Hdisk & Hmeta & HwasY & HunrefY & Hkeep2)].
      { cbn in Hr2. injection Hr2 as <-. injection Hrest as <-. by cbn. }
      rewrite (proj2 (Z.eqb_neq _ _) HY) in Hr2.
      assert (HrY : inode_blocks (meta_data fs) < Y < blocks (meta_data fs)).
      { destruct HunrefY as [Hr _]. by rewrite Hmeta in Hr. }
      assert (Hn2 : 0 ≤ n0 < table_slots fs2).
      { unfold table_slots in *. by rewrite Hmeta. }
      fold X in Hr2.
      destruct (disk_write h (disk fs) X (set_pointers ib off Y)) as [h1|] eqn:Hw1;
        injection Hr2 as <-; [|injection Hrest as <-; by cbn].
      apply bind_Ok in Hrest as (data_blk' & Hcopy & Hrest).
      pose proof (wf_store_read h _ _ _ Hwf Hib) as Hlenib.
      assert (HptrY : pointers (set_pointers ib off Y) off = Y).
      { unfold pointers, set_pointers.
        rewrite load32_store32_eq; [apply wrap32_small|..];
          unfold BLOCK_SIZE in *; lia. }
      rewrite HptrY in Hrest.
      rewrite <- Hdisk in Hw1, Hrest, Hblk, Hib, HptrX, Hslot.
      destruct (fs_inv_write_entry h fs2 n0 off X ib Y h1)
        as (Hinv2' & Hval2 & Hptr2 & HptrY2 & Hunref2); try done.
      destruct (disk_write h1 (disk fs2) Y data_blk') as [h2|] eqn:Hw2;
        [|injection Hrest as <-; by cbn].
      apply Ok_inj in Hrest.
      assert (Hlive2 : live h1 fs2 (LEntry n0 off)).
      { split; [by apply (loc_ok_meta fs fs2)|]. cbn [loc_inode].
        by rewrite Hval2. }
      destruct (fs_inv_write_data h1 fs2 (LEntry n0 off) Y data_blk' h2 Hinv2' Hlive2)
        as (Hinv3 & Hptr3 & Hval3 & Hunref3); try done.
      { apply (copy_in_length _ _ _ _ _ _ Hcopy); try done; apply length_zero_block. }
      assert (Hblk2 : disk_read h2 (disk fs2) bn = Some blk).
      { rewrite <- Hblk.
        rewrite (disk_read_write_ne h1 (disk fs2) Y bn data_blk' h2); [|lia..|done].
        apply (disk_read_write_ne h (disk fs2) X bn (set_pointers ib off Y) h1);
          [lia..|done]. }
      destruct s as [r h' fs'|h' fs' blk']; [done|].
      destruct (write_finish_inv_same n0 offset nwrite ncopy h2 fs2 blk h' fs' blk')
        as (Hinv' & -> & Hblk' & Hvalid'); try done.
      cbn. by rewrite <- Hdisk.
    + (* the entry names a data block *)
      apply Z.eqb_neq in Hent.
      destruct (disk_read h (disk fs) (pointers ib off)) as [data_blk|] eqn:Hdata;
        injection Hr2 as <-; [|injection Hrest as <-; by cbn].
      apply bind_Ok in Hrest as (data_blk' & Hcopy & Hrest).
      destruct (disk_write h (disk fs) (pointers ib off) data_blk') as [h1|] eqn:Hw;
        [|injection Hrest as <-; by cbn].
      apply Ok_inj in Hrest.
      assert (HliveE : live h fs (LEntry n0 off)) by done.
      destruct (fs_inv_write_data h fs (LEntry n0 off) (pointers ib off)
                  data_blk' h1 Hinv HliveE)
        as (Hinv1' & Hptr1 & Hval1 & Hunref1); try done.
      { apply (copy_in_length _ _ _ _ _ _ Hcopy); try done.
        apply (wf_store_read h _ _ _ Hwf Hdata). }
      assert (Hblk1 : disk_read h1 (disk fs) bn = Some blk).
      { rewrite <- Hblk.
        pose proof (img_range h fs (inv_image h fs Hinv) _ HliveE) as Hr.
        rewrite HptrE in Hr. specialize (Hr Hent).
        apply (disk_read_write_ne h (disk fs) (pointers ib off) bn data_blk' h1);
          [lia..|done]. }
      destruct s as [r h' fs'|h' fs' blk']; [done|].
      destruct (write_finish_inv_same n0 offset nwrite ncopy h1 fs blk h' fs' blk')
        as (Hinv' & -> & Hblk' & Hvalid'); try done.
Qed.

Lemma write_turn_inv h fs blk s :
  fs_inv h fs → 0 ≤ n0 < table_slots fs →
  disk_read h (disk fs) bn = Some blk → inode_valid blk i0 ≠ 0 →
  0 ≤ db →
  write_turn h fs blk bn i0 data offset db doff ncopy nwrite = Ok s →
  turn_post fs bn i0 s.
Proof.
  intros Hinv Hn0 Hblk Hvalid Hdb. unfold write_turn. case_bool_decide.
  - by apply write_direct_inv.
  - apply write_indirect_inv; try done. lia.
Qed.
End turn_inv.

(** ** fs_write keeps the invariant *)

Lemma write_loop_inv n0 data length offset : ∀ fuel h fs blk db doff ncopy nwrite r h' fs',
  fs_inv h fs → 0 ≤ n0 < table_slots fs →
  disk_read h (disk fs) (n0 / INODES_PER_BLOCK + 1) = Some blk →
  inode_valid blk (n0 mod INODES_PER_BLOCK) ≠ 0 →
  0 ≤ db → 0 ≤ doff → (nwrite < length → 0 ≤ ncopy) → 0 ≤ nwrite →
  write_loop fuel h fs blk (n0 / INODES_PER_BLOCK + 1) (n0 mod INODES_PER_BLOCK)
    data length offset db doff ncopy nwrite = Ok (r, h', fs') →
  fs_inv h' fs' ∧ disk fs' = disk fs ∧ meta_data fs' = meta_data fs.
Proof.
  induction fuel as [|fuel IH];
    intros h fs blk db doff ncopy nwrite r h' fs' Hinv Hn0 Hblk Hvalid
      Hdb Hdoff Hncopy Hnwrite; cbn [write_loop]; case_bool_decide as Hlt;
    try done; try (by intros [= <- <- <-]).
  intros (s & Hturn & Hrest)%bind_Ok.
  pose proof (write_turn_inv n0 data offset db doff ncopy nwrite Hdoff
                (Hncopy Hlt) Hnwrite h fs blk s Hinv Hn0 Hblk Hvalid Hdb Hturn) as Hpost.
  destruct s as [r0 h0 fs0|h0 fs0 blk0]; cbn [turn_post] in Hpost.
  - by injection Hrest as <- <- <-.
  - destruct Hpost as (Hinv0 & Hdisk0 & Hmeta0 & Hblk0 & Hvalid0).
    apply IH in Hrest as (Hinv' & Hdisk' & Hmeta'); try done; try lia.
    + split; [done|]. split; congruence.
    + unfold table_slots in *. by rewrite Hmeta0.
    + by rewrite Hdisk0.
    + intros _. case_bool_decide; [unfold BLOCK_SIZE; lia|].
      unfold wrap64. apply Z.mod_pos_bound. lia.
Qed.

Lemma fs_write_inv h fs n data length offset r h' fs' :
  fs_inv h fs → 0 ≤ n < table_slots fs → 0 ≤ offset →
  fs_write h fs n data length offset = Ok (r, h', fs') →
  fs_inv h' fs' ∧ disk fs' = disk fs ∧ meta_data fs' = meta_data fs.
Proof.
  intros Hinv Hn Hoff. unfold fs_write. cbv zeta.
  destruct (disk_read h (disk fs) (n / INODES_PER_BLOCK + 1)) as [blk|] eqn:Hblk;
    [|done].
  destruct (inode_valid blk (n mod INODES_PER_BLOCK) =? 0) eqn:Hvalid.
  { by intros [= <- <- <-]. }
  apply Z.eqb_neq in Hvalid. intros Hloop.
  apply write_loop_inv in Hloop; try done.
  - apply Z.div_pos; [done|]. unfold BLOCK_SIZE. lia.
  - apply Z.mod_pos_bound. unfold BLOCK_SIZE. lia.
  - intros Hlen. case_bool_decide; [lia|].
    pose proof (Z.mod_pos_bound offset BLOCK_SIZE). unfold BLOCK_SIZE in *. lia.
Qed.

(** ** Writes of an inode block *)

(** An inode block written back with changes to one inode only: the
    other inodes of the table are as before. *)
Lemma write_inode_block h fs n0 blk blk' h' :
  image_ok h fs → 0 ≤ n0 < table_slots fs →
  disk_read h (disk fs) (n0 / INODES_PER_BLOCK + 1) = Some blk →
  length blk' = length blk →
  (∀ w, 0 ≤ w →
        w < 8 * (n0 mod INODES_PER_BLOCK) ∨ 8 * (n0 mod INODES_PER_BLOCK) + 7 < w →
        load32 blk' w = load32 blk w) →
  disk_write h (disk fs) (n0 / INODES_PER_BLOCK + 1) blk' = Some h' →
  wf_store h' ∧
  disk_blocks h' (disk fs) = disk_blocks h (disk fs) ∧
  (∀ X, inode_blocks (meta_data fs) < X →
        disk_read h' (disk fs) X = disk_read h (disk fs) X) ∧
  (∀ n, 0 ≤ n < table_slots fs → n ≠ n0 →
        inode_slot_valid h' (disk fs) n = inode_slot_valid h (disk fs) n) ∧
  inode_slot_valid h' (disk fs) n0
  = Some (negb (inode_valid blk' (n0 mod INODES_PER_BLOCK) =? 0)) ∧
  (∀ l, loc_ok fs l → loc_inode l ≠ n0 →
        ptr_at h' (disk fs) l = ptr_at h (disk fs) l) ∧
  (∀ l, loc_inode l = n0 →
        ptr_at h' (disk fs) l
        = inode_ptr h' (disk fs) blk' (n0 mod INODES_PER_BLOCK) l).
Proof.
  intros Himg Hn0 Hblk Hlen Hwords Hw.
  pose proof Himg as [Hwf Hlayout _ _ _].
  pose proof (table_block_range fs n0 Hn0) as Hbn.
  pose proof (inode_index_range n0) as Hi0.
  set (bn := n0 / INODES_PER_BLOCK + 1) in *.
  set (i0 := n0 mod INODES_PER_BLOCK) in *.
  assert (Hdata : ∀ X, inode_blocks (meta_data fs) < X →
            disk_read h' (disk fs) X = disk_read h (disk fs) X).
  { intros X HX. apply (disk_read_write_ne h (disk fs) bn X blk' h'); try done; lia. }
  assert (Hmod : ∀ n, n / INODES_PER_BLOCK + 1 = bn → n ≠ n0 →
            n mod INODES_PER_BLOCK ≠ i0).
  { intros n Hq Hne Hmod. apply Hne.
    pose proof (Z.div_mod n INODES_PER_BLOCK).
    pose proof (Z.div_mod n0 INODES_PER_BLOCK).
    unfold INODES_PER_BLOCK in *. subst bn i0. lia. }
  split; [|split; [|split; [done|split; [|split; [|split]]]]].
  - eapply wf_store_write; [done| |exact Hw].
    rewrite Hlen. by eapply wf_store_read.
  - by eapply disk_blocks_write.
  - intros n Hn Hne. destruct (decide (n / INODES_PER_BLOCK + 1 = bn)) as [Heq|Hneq].
    + rewrite (inode_slot_valid_write_inode h (disk fs) bn blk' h' n Hw); [|lia|done].
      unfold inode_slot_valid. rewrite Heq, Hblk. simpl. unfold inode_valid.
      pose proof (inode_index_range n). pose proof (Hmod n Heq Hne).
      rewrite Hwords; [done|lia|lia].
    + apply (inode_slot_valid_write_ne h (disk fs) bn blk' h'); try done; lia.
  - apply (inode_slot_valid_write_inode h (disk fs) bn blk' h' n0 Hw); [lia|done].
  - intros l Hl Hne.
    destruct (decide (loc_inode l / INODES_PER_BLOCK + 1 = bn)) as [Heq|Hneq].
    + rewrite (ptr_at_write_inode h (disk fs) bn blk' h' l Hw); [|lia|done].
      pose proof (inode_index_range (loc_inode l)) as Hi.
      pose proof (Hmod _ Heq Hne) as Hi'.
      unfold ptr_at. rewrite Heq, Hblk.
      rewrite (inode_ptr_fields h' (disk fs) blk blk');
        [|lia|destruct l; try done; apply Hl|intros f Hf; apply Hwords; lia].
      apply inode_ptr_disk. intros Hnz. apply Hdata.
      destruct (ptr_range h fs (LIndirect (loc_inode l)) Himg (conj (proj1 Hl) I))
        as [Hz|Hr]; unfold ptr_at in *; simpl in *; rewrite Heq, Hblk in *;
        simpl in *; [congruence|lia].
    + apply (ptr_at_write_ne h (disk fs) bn blk' h'); try done; try lia.
      * apply Hl.
      * intros n j ->.
        destruct (ptr_range h fs (LIndirect n) Himg (conj (proj1 Hl) I)); lia.
  - intros l Hl.
    rewrite (ptr_at_write_inode h (disk fs) bn blk' h' l Hw); [|lia|by rewrite Hl].
    by rewrite Hl.
Qed.

(** ** fs_create keeps the invariant *)

Lemma create_scan_inl blk slots : ∀ c i n,
  create_scan blk slots c = inl (i, n) → i ∈ slots ∧ inode_valid blk i = 0.
Proof.
  induction slots as [|s slots IH]; intros c i n; cbn [create_scan]; [done|].
  destruct (inode_valid blk s =? 0) eqn:Hz.
  - intros [= <- <-]. split; [left|by apply Z.eqb_eq].
  - intros [Hin Hv]%IH. split; [by right|done].
Qed.

Lemma create_loop_Ok h dsk ibs : ∀ c r h',
  create_loop h dsk ibs c = Ok (r, h') →
  h' = h ∨
  ∃ ib i blk, ib ∈ ibs ∧ 0 ≤ i < INODES_PER_BLOCK ∧
    disk_read h dsk ib = Some blk ∧ inode_valid blk i = 0 ∧
    h' = default h (disk_write h dsk ib (set_inode_valid blk i 1)).
Proof.
  induction ibs as [|ib ibs IH]; intros c r h'; cbn [create_loop].
  { intros [= <- <-]. by left. }
  destruct (disk_read h dsk ib) as [blk|] eqn:Hblk; [|done].
  destruct (create_scan blk (seqZ 0 INODES_PER_BLOCK) c) as [[i n]|n] eqn:Hscan.
  - intros [= <- <-]. right. apply create_scan_inl in Hscan as [Hi Hv].
    apply elem_of_seqZ in Hi. exists ib, i, blk.
    split; [left|]. split; [lia|done].
  - intros [Heq|(ib' & i & blk' & Hin & Hrest)]%IH; [by left|right].
    exists ib', i, blk'. split; [by right|done].
Qed.

Lemma fs_create_inv h fs r h' :
  fs_inv h fs → fs_create h fs = Ok (r, h') → fs_inv h' fs.
Proof.
  intros Hinv Hcreate. unfold fs_create in Hcreate.
  apply create_loop_Ok in Hcreate
    as [->|(ib & i & blk & Hib%elem_of_seqZ & Hi & Hblk & Hv & ->)]; [done|].
  pose proof Hinv as [Himg Hbm _ _]. pose proof Himg as [Hwf Hlayout Hfree _ _].
  destruct (disk_write_is_Some h (disk fs) ib blk (set_inode_valid blk i 1) Hblk)
    as [h' Hw].
  rewrite Hw. cbn [default].
  set (n0 := (ib - 1) * INODES_PER_BLOCK + i).
  destruct (inode_number_split ib i Hi) as [Hq Hr]. fold n0 in Hq, Hr.
  assert (Hn0 : 0 ≤ n0 < table_slots fs).
  { unfold n0, table_slots, INODES_PER_BLOCK in *. lia. }
  rewrite <- Hq in Hblk, Hw. rewrite <- Hr in Hv, Hw.
  pose proof (wf_store_read h _ _ _ Hwf Hblk) as Hlen.
  assert (Hwas : inode_slot_valid h (disk fs) n0 = Some false).
  { unfold inode_slot_valid. rewrite Hblk. simpl. by rewrite Hv. }
  destruct (write_inode_block h fs n0 blk
              (set_inode_valid blk (n0 mod INODES_PER_BLOCK) 1) h' Himg Hn0 Hblk)
    as (Hwf' & Hblocks & Hdata & Hval & Hval0 & Hptr & Hptr0); [| |exact Hw|].
  { unfold set_inode_valid. by rewrite length_store32. }
  { intros w Hw0 Hout. unfold set_inode_valid. apply load32_store32_ne; lia. }
  assert (Hsame : ∀ l, loc_ok fs l → ptr_at h' (disk fs) l = ptr_at h (disk fs) l).
  { intros l Hl. destruct (decide (loc_inode l = n0)) as [Hn|Hn]; [|by apply Hptr].
    rewrite (Hptr0 l Hn).
    pose proof (Hfree (LIndirect n0) (conj Hn0 I) Hwas) as Hzi.
    unfold ptr_at in Hzi |- *. cbn [loc_inode] in Hzi.
    rewrite Hblk in Hzi. cbn [inode_ptr] in Hzi. rewrite Hn, Hblk.
    pose proof (inode_index_range n0).
    rewrite (inode_ptr_fields h' (disk fs) blk (set_inode_valid blk _ 1)).
    - apply inode_ptr_disk. by rewrite Hzi.
    - lia.
    - destruct l; try done. apply Hl.
    - intros f Hf. unfold set_inode_valid. apply load32_store32_ne; lia. }
  apply (fs_inv_extend h fs h' fs); try done.
  - intros n Hn. destruct (decide (n = n0)) as [Heq|Hne]; [right|left; by apply Hval].
    rewrite Heq. split; [done|]. rewrite Hval0. unfold set_inode_valid, inode_valid.
    pose proof (inode_index_range n0).
    rewrite load32_store32_eq; [done|lia|].
    unfold INODES_PER_BLOCK, BLOCK_SIZE in *. lia.
  - intros l Hl. left. by apply Hsame.
  - intros l1 l2 Hl1 Hl2 Hz1 Hz2 _. rewrite (Hsame l1 Hl1). congruence.
Qed.

(** ** fs_remove keeps the invariant *)

(** A change of state that keeps or zeroes every pointer, that may
    invalidate slots, and that frees only blocks no valid inode names
    any more, keeps the invariant. *)
Lemma fs_inv_shrink h fs h' fs' :
  fs_inv h fs → wf_store h' →
  disk fs' = disk fs → meta_data fs' = meta_data fs →
  disk_blocks h' (disk fs) = disk_blocks h (disk fs) →
  (∃ bm, free_blocks fs' = Some bm ∧ Z.of_nat (length bm) = blocks (meta_data fs)) →
  (∀ n, 0 ≤ n < table_slots fs →
        inode_slot_valid h' (disk fs) n = inode_slot_valid h (disk fs) n ∨
        inode_slot_valid h' (disk fs) n = Some false) →
  (∀ l, loc_ok fs l →
        ptr_at h' (disk fs) l = ptr_at h (disk fs) l ∨ ptr_at h' (disk fs) l = 0) →
  (∀ l, loc_ok fs l → inode_slot_valid h' (disk fs) (loc_inode l) = Some false →
        ptr_at h' (disk fs) l = 0) →
  (∀ p, bitmap_get (free_blocks fs) p = Ok false →
        bitmap_get (free_blocks fs') p = Ok false ∨
        inode_blocks (meta_data fs) < p ∧
        ∀ l, live h' fs l → ptr_at h' (disk fs) l ≠ p) →
  fs_inv h' fs'.
Proof.
  intros [[Hwf Hlayout Hfree Hrange Hnodup] Hbm Hres Hused]
    Hwf' Hdisk Hmeta Hblocks Hbm' Hvalid Hptr Hfree' Hmap.
  assert (Hcase : ∀ l, live h' fs' l → ptr_at h' (disk fs) l ≠ 0 →
    live h' fs l ∧ live h fs l ∧ ptr_at h' (disk fs) l = ptr_at h (disk fs) l).
  { intros l [Hok Hv] Hnz. rewrite Hdisk in Hv.
    apply (loc_ok_meta fs fs' l Hmeta) in Hok.
    split; [done|]. split; [split; [done|]|].
    - destruct (Hvalid (loc_inode l)) as [Hv'|Hv']; [apply Hok|congruence..].
    - by destruct (Hptr l Hok) as [Heq|Hz]. }
  split; [split|..]; rewrite ?Hdisk, ?Hmeta; try done.
  - lia.
  - intros l Hok Hv. apply (loc_ok_meta fs fs' l Hmeta) in Hok. auto.
  - intros l Hl Hnz. destruct (Hcase l Hl Hnz) as (_ & Hlive & Heq).
    rewrite Heq in *. auto.
  - intros l1 l2 Hl1 Hl2 Heq Hnz.
    assert (Hnz2 : ptr_at h' (disk fs) l2 ≠ 0) by congruence.
    destruct (Hcase l1 Hl1 Hnz) as (_ & Hlive1 & Heq1).
    destruct (Hcase l2 Hl2 Hnz2) as (_ & Hlive2 & Heq2).
    apply Hnodup; congruence.
  - intros p Hp. destruct (Hmap p (Hres p Hp)) as [?|[? _]]; [done|lia].
  - intros l Hl Hnz. destruct (Hcase l Hl Hnz) as (Hlive' & Hlive & Heq).
    destruct (Hmap (ptr_at h (disk fs) l)) as [?|[_ Hno]].
    + apply Hused; [done|congruence].
    + by rewrite Heq.
    + exfalso. by apply (Hno l).
Qed.

(** What a release loop does to the bitmap and to the block it walks. *)
Lemma release_words_Ok ws : ∀ bm blk bm' blk',
  NoDup ws → (∀ w, w ∈ ws → 0 ≤ w ∧ 4 * w + 4 ≤ Z.of_nat (length blk)) →
  release_words ws (Some bm) blk = Ok (bm', blk') →
  ∃ l', bm' = Some l' ∧ length l' = length bm ∧ length blk' = length blk ∧
    (∀ w, w ∈ ws → load32 blk' w = 0) ∧
    (∀ w, 0 ≤ w → w ∉ ws → load32 blk' w = load32 blk w) ∧
    (∀ q, l' !! q = bm !! q ∨
          ∃ w, w ∈ ws ∧ load32 blk w ≠ 0 ∧ Z.to_nat (load32 blk w) = q).
Proof.
  induction ws as [|w ws IH]; intros bm blk bm' blk' Hnd Hws; cbn [release_words].
  - intros [= <- <-]. exists bm. repeat split; auto.
    intros w Hw. by apply elem_of_nil in Hw.
  - apply NoDup_cons in Hnd as [Hw Hnd].
    destruct (Hws w) as [Hw0 Hwlen]; [left|].
    destruct (load32 blk w =? 0) eqn:Hz.
    + apply Z.eqb_eq in Hz. intros Hrel.
      apply IH in Hrel as (l' & -> & Hl' & Hlen & Hzero & Hother & Hframe);
        [|done|intros; apply Hws; by right].
      exists l'. repeat split; auto.
      * intros w' [->|Hw']%elem_of_cons; [|auto]. rewrite Hother; auto.
      * intros w' Hw'0 Hw'%not_elem_of_cons. apply Hother; tauto.
      * intros q. destruct (Hframe q) as [?|(w' & Hw' & ?)]; [by left|right].
        exists w'. split; [by right|done].
    + apply Z.eqb_neq in Hz. unfold bitmap_set. case_bool_decide as Hlt; [|done].
      cbn [mbind res_bind]. intros Hrel.
      assert (Hkeep : ∀ w', w' ∈ ws → load32 (store32 blk w 0) w' = load32 blk w').
      { intros w' Hw'. apply load32_store32_ne; [done|by apply Hws; right|].
        intros ->. done. }
      apply IH in Hrel as (l' & -> & Hl' & Hlen & Hzero & Hother & Hframe); [|done|].
      2:{ intros w' Hw'. rewrite length_store32. apply Hws. by right. }
      rewrite length_insert in Hl'. rewrite length_store32 in Hlen.
      exists l'. repeat split; auto.
      * intros w' [->|Hw']%elem_of_cons; [|auto].
        rewrite Hother by done. by rewrite load32_store32_eq.
      * intros w' Hw'0 Hw'%not_elem_of_cons. rewrite Hother by tauto.
        apply load32_store32_ne; [done..|]. intros ->. tauto.
      * intros q. destruct (Hframe q) as [Heq|(w' & Hw' & Hnz & Hq)].
        -- destruct (decide (Z.to_nat (load32 blk w) = q)) as [Hq|Hq].
           ++ right. exists w. split; [left|done].
           ++ left. rewrite Heq. by apply list_lookup_insert_ne.
        -- right. exists w'. rewrite Hkeep in Hnz, Hq by done.
           split; [by right|done].
Qed.

Lemma release_indirect_Ok h dsk bm blk i h2 bm2 blk2 :
  wf_store h → 0 ≤ i → 4 * (8 * i + 7) + 4 ≤ Z.of_nat (length blk) →
  release_indirect h dsk (Some bm) blk i = Ok (h2, bm2, blk2) →
  ∃ l2, bm2 = Some l2 ∧ length l2 = length bm ∧ length blk2 = length blk ∧
    (∀ w, 0 ≤ w → w ≠ 8 * i + 7 → load32 blk2 w = load32 blk w) ∧
    inode_indirect blk2 i = 0 ∧
    (inode_indirect blk i = 0 ∧ h2 = h ∨
     inode_indirect blk i ≠ 0 ∧
     ∃ ind_blk ind', disk_read h dsk (inode_indirect blk i) = Some ind_blk ∧
       disk_write h dsk (inode_indirect blk i) ind' = Some h2 ∧
       length ind' = length ind_blk ∧
       ∀ j, 0 ≤ j < POINTERS_PER_BLOCK → pointers ind' j = 0) ∧
    (∀ q, l2 !! q = bm !! q ∨
          inode_indirect blk i ≠ 0 ∧
          (Z.to_nat (inode_indirect blk i) = q ∨
           ∃ ind_blk j, disk_read h dsk (inode_indirect blk i) = Some ind_blk ∧
             0 ≤ j < POINTERS_PER_BLOCK ∧ pointers ind_blk j ≠ 0 ∧
             Z.to_nat (pointers ind_blk j) = q)).
Proof.
  intros Hwf Hi Hlen. unfold release_indirect.
  destruct (inode_indirect blk i =? 0) eqn:Hz.
  - apply Z.eqb_eq in Hz. intros [= <- <- <-]. exists bm.
    repeat split; auto.
  - apply Z.eqb_neq in Hz.
    destruct (disk_read h dsk (inode_indirect blk i)) as [ind_blk|] eqn:Hread; [|done].
    rewrite release_pointers_words.
    pose proof (wf_store_read _ _ _ _ Hwf Hread) as Hlen_ind.
    intros ([bm' ind'] & Hrel & Hrest)%bind_Ok.
    apply release_words_Ok in Hrel
      as (l' & -> & Hl' & Hlen' & Hzero & _ & Hframe); [|apply NoDup_seqZ|].
    2:{ intros w Hw%elem_of_seqZ. unfold POINTERS_PER_BLOCK, BLOCK_SIZE in *. lia. }
    apply bind_Ok in Hrest as (bm'' & Hset & Hrest).
    unfold bitmap_set in Hset. case_bool_decide as Hlt; [|done].
    injection Hset as <-.
    destruct (disk_write_is_Some h dsk _ ind_blk ind' Hread) as [h' Hh'].
    rewrite Hh' in Hrest. cbn [default] in Hrest. injection Hrest as <- <- <-.
    eexists. split; [done|]. rewrite length_insert.
    split; [done|]. split; [apply length_store32|]. split; [|split; [|split]].
    + intros w Hw Hne. unfold set_inode_indirect. apply load32_store32_ne; lia.
    + unfold inode_indirect, set_inode_indirect.
      by rewrite load32_store32_eq by lia.
    + right. split; [done|]. exists ind_blk, ind'. repeat split; try done.
      intros j Hj. apply Hzero, elem_of_seqZ. lia.
    + intros q. destruct (decide (Z.to_nat (inode_indirect blk i) = q)) as [Hq|Hq].
      { right. split; [done|]. by left. }
      rewrite list_lookup_insert_ne by done.
      destruct (Hframe q) as [?|(w & Hw%elem_of_seqZ & Hnz & Hwq)]; [by left|right].
      split; [done|]. right. exists ind_blk, w. repeat split; try done; lia.
Qed.

Lemma fs_remove_inv h fs n r h' fs' :
  fs_inv h fs → 0 ≤ n < table_slots fs →
  fs_remove h fs n = Ok (r, h', fs') →
  fs_inv h' fs' ∧ disk fs' = disk fs ∧ meta_data fs' = meta_data fs.
Proof.
  intros Hinv Hn. unfold fs_remove. cbv zeta.
  pose proof (inode_index_range n) as Hi0.
  pose proof (table_block_range fs n Hn) as Hbn.
  destruct (disk_read h (disk fs) (n / INODES_PER_BLOCK + 1)) as [blk|] eqn:Hblk;
    [|done].
  destruct (inode_valid blk (n mod INODES_PER_BLOCK) =? 0) eqn:Hvalid.
  { by intros [= <- <- <-]. }
  apply Z.eqb_neq in Hvalid.
  pose proof Hinv as [Himg (bm & Hbm & Hbmlen) Hres Hused].
  pose proof Himg as [Hwf Hlayout Hfree Hrange Hnodup].
  destruct (slot_of_block n h fs blk Hblk Hvalid) as [Hslot Hptr].
  pose proof (wf_store_read h _ _ _ Hwf Hblk) as Hlen.
  set (bn := n / INODES_PER_BLOCK + 1) in *.
  set (i0 := n mod INODES_PER_BLOCK) in *.
  assert (Hi0' : 0 ≤ i0 < 128) by (unfold INODES_PER_BLOCK in Hi0; lia).
  assert (Hlen' : Z.of_nat (length blk) = 4096) by (by rewrite Hlen).
  rewrite Hbm, release_direct_words.
  intros ([bm1 blk1] & Hrel1 & Hrest)%bind_Ok.
  apply release_words_Ok in Hrel1
    as (l1 & -> & Hl1 & Hlen1 & Hzero1 & Hother1 & Hframe1).
  2:{ apply NoDup_fmap_2_strong; [|apply NoDup_seqZ].
      intros x y _ _ Heq. cbv beta in Heq. lia. }
  2:{ intros w (dp & -> & Hdp%elem_of_seqZ)%list_elem_of_fmap.
      unfold POINTERS_PER_INODE in *. lia. }
  apply bind_Ok in Hrest as ([[h2 bm2] blk2] & Hrel2 & Hrest).
  assert (HX : inode_indirect blk1 i0 = inode_indirect blk i0).
  { apply Hother1; [lia|].
    intros (dp & ? & Hdp%elem_of_seqZ)%list_elem_of_fmap.
    unfold POINTERS_PER_INODE in *. lia. }
  apply release_indirect_Ok in Hrel2
    as (l2 & -> & Hl2 & Hlen2 & Hother2 & Hzero2 & Hh2 & Hframe2); [|done|lia|lia].
  rewrite HX in Hh2, Hframe2.
  set (X := inode_indirect blk i0) in *.
  set (blk3 := set_inode_valid (set_inode_size blk2 i0 0) i0 0) in *.
  assert (Hlen3 : length blk3 = length blk).
  { unfold blk3, set_inode_valid, set_inode_size. rewrite !length_store32. congruence. }
  assert (Hzero3 : ∀ f, 0 ≤ f < 8 → load32 blk3 (8 * i0 + f) = 0).
  { intros f Hf. unfold blk3, set_inode_valid, set_inode_size.
    destruct (decide (f = 0)) as [->|Hf0].
    { rewrite Z.add_0_r, load32_store32_eq; [done|lia|].
      rewrite length_store32. lia. }
    rewrite load32_store32_ne by lia.
    destruct (decide (f = 1)) as [->|Hf1].
    { rewrite load32_store32_eq; [done|lia|lia]. }
    rewrite load32_store32_ne by lia.
    destruct (decide (f = 7)) as [->|Hf7]; [done|].
    rewrite Hother2 by lia. apply Hzero1, list_elem_of_fmap.
    exists (f - 2). split; [lia|]. apply elem_of_seqZ. unfold POINTERS_PER_INODE. lia. }
  assert (Hother3 : ∀ w, 0 ≤ w → w < 8 * i0 ∨ 8 * i0 + 7 < w →
            load32 blk3 w = load32 blk w).
  { intros w Hw Hout. unfold blk3, set_inode_valid, set_inode_size.
    rewrite !load32_store32_ne, Hother2, Hother1; try done; try lia.
    intros (dp & ? & Hdp%elem_of_seqZ)%list_elem_of_fmap.
    unfold POINTERS_PER_INODE in *. lia. }
  (* the blocks released are blocks that inode [n] names *)
  assert (Hframe : ∀ q, l2 !! q = bm !! q ∨
            ∃ l0, loc_ok fs l0 ∧ loc_inode l0 = n ∧
                  ptr_at h (disk fs) l0 ≠ 0 ∧ Z.to_nat (ptr_at h (disk fs) l0) = q).
  { intros q.
    destruct (Hframe2 q) as [Heq|[HXnz [Hq|(ind_blk & j & Hread & Hj & Hnz & Hq)]]].
    - rewrite Heq.
      destruct (Hframe1 q)
        as [?|(w & (dp & -> & Hdp%elem_of_seqZ)%list_elem_of_fmap & Hnz & Hq)];
        [by left|right].
      exists (LDirect n dp). rewrite Hptr by done. split; [|done].
      split; [done|]. cbn. lia.
    - right. exists (LIndirect n). rewrite Hptr by done. by split.
    - right. exists (LEntry n j). rewrite Hptr by done. cbn [inode_ptr]. fold X.
      rewrite Hread, (proj2 (Z.eqb_neq _ _) HXnz). by split. }
  (* the indirect block written back with its pointers zeroed *)
  assert (HA : fs_inv h2 fs ∧ disk_read h2 (disk fs) bn = Some blk ∧
            (∀ l, loc_ok fs l → loc_inode l ≠ n →
                  ptr_at h2 (disk fs) l = ptr_at h (disk fs) l) ∧
            (∀ n', 0 ≤ n' < table_slots fs →
                  inode_slot_valid h2 (disk fs) n' = inode_slot_valid h (disk fs) n')).
  { destruct Hh2 as [[HXz ->]|(HXnz & ind_blk & ind' & Hread & Hw & Hlenind & Hz)];
      [done|].
    assert (HliveX : live h fs (LIndirect n)) by done.
    assert (HptrX : ptr_at h (disk fs) (LIndirect n) = X) by (by rewrite Hptr).
    assert (HrX : inode_blocks (meta_data fs) < X < blocks (meta_data fs)).
    { rewrite <- HptrX. apply (Hrange _ HliveX). by rewrite HptrX. }
    assert (Hval2 : ∀ n', 0 ≤ n' < table_slots fs →
              inode_slot_valid h2 (disk fs) n' = inode_slot_valid h (disk fs) n').
    { intros n' Hn'. apply (inode_slot_valid_write_ne h (disk fs) X ind' h2);
        [done|lia|lia|]. pose proof (table_block_range fs n' Hn'). lia. }
    assert (Hkeep : ∀ l, loc_ok fs l → (∀ j, l ≠ LEntry n j) →
              ptr_at h2 (disk fs) l = ptr_at h (disk fs) l).
    { intros l Hl Hne. apply (ptr_at_write_ne h (disk fs) X ind' h2); [done|lia|apply Hl| |].
      - pose proof (table_block_range fs _ (proj1 Hl)). lia.
      - intros n' j -> Heq. 
        destruct (table_slot_cases h fs n' Himg (proj1 Hl)) as [Hv|Hv].
        + assert (LIndirect n' = LIndirect n) as [= ->]; [|by apply (Hne j)].
          apply Hnodup; try done; [|congruence..]. split; [|done]. split; [apply Hl|done].
        + rewrite (Hfree (LIndirect n') (conj (proj1 Hl) I) Hv) in Heq. lia. }
    assert (Hcase : ∀ l, loc_ok fs l →
              ptr_at h2 (disk fs) l = ptr_at h (disk fs) l ∨ ptr_at h2 (disk fs) l = 0).
    { intros l Hl.
      assert (Hdec : (∃ j, l = LEntry n j) ∨ ∀ j, l ≠ LEntry n j).
      { destruct l as [n' k|n'|n' j]; [by right..|].
        destruct (decide (n' = n)) as [->|Hne]; [left; by exists j|right].
        intros j' [= ? ?]. done. }
      destruct Hdec as [[j ->]|Hne]; [right|left; by apply Hkeep].
      rewrite (ptr_at_write_indirect h (disk fs) X ind' h2 n j Hw);
        [apply Hz, Hl|lia|lia| |done|done].
      fold bn. lia. }
    split; [|split; [|split; [|done]]].
    - apply (fs_inv_shrink h fs h2 fs); try done.
      + eapply wf_store_write; [done| |exact Hw].
        rewrite Hlenind. by eapply wf_store_read.
      + by eapply disk_blocks_write.
      + by exists bm.
      + intros n' Hn'. left. by apply Hval2.
      + intros l Hl Hv. rewrite Hval2 in Hv by apply Hl.
        pose proof (Hfree l Hl Hv). destruct (Hcase l Hl); congruence.
      + intros p Hp. by left.
    - rewrite <- Hblk. apply (disk_read_write_ne h (disk fs) X bn ind' h2); [lia..|done].
    - intros l Hl Hne. apply Hkeep; [done|]. intros j ->. by apply Hne. }
  destruct HA as (Hinv2 & Hblk2 & Hptr2 & Hval2).
  destruct (disk_write_is_Some h2 (disk fs) bn blk blk3 Hblk2) as [h3 Hw3].
  rewrite Hw3 in Hrest. cbn [default] in Hrest. injection Hrest as <- <- <-.
  split; [|done].
  destruct (write_inode_block h2 fs n blk blk3 h3 (inv_image _ _ Hinv2) Hn Hblk2
              Hlen3 Hother3 Hw3)
    as (Hwf3 & Hblocks3 & Hdata3 & Hval3 & Hval3n & Hptr3 & Hptr3n).
  fold i0 in Hval3n, Hptr3n.
  assert (Hz3 : ∀ l, loc_ok fs l → loc_inode l = n → ptr_at h3 (disk fs) l = 0).
  { intros l Hl Heq. rewrite (Hptr3n l Heq). destruct l as [n' k|n'|n' j]; cbn [inode_ptr].
    - unfold inode_direct. replace (8 * i0 + 2 + k) with (8 * i0 + (2 + k)) by lia.
      apply Hzero3. destruct Hl as [_ Hk]. unfold POINTERS_PER_INODE in Hk. lia.
    - unfold inode_indirect. apply Hzero3. lia.
    - unfold inode_indirect. rewrite (Hzero3 7) by lia. done. }
  assert (Hinv3n : inode_slot_valid h3 (disk fs) n = Some false).
  { rewrite Hval3n. unfold inode_valid.
    replace (8 * i0) with (8 * i0 + 0) by lia. by rewrite Hzero3 by lia. }
  apply (fs_inv_shrink h2 fs h3 (set_free_blocks fs (Some l2))); try done.
  - exists l2. split; [done|]. congruence.
  - intros n' Hn'. destruct (decide (n' = n)) as [->|Hne]; [by right|left; by apply Hval3].
  - intros l Hl. destruct (decide (loc_inode l = n)); [right; by apply Hz3|left; by apply Hptr3].
  - intros l Hl Hv. destruct (decide (loc_inode l = n)) as [Heq|Hne]; [by apply Hz3|].
    rewrite Hptr3 by done. apply (img_free_slot h2 fs (inv_image _ _ Hinv2)); [done|].
    rewrite <- Hval3; [done|apply Hl|done].
  - intros p Hp. cbn [free_blocks set_free_blocks]. rewrite Hbm in Hp.
    apply bitmap_get_Ok in Hp as (bm0 & [= <-] & Hq).
    destruct (Hframe (Z.to_nat p)) as [Heq|(l0 & Hl0 & Hn0 & Hnz0 & Hq0)].
    + left. apply bitmap_get_Some. by rewrite Heq.
    + right.
      assert (Hlive0 : live h fs l0). { split; [done|]. by rewrite Hn0. }
      pose proof (Hrange l0 Hlive0 Hnz0) as Hr0.
      assert (p = ptr_at h (disk fs) l0) as -> by lia.
      split; [lia|]. intros l [Hl Hv] Heq.
      assert (Hne : loc_inode l ≠ n). { intros Hx. rewrite Hx in Hv. congruence. }
      rewrite Hptr3, Hptr2 in Heq by done.
      rewrite Hval3, Hval2 in Hv by (done || apply Hl).
      assert (l = l0); [|congruence]. apply Hnodup; try done. congruence.
Qed.

(** ** The bitmap rebuilt by fs_mount *)

(** [l'] is [bm] with the blocks of [S] marked unavailable. *)
Definition marks (bm l' : list bool) (S : Z → Prop) : Prop :=
  length l' = length bm ∧
  ∀ q, l' !! q = Some false ↔ bm !! q = Some false ∨ ∃ p, S p ∧ Z.to_nat p = q.

Lemma marks_refl bm : marks bm bm (λ _, False).
Proof. split; [done|]. intros q. split; [by left|]. by intros [?|(? & [] & _)]. Qed.

Lemma marks_set bm p :
  0 ≤ p < Z.of_nat (length bm) → marks bm (<[Z.to_nat p := false]> bm) (λ x, x = p).
Proof.
  intros Hp. split; [by rewrite length_insert|]. intros q.
  destruct (decide (Z.to_nat p = q)) as [<-|Hne].
  - rewrite list_lookup_insert_eq by lia. split; [|done].
    intros _. right. by exists p.
  - rewrite list_lookup_insert_ne by done. split; [by left|].
    intros [?|(? & -> & ?)]; done.
Qed.

Lemma marks_trans bm l1 l2 S1 S2 :
  marks bm l1 S1 → marks l1 l2 S2 → marks bm l2 (λ p, S1 p ∨ S2 p).
Proof.
  intros [Hl1 H1] [Hl2 H2]. split; [congruence|]. intros q.
  rewrite H2, H1. split.
  - intros [[?|(p & ? & ?)]|(p & ? & ?)]; [by left|right; exists p; auto..].
  - intros [?|(p & [?|?] & ?)]; [by left; left|left; right|right]; by exists p.
Qed.

Lemma marks_ext bm l S S' : (∀ p, S p ↔ S' p) → marks bm l S → marks bm l S'.
Proof.
  intros Hext [Hl H]. split; [done|]. intros q. rewrite H.
  by setoid_rewrite Hext.
Qed.

Lemma bitmap_set_marks bm p bm' :
  0 ≤ p → bitmap_set (Some bm) p false = Ok bm' →
  ∃ l', bm' = Some l' ∧ marks bm l' (λ x, x = p).
Proof.
  intros Hp. unfold bitmap_set. case_bool_decide; [|done]. intros [= <-].
  eexists. split; [done|]. by apply marks_set.
Qed.

Lemma mark_pointers_Ok ps : ∀ bm bm',
  Forall (λ p, 0 ≤ p) ps →
  mark_pointers false (Some bm) ps = Ok bm' →
  ∃ l', bm' = Some l' ∧ marks bm l' (λ p, p ∈ ps ∧ p ≠ 0).
Proof.
  induction ps as [|p ps IH]; intros bm bm' Hps; cbn [mark_pointers];
    [|apply Forall_cons in Hps as [Hp Hps]].
  - intros [= <-]. exists bm. split; [done|].
    apply (marks_ext _ _ (λ _, False)); [|apply marks_refl].
    intros p. rewrite elem_of_nil. tauto.
  - destruct (p =? 0) eqn:Hz.
    + apply Z.eqb_eq in Hz. intros (l' & -> & Hm)%IH; [|done].
      exists l'. split; [done|]. revert Hm. apply marks_ext. intros x. rewrite elem_of_cons.
      split; [tauto|]. intros [[->|?] ?]; done.
    + apply Z.eqb_neq in Hz.
      intros (bm1 & (l1 & -> & Hm1)%bitmap_set_marks & Hrest)%bind_Ok; [|done].
      apply IH in Hrest as (l' & -> & Hm); [|done].
      exists l'. split; [done|].
      pose proof (marks_trans _ _ _ _ _ Hm1 Hm) as Hm2. revert Hm2.
      apply marks_ext. intros x. cbv beta. rewrite elem_of_cons. split.
      * intros [->|[? ?]]; auto.
      * intros [[->|?] ?]; auto.
Qed.

Lemma Forall_load32 (f : Z → Z) (g : Z → Z) b ws :
  (∀ w, f w = load32 b (g w)) → Forall (λ p, 0 ≤ p) (f <$> ws).
Proof.
  intros Hf. apply Forall_fmap, Forall_forall. intros w _. cbn.
  rewrite Hf. apply load32_range.
Qed.

Lemma init_inode_Ok h dsk block bm i go bm' :
  (inode_valid block i ≠ 0 → inode_indirect block i ≠ 0 →
   is_Some (disk_read h dsk (inode_indirect block i))) →
  init_inode h dsk block (Some bm) i = Ok (go, bm') →
  go = true ∧
  ∃ l', bm' = Some l' ∧
    marks bm l' (λ p, inode_valid block i ≠ 0 ∧ p ∈ inode_pointers h dsk block i).
Proof.
  intros Hind. unfold init_inode.
  destruct (inode_valid block i =? 0) eqn:Hv.
  { apply Z.eqb_eq in Hv. intros [= <- <-]. split; [done|]. exists bm.
    split; [done|]. apply (marks_ext _ _ (λ _, False)); [|apply marks_refl].
    intros p. split; [done|]. by intros [? _]. }
  apply Z.eqb_neq in Hv.
  intros (bm1 & Hdirect & Hrest)%bind_Ok.
  apply mark_pointers_Ok in Hdirect as (l1 & -> & Hm1).
  2:{ by apply (Forall_load32 _ (λ k, 8 * i + 2 + k) block). }
  assert (Hdirect : ∀ p, (p ∈ inode_direct block i <$> seqZ 0 POINTERS_PER_INODE)
            ↔ ∃ dp, 0 ≤ dp < POINTERS_PER_INODE ∧ p = inode_direct block i dp).
  { intros p. rewrite list_elem_of_fmap. setoid_rewrite elem_of_seqZ.
    split; intros (dp & ? & ?); exists dp; (split; [done || lia|done || lia]). }
  destruct (inode_indirect block i =? 0) eqn:Hz.
  { apply Z.eqb_eq in Hz. injection Hrest as <- <-. split; [done|].
    exists l1. split; [done|]. revert Hm1. apply marks_ext. intros p.
    rewrite elem_of_inode_pointers, Hdirect. cbv beta. split.
    - intros [? ?]. auto.
    - intros (_ & ? & [?|[? _]]); [done|congruence]. }
  apply Z.eqb_neq in Hz.
  apply bind_Ok in Hrest as (bm2 & (l2 & -> & Hm2)%bitmap_set_marks & Hrest).
  2:{ apply load32_range. }
  destruct (Hind Hv Hz) as [ind_blk Hread]. rewrite Hread in Hrest.
  apply bind_Ok in Hrest as (bm3 & Hentries & Hrest).
  apply mark_pointers_Ok in Hentries as (l3 & -> & Hm3).
  2:{ by apply (Forall_load32 _ (λ k, k) ind_blk). }
  injection Hrest as <- <-. split; [done|]. exists l3. split; [done|].
  pose proof (marks_trans _ _ _ _ _ (marks_trans _ _ _ _ _ Hm1 Hm2) Hm3) as Hm.
  revert Hm. apply marks_ext. intros p. cbv beta.
  rewrite elem_of_inode_pointers, Hdirect, list_elem_of_fmap.
  setoid_rewrite elem_of_seqZ. split.
  - intros [[[? ?]| ->]|[(ip & -> & ?) ?]]; (split; [done|]); (split; [done|]); auto.
    right. split; [done|]. right. exists ind_blk, ip. split; [done|]. split; [lia|done].
  - intros (_ & ? & [?|(_ & [->|(b & ip & Hb & ? & ->)])]); auto.
    rewrite Hread in Hb. injection Hb as <-.
    right. split; [|done]. exists ip. split; [done|lia].
Qed.

Lemma init_inodes_Ok h dsk block slots : ∀ bm go bm',
  (∀ i, i ∈ slots → inode_valid block i ≠ 0 → inode_indirect block i ≠ 0 →
        is_Some (disk_read h dsk (inode_indirect block i))) →
  init_inodes h dsk block (Some bm) slots = Ok (go, bm') →
  go = true ∧
  ∃ l', bm' = Some l' ∧
    marks bm l' (λ p, ∃ i, i ∈ slots ∧ inode_valid block i ≠ 0 ∧
                       p ∈ inode_pointers h dsk block i).
Proof.
  induction slots as [|i slots IH]; intros bm go bm' Hind; cbn [init_inodes].
  { intros [= <- <-]. split; [done|]. exists bm. split; [done|].
    apply (marks_ext _ _ (λ _, False)); [|apply marks_refl].
    intros p. split; [done|]. intros (i & Hi%elem_of_nil & _). done. }
  intros ([go1 bm1] & Hone & Hrest)%bind_Ok.
  apply init_inode_Ok in Hone as (-> & l1 & -> & Hm1); [|apply Hind; left].
  apply IH in Hrest as (-> & l' & -> & Hm).
  2:{ intros i' Hi'. apply Hind. by right. }
  split; [done|]. exists l'. split; [done|].
  pose proof (marks_trans _ _ _ _ _ Hm1 Hm) as Hm2. revert Hm2.
  apply marks_ext. intros p. cbv beta. setoid_rewrite elem_of_cons. split.
  - intros [[? ?]|(i' & ? & ?)]; [exists i|exists i']; auto.
  - intros (i' & [->|?] & ?); [by left|right]. by exists i'.
Qed.

Lemma init_inode_blocks_Ok h dsk ibs : ∀ bm bm',
  (∀ ib, ib ∈ ibs → 0 ≤ ib ∧
     ∃ blk, disk_read h dsk ib = Some blk ∧
       ∀ i, 0 ≤ i < INODES_PER_BLOCK → inode_valid blk i ≠ 0 →
            inode_indirect blk i ≠ 0 →
            is_Some (disk_read h dsk (inode_indirect blk i))) →
  init_inode_blocks h dsk (Some bm) ibs = Ok bm' →
  ∃ l', bm' = Some l' ∧
    marks bm l' (λ p, p ∈ ibs ∨
      ∃ ib blk i, ib ∈ ibs ∧ disk_read h dsk ib = Some blk ∧
        0 ≤ i < INODES_PER_BLOCK ∧ inode_valid blk i ≠ 0 ∧
        p ∈ inode_pointers h dsk blk i).
Proof.
  induction ibs as [|ib ibs IH]; intros bm bm' Hibs; cbn [init_inode_blocks].
  { intros [= <-]. exists bm. split; [done|].
    apply (marks_ext _ _ (λ _, False)); [|apply marks_refl].
    intros p. split; [done|].
    intros [Hp%elem_of_nil|(ib & ? & ? & Hib%elem_of_nil & _)]; done. }
  destruct (Hibs ib) as (Hib0 & blk & Hread & Hind); [left|]. rewrite Hread.
  intros ([go1 bm1] & Hscan & Hrest)%bind_Ok.
  apply init_inodes_Ok in Hscan as (-> & l1 & -> & Hm1).
  2:{ intros i Hi%elem_of_seqZ. apply Hind. lia. }
  apply bind_Ok in Hrest as (bm2 & (l2 & -> & Hm2)%bitmap_set_marks & Hrest);
    [|done].
  apply IH in Hrest as (l' & -> & Hm); [|intros; apply Hibs; by right].
  exists l'. split; [done|].
  pose proof (marks_trans _ _ _ _ _ (marks_trans _ _ _ _ _ Hm1 Hm2) Hm) as Hm3.
  revert Hm3. apply marks_ext. intros p. cbv beta.
  setoid_rewrite elem_of_seqZ. setoid_rewrite elem_of_cons. split.
  - intros [[(i & ? & ? & ?)| ->]|[?|(ib' & blk' & i & ? & ?)]]; auto.
    + right. exists ib, blk, i. split; [by left|]. split; [done|]. split; [lia|done].
    + right. exists ib', blk', i. split; [by right|done].
  - intros [[->|?]|(ib' & blk' & i & [->|?] & Hread' & ? & ? & ?)]; auto.
    + left. left. exists i. rewrite Hread in Hread'. injection Hread' as <-.
      split; [lia|done].
    + right. right. by exists ib', blk', i.
Qed.

Lemma inode_pointers_pos h dsk blk i p : p ∈ inode_pointers h dsk blk i → 0 < p.
Proof.
  intros [Hnz Hp]%elem_of_inode_pointers.
  assert (0 ≤ p); [|lia].
  destruct Hp as [(dp & _ & ->)|(_ & [->|(b & ip & _ & _ & ->)])]; apply load32_range.
Qed.

(** The reachable blocks, inode block by inode block. *)
Lemma reachable_blocks_slots h fs p :
  p ∈ reachable_blocks h fs ↔
  ∃ ib blk i, ib ∈ seqZ 1 (inode_blocks (meta_data fs)) ∧
    disk_read h (disk fs) ib = Some blk ∧
    0 ≤ i < INODES_PER_BLOCK ∧ inode_valid blk i ≠ 0 ∧
    p ∈ inode_pointers h (disk fs) blk i.
Proof.
  unfold reachable_blocks. rewrite list_elem_of_bind.
  setoid_rewrite elem_of_seqZ. split.
  - intros (n & Hp & Hn).
    destruct (disk_read h (disk fs) (n / INODES_PER_BLOCK + 1)) as [blk|] eqn:Hblk;
      [|by apply elem_of_nil in Hp].
    destruct (inode_valid blk (n mod INODES_PER_BLOCK) =? 0) eqn:Hv;
      [by apply elem_of_nil in Hp|].
    apply Z.eqb_neq in Hv.
    exists (n / INODES_PER_BLOCK + 1), blk, (n mod INODES_PER_BLOCK).
    pose proof (table_block_range fs n ltac:(lia)).
    pose proof (inode_index_range n). repeat split; try done; lia.
  - intros (ib & blk & i & Hib & Hblk & Hi & Hv & Hp).
    exists ((ib - 1) * INODES_PER_BLOCK + i).
    destruct (inode_number_split ib i Hi) as [-> ->].
    rewrite Hblk, (proj2 (Z.eqb_neq _ _) Hv). split; [done|].
    unfold table_slots, INODES_PER_BLOCK in *. lia.
Qed.

Lemma fs_initialize_free_block_bitmap_Ok h fs fs' :
  fs_initialize_free_block_bitmap h fs = Ok fs' →
  disk fs' = disk fs ∧ meta_data fs' = meta_data fs ∧
  (image_ok h fs →
   ∃ l, free_blocks fs' = Some l ∧
     Z.of_nat (length l) = blocks (meta_data fs) ∧
     ∀ p, 0 ≤ p →
       l !! Z.to_nat p = Some false ↔
       p ≤ inode_blocks (meta_data fs) ∨ p ∈ reachable_blocks h fs).
Proof.
  unfold fs_initialize_free_block_bitmap. cbv zeta.
  intros (bm1 & Hset & (bm & Hscan & [= <-])%bind_Ok)%bind_Ok.
  split; [done|]. split; [done|]. intros Himg.
  pose proof Himg as [Hwf Hlayout _ _ _].
  apply bitmap_set_marks in Hset as (l1 & -> & Hm1); [|done].
  apply init_inode_blocks_Ok in Hscan as (l & -> & Hm).
  2:{ intros ib Hib%elem_of_seqZ. split; [lia|].
      destruct (disk_read_in_range h (disk fs) ib) as [blk Hblk]; [lia|].
      exists blk. split; [done|]. intros i Hi Hv Hnz.
      apply disk_read_in_range.
      assert (Hn : 0 ≤ (ib - 1) * INODES_PER_BLOCK + i < table_slots fs).
      { unfold table_slots, INODES_PER_BLOCK in *. lia. }
      destruct (ptr_range h fs (LIndirect ((ib - 1) * INODES_PER_BLOCK + i)) Himg
                  (conj Hn I)) as [Hz|Hr];
        unfold ptr_at in *; cbn [loc_inode] in *;
        destruct (inode_number_split ib i Hi) as [Hq Hr'];
        rewrite Hq, Hr', Hblk in *; cbn [inode_ptr] in *; [done|lia]. }
  exists l. split; [done|].
  destruct (marks_trans _ _ _ _ _ Hm1 Hm) as [Hlen Hmarks].
  rewrite length_replicate in Hlen. split; [lia|].
  intros p Hp. rewrite Hmarks. split.
  - intros [Hrep|(p' & HS & Hq)].
    { by apply lookup_replicate in Hrep as [? _]. }
    destruct HS as [->|[Hib%elem_of_seqZ|Hreach]].
    + left. lia.
    + left. lia.
    + apply reachable_blocks_slots in Hreach. right.
      assert (0 < p') by (apply reachable_blocks_slots in Hreach;
        destruct Hreach as (? & ? & ? & _ & _ & _ & _ & Hin);
        by apply inode_pointers_pos in Hin).
      by replace p with p' by lia.
  - intros [Hres|Hreach]; right; exists p; (split; [|done]).
    + destruct (decide (p = 0)) as [->|Hnz]; [by left|right; left].
      apply elem_of_seqZ. lia.
    + right. right. by apply reachable_blocks_slots.
Qed.

Lemma image_ok_fs h fs fs' :
  disk fs' = disk fs → meta_data fs' = meta_data fs →
  image_ok h fs → image_ok h fs'.
Proof.
  intros Hdisk Hmeta [Hwf Hlayout Hfree Hrange Hnodup].
  split; rewrite ?Hdisk, ?Hmeta; try done.
  - intros l Hl. apply Hfree. by apply (loc_ok_meta fs fs').
  - intros l Hl. apply Hrange. by apply (live_fs h fs fs').
  - intros l1 l2 Hl1 Hl2. apply Hnodup; by apply (live_fs h fs fs').
Qed.

Lemma reachable_blocks_fs h fs fs' :
  disk fs' = disk fs → meta_data fs' = meta_data fs →
  reachable_blocks h fs' = reachable_blocks h fs.
Proof. intros Hdisk Hmeta. unfold reachable_blocks, table_slots. by rewrite Hdisk, Hmeta. Qed.

Lemma fs_mount_Ok h fs0 dsk fs :
  fs_mount h fs0 dsk = Ok (true, fs) →
  ∃ fs1, disk fs1 = dsk ∧ fs_initialize_free_block_bitmap h fs1 = Ok fs.
Proof.
  unfold fs_mount. case_bool_decide; [done|].
  destruct (disk_read h dsk 0) as [sb|]; cbn [ret_code]; [|done].
  destruct (BLOCK_SIZE =? 0); [done|].
  repeat (case_bool_decide; [done|]).
  intros (fs2 & Hinit & [= <-])%bind_Ok. eexists. split; [|exact Hinit]. done.
Qed.

(** After a mount of a well-formed image the invariant holds, and the
    blocks marked unavailable are the reserved blocks and the blocks
    that valid inodes name. *)
Lemma fs_mount_inv h fs0 dsk fs :
  fs_mount h fs0 dsk = Ok (true, fs) → image_ok h fs →
  fs_inv h fs ∧
  ∀ p, p ∈ reachable_blocks h fs ↔
       bitmap_get (free_blocks fs) p = Ok false ∧ inode_blocks (meta_data fs) < p.
Proof.
  intros (fs1 & _ & Hinit)%fs_mount_Ok Himg.
  apply fs_initialize_free_block_bitmap_Ok in Hinit as (Hdisk & Hmeta & Hbm).
  destruct Hbm as (l & Hl & Hlen & Hmarks).
  { by apply (image_ok_fs h fs fs1). }
  rewrite <- Hmeta in Hlen. setoid_rewrite <- Hmeta in Hmarks.
  setoid_rewrite <- (reachable_blocks_fs h fs1 fs Hdisk Hmeta) in Hmarks.
  pose proof Himg as [Hwf Hlayout Hfree Hrange Hnodup].
  assert (Hreach : ∀ p, p ∈ reachable_blocks h fs →
            inode_blocks (meta_data fs) < p).
  { intros p (Hnz & l0 & Hlive & <-)%elem_of_reachable_blocks.
    by apply Hrange. }
  split; [split; [done|by exists l|..]|].
  - intros p Hp. rewrite Hl. apply bitmap_get_Some, Hmarks; [lia|]. left. lia.
  - intros l0 Hlive Hnz. rewrite Hl. apply bitmap_get_Some.
    pose proof (Hrange l0 Hlive Hnz). apply Hmarks; [lia|]. right.
    apply elem_of_reachable_blocks. split; [done|]. by exists l0.
  - intros p. rewrite Hl. split.
    + intros Hp. pose proof (Hreach p Hp). split; [|done].
      apply bitmap_get_Some, Hmarks; [lia|]. by right.
    + intros [(bm & [= <-] & Hq)%bitmap_get_Ok Hp].
      apply Hmarks in Hq as [?|?]; [lia|done|lia].
Qed.

(** ** The bitmap and the blocks in use *)

(** One call of the engine on a mounted file system, with defined
    behaviour: the inode numbers given to [fs_remove] and [fs_write] are
    numbers of the inode table, and offsets are not negative. *)
Inductive fs_step : list Disk * FileSystem → list Disk * FileSystem → Prop :=
| step_create h fs r h' :
    fs_create h fs = Ok (r, h') → fs_step (h, fs) (h', fs)
| step_remove h fs n r h' fs' :
    0 ≤ n < table_slots fs →
    fs_remove h fs n = Ok (r, h', fs') → fs_step (h, fs) (h', fs')
| step_read h fs n length offset r :
    fs_read h fs n length offset = Ok r → fs_step (h, fs) (h, fs)
| step_write h fs n data length offset r h' fs' :
    0 ≤ n < table_slots fs → 0 ≤ offset →
    fs_write h fs n data length offset = Ok (r, h', fs') →
    fs_step (h, fs) (h', fs').

Lemma fs_step_inv s s' : fs_step s s' → fs_inv s.1 s.2 → fs_inv s'.1 s'.2.
Proof.
  intros [h fs r h' Hc|h fs n r h' fs' Hn Hr|h fs n len off r Hr
         |h fs n data len off r h' fs' Hn Hoff Hw] Hinv; cbn [fst snd] in *.
  - by apply (fs_create_inv h fs r h').
  - by apply (fs_remove_inv h fs n r h' fs').
  - done.
  - by apply (fs_write_inv h fs n data len off r h' fs').
Qed.

Lemma fs_steps_inv s s' : rtc fs_step s s' → fs_inv s.1 s.2 → fs_inv s'.1 s'.2.
Proof. induction 1 as [|s1 s2 s3 Hstep _ IH]; [done|]. intros. by apply IH, (fs_step_inv s1). Qed.

Lemma fs_inv_disjoint h fs p :
  fs_inv h fs → p ∈ reachable_blocks h fs →
  bitmap_get (free_blocks fs) p = Ok false.
Proof.
  intros Hinv (Hnz & l & Hlive & <-)%elem_of_reachable_blocks.
  by apply (inv_used h fs Hinv).
Qed.

(** *** Examples *)

Lemma image20_block b :
  1 ≤ b ≤ 2 → disk_read [image20] (Some 0%nat) b = Some zero_block.
Proof.
  intros Hb. assert (b = 1 ∨ b = 2) as [-> | ->] by lia; vm_compute; reflexivity.
Qed.

Lemma wf_store_image20 : wf_store [image20].
Proof.
  apply wf_store_Forall. refine (bool_decide_unpack _ _). vm_compute. exact I.
Qed.

Lemma image20_ok : image_ok [image20] mounted20.
Proof.
  assert (Hslot : ∀ n, 0 ≤ n < table_slots mounted20 →
            disk_read [image20] (Some 0%nat) (n / INODES_PER_BLOCK + 1)
            = Some zero_block).
  { intros n Hn. apply image20_block.
    pose proof (table_block_range mounted20 n Hn) as Hr. exact Hr. }
  assert (Hfree : ∀ n, 0 ≤ n < table_slots mounted20 →
            inode_slot_valid [image20] (Some 0%nat) n = Some false).
  { intros n Hn. unfold inode_slot_valid. rewrite (Hslot n Hn). cbn.
    unfold inode_valid. by rewrite load32_zero_block. }
  split.
  - exact wf_store_image20.
  - vm_compute. repeat split; congruence.
  - intros l Hl _. unfold ptr_at. cbn [disk mounted20].
    rewrite (Hslot _ (proj1 Hl)).
    destruct l; cbn [inode_ptr]; unfold inode_direct, inode_indirect;
      by rewrite load32_zero_block.
  - intros l [Hl Hv]. cbn [disk mounted20] in Hv.
    rewrite (Hfree _ (proj1 Hl)) in Hv. done.
  - intros l1 l2 [Hl Hv]. cbn [disk mounted20] in Hv.
    rewrite (Hfree _ (proj1 Hl)) in Hv. done.
Qed.

Lemma written_steps : rtc fs_step ([image20], mounted20) (written_h, written_fs).
Proof.
  apply (rtc_l _ _ (created_h, mounted20)).
  { apply (step_create _ _ 0). vm_compute. reflexivity. }
  apply rtc_once.
  apply (step_write _ _ 0 (replicate (Z.to_nat 30000) x2a) 30000 0 30000).
  - vm_compute. split; congruence.
  - lia.
  - vm_compute. reflexivity.
Qed.

(** From [forged_state]: a second write gives inode 0 the block 4, and
    number 256, the record forged in block 3, is removed. *)
Definition freed_state : res (list Disk * FileSystem) :=
  '(w, h3, fs3) ← fs_write forged_h forged_fs 0 (replicate 8 x2a) 8 4096;
  '(r, h4, fs4) ← fs_remove h3 fs3 256;
  Ok (h4, fs4).
Definition freed_h : list Disk :=
  match freed_state with Ok (h, _) => h | _ => [] end.
Definition freed_fs : FileSystem :=
  match freed_state with Ok (_, fs) => fs | _ => fresh_fs end.

(** An image whose free slot 0 still holds a direct pointer to block 3. *)
Definition image20_stale : Disk :=
  super_image 20 2 256 :: set_inode_direct zero_block 0 0 3 ::
  replicate 18 zero_block.
Definition stale_h : list Disk :=
  match fs_create [image20_stale] mounted20 with Ok (_, h) => h | _ => [] end.

(** C2, counterexample. (1) On the clean image: inode 0 is created, a
    forged record is written to it, a second write gives it block 4,
    and [fs_remove] of number 256 (past the 256 slots of the table)
    releases block 4, which inode 0 still names. (2) On an image whose
    free slot 0 holds a stale pointer to block 3: the mount leaves
    block 3 available, and [fs_create] validates the slot. *)
Lemma fs_bitmap_not_disjoint :
  (fs_mount [image20] fresh_fs (Some 0%nat) = Ok (true, mounted20) ∧
   forged_state = Ok (forged_h, forged_fs) ∧
   freed_state = Ok (freed_h, freed_fs) ∧
   table_slots freed_fs = 256 ∧
   reachable_blocks freed_h freed_fs = [3; 4] ∧
   bitmap_get (free_blocks freed_fs) 4 = Ok true) ∧
  (fs_mount [image20_stale] fresh_fs (Some 0%nat) = Ok (true, mounted20) ∧
   fs_create [image20_stale] mounted20 = Ok (0, stale_h) ∧
   reachable_blocks stale_h mounted20 = [3] ∧
   bitmap_get (free_blocks mounted20) 3 = Ok true).
Proof. repeat split; vm_compute; reflexivity. Qed.

(** C2, as amended. Let the image mounted be well formed ([image_ok]):
    blocks of the size of the union, [inode_blocks < blocks] within the
    disk, free slots without pointers, and the pointers of valid inodes
    in the data region and pairwise distinct. Right after [fs_mount] the
    blocks that valid inodes name are exactly the blocks marked
    unavailable other than block 0 and the inode blocks. After any
    sequence of [fs_create], [fs_remove], [fs_read] and [fs_write] with
    defined results, on inode numbers of the table and offsets that are
    not negative, every block a valid inode names is marked
    unavailable. *)
Theorem fs_bitmap_invariant h0 fs0 dsk fs h fs' :
  fs_mount h0 fs0 dsk = Ok (true, fs) → image_ok h0 fs →
  rtc fs_step (h0, fs) (h, fs') →
  (∀ p, p ∈ reachable_blocks h0 fs ↔
        bitmap_get (free_blocks fs) p = Ok false ∧
        inode_blocks (meta_data fs) < p) ∧
  (∀ p, p ∈ reachable_blocks h fs' → bitmap_get (free_blocks fs') p = Ok false).
Proof.
  intros Hmount Himg Hsteps.
  destruct (fs_mount_inv h0 fs0 dsk fs Hmount Himg) as [Hinv Hexact].
  split; [done|]. intros p. apply fs_inv_disjoint.
  by apply (fs_steps_inv (h0, fs) (h, fs')).
Qed.

Lemma fs_bitmap_invariant_witness :
  (∀ p, p ∈ reachable_blocks [image20] mounted20 ↔
        bitmap_get (free_blocks mounted20) p = Ok false ∧
        inode_blocks (meta_data mounted20) < p) ∧
  (∀ p, p ∈ reachable_blocks written_h written_fs →
        bitmap_get (free_blocks written_fs) p = Ok false).
Proof.
  apply (fs_bitmap_invariant [image20] fresh_fs (Some 0%nat) mounted20
           written_h written_fs).
  - exact fs_mount_image20.
  - exact image20_ok.
  - exact written_steps.
Defined.

(** * Further properties of the device and of the engine *)

(** ** disk.c: bounds and round trip *)

Lemma disk_read_None h dsk n :
  disk_read h dsk n = None → 0 ≤ n → disk_blocks h dsk ≤ n.
Proof.
  unfold disk_read, disk_read_buffer, disk_sanity_check, disk_blocks.
  destruct (dsk ≫= (h !!.)) as [d|] eqn:Hd; simpl; [|lia].
  case_bool_decide; simpl; [lia|]. intros Hn H0.
  apply lookup_ge_None in Hn. lia.
Qed.

Lemma disk_sanity_check_true h dsk n data :
  disk_sanity_check h dsk n data = true
  ↔ is_Some (dsk ≫= (h !!.)) ∧ n < disk_blocks h dsk ∧ data = true.
Proof.
  unfold disk_sanity_check, disk_blocks.
  destruct (dsk ≫= (h !!.)) as [d|].
  - case_bool_decide as Hn.
    + split; [done|]. intros (_ & ? & _). lia.
    + destruct data; simpl; split; try done.
      * intros _. split; [eauto|]. split; [lia|done].
      * by intros (_ & _ & ?).
  - split; [done|]. by intros [[? ?] _].
Qed.

(** X1. The three tests of [disk_sanity_check]: a call is accepted
    exactly when the disk is not null, the block number is below
    [disk->blocks] and the buffer is not null. [disk_read] and
    [disk_write] fail whenever the check refuses, and on a block number
    that is not negative they succeed when it accepts, the [read] and
    the [write] of the host being taken to do their work. *)
Theorem disk_access_in_range h dsk n :
  0 ≤ n →
  (∀ data, disk_sanity_check h dsk n data = true
           ↔ is_Some (dsk ≫= (h !!.)) ∧ n < disk_blocks h dsk ∧ data = true) ∧
  (∀ data, is_Some (disk_read_buffer h dsk n data)
           ↔ disk_sanity_check h dsk n data = true) ∧
  (∀ data, is_Some (disk_write_buffer h dsk n data)
           ↔ disk_sanity_check h dsk n (bool_decide (is_Some data)) = true) ∧
  (∀ data, disk_read_buffer h None n data = None) ∧
  (∀ data, disk_write_buffer h None n data = None) ∧
  disk_read_buffer h dsk n false = None ∧
  disk_write_buffer h dsk n None = None.
Proof.
  intros Hn. split; [intros data; apply disk_sanity_check_true|].
  assert (Hread : ∀ data, is_Some (disk_read_buffer h dsk n data)
                          ↔ disk_sanity_check h dsk n data = true).
  { intros data. unfold disk_read_buffer.
    destruct (disk_sanity_check h dsk n data) eqn:Hcheck.
    - split; [done|]. intros _.
      apply disk_sanity_check_true in Hcheck as ([d Hd] & Hlt & _).
      rewrite Hd. simpl. apply lookup_lt_is_Some.
      unfold disk_blocks in Hlt. rewrite Hd in Hlt. lia.
    - split; [by intros [? ?]|done]. }
  assert (Hwrite : ∀ data, is_Some (disk_write_buffer h dsk n data)
            ↔ disk_sanity_check h dsk n (bool_decide (is_Some data)) = true).
  { intros data. unfold disk_write_buffer.
    replace (if data is Some _ then true else false)
      with (bool_decide (is_Some data)); [|by destruct data].
    destruct (disk_sanity_check h dsk n _) eqn:Hcheck.
    - split; [done|]. intros _.
      apply disk_sanity_check_true in Hcheck as ([d Hd] & _ & Hdata).
      apply bool_decide_eq_true in Hdata as [b ->].
      destruct dsk as [a|]; [|done]. simpl in *. rewrite Hd. simpl. eauto.
    - split; [by intros [? ?]|done]. }
  split; [done|]. split; [done|]. split; [done|]. split; [done|].
  split.
  - destruct (disk_read_buffer h dsk n false) eqn:Hb; [|done].
    assert (is_Some (disk_read_buffer h dsk n false)) as Hs by eauto.
    apply Hread, disk_sanity_check_true in Hs as (_ & _ & ?). done.
  - destruct (disk_write_buffer h dsk n None) eqn:Hb; [|done].
    assert (is_Some (disk_write_buffer h dsk n None)) as Hs by eauto.
    apply Hwrite, disk_sanity_check_true in Hs as (_ & _ & Hd).
    apply bool_decide_eq_true in Hd as [? ?]. done.
Qed.

(** The last block of [image20]: read and written with a buffer,
    refused without one. *)
Lemma disk_access_in_range_witness :
  (∀ data, disk_sanity_check [image20] (Some 0%nat) 19 data = true
           ↔ is_Some (Some 0%nat ≫= ([image20] !!.))
             ∧ 19 < disk_blocks [image20] (Some 0%nat) ∧ data = true) ∧
  (∀ data, is_Some (disk_read_buffer [image20] (Some 0%nat) 19 data)
           ↔ disk_sanity_check [image20] (Some 0%nat) 19 data = true) ∧
  (∀ data, is_Some (disk_write_buffer [image20] (Some 0%nat) 19 data)
           ↔ disk_sanity_check [image20] (Some 0%nat) 19
               (bool_decide (is_Some data)) = true) ∧
  (∀ data, disk_read_buffer [image20] None 19 data = None) ∧
  (∀ data, disk_write_buffer [image20] None 19 data = None) ∧
  disk_read_buffer [image20] (Some 0%nat) 19 false = None ∧
  disk_write_buffer [image20] (Some 0%nat) 19 None = None.
Proof. apply (disk_access_in_range [image20] (Some 0%nat) 19). lia. Defined.

(** X2. A block written is the block read back; the other blocks of the
    disk, the other disks and the number of blocks of every disk are as
    before. *)
Theorem disk_write_then_read h dsk n b h' :
  0 ≤ n → disk_write h dsk n b = Some h' →
  disk_read h' dsk n = Some b ∧
  (∀ m, 0 ≤ m → m ≠ n → disk_read h' dsk m = disk_read h dsk m) ∧
  (∀ dsk' m, dsk' ≠ dsk → disk_read h' dsk' m = disk_read h dsk' m) ∧
  (∀ dsk', disk_blocks h' dsk' = disk_blocks h dsk').
Proof.
  intros Hn Hw. split; [by apply (disk_read_write_eq h dsk n b h')|]. split; [|split].
  - intros m Hm Hne. by apply (disk_read_write_ne h dsk n m b h').
  - intros dsk' m Hne.
    destruct (disk_write_Some _ _ _ _ _ Hw) as (a & d & -> & _).
    destruct dsk' as [a'|]; [|done].
    apply (disk_read_write_other h a a' n m b h'); [congruence|done].
  - intros dsk'. by apply (disk_blocks_write h dsk dsk' n b h').
Qed.

Lemma disk_write_then_read_witness :
  disk_read (<[0%nat := <[3%nat := replicate 4096 x2a]> image20]> [image20])
    (Some 0%nat) 3 = Some (replicate 4096 x2a) ∧
  (∀ m, 0 ≤ m → m ≠ 3 →
        disk_read (<[0%nat := <[3%nat := replicate 4096 x2a]> image20]> [image20])
          (Some 0%nat) m = disk_read [image20] (Some 0%nat) m) ∧
  (∀ dsk' m, dsk' ≠ Some 0%nat →
        disk_read (<[0%nat := <[3%nat := replicate 4096 x2a]> image20]> [image20]) dsk' m
        = disk_read [image20] dsk' m) ∧
  (∀ dsk', disk_blocks (<[0%nat := <[3%nat := replicate 4096 x2a]> image20]> [image20]) dsk'
           = disk_blocks [image20] dsk').
Proof.
  apply (disk_write_then_read [image20] (Some 0%nat) 3 (replicate 4096 x2a)).
  - lia.
  - reflexivity.
Defined.

(** ** fs_format *)

Lemma format_blocks_spec h dsk idxs :
  NoDup idxs → (∀ i, i ∈ idxs → 0 ≤ i < disk_blocks h dsk) →
  (format_blocks h dsk idxs).1 = true ∧
  (∀ m, m ∈ idxs → disk_read (format_blocks h dsk idxs).2 dsk m = Some zero_block) ∧
  (∀ m, 0 ≤ m → m ∉ idxs →
        disk_read (format_blocks h dsk idxs).2 dsk m = disk_read h dsk m) ∧
  (∀ dsk' m, dsk' ≠ dsk →
        disk_read (format_blocks h dsk idxs).2 dsk' m = disk_read h dsk' m) ∧
  (∀ dsk', disk_blocks (format_blocks h dsk idxs).2 dsk' = disk_blocks h dsk').
Proof.
  revert h. induction idxs as [|i idxs IH]; intros h Hnd Hin; cbn [format_blocks].
  { repeat split; try done. intros m Hm. by apply elem_of_nil in Hm. }
  apply NoDup_cons in Hnd as [Hi Hnd].
  destruct (Hin i) as [Hi0 Hilt]; [left|].
  destruct (disk_read_in_range h dsk i) as [b0 Hb0]; [done|].
  destruct (disk_write_is_Some h dsk i b0 zero_block Hb0) as [h1 Hw].
  rewrite Hw. cbn [ret_code default].
  change (BLOCK_SIZE =? 0) with false. cbv iota.
  destruct (IH h1 Hnd) as (Htrue & Hzero & Hother & Hdisks & Hblocks).
  { intros j Hj. rewrite (disk_blocks_write h dsk dsk i zero_block h1 Hw).
    apply Hin. by right. }
  split; [done|]. split; [|split; [|split]].
  - intros m [->|Hm]%elem_of_cons; [|by apply Hzero].
    rewrite Hother by done. by apply (disk_read_write_eq h dsk i zero_block h1).
  - intros m Hm [Hne Hnin]%not_elem_of_cons. rewrite Hother by done.
    by apply (disk_read_write_ne h dsk i m zero_block h1).
  - intros dsk' m Hne. rewrite Hdisks by done.
    destruct (disk_write_Some _ _ _ _ _ Hw) as (a & d & -> & _).
    destruct dsk' as [a'|]; [|done].
    apply (disk_read_write_other h a a' i m zero_block h1); [congruence|done].
  - intros dsk'. rewrite Hblocks. by apply (disk_blocks_write h dsk dsk' i zero_block h1).
Qed.

(** X3. [fs_format] refuses a null disk and an engine that is mounted
    or holds a bitmap, and then changes nothing. Otherwise it reports
    success and leaves every block of the disk from block 1 on zeroed;
    the other disks keep their blocks. *)
Theorem fs_format_clears h fs dsk :
  (dsk = None ∨ disk fs ≠ None ∨ free_blocks fs ≠ None →
   fs_format h fs dsk = (false, h)) ∧
  (dsk ≠ None → disk fs = None → free_blocks fs = None →
   (fs_format h fs dsk).1 = true ∧
   (∀ m, 1 ≤ m < disk_blocks h dsk →
         disk_read (fs_format h fs dsk).2 dsk m = Some zero_block) ∧
   (∀ dsk' m, dsk' ≠ dsk →
         disk_read (fs_format h fs dsk).2 dsk' m = disk_read h dsk' m) ∧
   (∀ dsk', disk_blocks (fs_format h fs dsk).2 dsk' = disk_blocks h dsk')).
Proof.
  unfold fs_format. split.
  - intros [->|[Hd|Hb]]; [done|..]; destruct dsk; try done.
    + by rewrite bool_decide_eq_true_2.
    + case_bool_decide; [done|]. by rewrite bool_decide_eq_true_2.
  - intros Hdsk Hd Hb. destruct dsk as [a|]; [|done].
    rewrite bool_decide_eq_false_2 by (by rewrite Hd; intros []).
    rewrite bool_decide_eq_false_2 by (by rewrite Hb; intros []).
    cbv zeta.
    destruct (format_blocks_spec h (Some a) (seqZ 1 (disk_blocks h (Some a) - 1)))
      as (Htrue & Hzero & _ & Hdisks & Hblocks).
    { apply NoDup_seqZ. }
    { intros i Hi%elem_of_seqZ. lia. }
    split; [done|]. split; [|done].
    intros m Hm. apply Hzero, elem_of_seqZ. lia.
Qed.

Lemma fs_format_clears_witness :
  fs_format written_h written_fs (Some 0%nat) = (false, written_h) ∧
  (fs_format written_h fresh_fs (Some 0%nat)).1 = true ∧
  (∀ m, 1 ≤ m < disk_blocks written_h (Some 0%nat) →
        disk_read (fs_format written_h fresh_fs (Some 0%nat)).2 (Some 0%nat) m
        = Some zero_block) ∧
  (∀ dsk' m, dsk' ≠ Some 0%nat →
        disk_read (fs_format written_h fresh_fs (Some 0%nat)).2 dsk' m
        = disk_read written_h dsk' m) ∧
  (∀ dsk', disk_blocks (fs_format written_h fresh_fs (Some 0%nat)).2 dsk'
           = disk_blocks written_h dsk').
Proof.
  split.
  - apply (fs_format_clears written_h written_fs (Some 0%nat)).
    right. left. vm_compute. congruence.
  - apply (fs_format_clears written_h fresh_fs (Some 0%nat)); [congruence|reflexivity..].
Defined.

(** X4. [fs_format] never turns a disk that [fs_mount] refuses into one
    that it accepts: the outcome of a refused mount is the same after
    the disk was formatted. *)
Theorem fs_format_keeps_mount_refusal h fs dsk fs0 r :
  fs_mount h fs0 dsk = Ok (false, r) →
  fs_mount (fs_format h fs dsk).2 fs0 dsk = Ok (false, r).
Proof.
  unfold fs_mount. rewrite fs_format_block0.
  case_bool_decide; [done|].
  destruct (disk_read h dsk 0) as [sb|]; cbn [ret_code]; [|done].
  destruct (BLOCK_SIZE =? 0); [done|].
  repeat (case_bool_decide; [done|]).
  intros (fs2 & _ & [=])%bind_Ok.
Qed.

Lemma fs_format_keeps_mount_refusal_witness :
  fs_mount (fs_format [blank_disk 20] fresh_fs (Some 0%nat)).2 fresh_fs (Some 0%nat)
  = Ok (false, fresh_fs).
Proof.
  apply (fs_format_keeps_mount_refusal [blank_disk 20] fresh_fs (Some 0%nat)).
  vm_compute. reflexivity.
Defined.

(** ** find_free_block: first fit *)

Lemma find_free_from_first bm n : ∀ i j,
  0 ≤ i ≤ j → j < i + Z.of_nat n →
  bm !! Z.to_nat j = Some true →
  (∀ k, i ≤ k < j → bm !! Z.to_nat k = Some false) →
  find_free_from (Some bm) i n = Ok (Some j).
Proof.
  induction n as [|n IH]; intros i j Hij Hlt Hj Hbefore; [lia|].
  cbn [find_free_from]. unfold bitmap_get. cbn [mbind option_bind].
  destruct (decide (i = j)) as [->|Hne].
  - by rewrite Hj.
  - rewrite (Hbefore i) by lia. cbn. apply IH; [lia|lia|done|].
    intros k Hk. apply Hbefore. lia.
Qed.

Lemma find_free_from_none bm n : ∀ i,
  0 ≤ i →
  (∀ k, i ≤ k < i + Z.of_nat n → bm !! Z.to_nat k = Some false) →
  find_free_from (Some bm) i n = Ok None.
Proof.
  induction n as [|n IH]; intros i Hi Hall; [done|].
  cbn [find_free_from]. unfold bitmap_get. cbn [mbind option_bind].
  rewrite (Hall i) by lia. cbn. apply IH; [lia|].
  intros k Hk. apply Hall. lia.
Qed.

(** X5. [find_free_block] allocates first fit: when block [i] is the
    lowest block below [meta_data.blocks] that the bitmap has available
    it returns [i] and marks it unavailable, leaving the rest of the
    bitmap; when no block below [meta_data.blocks] is available it
    returns 0 and changes nothing. *)
Theorem find_free_block_first_fit fs bm :
  free_blocks fs = Some bm →
  (∀ i, 0 ≤ i < blocks (meta_data fs) →
     bm !! Z.to_nat i = Some true →
     (∀ k, 0 ≤ k < i → bm !! Z.to_nat k = Some false) →
     find_free_block fs
     = Ok (i, set_free_blocks fs (Some (<[Z.to_nat i := false]> bm)))) ∧
  ((∀ k, 0 ≤ k < blocks (meta_data fs) → bm !! Z.to_nat k = Some false) →
   find_free_block fs = Ok (0, fs)).
Proof.
  intros Hbm. unfold find_free_block. rewrite Hbm. split.
  - intros i Hi Hfree Hbefore.
    rewrite (find_free_from_first bm _ 0 i) by (done || lia).
    cbn [mbind res_bind]. rewrite bitmap_set_Some; [done|].
    apply lookup_lt_Some in Hfree. lia.
  - intros Hall. rewrite find_free_from_none; [done|lia|].
    intros k Hk. apply Hall. lia.
Qed.

Lemma find_free_block_first_fit_witness :
  find_free_block mounted20
  = Ok (3, set_free_blocks mounted20
             (Some (<[3%nat := false]> ([false; false; false] ++ replicate 17 true)))) ∧
  find_free_block (set_free_blocks mounted20 (Some (replicate 20 false)))
  = Ok (0, set_free_blocks mounted20 (Some (replicate 20 false))).
Proof.
  split.
  - apply (proj1 (find_free_block_first_fit mounted20 _ eq_refl) 3).
    + vm_compute. split; congruence.
    + reflexivity.
    + intros k Hk. assert (k = 0 ∨ k = 1 ∨ k = 2) as [->|[->| ->]] by lia; reflexivity.
  - apply (proj2 (find_free_block_first_fit
                    (set_free_blocks mounted20 (Some (replicate 20 false))) _ eq_refl)).
    intros k Hk. apply lookup_replicate_2. cbn in Hk. lia.
Defined.

(** ** fs_write: what one turn changes *)

(** The place of the pointer to logical block [db] of inode [n]. *)
Definition lloc (n db : Z) : loc :=
  if bool_decide (db < POINTERS_PER_INODE) then LDirect n db
  else LEntry n (db - POINTERS_PER_INODE).

Lemma fs_stat_disk h fs fs' m :
  disk fs' = disk fs → fs_stat h fs' m = fs_stat h fs m.
Proof. intros Hd. unfold fs_stat. by rewrite Hd. Qed.

Lemma fs_stat_write_ne h fs q b h' m :
  disk_write h (disk fs) q b = Some h' → 0 ≤ q → 0 ≤ m →
  m / INODES_PER_BLOCK + 1 ≠ q →
  fs_stat h' fs m = fs_stat h fs m.
Proof.
  intros Hw Hq Hm Hne. unfold fs_stat. cbv zeta.
  rewrite (disk_read_write_ne h (disk fs) q (m / INODES_PER_BLOCK + 1) b h');
    try done.
  pose proof (Z.div_pos m INODES_PER_BLOCK). unfold INODES_PER_BLOCK in *. lia.
Qed.

Section finish_effect.
Variables (n0 offset nwrite ncopy : Z).
Let fbn := n0 / INODES_PER_BLOCK + 1.
Let fi0 := n0 mod INODES_PER_BLOCK.

(** The end of a turn, seen from the device: only the inode block is
    written, and in it only the record of inode [n0]. *)
Lemma write_finish_effect h fs blk blk1 h' fs' blk' :
  image_ok h fs → 0 ≤ n0 < table_slots fs →
  disk_read h (disk fs) fbn = Some blk →
  length blk1 = length blk →
  (∀ w, 0 ≤ w → w < 8 * fi0 + 2 ∨ 8 * fi0 + 7 < w → load32 blk1 w = load32 blk w) →
  write_finish h fs blk1 fbn fi0 offset nwrite ncopy = WNext h' fs' blk' →
  fs' = fs ∧
  (∀ m, 0 ≤ m < table_slots fs →
        inode_slot_valid h' (disk fs) m = inode_slot_valid h (disk fs) m) ∧
  (∀ l, loc_ok fs l → loc_inode l ≠ n0 →
        ptr_at h' (disk fs) l = ptr_at h (disk fs) l) ∧
  (∀ l, loc_ok fs l → loc_inode l = n0 →
        ptr_at h' (disk fs) l = inode_ptr h' (disk fs) blk1 fi0 l) ∧
  (∀ q, 0 ≤ q → q ≠ fbn → disk_read h' (disk fs) q = disk_read h (disk fs) q) ∧
  (∀ m, 0 ≤ m < table_slots fs → m ≠ n0 → fs_stat h' fs m = fs_stat h fs m).
Proof.
  intros Himg Hn0 Hblk Hlen Hwords.
  unfold write_finish. intros [= <- <- <-].
  pose proof (inode_index_range n0) as Hi0. fold fi0 in Hi0.
  pose proof (table_block_range fs n0 Hn0) as Hbn. fold fbn in Hbn.
  set (blk' := if bool_decide _ then _ else _).
  assert (Hlen' : length blk' = length blk).
  { subst blk'. case_bool_decide; [|done].
    unfold set_inode_size. by rewrite length_store32. }
  assert (Hwords' : ∀ w, 0 ≤ w → w ≠ 8 * fi0 + 1 → load32 blk' w = load32 blk1 w).
  { intros w Hw Hne. subst blk'. case_bool_decide; [|done].
    unfold set_inode_size. apply load32_store32_ne; lia. }
  destruct (disk_write_is_Some h (disk fs) fbn blk blk' Hblk) as [h' Hh'].
  rewrite Hh'. cbn [default]. change (id h') with h'.
  destruct (write_inode_block h fs n0 blk blk' h' Himg Hn0 Hblk Hlen')
    as (Hwf' & Hblocks & Hdata & Hval & Hval0 & Hptr & Hptr0); [|exact Hh'|].
  { intros w Hw Hout. fold fi0 in Hout. rewrite Hwords' by lia.
    apply Hwords; [done|lia]. }
  fold fi0 in Hval0, Hptr0.
  split; [done|]. split; [|split; [done|split; [|split]]].
  - intros m Hm. destruct (decide (m = n0)) as [Heq|Hne]; [|by apply Hval].
    rewrite Heq, Hval0. unfold inode_slot_valid. fold fbn fi0. rewrite Hblk. cbn.
    unfold inode_valid. rewrite Hwords', Hwords; [done|lia|lia|lia|lia].
  - intros l Hl Hn. rewrite (Hptr0 l Hn).
    apply inode_ptr_fields; [lia|destruct l; try done; apply Hl|].
    intros f Hf. apply Hwords'; lia.
  - intros q Hq Hne. apply (disk_read_write_ne h (disk fs) fbn q blk' h'); try done; lia.
  - intros m Hm Hne.
    destruct (decide (m / INODES_PER_BLOCK + 1 = fbn)) as [Heq|Hneq].
    + unfold fs_stat. cbv zeta. rewrite Heq, Hblk.
      rewrite (disk_read_write_eq h (disk fs) fbn blk' h') by (lia || done).
      pose proof (inode_index_range m) as Him.
      assert (Hi' : m mod INODES_PER_BLOCK ≠ fi0).
      { intros Hmod. apply Hne.
        pose proof (Z.div_mod m INODES_PER_BLOCK).
        pose proof (Z.div_mod n0 INODES_PER_BLOCK).
        unfold INODES_PER_BLOCK in *. subst fbn fi0. lia. }
      unfold inode_valid, inode_size.
      rewrite !Hwords', !Hwords by lia. done.
    + apply (fs_stat_write_ne h fs fbn blk' h'); [done|lia|lia|done].
Qed.

(** The special case where no pointer changes. *)
Lemma write_finish_effect_same h fs blk h' fs' blk' :
  image_ok h fs → 0 ≤ n0 < table_slots fs →
  disk_read h (disk fs) fbn = Some blk →
  write_finish h fs blk fbn fi0 offset nwrite ncopy = WNext h' fs' blk' →
  fs' = fs ∧
  (∀ m, 0 ≤ m < table_slots fs →
        inode_slot_valid h' (disk fs) m = inode_slot_valid h (disk fs) m) ∧
  (∀ l, loc_ok fs l → ptr_at h' (disk fs) l = ptr_at h (disk fs) l) ∧
  (∀ q, 0 ≤ q → q ≠ fbn → disk_read h' (disk fs) q = disk_read h (disk fs) q) ∧
  (∀ m, 0 ≤ m < table_slots fs → m ≠ n0 → fs_stat h' fs m = fs_stat h fs m).
Proof.
  intros Himg Hn0 Hblk Hfin.
  destruct (write_finish_effect h fs blk blk h' fs' blk' Himg Hn0 Hblk)
    as (-> & Hval & Hptr & Hptr0 & Hframe & Hstat); [done|done|exact Hfin|].
  split; [done|]. split; [done|]. split; [|done].
  intros l Hl. destruct (decide (loc_inode l = n0)) as [Hn|Hn]; [|by apply Hptr].
  rewrite (Hptr0 l Hl Hn). unfold ptr_at. rewrite Hn. fold fbn fi0. rewrite Hblk.
  apply inode_ptr_disk. intros Hz. apply Hframe.
  - pose proof (load32_range blk (8 * fi0 + 7)). unfold inode_indirect. lia.
  - pose proof (table_block_range fs n0 Hn0) as Hbn. fold fbn in Hbn.
    destruct (ptr_range h fs (LIndirect n0) Himg (conj Hn0 I)) as [Hp|Hp];
      unfold ptr_at in Hp; cbn [loc_inode] in Hp; fold fbn fi0 in Hp;
      rewrite Hblk in Hp; cbn [inode_ptr] in Hp; [done|lia].
Qed.
End finish_effect.

Lemma copy_in_blit data_blk doff data nwrite ncopy b :
  copy_in data_blk doff data nwrite ncopy = Ok b →
  b = blit data_blk (Z.to_nat doff) (take (Z.to_nat ncopy) (drop (Z.to_nat nwrite) data)) ∧
  doff + ncopy ≤ BLOCK_SIZE ∧ nwrite + ncopy ≤ Z.of_nat (length data).
Proof.
  unfold copy_in. repeat case_bool_decide; try done. intros [= <-].
  split; [done|lia].
Qed.

(** What a turn that goes on leaves on the device: the pointer to
    logical block [db] is set, and with it the indirect pointer when
    [db] lies behind the direct pointers; the block it names holds
    [bytes] from offset [doff] on; no other pointer changes and no slot
    changes state; and the blocks written are this data block, the
    inode block and, behind the direct pointers, the indirect block. *)
Definition turn_effect (n0 db doff : Z) (bytes : list byte)
    (h : list Disk) (fs : FileSystem) (h' : list Disk) : Prop :=
  ptr_at h' (disk fs) (lloc n0 db) ≠ 0 ∧
  (POINTERS_PER_INODE ≤ db → ptr_at h' (disk fs) (LIndirect n0) ≠ 0) ∧
  (∃ b0, Z.of_nat (length b0) = BLOCK_SIZE ∧
     disk_read h' (disk fs) (ptr_at h' (disk fs) (lloc n0 db))
     = Some (blit b0 (Z.to_nat doff) bytes)) ∧
  (∀ l, loc_ok fs l →
     ptr_at h' (disk fs) l = ptr_at h (disk fs) l ∨
     ptr_at h (disk fs) l = 0 ∧
     (l = lloc n0 db ∨ POINTERS_PER_INODE ≤ db ∧ l = LIndirect n0)) ∧
  (∀ m, 0 ≤ m < table_slots fs →
     inode_slot_valid h' (disk fs) m = inode_slot_valid h (disk fs) m) ∧
  (∀ q, 0 ≤ q → q ≠ n0 / INODES_PER_BLOCK + 1 →
     q ≠ ptr_at h' (disk fs) (lloc n0 db) →
     (db < POINTERS_PER_INODE ∨ q ≠ ptr_at h' (disk fs) (LIndirect n0)) →
     disk_read h' (disk fs) q = disk_read h (disk fs) q) ∧
  (∀ m, 0 ≤ m < table_slots fs → m ≠ n0 → fs_stat h' fs m = fs_stat h fs m).

Section turn_effect.
Variables (n0 : Z) (data : list byte) (offset db doff ncopy nwrite : Z).
Let tbn := n0 / INODES_PER_BLOCK + 1.
Let ti0 := n0 mod INODES_PER_BLOCK.
Hypothesis Hdoff : 0 ≤ doff.
Hypothesis Hncopy : 0 ≤ ncopy.
Hypothesis Hnwrite : 0 ≤ nwrite.

Lemma write_direct_effect h fs blk h' fs' blk' :
  fs_inv h fs → 0 ≤ n0 < table_slots fs →
  disk_read h (disk fs) tbn = Some blk → inode_valid blk ti0 ≠ 0 →
  0 ≤ db < POINTERS_PER_INODE →
  write_direct h fs blk tbn ti0 data offset db doff ncopy nwrite
  = Ok (WNext h' fs' blk') →
  turn_effect n0 db doff (take (Z.to_nat ncopy) (drop (Z.to_nat nwrite) data)) h fs h'.
Proof.
  intros Hinv Hn0 Hblk Hvalid Hdb.
  pose proof (inode_index_range n0) as Hi0. fold ti0 in Hi0.
  pose proof (table_block_range fs n0 Hn0) as Hbn. fold tbn in Hbn.
  destruct (slot_of_block n0 h fs blk Hblk Hvalid) as [Hslot Hptr].
  fold ti0 in Hptr.
  pose proof (img_wf _ _ (inv_image _ _ Hinv)) as Hwf.
  pose proof (img_layout _ _ (inv_image _ _ Hinv)) as Hlay.
  pose proof (wf_store_read h _ _ _ Hwf Hblk) as Hlen.
  assert (Hdb' : 0 ≤ db < 5) by (unfold POINTERS_PER_INODE in Hdb; lia).
  assert (Hi0' : 0 ≤ ti0 < 128) by (unfold INODES_PER_BLOCK in Hi0; lia).
  assert (Hlen' : Z.of_nat (length blk) = 4096) by (by rewrite Hlen).
  assert (Hl0 : lloc n0 db = LDirect n0 db).
  { unfold lloc. by rewrite bool_decide_eq_true_2 by lia. }
  assert (Hok0 : loc_ok fs (LDirect n0 db)) by done.
  assert (Hlive0 : live h fs (LDirect n0 db)) by done.
  unfold turn_effect. rewrite Hl0.
  unfold write_direct. intros (r1 & Hr1 & Hrest)%bind_Ok.
  destruct (inode_direct blk ti0 db =? 0) eqn:Hp.
  - apply Z.eqb_eq in Hp.
    apply bind_Ok in Hr1 as ([nb fs1] & Hfree & Hr1).
    destruct (fs_inv_alloc h fs nb fs1 Hinv Hfree)
      as [[-> ->]|(Hnb & Hinv1 & Hdisk1 & Hmeta1 & Hwas & Hunref & Hkeep)].
    { cbn in Hr1. injection Hr1 as <-. by injection Hrest. }
    rewrite (proj2 (Z.eqb_neq _ _) Hnb) in Hr1. injection Hr1 as <-.
    set (blk1 := set_inode_direct blk ti0 db nb) in *.
    assert (Hrnb : inode_blocks (meta_data fs) < nb < blocks (meta_data fs)).
    { destruct Hunref as [Hr _]. by rewrite Hmeta1 in Hr. }
    assert (Hnew : inode_direct blk1 ti0 db = nb).
    { unfold blk1, inode_direct, set_inode_direct.
      rewrite load32_store32_eq; [apply wrap32_small|..]; lia. }
    rewrite Hnew in Hrest.
    destruct (disk_read h (disk fs) nb) as [data_blk|] eqn:Hdata; [|by injection Hrest].
    apply bind_Ok in Hrest as (data_blk' & Hcopy & Hrest).
    destruct (disk_write h (disk fs) nb data_blk') as [h1|] eqn:Hw; [|by injection Hrest].
    apply Ok_inj in Hrest.
    pose proof (wf_store_read h _ _ _ Hwf Hdata) as Hlend.
    destruct (copy_in_blit _ _ _ _ _ _ Hcopy) as (Hblit & _).
    rewrite <- Hdisk1 in Hw, Hblk.
    destruct (fs_inv_write_unreferenced h fs1 nb data_blk' h1)
      as (Hinv1' & Hptr1 & Hval1 & Hunref1); try done.
    { by apply (copy_in_length _ _ _ _ _ _ Hcopy). }
    assert (Hn1 : 0 ≤ n0 < table_slots fs1).
    { unfold table_slots in *. by rewrite Hmeta1. }
    assert (Hblk1 : disk_read h1 (disk fs1) tbn = Some blk).
    { rewrite <- Hblk.
      apply (disk_read_write_ne h (disk fs1) nb tbn data_blk' h1); [lia..|done]. }
    destruct (write_finish_effect n0 offset nwrite ncopy h1 fs1 blk blk1 h' fs' blk'
                (inv_image _ _ Hinv1') Hn1 Hblk1)
      as (-> & Hval' & Hptr' & Hptr0' & Hframe' & Hstat'); [| |exact Hrest|].
    { unfold blk1, set_inode_direct. by rewrite length_store32. }
    { intros w Hw0 Hout. unfold blk1, set_inode_direct.
      apply load32_store32_ne; lia. }
    fold ti0 in Hptr0'. fold tbn in Hframe'.
    rewrite Hdisk1 in *.
    assert (Hok1 : ∀ l, loc_ok fs l → loc_ok fs1 l).
    { intros l Hl. by apply (loc_ok_meta fs fs1). }
    assert (Hframe : ∀ q, 0 ≤ q → q ≠ tbn → q ≠ nb →
              disk_read h' (disk fs) q = disk_read h (disk fs) q).
    { intros q Hq Hq1 Hq2. rewrite Hframe' by done.
      apply (disk_read_write_ne h (disk fs) nb q data_blk' h1); [lia|done|done|done]. }
    assert (HY : ptr_at h' (disk fs) (LDirect n0 db) = nb).
    { rewrite Hptr0' by auto. done. }
    rewrite HY. split; [done|]. split; [lia|]. split; [|split; [|split; [|split]]].
    + exists data_blk. split; [done|]. rewrite Hframe' by lia.
      rewrite (disk_read_write_eq h (disk fs) nb data_blk' h1) by (lia || done).
      by rewrite Hblit.
    + intros l Hl. destruct (decide (loc_inode l = n0)) as [Hn|Hn].
      2:{ left. rewrite Hptr', Hptr1 by auto. done. }
      destruct (decide (l = LDirect n0 db)) as [->|Hne].
      { right. rewrite Hptr by done. by split; [|left]. }
      left. rewrite Hptr0', Hptr by auto.
      destruct l as [n k|n|n j]; cbn in Hn; subst n; cbn [inode_ptr].
      * unfold blk1, inode_direct, set_inode_direct. apply load32_store32_ne.
        -- lia.
        -- destruct Hl as [_ Hk]. lia.
        -- intros Heq. apply Hne. f_equal. lia.
      * unfold blk1, inode_indirect, set_inode_direct. apply load32_store32_ne; lia.
      * replace (inode_indirect blk1 ti0) with (inode_indirect blk ti0).
        2:{ unfold blk1, inode_indirect, set_inode_direct. symmetry.
            apply load32_store32_ne; lia. }
        destruct (inode_indirect blk ti0 =? 0) eqn:Hz; [done|].
        apply Z.eqb_neq in Hz. rewrite Hframe; [done|..].
        -- pose proof (load32_range blk (8 * ti0 + 7)). unfold inode_indirect. lia.
        -- assert (HliveX : live h fs (LIndirect n0)) by done.
           pose proof (img_range h fs (inv_image _ _ Hinv) _ HliveX) as Hr.
           rewrite Hptr in Hr by done. cbn [inode_ptr] in Hr. specialize (Hr Hz). lia.
        -- intros Heq. destruct Hunref as (_ & _ & Hun).
           apply (Hun (LIndirect n0)).
           ++ split; [by apply Hok1|]. by rewrite Hdisk1.
           ++ rewrite Hdisk1, Hptr by done. done.
    + intros m Hm. rewrite Hval', Hval1 by (unfold table_slots in *; by rewrite ?Hmeta1).
      done.
    + intros q Hq Hq1 Hq2 _. by apply Hframe.
    + intros m Hm Hne. pose proof (table_block_range fs m Hm).
      rewrite <- (fs_stat_disk h' fs fs1 m Hdisk1), Hstat',
        (fs_stat_disk h1 fs fs1 m Hdisk1)
        by (done || (unfold table_slots in *; by rewrite ?Hmeta1)).
      apply (fs_stat_write_ne h fs nb data_blk' h1); [done|lia|lia|lia].
  - apply Z.eqb_neq in Hp. injection Hr1 as <-.
    destruct (disk_read h (disk fs) (inode_direct blk ti0 db)) as [data_blk|] eqn:Hdata;
      [|by injection Hrest].
    apply bind_Ok in Hrest as (data_blk' & Hcopy & Hrest).
    destruct (disk_write h (disk fs) (inode_direct blk ti0 db) data_blk') as [h1|] eqn:Hw;
      [|by injection Hrest].
    apply Ok_inj in Hrest.
    pose proof (wf_store_read h _ _ _ Hwf Hdata) as Hlend.
    destruct (copy_in_blit _ _ _ _ _ _ Hcopy) as (Hblit & _).
    set (Y := inode_direct blk ti0 db) in *.
    assert (HptrY : ptr_at h (disk fs) (LDirect n0 db) = Y) by (by rewrite Hptr).
    assert (HrY : inode_blocks (meta_data fs) < Y < blocks (meta_data fs)).
    { rewrite <- HptrY. apply (img_range h fs (inv_image _ _ Hinv) _ Hlive0).
      by rewrite HptrY. }
    destruct (fs_inv_write_data h fs (LDirect n0 db) Y data_blk' h1 Hinv Hlive0)
      as (Hinv1' & Hptr1 & Hval1 & Hunref1); try done.
    { by apply (copy_in_length _ _ _ _ _ _ Hcopy). }
    assert (Hblk1 : disk_read h1 (disk fs) tbn = Some blk).
    { rewrite <- Hblk.
      apply (disk_read_write_ne h (disk fs) Y tbn data_blk' h1); [lia..|done]. }
    destruct (write_finish_effect n0 offset nwrite ncopy h1 fs blk blk h' fs' blk'
                (inv_image _ _ Hinv1') Hn0 Hblk1)
      as (-> & Hval' & Hptr' & Hptr0' & Hframe' & Hstat'); [done|done|exact Hrest|].
    fold ti0 in Hptr0'. fold tbn in Hframe'.
    assert (Hframe : ∀ q, 0 ≤ q → q ≠ tbn → q ≠ Y →
              disk_read h' (disk fs) q = disk_read h (disk fs) q).
    { intros q Hq Hq1 Hq2. rewrite Hframe' by done.
      apply (disk_read_write_ne h (disk fs) Y q data_blk' h1); [lia|done|done|done]. }
    assert (Hsame : ∀ l, loc_ok fs l → ptr_at h' (disk fs) l = ptr_at h (disk fs) l).
    { intros l Hl. destruct (decide (loc_inode l = n0)) as [Hn|Hn].
      2:{ rewrite Hptr', Hptr1 by auto. done. }
      rewrite Hptr0', Hptr by auto. apply inode_ptr_disk. intros Hz.
      apply Hframe.
      - pose proof (load32_range blk (8 * ti0 + 7)). unfold inode_indirect. lia.
      - assert (HliveX : live h fs (LIndirect n0)) by done.
        pose proof (img_range h fs (inv_image _ _ Hinv) _ HliveX) as Hr.
        rewrite Hptr in Hr by done. cbn [inode_ptr] in Hr. specialize (Hr Hz). lia.
      - intros Heq.
        assert (HliveX : live h fs (LIndirect n0)) by done.
        assert (LIndirect n0 = LDirect n0 db); [|done].
        apply (img_nodup h fs (inv_image _ _ Hinv)); try done.
        + rewrite HptrY, Hptr by done. done.
        + rewrite Hptr by done. done. }
    rewrite Hsame, HptrY by done.
    split; [lia|]. split; [lia|]. split; [|split; [|split; [|split]]].
    + exists data_blk. split; [done|]. rewrite Hframe' by lia.
      rewrite (disk_read_write_eq h (disk fs) Y data_blk' h1) by (lia || done).
      by rewrite Hblit.
    + intros l Hl. left. by apply Hsame.
    + intros m Hm. rewrite Hval', Hval1 by done. done.
    + intros q Hq Hq1 Hq2 _. by apply Hframe.
    + intros m Hm Hne. pose proof (table_block_range fs m Hm).
      rewrite Hstat' by done.
      apply (fs_stat_write_ne h fs Y data_blk' h1); [done|lia|lia|lia].
Qed.

Lemma write_indirect_effect h fs blk h' fs' blk' :
  fs_inv h fs → 0 ≤ n0 < table_slots fs →
  disk_read h (disk fs) tbn = Some blk → inode_valid blk ti0 ≠ 0 →
  POINTERS_PER_INODE ≤ db →
  write_indirect h fs blk tbn ti0 data offset db doff ncopy nwrite
  = Ok (WNext h' fs' blk') →
  db - POINTERS_PER_INODE < POINTERS_PER_BLOCK ∧
  turn_effect n0 db doff (take (Z.to_nat ncopy) (drop (Z.to_nat nwrite) data)) h fs h'.
Proof.
  intros Hinv Hn0 Hblk Hvalid Hdb.
  pose proof (inode_index_range n0) as Hi0. fold ti0 in Hi0.
  pose proof (table_block_range fs n0 Hn0) as Hbn. fold tbn in Hbn.
  destruct (slot_of_block n0 h fs blk Hblk Hvalid) as [Hslot Hptr].
  fold ti0 in Hptr.
  pose proof (img_wf _ _ (inv_image _ _ Hinv)) as Hwf.
  pose proof (img_layout _ _ (inv_image _ _ Hinv)) as Hlay.
  pose proof (wf_store_read h _ _ _ Hwf Hblk) as Hlen.
  unfold write_indirect. set (off := db - POINTERS_PER_INODE).
  assert (Hoff0 : 0 ≤ off) by (unfold off; lia).
  assert (Hdb5 : 5 ≤ db) by (unfold POINTERS_PER_INODE in Hdb; lia).
  assert (Hi0' : 0 ≤ ti0 < 128) by (unfold INODES_PER_BLOCK in Hi0; lia).
  assert (Hlen' : Z.of_nat (length blk) = 4096) by (by rewrite Hlen).
  assert (Hl0 : lloc n0 db = LEntry n0 off).
  { unfold lloc. by rewrite bool_decide_eq_false_2 by lia. }
  unfold turn_effect. rewrite Hl0.
  intros (r1 & Hr1 & Hrest)%bind_Ok.
  destruct (inode_indirect blk ti0 =? 0) eqn:Hind.
  - (* no indirect block yet *)
    apply Z.eqb_eq in Hind.
    apply bind_Ok in Hr1 as ([X fs1] & Hfree & Hr1).
    destruct (fs_inv_alloc h fs X fs1 Hinv Hfree)
      as [[-> ->]|(HX & Hinv1 & Hdisk1 & Hmeta1 & HwasX & HunrefX & Hkeep1)].
    { cbn in Hr1. injection Hr1 as <-. by injection Hrest. }
    rewrite (proj2 (Z.eqb_neq _ _) HX) in Hr1. injection Hr1 as <-.
    case_bool_decide as Hoff; [done|].
    assert (Hoff' : off < 1024) by (unfold POINTERS_PER_BLOCK in Hoff; lia).
    split; [unfold POINTERS_PER_BLOCK; lia|].
    assert (Hok0 : loc_ok fs (LEntry n0 off)).
    { split; [done|]. unfold POINTERS_PER_BLOCK. cbn. lia. }
    apply bind_Ok in Hrest as (r2 & Hr2 & Hrest).
    unfold pointers at 1 in Hr2. rewrite load32_zero_block in Hr2.
    cbn [Z.eqb] in Hr2.
    apply bind_Ok in Hr2 as ([Y fs2] & Hfree2 & Hr2).
    destruct (fs_inv_alloc h fs1 Y fs2 Hinv1 Hfree2)
      as [[-> ->]|(HY & Hinv2 & Hdisk2 & Hmeta2 & HwasY & HunrefY & Hkeep2)].
    { cbn in Hr2. injection Hr2 as <-. by injection Hrest. }
    rewrite (proj2 (Z.eqb_neq _ _) HY) in Hr2.
    set (blk1 := set_inode_indirect blk ti0 X) in *.
    assert (HrX : inode_blocks (meta_data fs) < X < blocks (meta_data fs)).
    { destruct HunrefX as [Hr _]. by rewrite Hmeta1 in Hr. }
    assert (HrY : inode_blocks (meta_data fs) < Y < blocks (meta_data fs)).
    { destruct HunrefY as [Hr _]. by rewrite Hmeta2, Hmeta1 in Hr. }
    assert (HnewX : inode_indirect blk1 ti0 = X).
    { unfold blk1, inode_indirect, set_inode_indirect.
      rewrite load32_store32_eq; [apply wrap32_small|..]; lia. }
    rewrite HnewX in Hr2.
    set (ib' := set_pointers zero_block off Y) in *.
    assert (Hdisk : disk fs2 = disk fs) by congruence.
    assert (Hmeta : meta_data fs2 = meta_data fs) by congruence.
    destruct (disk_write h (disk fs) X ib') as [h1|] eqn:Hw1; injection Hr2 as <-;
      [|by injection Hrest].
    apply bind_Ok in Hrest as (data_blk' & Hcopy & Hrest).
    destruct (copy_in_blit _ _ _ _ _ _ Hcopy) as (Hblit & _).
    assert (HptrY : pointers ib' off = Y).
    { unfold ib', pointers, set_pointers.
      rewrite load32_store32_eq; [apply wrap32_small|..]; try lia.
      pose proof length_zero_block. unfold BLOCK_SIZE in *. lia. }
    rewrite HptrY in Hrest.
    assert (HXY : X ≠ Y).
    { intros ->. destruct HunrefX as (_ & Hb & _). congruence. }
    rewrite <- Hdisk in Hw1, Hrest, Hblk.
    destruct (fs_inv_write_unreferenced h fs2 X ib' h1)
      as (Hinv2' & Hptr2 & Hval2 & Hunref2); try done.
    { by apply Hkeep2. }
    { unfold ib', set_pointers. rewrite length_store32. apply length_zero_block. }
    destruct (disk_write h1 (disk fs2) Y data_blk') as [h2|] eqn:Hw2;
      [|by injection Hrest].
    apply Ok_inj in Hrest.
    destruct (fs_inv_write_unreferenced h1 fs2 Y data_blk' h2)
      as (Hinv3 & Hptr3 & Hval3 & Hunref3); try done.
    { by apply Hunref2. }
    { apply (copy_in_length _ _ _ _ _ _ Hcopy); try done; apply length_zero_block. }
    assert (Hn2 : 0 ≤ n0 < table_slots fs2).
    { unfold table_slots in *. by rewrite Hmeta. }
    assert (Hblk2 : disk_read h2 (disk fs2) tbn = Some blk).
    { rewrite <- Hblk.
      rewrite (disk_read_write_ne h1 (disk fs2) Y tbn data_blk' h2); [|lia..|done].
      apply (disk_read_write_ne h (disk fs2) X tbn ib' h1); [lia..|done]. }
    destruct (write_finish_effect n0 offset nwrite ncopy h2 fs2 blk blk1 h' fs' blk'
                (inv_image _ _ Hinv3) Hn2 Hblk2)
      as (-> & Hval' & Hptr' & Hptr0' & Hframe' & Hstat'); [| |exact Hrest|].
    { unfold blk1, set_inode_indirect. by rewrite length_store32. }
    { intros w Hw0 Hout. unfold blk1, set_inode_indirect.
      apply load32_store32_ne; lia. }
    fold ti0 in Hptr0'. fold tbn in Hframe'.
    rewrite Hdisk in *.
    assert (Hok2 : ∀ l, loc_ok fs l → loc_ok fs2 l).
    { intros l Hl. by apply (loc_ok_meta fs fs2). }
    assert (Hframe : ∀ q, 0 ≤ q → q ≠ tbn → q ≠ Y → q ≠ X →
              disk_read h' (disk fs) q = disk_read h (disk fs) q).
    { intros q Hq Hq1 Hq2 Hq3. rewrite Hframe' by done.
      rewrite (disk_read_write_ne h1 (disk fs) Y q data_blk' h2); [|lia|done|done|done].
      apply (disk_read_write_ne h (disk fs) X q ib' h1); [lia|done|done|done]. }
    assert (Hib' : disk_read h' (disk fs) X = Some ib').
    { rewrite Hframe' by lia.
      rewrite (disk_read_write_ne h1 (disk fs) Y X data_blk' h2); [|lia..|done].
      apply (disk_read_write_eq h (disk fs) X ib' h1); [lia|done]. }
    assert (HvX : ptr_at h' (disk fs) (LIndirect n0) = X).
    { rewrite Hptr0'; [done|by apply Hok2|done]. }
    assert (HvY : ptr_at h' (disk fs) (LEntry n0 off) = Y).
    { rewrite Hptr0'; [|by apply Hok2|done]. cbn [inode_ptr].
      by rewrite HnewX, Hib', (proj2 (Z.eqb_neq _ _) HX). }
    rewrite HvX, HvY. split; [done|]. split; [done|]. split; [|split; [|split; [|split]]].
    + exists zero_block. split; [apply length_zero_block|]. rewrite Hframe' by lia.
      rewrite (disk_read_write_eq h1 (disk fs) Y data_blk' h2) by (lia || done).
      by rewrite Hblit.
    + intros l Hl. destruct (decide (loc_inode l = n0)) as [Hn|Hn].
      2:{ left. rewrite Hptr', Hptr3, Hptr2 by auto. done. }
      destruct l as [n k|n|n j]; cbn in Hn; subst n.
      * left. rewrite Hptr0', Hptr by auto. cbn [inode_ptr].
        unfold blk1, inode_direct, set_inode_indirect.
        destruct Hl as [_ Hk]. unfold POINTERS_PER_INODE in Hk.
        apply load32_store32_ne; lia.
      * right. rewrite Hptr by done. split; [done|]. by right.
      * destruct (decide (j = off)) as [->|Hj].
        { right. rewrite Hptr by done. cbn [inode_ptr]. rewrite Hind. by split; [|left]. }
        left. rewrite Hptr0', Hptr by auto. cbn [inode_ptr].
        rewrite HnewX, Hind, Hib', (proj2 (Z.eqb_neq _ _) HX). cbn [Z.eqb].
        unfold ib', pointers, set_pointers. destruct Hl as [_ Hj'].
        rewrite load32_store32_ne by lia. apply load32_zero_block.
    + intros m Hm.
      rewrite Hval', Hval3, Hval2 by (unfold table_slots in *; by rewrite ?Hmeta).
      done.
    + intros q Hq Hq1 Hq2 [?|Hq3]; [lia|]. by apply Hframe.
    + intros m Hm Hne. pose proof (table_block_range fs m Hm).
      rewrite <- (fs_stat_disk h' fs fs2 m Hdisk), Hstat',
        (fs_stat_disk h2 fs fs2 m Hdisk)
        by (done || (unfold table_slots in *; by rewrite ?Hmeta)).
      rewrite (fs_stat_write_ne h1 fs Y data_blk' h2); [|done|lia|lia|lia].
      apply (fs_stat_write_ne h fs X ib' h1); [done|lia|lia|lia].
  - (* the inode has an indirect block *)
    apply Z.eqb_neq in Hind. set (X := inode_indirect blk ti0) in *.
    assert (HliveX : live h fs (LIndirect n0)) by done.
    assert (HptrX : ptr_at h (disk fs) (LIndirect n0) = X) by (by rewrite Hptr).
    assert (HrX : inode_blocks (meta_data fs) < X < blocks (meta_data fs)).
    { rewrite <- HptrX. apply (img_range h fs (inv_image h fs Hinv) _ HliveX).
      by rewrite HptrX. }
    destruct (disk_read h (disk fs) X) as [ib|] eqn:Hib; injection Hr1 as <-;
      [|by injection Hrest].
    case_bool_decide as Hoff; [done|].
    assert (Hoff' : off < 1024) by (unfold POINTERS_PER_BLOCK in Hoff; lia).
    split; [unfold POINTERS_PER_BLOCK; lia|].
    assert (Hok : loc_ok fs (LEntry n0 off)).
    { split; [done|]. unfold POINTERS_PER_BLOCK. cbn. lia. }
    assert (HptrE : ptr_at h (disk fs) (LEntry n0 off) = pointers ib off).
    { rewrite Hptr by done. cbn [inode_ptr]. fold X.
      by rewrite Hib, (proj2 (Z.eqb_neq _ _) Hind). }
    apply bind_Ok in Hrest as (r2 & Hr2 & Hrest).
    destruct (pointers ib off =? 0) eqn:Hent.
    + (* the entry is allocated *)
      apply Z.eqb_eq in Hent.
      apply bind_Ok in Hr2 as ([Y fs2] & Hfree2 & Hr2).
      destruct (fs_inv_alloc h fs Y fs2 Hinv Hfree2)
        as [[-> ->]|(HY & Hinv2 & Hdisk & Hmeta & HwasY & HunrefY & Hkeep2)].
      { cbn in Hr2. injection Hr2 as <-. by injection Hrest. }
      rewrite (proj2 (Z.eqb_neq _ _) HY) in Hr2.
      assert (HrY : inode_blocks (meta_data fs) < Y < blocks (meta_data fs)).
      { destruct HunrefY as [Hr _]. by rewrite Hmeta in Hr. }
      assert (Hn2 : 0 ≤ n0 < table_slots fs2).
      { unfold table_slots in *. by rewrite Hmeta. }
      fold X in Hr2.
      destruct (disk_write h (disk fs) X (set_pointers ib off Y)) as [h1|] eqn:Hw1;
        injection Hr2 as <-; [|by injection Hrest].
      apply bind_Ok in Hrest as (data_blk' & Hcopy & Hrest).
      destruct (copy_in_blit _ _ _ _ _ _ Hcopy) as (Hblit & _).
      pose proof (wf_store_read h _ _ _ Hwf Hib) as Hlenib.
      assert (HptrY : pointers (set_pointers ib off Y) off = Y).
      { unfold pointers, set_pointers.
        rewrite load32_store32_eq; [apply wrap32_small|..];
          unfold BLOCK_SIZE in *; lia. }
      rewrite HptrY in Hrest.
      assert (HXY : X ≠ Y).
      { intros Heq. destruct HunrefY as (_ & _ & Hun).
        apply (Hun (LIndirect n0)).
        - split; [by apply (loc_ok_meta fs fs2)|]. by rewrite Hdisk.
        - rewrite Hdisk. congruence. }
      rewrite <- Hdisk in Hw1, Hrest, Hblk, Hib, HptrX, Hslot.
      destruct (fs_inv_write_entry h fs2 n0 off X ib Y h1)
        as (Hinv2' & Hval2 & Hptr2 & HptrY2 & Hunref2); try done.
      destruct (disk_write h1 (disk fs2) Y data_blk') as [h2|] eqn:Hw2;
        [|by injection Hrest].
      apply Ok_inj in Hrest.
      assert (Hlive2 : live h1 fs2 (LEntry n0 off)).
      { split; [by apply (loc_ok_meta fs fs2)|]. cbn [loc_inode].
        by rewrite Hval2. }
      destruct (fs_inv_write_data h1 fs2 (LEntry n0 off) Y data_blk' h2 Hinv2' Hlive2)
        as (Hinv3 & Hptr3 & Hval3 & Hunref3); try done.
      { apply (copy_in_length _ _ _ _ _ _ Hcopy); try done; apply length_zero_block. }
      assert (Hblk2 : disk_read h2 (disk fs2) tbn = Some blk).
      { rewrite <- Hblk.
        rewrite (disk_read_write_ne h1 (disk fs2) Y tbn data_blk' h2); [|lia..|done].
        apply (disk_read_write_ne h (disk fs2) X tbn (set_pointers ib off Y) h1);
          [lia..|done]. }
      destruct (write_finish_effect_same n0 offset nwrite ncopy h2 fs2 blk h' fs' blk'
                  (inv_image _ _ Hinv3) Hn2 Hblk2 Hrest)
        as (-> & Hval' & Hptr' & Hframe' & Hstat').
      fold tbn in Hframe'.
      rewrite Hdisk in *.
      assert (Hok2 : ∀ l, loc_ok fs l → loc_ok fs2 l).
      { intros l Hl. by apply (loc_ok_meta fs fs2). }
      assert (HvY : ptr_at h' (disk fs) (LEntry n0 off) = Y).
      { rewrite Hptr', Hptr3 by auto. done. }
      assert (HvX : ptr_at h' (disk fs) (LIndirect n0) = X).
      { assert (HokX : loc_ok fs (LIndirect n0)) by done.
        rewrite Hptr', Hptr3 by auto. rewrite Hptr2; [done|by apply Hok2|done]. }
      rewrite HvX, HvY. split; [done|]. split; [done|]. split; [|split; [|split; [|split]]].
      * exists zero_block. split; [apply length_zero_block|]. rewrite Hframe' by lia.
        rewrite (disk_read_write_eq h1 (disk fs) Y data_blk' h2) by (lia || done).
        by rewrite Hblit.
      * intros l Hl. destruct (decide (l = LEntry n0 off)) as [->|Hne].
        { right. rewrite HptrE. by split; [|left]. }
        left. rewrite Hptr', Hptr3, Hptr2 by auto. done.
      * intros m Hm.
        rewrite Hval', Hval3, Hval2 by (unfold table_slots in *; by rewrite ?Hmeta).
        done.
      * intros q Hq Hq1 Hq2 [?|Hq3]; [lia|]. rewrite Hframe' by done.
        rewrite (disk_read_write_ne h1 (disk fs) Y q data_blk' h2); [|lia|done|done|done].
        apply (disk_read_write_ne h (disk fs) X q (set_pointers ib off Y) h1);
          [lia|done|done|done].
      * intros m Hm Hne. pose proof (table_block_range fs m Hm).
        rewrite <- (fs_stat_disk h' fs fs2 m Hdisk), Hstat',
          (fs_stat_disk h2 fs fs2 m Hdisk)
          by (done || (unfold table_slots in *; by rewrite ?Hmeta)).
        rewrite (fs_stat_write_ne h1 fs Y data_blk' h2); [|done|lia|lia|lia].
        apply (fs_stat_write_ne h fs X (set_pointers ib off Y) h1); [done|lia|lia|lia].
    + (* the entry names a data block *)
      apply Z.eqb_neq in Hent.
      destruct (disk_read h (disk fs) (pointers ib off)) as [data_blk|] eqn:Hdata;
        injection Hr2 as <-; [|by injection Hrest].
      apply bind_Ok in Hrest as (data_blk' & Hcopy & Hrest).
      destruct (copy_in_blit _ _ _ _ _ _ Hcopy) as (Hblit & _).
      pose proof (wf_store_read h _ _ _ Hwf Hdata) as Hlend.
      set (Y := pointers ib off) in *.
      destruct (disk_write h (disk fs) Y data_blk') as [h1|] eqn:Hw;
        [|by injection Hrest].
      apply Ok_inj in Hrest.
      assert (HliveE : live h fs (LEntry n0 off)) by done.
      assert (HrY : inode_blocks (meta_data fs) < Y < blocks (meta_data fs)).
      { rewrite <- HptrE. apply (img_range h fs (inv_image h fs Hinv) _ HliveE).
        by rewrite HptrE. }
      destruct (fs_inv_write_data h fs (LEntry n0 off) Y data_blk' h1 Hinv HliveE)
        as (Hinv1' & Hptr1 & Hval1 & Hunref1); try done.
      { by apply (copy_in_length _ _ _ _ _ _ Hcopy). }
      assert (Hblk1 : disk_read h1 (disk fs) tbn = Some blk).
      { rewrite <- Hblk.
        apply (disk_read_write_ne h (disk fs) Y tbn data_blk' h1); [lia..|done]. }
      destruct (write_finish_effect_same n0 offset nwrite ncopy h1 fs blk h' fs' blk'
                  (inv_image _ _ Hinv1') Hn0 Hblk1 Hrest)
        as (-> & Hval' & Hptr' & Hframe' & Hstat').
      fold tbn in Hframe'.
      assert (Hsame : ∀ l, loc_ok fs l → ptr_at h' (disk fs) l = ptr_at h (disk fs) l).
      { intros l Hl. rewrite Hptr', Hptr1 by auto. done. }
      rewrite !Hsame, HptrE, HptrX by done.
      split; [done|]. split; [done|]. split; [|split; [|split; [|split]]].
      * exists data_blk. split; [done|]. rewrite Hframe' by lia.
        rewrite (disk_read_write_eq h (disk fs) Y data_blk' h1) by (lia || done).
        by rewrite Hblit.
      * intros l Hl. left. by apply Hsame.
      * intros m Hm. rewrite Hval', Hval1 by done. done.
      * intros q Hq Hq1 Hq2 _. rewrite Hframe' by done.
        apply (disk_read_write_ne h (disk fs) Y q data_blk' h1); [lia|done|done|done].
      * intros m Hm Hne. pose proof (table_block_range fs m Hm).
        rewrite Hstat' by done.
        apply (fs_stat_write_ne h fs Y data_blk' h1); [done|lia|lia|lia].
Qed.

Lemma write_turn_effect h fs blk h' fs' blk' :
  fs_inv h fs → 0 ≤ n0 < table_slots fs →
  disk_read h (disk fs) tbn = Some blk → inode_valid blk ti0 ≠ 0 →
  0 ≤ db →
  write_turn h fs blk tbn ti0 data offset db doff ncopy nwrite
  = Ok (WNext h' fs' blk') →
  db < POINTERS_PER_INODE + POINTERS_PER_BLOCK ∧
  turn_effect n0 db doff (take (Z.to_nat ncopy) (drop (Z.to_nat nwrite) data)) h fs h'.
Proof.
  intros Hinv Hn0 Hblk Hvalid Hdb. unfold write_turn. case_bool_decide.
  - intros Hw. split; [unfold POINTERS_PER_BLOCK; lia|].
    by apply (write_direct_effect h fs blk h' fs' blk').
  - intros Hw. apply write_indirect_effect in Hw as [Hoff Heff]; try done; [|lia].
    split; [lia|done].
Qed.
End turn_effect.

Lemma write_turn_copy h fs blk bn inode_i data offset db doff ncopy nwrite
    h' fs' blk' :
  write_turn h fs blk bn inode_i data offset db doff ncopy nwrite
  = Ok (WNext h' fs' blk') →
  doff + ncopy ≤ BLOCK_SIZE ∧ nwrite + ncopy ≤ Z.of_nat (length data).
Proof.
  unfold write_turn. case_bool_decide.
  - unfold write_direct.
    intros ([fs1|[fs1 blk1]] & _ & Hk)%bind_Ok; [congruence|].
    destruct (disk_read _ _ _); [|congruence].
    apply bind_Ok in Hk as (b & Hc & Hk). by apply copy_in_blit in Hc as (_ & ? & ?).
  - unfold write_indirect. cbv zeta.
    intros ([fs1|[[fs1 blk1] indirect_blk]] & _ & Hk)%bind_Ok; [congruence|].
    case_bool_decide; [done|].
    apply bind_Ok in Hk
      as ([[h1 fs2]|[[[h1 fs2] indirect_blk'] data_blk]] & _ & Hk); [congruence|].
    apply bind_Ok in Hk as (b & Hc & Hk). by apply copy_in_blit in Hc as (_ & ? & ?).
Qed.

(** ** fs_write then fs_read *)

Lemma lloc_ok fs n db :
  0 ≤ n < table_slots fs → 0 ≤ db < POINTERS_PER_INODE + POINTERS_PER_BLOCK →
  loc_ok fs (lloc n db) ∧ loc_inode (lloc n db) = n ∧ ∀ m, lloc n db ≠ LIndirect m.
Proof.
  intros Hn Hdb. unfold lloc. case_bool_decide; (split; [split; [done|cbn; lia]|done]).
Qed.

Lemma lloc_inj n db db' : lloc n db = lloc n db' → db = db'.
Proof.
  unfold lloc. repeat case_bool_decide; intros [= ?]; lia.
Qed.

(** The block [fs_read] takes for logical block [db]. *)
Lemma read_data_block_ptr h fs n blk db :
  disk_read h (disk fs) (n / INODES_PER_BLOCK + 1) = Some blk →
  db < POINTERS_PER_INODE + POINTERS_PER_BLOCK →
  (POINTERS_PER_INODE ≤ db →
   ptr_at h (disk fs) (LIndirect n) ≠ 0 ∧
   is_Some (disk_read h (disk fs) (ptr_at h (disk fs) (LIndirect n)))) →
  read_data_block h (disk fs) blk (n mod INODES_PER_BLOCK) db
  = Ok (disk_read h (disk fs) (ptr_at h (disk fs) (lloc n db))).
Proof.
  intros Hblk Hdb Hind. unfold read_data_block, lloc, ptr_at.
  case_bool_decide as Hd; cbn [loc_inode]; rewrite Hblk; cbn [inode_ptr]; [done|].
  destruct Hind as [Hnz [ib Hib]]; [lia|].
  unfold ptr_at in Hnz, Hib. cbn [loc_inode] in Hnz, Hib.
  rewrite Hblk in Hnz, Hib. cbn [inode_ptr] in Hnz, Hib.
  rewrite Hib, (proj2 (Z.eqb_neq _ _) Hnz).
  by rewrite bool_decide_eq_false_2 by lia.
Qed.

Lemma copy_out_blit b0 doff cap nread ncopy (bytes : list byte) :
  0 ≤ doff → Z.of_nat (length bytes) = ncopy →
  doff + ncopy ≤ BLOCK_SIZE → Z.of_nat (length b0) = BLOCK_SIZE →
  nread + ncopy ≤ cap →
  copy_out (blit b0 (Z.to_nat doff) bytes) doff cap nread ncopy = Ok bytes.
Proof.
  intros Hdoff Hlen Hfit Hb0 Hcap. unfold copy_out.
  rewrite !bool_decide_eq_false_2 by lia. f_equal. unfold blit.
  rewrite drop_app_length'; [|rewrite length_take; lia].
  rewrite take_app_length'; [done|lia].
Qed.

Section write_read.
Variables (n len offset : Z) (data : list byte).
Hypothesis Hlen : 0 ≤ len < 2 ^ 64.

(** The loop of [fs_write] from some turn on, and the loop of [fs_read]
    run from the same turn on the state that [fs_write] leaves: the
    pointers that were set stay, the data blocks that this call does not
    write keep their contents, and the read returns the bytes written. *)
Lemma write_then_read_loop fuel : ∀ h fs blk db doff ncopy nwrite r h' fs',
  fs_inv h fs → 0 ≤ n < table_slots fs →
  disk_read h (disk fs) (n / INODES_PER_BLOCK + 1) = Some blk →
  inode_valid blk (n mod INODES_PER_BLOCK) ≠ 0 →
  walk_inv len offset db doff ncopy nwrite → 0 ≤ db →
  write_loop fuel h fs blk (n / INODES_PER_BLOCK + 1) (n mod INODES_PER_BLOCK)
    data len offset db doff ncopy nwrite = Ok (r, h', fs') →
  r ≠ -1 →
  nwrite ≤ r ∧
  (∀ l, loc_ok fs l → ptr_at h (disk fs) l ≠ 0 →
        ptr_at h' (disk fs) l = ptr_at h (disk fs) l) ∧
  (∀ m, 0 ≤ m < table_slots fs →
        inode_slot_valid h' (disk fs) m = inode_slot_valid h (disk fs) m) ∧
  (∀ l, live h fs l → (∀ m, l ≠ LIndirect m) → ptr_at h (disk fs) l ≠ 0 →
        (∀ d, db ≤ d → l ≠ lloc n d) →
        disk_read h' (disk fs) (ptr_at h (disk fs) l)
        = disk_read h (disk fs) (ptr_at h (disk fs) l)) ∧
  (∀ blk' acc, disk_read h' (disk fs) (n / INODES_PER_BLOCK + 1) = Some blk' →
        read_loop fuel h' (disk fs) blk' (n mod INODES_PER_BLOCK) len len db
          doff ncopy nwrite acc
        = Ok (r, acc ++ take (Z.to_nat (r - nwrite)) (drop (Z.to_nat nwrite) data))).
Proof.
  induction fuel as [|fuel IH];
    intros h fs blk db doff ncopy nwrite r h' fs' Hinv Hn Hblk Hvalid Hwalk Hdb;
    cbn [write_loop read_loop]; case_bool_decide as Hlt; try done.
  1,3: intros [= <- <- <-] _; repeat split; try done; try lia;
       intros blk' acc _; rewrite Z.sub_diag; cbn [Z.to_nat take];
       by rewrite app_nil_r.
  intros (s & Hturn & Hrest)%bind_Ok Hr.
  pose proof Hwalk as (Hdoff & Hnwrite & Hncopy & Hpos & Hdone).
  assert (Hncopy0 : 0 ≤ ncopy) by lia.
  pose proof (write_turn_inv n data offset db doff ncopy nwrite ltac:(lia) Hncopy0
                ltac:(lia) h fs blk s Hinv Hn Hblk Hvalid Hdb Hturn) as Hpost.
  destruct s as [r0 h1 fs1|h1 fs1 blk1]; cbn [turn_post] in Hpost.
  { pose proof (write_turn_return _ _ _ _ _ _ _ _ _ _ _ _ _ _ Hturn) as ->.
    by injection Hrest as <- _ _. }
  destruct Hpost as (Hinv1 & Hdisk1 & Hmeta1 & Hblk1 & Hvalid1).
  destruct (write_turn_copy _ _ _ _ _ _ _ _ _ _ _ _ _ _ Hturn) as [Hfit Hdata].
  apply write_turn_effect in Hturn
    as (Hdblt & HY & HX & (b0 & Hb0 & Hcontent) & Hptrs & Hvals & Hframe & Hstats);
    try done; try lia.
  assert (Hwalk1 : walk_inv len offset (db + 1) 0
            (if bool_decide (BLOCK_SIZE < wrap64 (len - (nwrite + ncopy)))
             then BLOCK_SIZE else wrap64 (len - (nwrite + ncopy)))
            (nwrite + ncopy)).
  { by apply (walk_inv_next len offset Hlen db doff ncopy nwrite). }
  assert (Hn1 : 0 ≤ n < table_slots fs1).
  { unfold table_slots in *. by rewrite Hmeta1. }
  pose proof Hrest as Hrest'.
  apply write_loop_inv in Hrest' as (Hinv' & Hdisk' & Hmeta');
    [|done|done|by rewrite Hdisk1|done|lia|lia| |lia].
  2:{ intros _. destruct Hwalk1 as (_ & _ & ? & _). lia. }
  apply IH in Hrest as (Hle & Hstay & Hvals' & Hkeep & Hread);
    [|done|done|by rewrite Hdisk1|done|done|lia|done].
  rewrite Hdisk1 in *.
  assert (Hok1 : ∀ l, loc_ok fs l → loc_ok fs1 l).
  { intros l Hl. by apply (loc_ok_meta fs fs1). }
  assert (Htab : ∀ m, 0 ≤ m < table_slots fs → 0 ≤ m < table_slots fs1).
  { intros m Hm. unfold table_slots in *. by rewrite Hmeta1. }
  destruct (lloc_ok fs n db Hn ltac:(lia)) as (Hl0 & Hn0 & Hdata0).
  assert (Hvalid_n : inode_slot_valid h (disk fs) n = Some true).
  { by apply (slot_of_block n h fs blk). }
  assert (Hlive0 : live h1 fs1 (lloc n db)).
  { split; [by apply Hok1|]. rewrite Hn0, Hdisk1, Hvals by done. done. }
  assert (Hstay1 : ∀ l, loc_ok fs l → ptr_at h (disk fs) l ≠ 0 →
            ptr_at h1 (disk fs) l = ptr_at h (disk fs) l).
  { intros l Hl Hnz. destruct (Hptrs l Hl) as [?|[? _]]; [done|congruence]. }
  split; [lia|]. split; [|split; [|split]].
  - intros l Hl Hnz. rewrite Hstay; [by apply Hstay1|by apply Hok1|].
    by rewrite Hstay1.
  - intros m Hm. rewrite Hvals', Hvals by auto. done.
  - intros l Hlive Hdat Hnz Hfut.
    pose proof (Hstay1 l (proj1 Hlive) Hnz) as Hp1.
    assert (Hlive1 : live h1 fs1 l).
    { destruct Hlive as [Hl Hv]. split; [by apply Hok1|].
      rewrite Hdisk1, Hvals; [done|apply Hl]. }
    pose proof (img_range h fs (inv_image _ _ Hinv) l Hlive Hnz) as Hrg.
    pose proof (img_layout _ _ (inv_image _ _ Hinv)) as Hlay.
    pose proof (table_block_range fs n Hn) as Hbn.
    rewrite <- Hp1. rewrite Hkeep; [|done|done|by rewrite Hp1|].
    2:{ intros d Hd. apply Hfut. lia. }
    rewrite Hp1. apply Hframe; [lia|lia| |].
    + intros Heq. apply (Hfut db); [lia|].
      apply (img_nodup h1 fs1 (inv_image _ _ Hinv1)); try done;
        rewrite Hdisk1, Hp1; [done|congruence].
    + destruct (decide (db < POINTERS_PER_INODE)); [by left|right].
      rewrite <- Hp1. intros Heq.
      apply (indirect_not_data h1 fs1 l Hinv1 Hlive1) with (n := n);
        rewrite ?Hdisk1; try done; congruence.
  - intros blk' acc Hblk'.
    assert (HYstay : ptr_at h' (disk fs) (lloc n db) = ptr_at h1 (disk fs) (lloc n db)).
    { apply Hstay; [by apply Hok1|done]. }
    rewrite (read_data_block_ptr h' fs n blk' db Hblk'); [|lia|].
    2:{ intros H5. specialize (HX H5).
        assert (HXstay : ptr_at h' (disk fs) (LIndirect n)
                         = ptr_at h1 (disk fs) (LIndirect n)).
        { apply Hstay; [by apply Hok1|done]. }
        rewrite HXstay. split; [done|].
        apply disk_read_in_range.
        assert (HliveX : live h1 fs1 (LIndirect n)).
        { split; [by apply Hok1|]. cbn [loc_inode]. rewrite Hdisk1, Hvals by done. done. }
        pose proof (img_range h1 fs1 (inv_image _ _ Hinv1) _ HliveX) as Hrg.
        rewrite Hdisk1 in Hrg. specialize (Hrg HX).
        pose proof (img_layout _ _ (inv_image _ _ Hinv1)) as Hlay1.
        pose proof (img_layout _ _ (inv_image _ _ Hinv')) as Hlay'.
        rewrite Hdisk' in Hlay'. rewrite Hmeta', Hmeta1 in Hlay'.
        rewrite Hmeta1 in Hrg. lia. }
    rewrite HYstay.
    rewrite Hkeep; [|done|done|done|].
    2:{ intros d Hd Heq%lloc_inj. lia. }
    rewrite Hcontent. cbn [mbind res_bind].
    assert (Hslice : Z.of_nat (length (take (Z.to_nat ncopy) (drop (Z.to_nat nwrite) data)))
                     = ncopy).
    { rewrite length_take, length_drop. lia. }
    rewrite copy_out_blit; [|lia|done|done|done|lia]. cbn [mbind res_bind].
    rewrite Hread by done. do 2 f_equal. rewrite <- app_assoc. f_equal.
    replace (Z.to_nat (r - nwrite))
      with (Z.to_nat ncopy + Z.to_nat (r - (nwrite + ncopy)))%nat by lia.
    rewrite <- take_take_drop, drop_drop. do 3 f_equal. lia.
Qed.
End write_read.

Lemma fs_write_then_read_inv h fs n data len offset h' fs' :
  fs_inv h fs → 0 ≤ n < table_slots fs →
  0 ≤ offset → 0 < len → len + offset < 2 ^ 64 →
  fs_write h fs n data len offset = Ok (len, h', fs') →
  fs_read h' fs' n len offset = Ok (len, take (Z.to_nat len) data).
Proof.
  intros Hinv Hn Hoff Hlen Hsum Hwrite.
  pose proof Hwrite as Hkeep.
  apply fs_write_inv in Hkeep as (Hinv' & Hdisk' & Hmeta'); [|done..].
  unfold fs_write in Hwrite. cbv zeta in Hwrite.
  destruct (disk_read h (disk fs) (n / INODES_PER_BLOCK + 1)) as [blk|] eqn:Hblk;
    [|done].
  destruct (inode_valid blk (n mod INODES_PER_BLOCK) =? 0) eqn:Hvalid.
  { injection Hwrite as ? _ _. lia. }
  apply Z.eqb_neq in Hvalid.
  pose proof (walk_inv_init len offset Hoff Hlen) as Hwalk.
  pose proof (table_block_range fs n Hn) as Hbn.
  pose proof (inode_index_range n) as Hi.
  pose proof (Z.div_pos offset BLOCK_SIZE Hoff ltac:(unfold BLOCK_SIZE; lia)) as Hdb.
  pose proof (wf_store_read h _ _ _ (img_wf _ _ (inv_image _ _ Hinv)) Hblk) as Hblen.
  pose proof Hwrite as Hsize.
  assert (Hbn0 : 0 ≤ n / INODES_PER_BLOCK + 1) by lia.
  assert (Hlen64 : 0 ≤ len < 2 ^ 64) by lia.
  apply (write_loop_size _ _ len offset data Hbn0 Hi Hlen64) in Hsize
    as (_ & blk' & Hblk' & _ & Hsize); [|done|done|done|done|lia].
  rewrite bool_decide_eq_true_2 in Hsize by lia.
  apply (write_then_read_loop n len offset data Hlen64) in Hwrite
    as (_ & _ & _ & _ & Hread); [|done|done|done|done|done|done|lia].
  rewrite Hdisk' in Hblk'.
  rewrite (fs_read_unfold h' fs' n len offset blk') by (by rewrite Hdisk').
  assert (Hclamp : clamped_length blk' (n mod INODES_PER_BLOCK) len offset = len).
  { unfold clamped_length. rewrite bool_decide_eq_false_2; [done|].
    rewrite wrap64_small by lia. lia. }
  cbv zeta. rewrite Hclamp, Hdisk'.
  rewrite (Hread blk' [] Hblk'). cbn [app]. do 3 f_equal. lia.
Qed.

(** ** fs_write: what a call leaves alone *)

Lemma disk_write_in_range h dsk m b :
  0 ≤ m < disk_blocks h dsk → is_Some (disk_write h dsk m b).
Proof.
  intros Hm. destruct (disk_read_in_range h dsk m Hm) as [b0 Hb0].
  by apply (disk_write_is_Some h dsk m b0).
Qed.

(** A turn that ends the call with [-1] has written nothing. *)
Lemma write_turn_return_same n0 data offset db doff ncopy nwrite h fs blk r h' fs' :
  fs_inv h fs → 0 ≤ n0 < table_slots fs →
  disk_read h (disk fs) (n0 / INODES_PER_BLOCK + 1) = Some blk →
  inode_valid blk (n0 mod INODES_PER_BLOCK) ≠ 0 →
  write_turn h fs blk (n0 / INODES_PER_BLOCK + 1) (n0 mod INODES_PER_BLOCK)
    data offset db doff ncopy nwrite = Ok (WReturn r h' fs') →
  h' = h.
Proof.
  intros Hinv Hn0 Hblk Hvalid.
  pose proof (img_layout _ _ (inv_image _ _ Hinv)) as Hlay.
  pose proof (inode_index_range n0) as Hi0.
  pose proof (wf_store_read h _ _ _ (img_wf _ _ (inv_image _ _ Hinv)) Hblk) as Hlen.
  destruct (slot_of_block n0 h fs blk Hblk Hvalid) as [Hslot Hptr].
  set (bn := n0 / INODES_PER_BLOCK + 1) in *.
  set (i0 := n0 mod INODES_PER_BLOCK) in *.
  assert (Hi0' : 0 ≤ i0 < 128) by (unfold INODES_PER_BLOCK in Hi0; lia).
  assert (Hlen' : Z.of_nat (length blk) = 4096) by (by rewrite Hlen).
  unfold write_turn. case_bool_decide as Hdb.
  - unfold write_direct.
    intros ([fs1|[fs1 blk1]] & _ & Hk)%bind_Ok; [congruence|].
    destruct (disk_read h (disk fs) (inode_direct blk1 i0 db)); [|congruence].
    apply bind_Ok in Hk as (b & _ & Hk).
    destruct (disk_write h (disk fs) (inode_direct blk1 i0 db) b);
      [unfold write_finish in Hk; done|congruence].
  - unfold write_indirect. cbv zeta.
    intros (r1 & Hr1 & Hk)%bind_Ok.
    destruct r1 as [fs1|[[fs1 blk1] indirect_blk]]; [congruence|].
    case_bool_decide as Hoff; [done|].
    apply bind_Ok in Hk as (r2 & Hr2 & Hk).
    assert (Hinv1 : fs_inv h fs1 ∧ disk fs1 = disk fs ∧ meta_data fs1 = meta_data fs ∧
                    Z.of_nat (length indirect_blk) = BLOCK_SIZE ∧
                    inode_blocks (meta_data fs) < inode_indirect blk1 i0
                    < blocks (meta_data fs)).
    { destruct (inode_indirect blk i0 =? 0) eqn:Hind.
      - apply bind_Ok in Hr1 as ([X fs1'] & Hfree & Hr1).
        destruct (fs_inv_alloc h fs X fs1' Hinv Hfree)
          as [[-> ->]|(HX & Hinv1 & Hdisk1 & Hmeta1 & _ & [HrX _] & _)]; [done|].
        rewrite (proj2 (Z.eqb_neq _ _) HX) in Hr1. injection Hr1 as <- <- <-.
        rewrite Hmeta1 in HrX.
        split; [done|split; [done|split; [done|split; [apply length_zero_block|]]]].
        unfold inode_indirect, set_inode_indirect.
        rewrite load32_store32_eq, wrap32_small; lia.
      - apply Z.eqb_neq in Hind.
        destruct (disk_read h (disk fs) (inode_indirect blk i0)) as [ib|] eqn:Hib;
          [|done].
        injection Hr1 as <- <- <-.
        split; [done|split; [done|split; [done|split]]].
        { apply (wf_store_read h _ _ _ (img_wf _ _ (inv_image _ _ Hinv)) Hib). }
        assert (Hlive : live h fs (LIndirect n0)) by done.
        pose proof (img_range h fs (inv_image _ _ Hinv) _ Hlive) as Hr.
        rewrite (Hptr (LIndirect n0) eq_refl) in Hr; cbn [inode_ptr] in Hr.
        specialize (Hr Hind); lia. }
    destruct Hinv1 as (Hinv1 & Hdisk1 & Hmeta1 & Hlenib & HrX).
    destruct (pointers indirect_blk (db - POINTERS_PER_INODE) =? 0) eqn:Hent.
    + apply bind_Ok in Hr2 as ([Y fs2] & Hfree2 & Hr2).
      destruct (fs_inv_alloc h fs1 Y fs2 Hinv1 Hfree2)
        as [[-> ->]|(HY & Hinv2 & Hdisk2 & Hmeta2 & _ & [HrY _] & _)].
      { cbn in Hr2. injection Hr2 as <-. by injection Hk. }
      rewrite (proj2 (Z.eqb_neq _ _) HY) in Hr2.
      rewrite Hmeta2, Hmeta1 in HrY.
      destruct (disk_write h (disk fs) (inode_indirect blk1 i0) _) as [h1|] eqn:Hw1;
        injection Hr2 as <-; [|by injection Hk].
      apply bind_Ok in Hk as (data_blk' & Hcopy & Hk).
      set (ib' := set_pointers indirect_blk _ Y) in *.
      assert (HptrY : pointers ib' (db - POINTERS_PER_INODE) = Y).
      { unfold ib', pointers, set_pointers.
        rewrite load32_store32_eq; [apply wrap32_small|..];
          unfold POINTERS_PER_INODE, POINTERS_PER_BLOCK, BLOCK_SIZE in *; lia. }
      rewrite HptrY in Hk.
      destruct (disk_write_in_range h1 (disk fs) Y data_blk') as [h2 Hh2].
      { rewrite (disk_blocks_write h (disk fs) (disk fs) _ _ h1 Hw1). lia. }
      rewrite Hh2 in Hk. done.
    + destruct (disk_read h (disk fs) (pointers indirect_blk _)) as [data_blk|];
        injection Hr2 as <-; [|by injection Hk].
      apply bind_Ok in Hk as (data_blk' & Hcopy & Hk).
      destruct (disk_write _ _ _ _); [done|by injection Hk].
Qed.

Section write_frame.
Variables (n len offset : Z) (data : list byte).

(** The loop of [fs_write] on inode [n], whatever it returns: the
    records and the pointers of the other inodes, the reserved blocks
    other than the inode block of [n], and the blocks that valid inodes
    other than [n] name are as before. *)
Lemma write_loop_frame fuel : ∀ h fs blk db doff ncopy nwrite r h' fs',
  fs_inv h fs → 0 ≤ n < table_slots fs →
  disk_read h (disk fs) (n / INODES_PER_BLOCK + 1) = Some blk →
  inode_valid blk (n mod INODES_PER_BLOCK) ≠ 0 →
  0 ≤ db → 0 ≤ doff → (nwrite < len → 0 ≤ ncopy) → 0 ≤ nwrite →
  write_loop fuel h fs blk (n / INODES_PER_BLOCK + 1) (n mod INODES_PER_BLOCK)
    data len offset db doff ncopy nwrite = Ok (r, h', fs') →
  (∀ m, 0 ≤ m < table_slots fs → m ≠ n → fs_stat h' fs m = fs_stat h fs m) ∧
  (∀ m, 0 ≤ m < table_slots fs →
        inode_slot_valid h' (disk fs) m = inode_slot_valid h (disk fs) m) ∧
  (∀ l, loc_ok fs l → loc_inode l ≠ n →
        ptr_at h' (disk fs) l = ptr_at h (disk fs) l) ∧
  (∀ q, 0 ≤ q ≤ inode_blocks (meta_data fs) → q ≠ n / INODES_PER_BLOCK + 1 →
        disk_read h' (disk fs) q = disk_read h (disk fs) q) ∧
  (∀ l, live h fs l → loc_inode l ≠ n → ptr_at h (disk fs) l ≠ 0 →
        disk_read h' (disk fs) (ptr_at h (disk fs) l)
        = disk_read h (disk fs) (ptr_at h (disk fs) l)).
Proof.
  induction fuel as [|fuel IH];
    intros h fs blk db doff ncopy nwrite r h' fs' Hinv Hn Hblk Hvalid
      Hdb Hdoff Hncopy Hnwrite; cbn [write_loop]; case_bool_decide as Hlt;
    try done; try (by intros [= <- <- <-]).
  intros (s & Hturn & Hrest)%bind_Ok.
  specialize (Hncopy Hlt).
  pose proof (write_turn_inv n data offset db doff ncopy nwrite Hdoff Hncopy
                Hnwrite h fs blk s Hinv Hn Hblk Hvalid Hdb Hturn) as Hpost.
  destruct s as [r0 h1 fs1|h1 fs1 blk1]; cbn [turn_post] in Hpost.
  { apply write_turn_return_same in Hturn as ->; try done.
    by injection Hrest as <- <- <-. }
  destruct Hpost as (Hinv1 & Hdisk1 & Hmeta1 & Hblk1 & Hvalid1).
  apply write_turn_effect in Hturn
    as (Hdblt & HY & HX & _ & Hptrs & Hvals & Hframe & Hstats); try done.
  assert (Hn1 : 0 ≤ n < table_slots fs1).
  { unfold table_slots in *. by rewrite Hmeta1. }
  apply IH in Hrest as (Hstat' & Hvals' & Hptr' & Hres' & Hblocks');
    [|done|done|by rewrite Hdisk1|done|lia|lia| |lia].
  2:{ intros _. case_bool_decide; [unfold BLOCK_SIZE; lia|].
      unfold wrap64. apply Z.mod_pos_bound. lia. }
  rewrite Hdisk1, Hmeta1 in *.
  assert (Hok1 : ∀ l, loc_ok fs l → loc_ok fs1 l).
  { intros l Hl. by apply (loc_ok_meta fs fs1). }
  assert (Htab : ∀ m, 0 ≤ m < table_slots fs → 0 ≤ m < table_slots fs1).
  { intros m Hm. unfold table_slots in *. by rewrite Hmeta1. }
  destruct (lloc_ok fs n db Hn ltac:(lia)) as (Hl0 & Hn0 & Hdata0).
  assert (Hvalid_n : inode_slot_valid h (disk fs) n = Some true).
  { by apply (slot_of_block n h fs blk). }
  assert (Hlive0 : live h1 fs1 (lloc n db)).
  { split; [by apply Hok1|]. rewrite Hn0, Hdisk1, Hvals by done. done. }
  assert (HliveX : live h1 fs1 (LIndirect n)).
  { split; [by apply Hok1|]. cbn [loc_inode]. rewrite Hdisk1, Hvals by done. done. }
  pose proof (img_range h1 fs1 (inv_image _ _ Hinv1) _ Hlive0) as HrY.
  pose proof (img_range h1 fs1 (inv_image _ _ Hinv1) _ HliveX) as HrX.
  rewrite Hdisk1, Hmeta1 in HrY, HrX. specialize (HrY HY).
  pose proof (table_block_range fs n Hn) as Hbn.
  assert (Hother : ∀ l, loc_ok fs l → loc_inode l ≠ n →
            ptr_at h1 (disk fs) l = ptr_at h (disk fs) l).
  { intros l Hl Hne. destruct (Hptrs l Hl) as [?|(_ & [->|[_ ->]])]; [done|..].
    - by rewrite Hn0 in Hne.
    - done. }
  split; [|split; [|split; [|split]]].
  - intros m Hm Hne.
    rewrite <- (fs_stat_disk h' fs fs1 m Hdisk1), Hstat' by auto.
    rewrite (fs_stat_disk h1 fs fs1 m Hdisk1). by apply Hstats.
  - intros m Hm. rewrite Hvals', Hvals by auto. done.
  - intros l Hl Hne. rewrite Hptr' by auto. by apply Hother.
  - intros q Hq Hne. rewrite Hres' by done. apply Hframe; [lia|done|lia|].
    destruct (decide (db < POINTERS_PER_INODE)) as [|Hge]; [by left|right].
    specialize (HX ltac:(lia)). specialize (HrX HX). lia.
  - intros l Hlive Hne Hnz.
    pose proof (Hother l (proj1 Hlive) Hne) as Hp1.
    assert (Hlive1 : live h1 fs1 l).
    { destruct Hlive as [Hl Hv]. split; [by apply Hok1|].
      rewrite Hdisk1, Hvals; [done|apply Hl]. }
    pose proof (img_range h fs (inv_image _ _ Hinv) l Hlive Hnz) as Hrg.
    rewrite <- Hp1. rewrite Hblocks'; [|done|done|by rewrite Hp1].
    rewrite Hp1. apply Hframe; [lia|lia| |].
    + intros Heq. apply Hne. rewrite <- Hn0. f_equal.
      apply (img_nodup h1 fs1 (inv_image _ _ Hinv1)); try done;
        rewrite Hdisk1, Hp1; [done|congruence].
    + destruct (decide (db < POINTERS_PER_INODE)) as [|Hge]; [by left|right].
      specialize (HX ltac:(lia)). intros Heq.
      apply Hne. change n with (loc_inode (LIndirect n)). f_equal.
      apply (img_nodup h1 fs1 (inv_image _ _ Hinv1)); try done;
        rewrite Hdisk1, Hp1; [done|congruence].
Qed.
End write_frame.

Lemma fs_write_frame h fs n data len offset r h' fs' :
  fs_inv h fs → 0 ≤ n < table_slots fs → 0 ≤ offset →
  fs_write h fs n data len offset = Ok (r, h', fs') →
  (∀ m, 0 ≤ m < table_slots fs → m ≠ n → fs_stat h' fs m = fs_stat h fs m) ∧
  (∀ m, 0 ≤ m < table_slots fs →
        inode_slot_valid h' (disk fs) m = inode_slot_valid h (disk fs) m) ∧
  (∀ l, loc_ok fs l → loc_inode l ≠ n →
        ptr_at h' (disk fs) l = ptr_at h (disk fs) l) ∧
  (∀ q, 0 ≤ q ≤ inode_blocks (meta_data fs) → q ≠ n / INODES_PER_BLOCK + 1 →
        disk_read h' (disk fs) q = disk_read h (disk fs) q) ∧
  (∀ l, live h fs l → loc_inode l ≠ n → ptr_at h (disk fs) l ≠ 0 →
        disk_read h' (disk fs) (ptr_at h (disk fs) l)
        = disk_read h (disk fs) (ptr_at h (disk fs) l)).
Proof.
  intros Hinv Hn Hoff. unfold fs_write. cbv zeta.
  destruct (disk_read h (disk fs) (n / INODES_PER_BLOCK + 1)) as [blk|] eqn:Hblk;
    [|done].
  destruct (inode_valid blk (n mod INODES_PER_BLOCK) =? 0) eqn:Hvalid.
  { by intros [= <- <- <-]. }
  apply Z.eqb_neq in Hvalid. intros Hloop.
  apply write_loop_frame in Hloop; try done.
  - apply Z.div_pos; [done|]. unfold BLOCK_SIZE. lia.
  - apply Z.mod_pos_bound. unfold BLOCK_SIZE. lia.
  - intros Hlen. case_bool_decide; [lia|].
    pose proof (Z.mod_pos_bound offset BLOCK_SIZE). unfold BLOCK_SIZE in *. lia.
Qed.

(** X7. A write leaves the other files alone. In a state reached from
    the mount of a well formed image by defined calls, a call of
    [fs_write] on inode [n], whatever it returns, changes nothing of an
    inode [m ≠ n] of the table: [fs_stat] of [m] gives what it gave, every
    pointer of [m] (direct, indirect, entries of its indirect block) is
    the same, and every block that [m] names holds the same bytes. *)
Theorem fs_write_isolation h0 fs0 dsk fs1 h fs n data len offset r h' fs' m :
  fs_mount h0 fs0 dsk = Ok (true, fs1) → image_ok h0 fs1 →
  rtc fs_step (h0, fs1) (h, fs) →
  0 ≤ n < table_slots fs → 0 ≤ offset →
  fs_write h fs n data len offset = Ok (r, h', fs') →
  0 ≤ m < table_slots fs → m ≠ n →
  fs_stat h' fs' m = fs_stat h fs m ∧
  (∀ l, loc_ok fs l → loc_inode l = m →
        ptr_at h' (disk fs') l = ptr_at h (disk fs) l) ∧
  (∀ l, live h fs l → loc_inode l = m → ptr_at h (disk fs) l ≠ 0 →
        disk_read h' (disk fs') (ptr_at h (disk fs) l)
        = disk_read h (disk fs) (ptr_at h (disk fs) l)).
Proof.
  intros Hmount Himg Hsteps Hn Hoff Hwrite Hm Hne.
  assert (Hinv : fs_inv h fs).
  { apply (fs_steps_inv (h0, fs1) (h, fs) Hsteps).
    by apply (fs_mount_inv h0 fs0 dsk fs1). }
  destruct (fs_write_inv h fs n data len offset r h' fs' Hinv Hn Hoff Hwrite)
    as (_ & Hdisk & _).
  destruct (fs_write_frame h fs n data len offset r h' fs' Hinv Hn Hoff Hwrite)
    as (Hstat & _ & Hptr & _ & Hblocks).
  rewrite Hdisk. split; [|split].
  - rewrite (fs_stat_disk h' fs fs' m Hdisk). by apply Hstat.
  - intros l Hl Hlm. apply Hptr; [done|congruence].
  - intros l Hl Hlm. apply Hblocks; [done|congruence].
Qed.

(** A second inode on the image of [written_state], and 5000 bytes
    written to it. *)
Definition disks_of {A : Type} (r : res (A * list Disk)) : list Disk :=
  match r with Ok (_, h) => h | _ => [] end.
Definition state_disks (s : res (list Disk * FileSystem)) : list Disk :=
  match s with Ok (h, _) => h | _ => [] end.
Definition state_engine (s : res (list Disk * FileSystem)) : FileSystem :=
  match s with Ok (_, fs) => fs | _ => fresh_fs end.

Definition second_h : list Disk := disks_of (fs_create written_h written_fs).

Definition second_state : res (list Disk * FileSystem) :=
  '(w, h2, fs2) ← fs_write second_h written_fs 1
                     (replicate (Z.to_nat 5000) x2b) 5000 0;
  Ok (h2, fs2).

Definition second_written_h : list Disk := state_disks second_state.
Definition second_written_fs : FileSystem := state_engine second_state.

Lemma second_steps :
  rtc fs_step ([image20], mounted20) (second_h, written_fs).
Proof.
  eapply rtc_r; [exact written_steps|].
  apply (step_create _ _ 1). vm_compute. reflexivity.
Qed.

Lemma fs_write_isolation_witness :
  fs_stat second_written_h second_written_fs 0 = fs_stat second_h written_fs 0 ∧
  (∀ l, loc_ok written_fs l → loc_inode l = 0 →
        ptr_at second_written_h (disk second_written_fs) l
        = ptr_at second_h (disk written_fs) l) ∧
  (∀ l, live second_h written_fs l → loc_inode l = 0 →
        ptr_at second_h (disk written_fs) l ≠ 0 →
        disk_read second_written_h (disk second_written_fs)
          (ptr_at second_h (disk written_fs) l)
        = disk_read second_h (disk written_fs) (ptr_at second_h (disk written_fs) l)).
Proof.
  apply (fs_write_isolation [image20] fresh_fs (Some 0%nat) mounted20
           second_h written_fs 1 (replicate (Z.to_nat 5000) x2b) 5000 0 5000).
  - exact fs_mount_image20.
  - exact image20_ok.
  - exact second_steps.
  - vm_compute. split; congruence.
  - lia.
  - vm_compute. reflexivity.
  - vm_compute. split; congruence.
  - lia.
Defined.

(** ** Reading a file after a write to another one *)

(** The loop of [fs_read] on two devices that give the same block for
    every logical block of the range. *)
Lemma read_loop_ext h h' dsk blk blk' i cap len offset (Hlen : 0 ≤ len < 2 ^ 64)
    fuel :
  ∀ db doff ncopy nread acc,
  walk_inv len offset db doff ncopy nread → 0 ≤ db →
  (∀ d, db ≤ d → d * BLOCK_SIZE < offset + len →
        read_data_block h' dsk blk' i d = read_data_block h dsk blk i d) →
  read_loop fuel h' dsk blk' i cap len db doff ncopy nread acc
  = read_loop fuel h dsk blk i cap len db doff ncopy nread acc.
Proof.
  induction fuel as [|fuel IH]; intros db doff ncopy nread acc Hwalk Hdb Hsame;
    cbn [read_loop]; case_bool_decide as Hlt; try done.
  pose proof Hwalk as (Hdoff & Hnread & Hncopy & Hpos & Hdone).
  specialize (Hpos Hlt).
  rewrite Hsame by (unfold BLOCK_SIZE in *; lia).
  destruct (read_data_block h dsk blk i db) as [[data_blk|]| |]; cbn; try done.
  destruct (copy_out data_blk doff cap nread ncopy) as [bytes| |] eqn:Hcopy;
    cbn; try done.
  apply copy_out_Ok in Hcopy as Hfit.
  apply IH.
  - apply (walk_inv_next len offset Hlen db doff ncopy nread); [done|done|lia].
  - lia.
  - intros d Hd. apply Hsame. lia.
Qed.

(** The blocks that a walk of inode [m] takes are the same on two
    devices that agree on block 0, on the pointers of [m] and on the
    blocks that [m] names. *)
Lemma read_data_block_same h h' fs m blk blk' d :
  image_ok h fs → 0 ≤ m < table_slots fs →
  disk_read h (disk fs) (m / INODES_PER_BLOCK + 1) = Some blk →
  disk_read h' (disk fs) (m / INODES_PER_BLOCK + 1) = Some blk' →
  (∀ l, loc_ok fs l → loc_inode l = m →
        ptr_at h' (disk fs) l = ptr_at h (disk fs) l) →
  disk_read h' (disk fs) 0 = disk_read h (disk fs) 0 →
  (∀ l, live h fs l → loc_inode l = m → ptr_at h (disk fs) l ≠ 0 →
        disk_read h' (disk fs) (ptr_at h (disk fs) l)
        = disk_read h (disk fs) (ptr_at h (disk fs) l)) →
  0 ≤ d →
  d < POINTERS_PER_INODE ∨ ptr_at h (disk fs) (LIndirect m) ≠ 0 →
  read_data_block h' (disk fs) blk' (m mod INODES_PER_BLOCK) d
  = read_data_block h (disk fs) blk (m mod INODES_PER_BLOCK) d.
Proof.
  intros Himg Hm Hblk Hblk' Hptr Hzero Hblocks Hd Hcase.
  assert (Hat : ∀ l, loc_inode l = m →
            ptr_at h (disk fs) l
            = inode_ptr h (disk fs) blk (m mod INODES_PER_BLOCK) l).
  { intros l Hl. unfold ptr_at. by rewrite Hl, Hblk. }
  assert (Hat' : ∀ l, loc_inode l = m →
            ptr_at h' (disk fs) l
            = inode_ptr h' (disk fs) blk' (m mod INODES_PER_BLOCK) l).
  { intros l Hl. unfold ptr_at. by rewrite Hl, Hblk'. }
  assert (Hblock : ∀ l, loc_ok fs l → loc_inode l = m →
            disk_read h' (disk fs) (ptr_at h (disk fs) l)
            = disk_read h (disk fs) (ptr_at h (disk fs) l)).
  { intros l Hl Hlm.
    destruct (decide (ptr_at h (disk fs) l = 0)) as [->|Hnz]; [done|].
    apply Hblocks; try done. split; [done|].
    destruct (table_slot_cases h fs (loc_inode l) Himg (proj1 Hl)) as [Hv|Hv];
      [done|].
    by pose proof (img_free_slot h fs Himg l Hl Hv). }
  unfold read_data_block. case_bool_decide as Hdir.
  - assert (Hok : loc_ok fs (LDirect m d)) by done.
    pose proof (Hptr _ Hok eq_refl) as Hp.
    rewrite Hat, Hat' in Hp by done. cbn [inode_ptr] in Hp. rewrite Hp.
    f_equal. specialize (Hblock _ Hok eq_refl).
    by rewrite Hat in Hblock by done.
  - destruct Hcase as [?|HX]; [done|].
    assert (Hok : loc_ok fs (LIndirect m)) by done.
    pose proof (Hptr _ Hok eq_refl) as Hp.
    pose proof (Hblock _ Hok eq_refl) as Hb.
    rewrite (Hat (LIndirect m)) in HX, Hb, Hp by done.
    rewrite Hat' in Hp by done. cbn [inode_ptr] in HX, Hb, Hp.
    rewrite Hp, Hb.
    destruct (disk_read h (disk fs) (inode_indirect blk (m mod INODES_PER_BLOCK)))
      as [ib|] eqn:Hib; [|done].
    case_bool_decide as Hoff; [done|]. f_equal.
    assert (Hok' : loc_ok fs (LEntry m (d - POINTERS_PER_INODE))).
    { split; [done|]. lia. }
    specialize (Hblock _ Hok' eq_refl).
    rewrite Hat in Hblock by done. cbn [inode_ptr] in Hblock.
    by rewrite (proj2 (Z.eqb_neq _ _) HX), Hib in Hblock.
Qed.

Lemma fs_read_same h h' fs m len off :
  image_ok h fs → 0 ≤ m < table_slots fs →
  (∀ blk, disk_read h (disk fs) (m / INODES_PER_BLOCK + 1) = Some blk →
     ∃ blk', disk_read h' (disk fs) (m / INODES_PER_BLOCK + 1) = Some blk' ∧
       inode_size blk' (m mod INODES_PER_BLOCK)
       = inode_size blk (m mod INODES_PER_BLOCK)) →
  (∀ l, loc_ok fs l → loc_inode l = m →
        ptr_at h' (disk fs) l = ptr_at h (disk fs) l) →
  disk_read h' (disk fs) 0 = disk_read h (disk fs) 0 →
  (∀ l, live h fs l → loc_inode l = m → ptr_at h (disk fs) l ≠ 0 →
        disk_read h' (disk fs) (ptr_at h (disk fs) l)
        = disk_read h (disk fs) (ptr_at h (disk fs) l)) →
  0 ≤ off → 0 ≤ len → len + off < 2 ^ 64 →
  (∀ blk, disk_read h (disk fs) (m / INODES_PER_BLOCK + 1) = Some blk →
     off ≤ inode_size blk (m mod INODES_PER_BLOCK) ∧
     (inode_size blk (m mod INODES_PER_BLOCK) ≤ POINTERS_PER_INODE * BLOCK_SIZE ∨
      ptr_at h (disk fs) (LIndirect m) ≠ 0)) →
  fs_read h' fs m len off = fs_read h fs m len off.
Proof.
  intros Himg Hm Hrec Hptr Hzero Hblocks Hoff Hlen Hsum Hsize.
  destruct (table_slot_readable h fs m Himg Hm) as (blk & Hblk & _).
  destruct (Hrec blk Hblk) as (blk' & Hblk' & Hs).
  destruct (Hsize blk Hblk) as [Hoffs Hcase].
  rewrite (fs_read_unfold h fs m len off blk Hblk).
  rewrite (fs_read_unfold h' fs m len off blk' Hblk'). cbv zeta.
  assert (Hclamp : clamped_length blk' (m mod INODES_PER_BLOCK) len off
                   = clamped_length blk (m mod INODES_PER_BLOCK) len off).
  { unfold clamped_length. by rewrite Hs. }
  rewrite Hclamp.
  set (L := clamped_length blk (m mod INODES_PER_BLOCK) len off).
  assert (HL : 0 ≤ L < 2 ^ 64 ∧ off + L ≤ inode_size blk (m mod INODES_PER_BLOCK)).
  { unfold L, clamped_length. rewrite wrap64_small by lia.
    case_bool_decide; [|lia].
    rewrite wrap64_small by (pose proof (load32_range blk (8 * (m mod INODES_PER_BLOCK) + 1));
                             unfold inode_size in *; lia).
    lia. }
  destruct HL as [HL0 Hend].
  destruct (decide (0 < L)) as [Hpos|Hnpos].
  2:{ unfold walk_fuel. cbn [read_loop]. by rewrite !bool_decide_eq_false_2 by lia. }
  apply (read_loop_ext h h' (disk fs) blk blk' (m mod INODES_PER_BLOCK) len L off
           HL0).
  - by apply walk_inv_init.
  - apply Z.div_pos; [done|]. unfold BLOCK_SIZE. lia.
  - intros d Hd Hbound.
    pose proof (Z.div_pos off BLOCK_SIZE Hoff ltac:(unfold BLOCK_SIZE; lia)).
    apply (read_data_block_same h h' fs m blk blk' d); try done; [lia|].
    destruct Hcase as [Hsmall|HX]; [left|by right].
    unfold POINTERS_PER_INODE, BLOCK_SIZE in *. lia.
Qed.

(** X8. A write does not change what a read of another file returns.
    In a state reached from the mount of a well formed image by defined
    calls, let [m ≠ n] be an inode of size [s] that fits its direct
    pointers or that has an indirect block. A read of [m] that starts
    inside the file gives the same result (count and bytes) after a
    call of [fs_write] on [n] as before it, whatever the write
    returned. *)
Theorem fs_write_keeps_reads h0 fs0 dsk fs1 h fs n data len offset r h' fs'
    m s len' off' :
  fs_mount h0 fs0 dsk = Ok (true, fs1) → image_ok h0 fs1 →
  rtc fs_step (h0, fs1) (h, fs) →
  0 ≤ n < table_slots fs → 0 ≤ offset →
  fs_write h fs n data len offset = Ok (r, h', fs') →
  0 ≤ m < table_slots fs → m ≠ n →
  fs_stat h fs m = Ok s →
  0 ≤ off' ≤ s → 0 ≤ len' → len' + off' < 2 ^ 64 →
  s ≤ POINTERS_PER_INODE * BLOCK_SIZE ∨ ptr_at h (disk fs) (LIndirect m) ≠ 0 →
  fs_read h' fs' m len' off' = fs_read h fs m len' off'.
Proof.
  intros Hmount Himg Hsteps Hn Hoff Hwrite Hm Hne Hs Hoff' Hlen' Hsum Hcase.
  assert (Hinv : fs_inv h fs).
  { apply (fs_steps_inv (h0, fs1) (h, fs) Hsteps).
    by apply (fs_mount_inv h0 fs0 dsk fs1). }
  destruct (fs_write_inv h fs n data len offset r h' fs' Hinv Hn Hoff Hwrite)
    as (_ & Hdisk & _).
  destruct (fs_write_frame h fs n data len offset r h' fs' Hinv Hn Hoff Hwrite)
    as (Hstat & _ & Hptr & Hres & Hblocks).
  pose proof (table_block_range fs n Hn) as Hbn.
  pose proof (img_layout _ _ (inv_image _ _ Hinv)) as Hlay.
  assert (Hsize : ∀ g blk, fs_stat g fs m = Ok s →
            disk_read g (disk fs) (m / INODES_PER_BLOCK + 1) = Some blk →
            inode_size blk (m mod INODES_PER_BLOCK) = s).
  { intros g blk Hg Hblk. unfold fs_stat in Hg. cbv zeta in Hg.
    rewrite Hblk in Hg. destruct (inode_valid blk _ =? 0); injection Hg; lia. }
  transitivity (fs_read h' fs m len' off').
  { unfold fs_read. by rewrite Hdisk. }
  apply fs_read_same; try done; try lia.
  - apply (inv_image _ _ Hinv).
  - intros blk Hblk. specialize (Hstat m Hm Hne). rewrite Hs in Hstat.
    pose proof Hstat as Hst. unfold fs_stat in Hst. cbv zeta in Hst.
    destruct (disk_read h' (disk fs) (m / INODES_PER_BLOCK + 1)) as [blk'|] eqn:Hblk';
      [|done].
    exists blk'. split; [done|].
    by rewrite (Hsize h' blk' Hstat Hblk'), (Hsize h blk Hs Hblk).
  - intros l Hl Hlm. apply Hptr; [done|congruence].
  - apply Hres; lia.
  - intros l Hl Hlm. apply Hblocks; [done|congruence].
  - intros blk Hblk. rewrite (Hsize h blk Hs Hblk). split; [lia|done].
Qed.

Lemma fs_write_keeps_reads_witness :
  fs_read second_written_h second_written_fs 0 30000 0
  = fs_read second_h written_fs 0 30000 0.
Proof.
  apply (fs_write_keeps_reads [image20] fresh_fs (Some 0%nat) mounted20
           second_h written_fs 1 (replicate (Z.to_nat 5000) x2b) 5000 0 5000
           second_written_h second_written_fs 0 30000 30000 0).
  - exact fs_mount_image20.
  - exact image20_ok.
  - exact second_steps.
  - vm_compute. split; congruence.
  - lia.
  - vm_compute. reflexivity.
  - vm_compute. split; congruence.
  - lia.
  - vm_compute. reflexivity.
  - lia.
  - lia.
  - lia.
  - right. vm_compute. congruence.
Defined.

(** ** Mounting again *)

(** *** The rebuild of the bitmap goes through on a well formed image *)

Lemma mark_pointers_progress ps : ∀ bm,
  (∀ p, p ∈ ps → p ≠ 0 → p < Z.of_nat (length bm)) →
  ∃ l', mark_pointers false (Some bm) ps = Ok (Some l') ∧ length l' = length bm.
Proof.
  induction ps as [|p ps IH]; intros bm Hps; cbn [mark_pointers].
  { by exists bm. }
  destruct (p =? 0) eqn:Hz.
  - apply IH. intros q Hq. apply Hps. by right.
  - apply Z.eqb_neq in Hz. unfold bitmap_set.
    rewrite bool_decide_eq_true_2 by (apply Hps; [by left|done]).
    cbn [mbind res_bind].
    destruct (IH (<[Z.to_nat p := false]> bm)) as (l' & -> & Hlen).
    { intros q Hq. rewrite length_insert. apply Hps. by right. }
    exists l'. split; [done|]. by rewrite Hlen, length_insert.
Qed.

Lemma init_inode_progress h dsk block bm i :
  (inode_valid block i ≠ 0 →
   ∀ p, p ∈ inode_pointers h dsk block i → p < Z.of_nat (length bm)) →
  ∃ go l', init_inode h dsk block (Some bm) i = Ok (go, Some l') ∧
           length l' = length bm.
Proof.
  intros Hrange. unfold init_inode.
  destruct (inode_valid block i =? 0) eqn:Hv; [by exists true, bm|].
  apply Z.eqb_neq in Hv. specialize (Hrange Hv).
  destruct (mark_pointers_progress
              (inode_direct block i <$> seqZ 0 POINTERS_PER_INODE) bm)
    as (l1 & -> & Hl1).
  { intros p (dp & -> & Hdp%elem_of_seqZ)%list_elem_of_fmap Hnz.
    apply Hrange, elem_of_inode_pointers. split; [done|]. left. exists dp.
    split; [lia|done]. }
  cbn [mbind res_bind].
  destruct (inode_indirect block i =? 0) eqn:Hz; [by exists true, l1|].
  apply Z.eqb_neq in Hz. unfold bitmap_set.
  rewrite bool_decide_eq_true_2.
  2:{ rewrite Hl1. apply Hrange, elem_of_inode_pointers. split; [done|].
      right. split; [done|]. by left. }
  cbn [mbind res_bind].
  destruct (disk_read h dsk (inode_indirect block i)) as [ib|] eqn:Hib.
  2:{ eexists false, _. split; [done|]. by rewrite length_insert. }
  destruct (mark_pointers_progress (pointers ib <$> seqZ 0 POINTERS_PER_BLOCK)
              (<[Z.to_nat (inode_indirect block i) := false]> l1))
    as (l3 & -> & Hl3).
  { intros p (ip & -> & Hip%elem_of_seqZ)%list_elem_of_fmap Hnz.
    rewrite length_insert, Hl1. apply Hrange, elem_of_inode_pointers.
    split; [done|]. right. split; [done|]. right. exists ib, ip.
    split; [done|]. split; [lia|done]. }
  cbn [mbind res_bind]. exists true, l3. split; [done|].
  by rewrite Hl3, length_insert.
Qed.

Lemma init_inodes_progress h dsk block slots : ∀ bm,
  (∀ i, i ∈ slots → inode_valid block i ≠ 0 →
     ∀ p, p ∈ inode_pointers h dsk block i → p < Z.of_nat (length bm)) →
  ∃ go l', init_inodes h dsk block (Some bm) slots = Ok (go, Some l') ∧
           length l' = length bm.
Proof.
  induction slots as [|i slots IH]; intros bm Hrange; cbn [init_inodes].
  { by exists true, bm. }
  destruct (init_inode_progress h dsk block bm i) as (go & l1 & -> & Hl1).
  { apply Hrange. by left. }
  cbn [mbind res_bind]. destruct go; [|by exists false, l1].
  destruct (IH l1) as (go & l' & -> & Hl').
  { intros i' Hi'. rewrite Hl1. apply Hrange. by right. }
  exists go, l'. split; [done|]. congruence.
Qed.

Lemma init_inode_blocks_progress h dsk ibs : ∀ bm,
  (∀ ib, ib ∈ ibs → ib < Z.of_nat (length bm) ∧
     ∀ blk i, disk_read h dsk ib = Some blk → 0 ≤ i < INODES_PER_BLOCK →
       inode_valid blk i ≠ 0 →
       ∀ p, p ∈ inode_pointers h dsk blk i → p < Z.of_nat (length bm)) →
  ∃ l', init_inode_blocks h dsk (Some bm) ibs = Ok (Some l') ∧
        length l' = length bm.
Proof.
  induction ibs as [|ib ibs IH]; intros bm Hrange; cbn [init_inode_blocks].
  { by exists bm. }
  destruct (Hrange ib) as [Hib Hptrs]; [by left|].
  destruct (disk_read h dsk ib) as [blk|] eqn:Hblk; [|by exists bm].
  destruct (init_inodes_progress h dsk blk (seqZ 0 INODES_PER_BLOCK) bm)
    as (go & l1 & -> & Hl1).
  { intros i Hi%elem_of_seqZ. apply (Hptrs blk i); [done|lia]. }
  cbn [mbind res_bind]. destruct go; [|by exists l1].
  unfold bitmap_set. rewrite bool_decide_eq_true_2 by (by rewrite Hl1).
  cbn [mbind res_bind].
  destruct (IH (<[Z.to_nat ib := false]> l1)) as (l' & -> & Hl').
  { intros ib' Hib'. rewrite length_insert, Hl1. apply Hrange. by right. }
  exists l'. split; [done|]. by rewrite Hl', length_insert.
Qed.

Lemma fs_initialize_free_block_bitmap_progress h fs :
  image_ok h fs → ∃ fs', fs_initialize_free_block_bitmap h fs = Ok fs'.
Proof.
  intros Himg. pose proof (img_layout _ _ Himg) as Hlay.
  unfold fs_initialize_free_block_bitmap. cbv zeta. unfold bitmap_set at 1.
  rewrite bool_decide_eq_true_2 by (rewrite length_replicate; lia).
  cbn [mbind res_bind].
  destruct (init_inode_blocks_progress h (disk fs)
              (seqZ 1 (inode_blocks (meta_data fs)))
              (<[Z.to_nat 0 := false]>
                 (replicate (Z.to_nat (blocks (meta_data fs))) true)))
    as (l' & -> & _); [|by eexists].
  intros ib Hib%elem_of_seqZ. rewrite length_insert, length_replicate.
  split; [lia|]. intros blk i Hblk Hi Hv p Hp.
  assert (Hreach : p ∈ reachable_blocks h fs).
  { apply reachable_blocks_slots. exists ib, blk, i.
    split; [by apply elem_of_seqZ|done]. }
  apply elem_of_reachable_blocks in Hreach as (Hnz & l & Hlive & <-).
  pose proof (img_range h fs Himg l Hlive Hnz). lia.
Qed.

(** *** The superblock *)

(** The checks of [fs_mount] on the block it reads from block 0. *)
Definition super_accepted (sb : Block) : Prop :=
  super_magic_number sb = MAGIC_NUMBER ∧
  wrap32 (super_inode_blocks sb * INODES_PER_BLOCK) ≤ super_inodes sb ∧
  3 ≤ super_blocks sb ∧
  super_blocks sb / 10 ≤ super_inode_blocks sb.

Definition super_meta (sb : Block) : SuperBlock :=
  {| magic_number := super_magic_number sb;
     blocks := super_blocks sb;
     inode_blocks := super_inode_blocks sb;
     inodes := super_inodes sb |}.

(** The engine is mounted on a disk whose block 0 holds the superblock
    it has in memory. *)
Definition mounted_on (h : list Disk) (fs : FileSystem) : Prop :=
  ∃ sb, disk_read h (disk fs) 0 = Some sb ∧ super_accepted sb ∧
        meta_data fs = super_meta sb.

Lemma fs_mount_true h fs0 dsk fs :
  fs_mount h fs0 dsk = Ok (true, fs) → disk fs = dsk ∧ mounted_on h fs.
Proof.
  unfold fs_mount. case_bool_decide; [done|].
  destruct (disk_read h dsk 0) as [sb|] eqn:Hsb; cbn [ret_code]; [|done].
  destruct (BLOCK_SIZE =? 0); [done|].
  repeat (case_bool_decide; [done|]).
  intros (fs2 & Hinit & [= <-])%bind_Ok.
  apply fs_initialize_free_block_bitmap_Ok in Hinit as (Hdisk & Hmeta & _).
  cbn in Hdisk, Hmeta. split; [done|]. exists sb. rewrite Hdisk, Hmeta.
  split; [done|]. split; [|done]. unfold super_accepted. lia.
Qed.

Lemma fs_mount_again h fs fs0 :
  image_ok h fs → mounted_on h fs → disk fs0 ≠ disk fs →
  ∃ fs', fs_mount h fs0 (disk fs) = Ok (true, fs') ∧
         disk fs' = disk fs ∧ meta_data fs' = meta_data fs.
Proof.
  intros Himg (sb & Hsb & (Hmagic & Hino & Hblocks & Hib) & Hmeta) Hne.
  unfold fs_mount. rewrite bool_decide_eq_false_2 by done.
  rewrite Hsb. cbn [ret_code]. change (BLOCK_SIZE =? 0) with false. cbv iota.
  rewrite !bool_decide_eq_false_2 by lia. cbv zeta.
  match goal with |- context [fs_initialize_free_block_bitmap h ?f] =>
    set (fs1 := f) end.
  assert (Himg1 : image_ok h fs1).
  { apply (image_ok_fs h fs fs1); [done|by rewrite Hmeta|done]. }
  destruct (fs_initialize_free_block_bitmap_progress h fs1 Himg1) as [fs' Hinit].
  rewrite Hinit. cbn [mbind res_bind]. exists fs'. split; [done|].
  apply fs_initialize_free_block_bitmap_Ok in Hinit as (Hdisk & Hmeta' & _).
  split; [done|]. by rewrite Hmeta', Hmeta.
Qed.

(** *** No call writes block 0 *)

Lemma disk_read_default_write h dsk q b p :
  0 ≤ q → 0 ≤ p → q ≠ p →
  disk_read (default h (disk_write h dsk q b)) dsk p = disk_read h dsk p.
Proof.
  intros Hq Hp Hne. destruct (disk_write h dsk q b) as [h'|] eqn:Hw; [|done].
  by apply (disk_read_write_ne h dsk q p b h').
Qed.

Lemma fs_create_super h fs r h' :
  fs_create h fs = Ok (r, h') → disk_read h' (disk fs) 0 = disk_read h (disk fs) 0.
Proof.
  unfold fs_create. intros Hc.
  apply create_loop_Ok in Hc
    as [->|(ib & i & blk & Hib%elem_of_seqZ & _ & _ & _ & ->)]; [done|].
  apply disk_read_default_write; lia.
Qed.

Lemma fs_remove_super h fs n r h' fs' :
  0 ≤ n → fs_remove h fs n = Ok (r, h', fs') →
  disk_read h' (disk fs) 0 = disk_read h (disk fs) 0.
Proof.
  intros Hn. unfold fs_remove. cbv zeta.
  destruct (disk_read h (disk fs) (n / INODES_PER_BLOCK + 1)) as [blk|]; [|done].
  destruct (inode_valid blk (n mod INODES_PER_BLOCK) =? 0).
  { by intros [= _ <- _]. }
  intros ([bm1 blk1] & _ & Hrest)%bind_Ok.
  apply bind_Ok in Hrest as ([[h2 bm2] blk2] & Hind & [= _ <- _]).
  pose proof (Z.div_pos n INODES_PER_BLOCK Hn ltac:(unfold INODES_PER_BLOCK; lia)).
  rewrite disk_read_default_write by lia.
  unfold release_indirect in Hind.
  destruct (inode_indirect blk1 (n mod INODES_PER_BLOCK) =? 0) eqn:Hz.
  { by injection Hind as <- _ _. }
  apply Z.eqb_neq in Hz.
  destruct (disk_read h (disk fs) (inode_indirect blk1 _)) as [ind_blk|]; [|done].
  apply bind_Ok in Hind as ([bm' ind_blk'] & _ & Hind).
  apply bind_Ok in Hind as (bm'' & _ & [= <- _ _]).
  pose proof (load32_range blk1 (8 * (n mod INODES_PER_BLOCK) + 7)).
  apply disk_read_default_write; unfold inode_indirect in *; lia.
Qed.

Lemma fs_step_mounted s s' :
  fs_step s s' → fs_inv s.1 s.2 →
  disk s'.2 = disk s.2 ∧ meta_data s'.2 = meta_data s.2 ∧
  disk_read s'.1 (disk s.2) 0 = disk_read s.1 (disk s.2) 0.
Proof.
  intros [h fs r h' Hc|h fs n r h' fs' Hn Hr|h fs n len off r Hr
         |h fs n data len off r h' fs' Hn Hoff Hw] Hinv; cbn [fst snd] in *.
  - split; [done|]. split; [done|]. by apply (fs_create_super h fs r).
  - destruct (fs_remove_inv h fs n r h' fs' Hinv Hn Hr) as (_ & ? & ?).
    split; [done|]. split; [done|]. apply (fs_remove_super h fs n r h' fs'); [lia|done].
  - done.
  - destruct (fs_write_inv h fs n data len off r h' fs' Hinv Hn Hoff Hw) as (_ & ? & ?).
    split; [done|]. split; [done|].
    destruct (fs_write_frame h fs n data len off r h' fs' Hinv Hn Hoff Hw)
      as (_ & _ & _ & Hres & _).
    pose proof (table_block_range fs n Hn).
    pose proof (img_layout _ _ (inv_image _ _ Hinv)).
    apply Hres; lia.
Qed.

Lemma fs_steps_mounted s s' :
  rtc fs_step s s' → fs_inv s.1 s.2 →
  disk s'.2 = disk s.2 ∧ meta_data s'.2 = meta_data s.2 ∧
  disk_read s'.1 (disk s.2) 0 = disk_read s.1 (disk s.2) 0.
Proof.
  induction 1 as [|s1 s2 s3 Hstep _ IH]; [done|]. intros Hinv.
  destruct (fs_step_mounted s1 s2 Hstep Hinv) as (Hd & Hm & Hz).
  destruct IH as (Hd' & Hm' & Hz'); [by apply (fs_step_inv s1)|].
  split; [congruence|]. split; [congruence|]. rewrite <- Hz, <- Hd. done.
Qed.

(** X9. The engine can always be mounted again. In a state reached from
    the mount of a well formed image by defined calls, block 0 still
    holds the superblock that was mounted, and [fs_mount] after
    [fs_unmount] succeeds with the same metadata. The bitmap it rebuilds
    marks unavailable block 0, the inode blocks and, behind them,
    exactly the blocks that valid inodes name; a block that was
    available before is still available, so mounting again only gives
    back blocks. The files are as they were: [fs_stat] and [fs_read]
    give the same results. *)
Theorem fs_remount h0 fs0 dsk fs1 h fs :
  fs_mount h0 fs0 dsk = Ok (true, fs1) → image_ok h0 fs1 →
  rtc fs_step (h0, fs1) (h, fs) →
  disk_read h dsk 0 = disk_read h0 dsk 0 ∧
  ∃ fs2, fs_mount h (fs_unmount fs) dsk = Ok (true, fs2) ∧
    meta_data fs2 = meta_data fs1 ∧
    (∀ p, 0 ≤ p ≤ inode_blocks (meta_data fs2) →
          bitmap_get (free_blocks fs2) p = Ok false) ∧
    (∀ p, p ∈ reachable_blocks h fs2 ↔
          bitmap_get (free_blocks fs2) p = Ok false ∧
          inode_blocks (meta_data fs2) < p) ∧
    (∀ p, bitmap_get (free_blocks fs) p = Ok true →
          bitmap_get (free_blocks fs2) p = Ok true) ∧
    (∀ n, fs_stat h fs2 n = fs_stat h fs n) ∧
    (∀ n len off, fs_read h fs2 n len off = fs_read h fs n len off).
Proof.
  intros Hmount Himg Hsteps.
  destruct (fs_mount_inv h0 fs0 dsk fs1 Hmount Himg) as [Hinv0 _].
  destruct (fs_mount_true h0 fs0 dsk fs1 Hmount) as [Hdsk (sb & Hsb & Hacc & Hmeta0)].
  pose proof (fs_steps_inv (h0, fs1) (h, fs) Hsteps Hinv0) as Hinv.
  destruct (fs_steps_mounted (h0, fs1) (h, fs) Hsteps Hinv0) as (Hdisk & Hmeta & Hzero).
  cbn [fst snd] in *. rewrite Hdsk in *.
  split; [done|].
  destruct (fs_mount_again h fs (fs_unmount fs)) as (fs2 & Hm2 & Hdisk2 & Hmeta2).
  - apply (inv_image _ _ Hinv).
  - exists sb. rewrite Hdisk, Hzero, Hmeta. done.
  - cbn. rewrite Hdisk. intros Heq. rewrite <- Heq in Hsb.
    by apply disk_read_Some in Hsb as (a & d & [=] & _).
  - rewrite Hdisk in Hm2. exists fs2. split; [done|]. split; [congruence|].
    assert (Himg2 : image_ok h fs2).
    { apply (image_ok_fs h fs fs2); [done|done|apply (inv_image _ _ Hinv)]. }
    destruct (fs_mount_inv h (fs_unmount fs) dsk fs2 Hm2 Himg2) as [Hinv2 Hexact].
    split; [apply (inv_reserved _ _ Hinv2)|].
    split; [done|]. split; [|split].
    + intros p Hp.
      destruct (inv_bitmap _ _ Hinv) as (bm & Hbm & Hlen).
      destruct (inv_bitmap _ _ Hinv2) as (bm2 & Hbm2 & Hlen2).
      apply bitmap_get_Ok in Hp as (? & Heq & Hget). rewrite Hbm in Heq.
      injection Heq as <-.
      assert (Hlt : (Z.to_nat p < length bm2)%nat).
      { apply lookup_lt_Some in Hget. rewrite Hmeta2 in Hlen2. lia. }
      destruct (lookup_lt_is_Some_2 bm2 (Z.to_nat p) Hlt) as [v Hv].
      rewrite Hbm2. apply bitmap_get_Some. destruct v; [done|exfalso].
      destruct (decide (p ≤ inode_blocks (meta_data fs))) as [Hres|Hdata].
      * assert (Hp0 : bitmap_get (free_blocks fs) (Z.max p 0) = Ok false).
        { apply (inv_reserved _ _ Hinv).
          pose proof (img_layout _ _ (inv_image _ _ Hinv)). lia. }
        rewrite Hbm in Hp0. apply bitmap_get_Ok in Hp0 as (? & [= <-] & Hget0).
        replace (Z.to_nat (Z.max p 0)) with (Z.to_nat p) in Hget0 by lia.
        congruence.
      * assert (Hreach : p ∈ reachable_blocks h fs2).
        { apply Hexact. rewrite Hbm2, Hmeta2. split; [by apply bitmap_get_Some|lia]. }
        rewrite (reachable_blocks_fs h fs fs2 Hdisk2 Hmeta2) in Hreach.
        pose proof (fs_inv_disjoint h fs p Hinv Hreach) as Hused.
        rewrite Hbm in Hused. apply bitmap_get_Ok in Hused as (? & [= <-] & Hget0).
        congruence.
    + intros n. unfold fs_stat. by rewrite Hdisk2.
    + intros n len off. unfold fs_read. by rewrite Hdisk2.
Qed.

Lemma fs_remount_witness :
  disk_read written_h (Some 0%nat) 0 = disk_read [image20] (Some 0%nat) 0 ∧
  ∃ fs2, fs_mount written_h (fs_unmount written_fs) (Some 0%nat) = Ok (true, fs2) ∧
    meta_data fs2 = meta_data mounted20 ∧
    (∀ p, 0 ≤ p ≤ inode_blocks (meta_data fs2) →
          bitmap_get (free_blocks fs2) p = Ok false) ∧
    (∀ p, p ∈ reachable_blocks written_h fs2 ↔
          bitmap_get (free_blocks fs2) p = Ok false ∧
          inode_blocks (meta_data fs2) < p) ∧
    (∀ p, bitmap_get (free_blocks written_fs) p = Ok true →
          bitmap_get (free_blocks fs2) p = Ok true) ∧
    (∀ n, fs_stat written_h fs2 n = fs_stat written_h written_fs n) ∧
    (∀ n len off, fs_read written_h fs2 n len off
                  = fs_read written_h written_fs n len off).
Proof.
  apply (fs_remount [image20] fresh_fs (Some 0%nat) mounted20 written_h written_fs).
  - exact fs_mount_image20.
  - exact image20_ok.
  - exact written_steps.
Defined.

(** ** fs_format on a disk that has a superblock *)




(** ** find_free_block on a mounted engine *)

Lemma find_free_from_total bm n : ∀ i,
  0 ≤ i → i + Z.of_nat n ≤ Z.of_nat (length bm) →
  find_free_from (Some bm) i n = Ok None ∧
  (∀ k, i ≤ k < i + Z.of_nat n → bm !! Z.to_nat k = Some false) ∨
  ∃ j, find_free_from (Some bm) i n = Ok (Some j).
Proof.
  induction n as [|n IH]; intros i Hi Hlen; cbn [find_free_from].
  { left. split; [done|]. lia. }
  unfold bitmap_get. cbn [mbind option_bind].
  destruct (lookup_lt_is_Some_2 bm (Z.to_nat i)) as [v Hv]; [lia|].
  rewrite Hv. cbn [mbind res_bind]. destruct v; [right; by exists i|].
  destruct (IH (i + 1)) as [[-> Hall]|[j ->]]; [lia|lia| |right; by exists j].
  left. split; [done|]. intros k Hk.
  destruct (decide (k = i)) as [->|Hne]; [done|]. apply Hall. lia.
Qed.

(** X12. The allocator on a mounted engine. In a state reached from the
    mount of a well formed image by defined calls, [find_free_block]
    never indexes the bitmap out of bounds, and what it returns is
    either 0, when no block is available, or a block of the data region
    that was marked available and that no valid inode names, now marked
    unavailable: never block 0, an inode block or a block in use. *)
Theorem find_free_block_safe h0 fs0 dsk fs1 h fs :
  fs_mount h0 fs0 dsk = Ok (true, fs1) → image_ok h0 fs1 →
  rtc fs_step (h0, fs1) (h, fs) →
  ∃ nb fs', find_free_block fs = Ok (nb, fs') ∧
    ((nb = 0 ∧ fs' = fs ∧
      ∀ p, 0 ≤ p < blocks (meta_data fs) →
           bitmap_get (free_blocks fs) p = Ok false) ∨
     (inode_blocks (meta_data fs) < nb < blocks (meta_data fs) ∧
      bitmap_get (free_blocks fs) nb = Ok true ∧
      (nb ∉ reachable_blocks h fs) ∧
      bitmap_get (free_blocks fs') nb = Ok false)).
Proof.
  intros Hmount Himg Hsteps.
  assert (Hinv : fs_inv h fs).
  { apply (fs_steps_inv (h0, fs1) (h, fs) Hsteps).
    by apply (fs_mount_inv h0 fs0 dsk fs1). }
  destruct (inv_bitmap _ _ Hinv) as (bm & Hbm & Hlen).
  pose proof (img_layout _ _ (inv_image _ _ Hinv)) as Hlay.
  destruct (find_free_from_total bm (Z.to_nat (blocks (meta_data fs))) 0)
    as [[Hnone Hall]|[j Hj]]; [lia|lia|..].
  - exists 0, fs. unfold find_free_block. rewrite Hbm, Hnone. split; [done|].
    left. split; [done|]. split; [done|]. intros p Hp.
    apply bitmap_get_Some, Hall. lia.
  - pose proof Hj as Hj'. apply find_free_from_Some in Hj' as [Hjr Hjv]; [|done].
    assert (Hfind : find_free_block fs
                    = Ok (j, set_free_blocks fs (Some (<[Z.to_nat j := false]> bm)))).
    { unfold find_free_block. rewrite Hbm, Hj. cbn [mbind res_bind].
      rewrite bitmap_set_Some by lia. done. }
    exists j, (set_free_blocks fs (Some (<[Z.to_nat j := false]> bm))).
    split; [done|]. right.
    destruct (fs_inv_alloc h fs j _ Hinv Hfind)
      as [[-> Heq]|(Hnz & _ & Hdisk & Hmeta & Hwas & (Hr & Hnow & Hun) & _)].
    { exfalso.
      pose proof (inv_reserved _ _ Hinv 0 ltac:(lia)) as H0.
      rewrite Hbm in H0. apply bitmap_get_Ok in H0 as (? & [= <-] & H0).
      congruence. }
    rewrite Hmeta in Hr. split; [done|]. split; [done|]. split; [|done].
    intros (_ & l & Hlive & Heq)%elem_of_reachable_blocks.
    apply (Hun l); [|by rewrite Hdisk]. by apply (live_fs h fs).
Qed.

Lemma find_free_block_safe_witness :
  ∃ nb fs', find_free_block written_fs = Ok (nb, fs') ∧
    ((nb = 0 ∧ fs' = written_fs ∧
      ∀ p, 0 ≤ p < blocks (meta_data written_fs) →
           bitmap_get (free_blocks written_fs) p = Ok false) ∨
     (inode_blocks (meta_data written_fs) < nb < blocks (meta_data written_fs) ∧
      bitmap_get (free_blocks written_fs) nb = Ok true ∧
      (nb ∉ reachable_blocks written_h written_fs) ∧
      bitmap_get (free_blocks fs') nb = Ok false)).
Proof.
  apply (find_free_block_safe [image20] fresh_fs (Some 0%nat) mounted20
           written_h written_fs).
  - exact fs_mount_image20.
  - exact image20_ok.
  - exact written_steps.
Defined.

(** ** fs_remove and fs_create: what a call leaves alone *)

(** An inode block written back with changes to the record of inode
    [n] only: [fs_stat] of the other inodes gives what it gave. *)
Lemma fs_stat_write_inode h fs n blk blk' h' m :
  0 ≤ n → 0 ≤ m → m ≠ n →
  disk_read h (disk fs) (n / INODES_PER_BLOCK + 1) = Some blk →
  (∀ w, 0 ≤ w →
        w < 8 * (n mod INODES_PER_BLOCK) ∨ 8 * (n mod INODES_PER_BLOCK) + 7 < w →
        load32 blk' w = load32 blk w) →
  disk_write h (disk fs) (n / INODES_PER_BLOCK + 1) blk' = Some h' →
  fs_stat h' fs m = fs_stat h fs m.
Proof.
  intros Hn Hm Hne Hblk Hwords Hw.
  pose proof (Z.div_pos n INODES_PER_BLOCK Hn ltac:(unfold INODES_PER_BLOCK; lia)).
  destruct (decide (m / INODES_PER_BLOCK + 1 = n / INODES_PER_BLOCK + 1)) as [Heq|Hneq].
  - unfold fs_stat. cbv zeta. rewrite Heq, Hblk.
    rewrite (disk_read_write_eq h (disk fs) (n / INODES_PER_BLOCK + 1) blk' h')
      by (lia || done).
    pose proof (inode_index_range m) as Him.
    pose proof (inode_index_range n) as Hin.
    assert (Hi' : m mod INODES_PER_BLOCK ≠ n mod INODES_PER_BLOCK).
    { intros Hmod. apply Hne.
      pose proof (Z.div_mod m INODES_PER_BLOCK).
      pose proof (Z.div_mod n INODES_PER_BLOCK).
      unfold INODES_PER_BLOCK in *. lia. }
    unfold inode_valid, inode_size.
    rewrite !Hwords by (unfold INODES_PER_BLOCK in *; lia). done.
  - apply (fs_stat_write_ne h fs (n / INODES_PER_BLOCK + 1) blk' h');
      [done|lia|lia|done].
Qed.

Lemma fs_remove_frame h fs n r h' fs' :
  fs_inv h fs → 0 ≤ n < table_slots fs →
  fs_remove h fs n = Ok (r, h', fs') →
  (∀ m, 0 ≤ m < table_slots fs → m ≠ n → fs_stat h' fs m = fs_stat h fs m) ∧
  (∀ l, loc_ok fs l → loc_inode l ≠ n →
        ptr_at h' (disk fs) l = ptr_at h (disk fs) l) ∧
  (∀ l, live h fs l → l ≠ LIndirect n → ptr_at h (disk fs) l ≠ 0 →
        disk_read h' (disk fs) (ptr_at h (disk fs) l)
        = disk_read h (disk fs) (ptr_at h (disk fs) l)) ∧
  (∀ p, 0 ≤ p →
        (∀ l, loc_ok fs l → loc_inode l = n → ptr_at h (disk fs) l ≠ p) →
        bitmap_get (free_blocks fs') p = bitmap_get (free_blocks fs) p).
Proof.
  intros Hinv Hn. unfold fs_remove. cbv zeta.
  pose proof (inode_index_range n) as Hi0.
  pose proof (table_block_range fs n Hn) as Hbn.
  destruct (disk_read h (disk fs) (n / INODES_PER_BLOCK + 1)) as [blk|] eqn:Hblk;
    [|done].
  destruct (inode_valid blk (n mod INODES_PER_BLOCK) =? 0) eqn:Hvalid.
  { by intros [= <- <- <-]. }
  apply Z.eqb_neq in Hvalid.
  pose proof Hinv as [Himg (bm & Hbm & Hbmlen) Hres Hused].
  pose proof Himg as [Hwf Hlayout Hfree Hrange Hnodup].
  destruct (slot_of_block n h fs blk Hblk Hvalid) as [Hslot Hptr].
  pose proof (wf_store_read h _ _ _ Hwf Hblk) as Hlen.
  set (bn := n / INODES_PER_BLOCK + 1) in *.
  set (i0 := n mod INODES_PER_BLOCK) in *.
  assert (Hi0' : 0 ≤ i0 < 128) by (unfold INODES_PER_BLOCK in Hi0; lia).
  assert (Hlen' : Z.of_nat (length blk) = 4096) by (by rewrite Hlen).
  rewrite Hbm, release_direct_words.
  intros ([bm1 blk1] & Hrel1 & Hrest)%bind_Ok.
  apply release_words_Ok in Hrel1
    as (l1 & -> & Hl1 & Hlen1 & Hzero1 & Hother1 & Hframe1).
  2:{ apply NoDup_fmap_2_strong; [|apply NoDup_seqZ].
      intros x y _ _ Heq. cbv beta in Heq. lia. }
  2:{ intros w (dp & -> & Hdp%elem_of_seqZ)%list_elem_of_fmap.
      unfold POINTERS_PER_INODE in *. lia. }
  apply bind_Ok in Hrest as ([[h2 bm2] blk2] & Hrel2 & Hrest).
  assert (HX : inode_indirect blk1 i0 = inode_indirect blk i0).
  { apply Hother1; [lia|].
    intros (dp & ? & Hdp%elem_of_seqZ)%list_elem_of_fmap.
    unfold POINTERS_PER_INODE in *. lia. }
  apply release_indirect_Ok in Hrel2
    as (l2 & -> & Hl2 & Hlen2 & Hother2 & Hzero2 & Hh2 & Hframe2); [|done|lia|lia].
  rewrite HX in Hh2, Hframe2.
  set (X := inode_indirect blk i0) in *.
  set (blk3 := set_inode_valid (set_inode_size blk2 i0 0) i0 0) in *.
  assert (Hlen3 : length blk3 = length blk).
  { unfold blk3, set_inode_valid, set_inode_size. rewrite !length_store32. congruence. }
  assert (Hother3 : ∀ w, 0 ≤ w → w < 8 * i0 ∨ 8 * i0 + 7 < w →
            load32 blk3 w = load32 blk w).
  { intros w Hw Hout. unfold blk3, set_inode_valid, set_inode_size.
    rewrite !load32_store32_ne, Hother2, Hother1; try done; try lia.
    intros (dp & ? & Hdp%elem_of_seqZ)%list_elem_of_fmap.
    unfold POINTERS_PER_INODE in *. lia. }
  (* the blocks released are blocks that inode [n] names *)
  assert (Hframe : ∀ q, l2 !! q = bm !! q ∨
            ∃ l0, loc_ok fs l0 ∧ loc_inode l0 = n ∧
                  ptr_at h (disk fs) l0 ≠ 0 ∧ Z.to_nat (ptr_at h (disk fs) l0) = q).
  { intros q.
    destruct (Hframe2 q) as [Heq|[HXnz [Hq|(ind_blk & j & Hread & Hj & Hnz & Hq)]]].
    - rewrite Heq.
      destruct (Hframe1 q)
        as [?|(w & (dp & -> & Hdp%elem_of_seqZ)%list_elem_of_fmap & Hnz & Hq)];
        [by left|right].
      exists (LDirect n dp). rewrite Hptr by done. split; [|done].
      split; [done|]. cbn. lia.
    - right. exists (LIndirect n). rewrite Hptr by done. by split.
    - right. exists (LEntry n j). rewrite Hptr by done. cbn [inode_ptr]. fold X.
      rewrite Hread, (proj2 (Z.eqb_neq _ _) HXnz). by split. }
  (* the indirect block written back with its pointers zeroed *)
  assert (HA : fs_inv h2 fs ∧ disk_read h2 (disk fs) bn = Some blk ∧
            (∀ l, loc_ok fs l → loc_inode l ≠ n →
                  ptr_at h2 (disk fs) l = ptr_at h (disk fs) l) ∧
            (∀ m, 0 ≤ m < table_slots fs → fs_stat h2 fs m = fs_stat h fs m) ∧
            (∀ q, 0 ≤ q → q ≠ ptr_at h (disk fs) (LIndirect n) →
                  disk_read h2 (disk fs) q = disk_read h (disk fs) q)).
  { destruct Hh2 as [[HXz ->]|(HXnz & ind_blk & ind' & Hread & Hw & Hlenind & Hz)];
      [done|].
    assert (HliveX : live h fs (LIndirect n)) by done.
    assert (HptrX : ptr_at h (disk fs) (LIndirect n) = X) by (by rewrite Hptr).
    assert (HrX : inode_blocks (meta_data fs) < X < blocks (meta_data fs)).
    { rewrite <- HptrX. apply (Hrange _ HliveX). by rewrite HptrX. }
    assert (Hval2 : ∀ n', 0 ≤ n' < table_slots fs →
              inode_slot_valid h2 (disk fs) n' = inode_slot_valid h (disk fs) n').
    { intros n' Hn'. apply (inode_slot_valid_write_ne h (disk fs) X ind' h2);
        [done|lia|lia|]. pose proof (table_block_range fs n' Hn'). lia. }
    assert (Hkeep : ∀ l, loc_ok fs l → (∀ j, l ≠ LEntry n j) →
              ptr_at h2 (disk fs) l = ptr_at h (disk fs) l).
    { intros l Hl Hne. apply (ptr_at_write_ne h (disk fs) X ind' h2); [done|lia|apply Hl| |].
      - pose proof (table_block_range fs _ (proj1 Hl)). lia.
      - intros n' j -> Heq.
        destruct (table_slot_cases h fs n' Himg (proj1 Hl)) as [Hv|Hv].
        + assert (LIndirect n' = LIndirect n) as [= ->]; [|by apply (Hne j)].
          apply Hnodup; try done; [|congruence..]. split; [|done]. split; [apply Hl|done].
        + rewrite (Hfree (LIndirect n') (conj (proj1 Hl) I) Hv) in Heq. lia. }
    assert (Hcase : ∀ l, loc_ok fs l →
              ptr_at h2 (disk fs) l = ptr_at h (disk fs) l ∨ ptr_at h2 (disk fs) l = 0).
    { intros l Hl.
      assert (Hdec : (∃ j, l = LEntry n j) ∨ ∀ j, l ≠ LEntry n j).
      { destruct l as [n' k|n'|n' j]; [by right..|].
        destruct (decide (n' = n)) as [->|Hne]; [left; by exists j|right].
        intros j' [= ? ?]. done. }
      destruct Hdec as [[j ->]|Hne]; [right|left; by apply Hkeep].
      rewrite (ptr_at_write_indirect h (disk fs) X ind' h2 n j Hw);
        [apply Hz, Hl|lia|lia| |done|done].
      fold bn. lia. }
    split; [|split; [|split; [|split]]].
    - apply (fs_inv_shrink h fs h2 fs); try done.
      + eapply wf_store_write; [done| |exact Hw].
        rewrite Hlenind. by eapply wf_store_read.
      + by eapply disk_blocks_write.
      + by exists bm.
      + intros n' Hn'. left. by apply Hval2.
      + intros l Hl Hv. rewrite Hval2 in Hv by apply Hl.
        pose proof (Hfree l Hl Hv). destruct (Hcase l Hl); congruence.
      + intros p Hp. by left.
    - rewrite <- Hblk. apply (disk_read_write_ne h (disk fs) X bn ind' h2); [lia..|done].
    - intros l Hl Hne. apply Hkeep; [done|]. intros j ->. by apply Hne.
    - intros m Hm. pose proof (table_block_range fs m Hm).
      apply (fs_stat_write_ne h fs X ind' h2); [done|lia|lia|lia].
    - intros q Hq Hne. rewrite HptrX in Hne.
      apply (disk_read_write_ne h (disk fs) X q ind' h2); [lia|done|done|done]. }
  destruct HA as (Hinv2 & Hblk2 & Hptr2 & Hstat2 & Hframe2').
  destruct (disk_write_is_Some h2 (disk fs) bn blk blk3 Hblk2) as [h3 Hw3].
  rewrite Hw3 in Hrest. cbn [default] in Hrest. injection Hrest as <- <- <-.
  destruct (write_inode_block h2 fs n blk blk3 h3 (inv_image _ _ Hinv2) Hn Hblk2
              Hlen3 Hother3 Hw3)
    as (Hwf3 & Hblocks3 & Hdata3 & Hval3 & Hval3n & Hptr3 & Hptr3n).
  split; [|split; [|split]].
  - intros m Hm Hne. rewrite <- Hstat2 by done.
    apply (fs_stat_write_inode h2 fs n blk blk3 h3 m); try done; lia.
  - intros l Hl Hne. rewrite Hptr3, Hptr2 by done. done.
  - intros l Hlive Hne Hnz.
    pose proof (Hrange l Hlive Hnz) as Hr.
    rewrite Hdata3 by lia. apply Hframe2'; [lia|].
    intros Heq. apply Hne. by apply Hnodup.
  - intros p Hp Hnot. cbn [free_blocks set_free_blocks].
    unfold bitmap_get. cbn [mbind option_bind].
    destruct (Hframe (Z.to_nat p)) as [->|(l0 & Hl0 & Hn0 & Hnz0 & Hq0)]; [done|].
    exfalso. apply (Hnot l0 Hl0 Hn0).
    destruct (ptr_range h fs l0 Himg Hl0); lia.
Qed.

(** A third state: on [second_state], where inode 0 holds 30000 bytes
    and inode 1 holds 5000 bytes. *)
Lemma second_written_steps :
  rtc fs_step ([image20], mounted20) (second_written_h, second_written_fs).
Proof.
  eapply rtc_r; [exact second_steps|].
  apply (step_write _ _ 1 (replicate (Z.to_nat 5000) x2b) 5000 0 5000).
  - vm_compute. split; congruence.
  - lia.
  - vm_compute. reflexivity.
Qed.

(** X13. [fs_remove] releases the blocks of one inode and touches
    nothing else. In a state reached from the mount of a well formed
    image by defined calls, after [fs_remove] of inode [n] of the table:
    [fs_stat] and every pointer of each other inode are as before; every
    block that a valid inode named keeps its bytes, the data blocks of
    [n] included (they are released, not cleared), the one exception
    being the indirect block of [n], whose entries are zeroed; and the
    bitmap changes only at blocks that [n] named. *)
Theorem fs_remove_isolation h0 fs0 dsk fs1 h fs n r h' fs' :
  fs_mount h0 fs0 dsk = Ok (true, fs1) → image_ok h0 fs1 →
  rtc fs_step (h0, fs1) (h, fs) →
  0 ≤ n < table_slots fs →
  fs_remove h fs n = Ok (r, h', fs') →
  (∀ m, 0 ≤ m < table_slots fs → m ≠ n → fs_stat h' fs' m = fs_stat h fs m) ∧
  (∀ l, loc_ok fs l → loc_inode l ≠ n →
        ptr_at h' (disk fs') l = ptr_at h (disk fs) l) ∧
  (∀ l, live h fs l → l ≠ LIndirect n → ptr_at h (disk fs) l ≠ 0 →
        disk_read h' (disk fs') (ptr_at h (disk fs) l)
        = disk_read h (disk fs) (ptr_at h (disk fs) l)) ∧
  (∀ p, 0 ≤ p →
        (∀ l, loc_ok fs l → loc_inode l = n → ptr_at h (disk fs) l ≠ p) →
        bitmap_get (free_blocks fs') p = bitmap_get (free_blocks fs) p).
Proof.
  intros Hmount Himg Hsteps Hn Hremove.
  assert (Hinv : fs_inv h fs).
  { apply (fs_steps_inv (h0, fs1) (h, fs) Hsteps).
    by apply (fs_mount_inv h0 fs0 dsk fs1). }
  destruct (fs_remove_inv h fs n r h' fs' Hinv Hn Hremove) as (_ & Hdisk & _).
  destruct (fs_remove_frame h fs n r h' fs' Hinv Hn Hremove)
    as (Hstat & Hptr & Hblocks & Hbits).
  rewrite Hdisk. split; [|done].
  intros m Hm Hne. rewrite (fs_stat_disk h' fs fs' m Hdisk). by apply Hstat.
Qed.

Definition removed_state : res (list Disk * FileSystem) :=
  '(r, h, fs) ← fs_remove second_written_h second_written_fs 0;
  Ok (h, fs).

Definition removed_h : list Disk := state_disks removed_state.
Definition removed_fs : FileSystem := state_engine removed_state.

Lemma fs_remove_isolation_witness :
  (∀ m, 0 ≤ m < table_slots second_written_fs → m ≠ 0 →
        fs_stat removed_h removed_fs m
        = fs_stat second_written_h second_written_fs m) ∧
  (∀ l, loc_ok second_written_fs l → loc_inode l ≠ 0 →
        ptr_at removed_h (disk removed_fs) l
        = ptr_at second_written_h (disk second_written_fs) l) ∧
  (∀ l, live second_written_h second_written_fs l → l ≠ LIndirect 0 →
        ptr_at second_written_h (disk second_written_fs) l ≠ 0 →
        disk_read removed_h (disk removed_fs)
          (ptr_at second_written_h (disk second_written_fs) l)
        = disk_read second_written_h (disk second_written_fs)
            (ptr_at second_written_h (disk second_written_fs) l)) ∧
  (∀ p, 0 ≤ p →
        (∀ l, loc_ok second_written_fs l → loc_inode l = 0 →
              ptr_at second_written_h (disk second_written_fs) l ≠ p) →
        bitmap_get (free_blocks removed_fs) p
        = bitmap_get (free_blocks second_written_fs) p).
Proof.
  apply (fs_remove_isolation [image20] fresh_fs (Some 0%nat) mounted20
           second_written_h second_written_fs 0 true).
  - exact fs_mount_image20.
  - exact image20_ok.
  - exact second_written_steps.
  - vm_compute. split; congruence.
  - vm_compute. reflexivity.
Defined.

(** ** fs_write is defined on the ranges it is made for *)

Lemma find_free_block_total h fs :
  fs_inv h fs → ∃ nb fs', find_free_block fs = Ok (nb, fs').
Proof.
  intros Hinv. destruct (inv_bitmap _ _ Hinv) as (bm & Hbm & Hlen).
  pose proof (img_layout _ _ (inv_image _ _ Hinv)) as Hlay.
  unfold find_free_block. rewrite Hbm.
  destruct (find_free_from_total bm (Z.to_nat (blocks (meta_data fs))) 0)
    as [[-> _]|[j Hj]]; [lia|lia|by eexists _, _|].
  rewrite Hj. cbn [mbind res_bind].
  apply find_free_from_Some in Hj as [Hjr _]; [|done].
  rewrite bitmap_set_Some by lia. by eexists _, _.
Qed.

Lemma copy_in_fits data_blk doff data nwrite ncopy :
  doff + ncopy ≤ BLOCK_SIZE → nwrite + ncopy ≤ Z.of_nat (length data) →
  copy_in data_blk doff data nwrite ncopy
  = Ok (blit data_blk (Z.to_nat doff)
          (take (Z.to_nat ncopy) (drop (Z.to_nat nwrite) data))).
Proof.
  intros Hfit Hdata. unfold copy_in. by rewrite !bool_decide_eq_false_2 by lia.
Qed.

(** One turn on a mounted engine, with the copy inside the block and
    inside the caller's buffer: the turn goes on, or it returns -1
    having written nothing, and then no block is available. *)
Lemma write_turn_defined n0 data offset db doff ncopy nwrite h fs blk :
  fs_inv h fs → 0 ≤ n0 < table_slots fs →
  disk_read h (disk fs) (n0 / INODES_PER_BLOCK + 1) = Some blk →
  inode_valid blk (n0 mod INODES_PER_BLOCK) ≠ 0 →
  0 ≤ db < POINTERS_PER_INODE + POINTERS_PER_BLOCK →
  doff + ncopy ≤ BLOCK_SIZE → nwrite + ncopy ≤ Z.of_nat (length data) →
  (∃ h' fs' blk',
     write_turn h fs blk (n0 / INODES_PER_BLOCK + 1) (n0 mod INODES_PER_BLOCK)
       data offset db doff ncopy nwrite = Ok (WNext h' fs' blk')) ∨
  (∃ fs',
     write_turn h fs blk (n0 / INODES_PER_BLOCK + 1) (n0 mod INODES_PER_BLOCK)
       data offset db doff ncopy nwrite = Ok (WReturn (-1) h fs') ∧
     find_free_block fs' = Ok (0, fs')).
Proof.
  intros Hinv Hn0 Hblk Hvalid Hdb Hfit Hdata.
  pose proof (img_layout _ _ (inv_image _ _ Hinv)) as Hlay.
  pose proof (inode_index_range n0) as Hi0.
  pose proof (wf_store_read h _ _ _ (img_wf _ _ (inv_image _ _ Hinv)) Hblk) as Hlen.
  destruct (slot_of_block n0 h fs blk Hblk Hvalid) as [Hslot Hptr].
  set (bn := n0 / INODES_PER_BLOCK + 1) in *.
  set (i0 := n0 mod INODES_PER_BLOCK) in *.
  assert (Hi0' : 0 ≤ i0 < 128) by (unfold INODES_PER_BLOCK in Hi0; lia).
  assert (Hlen' : Z.of_nat (length blk) = 4096) by (by rewrite Hlen).
  assert (Hwrite : ∀ g q b, disk_blocks g (disk fs) = disk_blocks h (disk fs) →
            0 ≤ q < blocks (meta_data fs) → is_Some (disk_write g (disk fs) q b)).
  { intros g q b Hg Hq. apply disk_write_in_range. lia. }
  assert (Hread : ∀ q, 0 ≤ q < blocks (meta_data fs) →
            is_Some (disk_read h (disk fs) q)).
  { intros q Hq. apply disk_read_in_range. lia. }
  unfold write_turn. case_bool_decide as Hdir.
  - (* a direct pointer *)
    assert (Hdb' : 0 ≤ db < 5) by (unfold POINTERS_PER_INODE in Hdir; lia).
    unfold write_direct.
    destruct (inode_direct blk i0 db =? 0) eqn:Hp.
    + destruct (find_free_block_total h fs Hinv) as (nb & fs1 & Hfree).
      rewrite Hfree. cbn [mbind res_bind].
      destruct (fs_inv_alloc h fs nb fs1 Hinv Hfree)
        as [[-> ->]|(Hnb & _ & _ & Hmeta1 & _ & [Hrnb _] & _)].
      { right. exists fs. by cbn. }
      rewrite (proj2 (Z.eqb_neq _ _) Hnb). cbn [mbind res_bind].
      rewrite Hmeta1 in Hrnb.
      assert (Hnew : inode_direct (set_inode_direct blk i0 db nb) i0 db = nb).
      { unfold inode_direct, set_inode_direct.
        rewrite load32_store32_eq; [apply wrap32_small|..]; lia. }
      rewrite Hnew.
      destruct (Hread nb) as [data_blk ->]; [lia|].
      rewrite copy_in_fits by done. cbn [mbind res_bind].
      destruct (Hwrite h nb (blit data_blk (Z.to_nat doff)
                  (take (Z.to_nat ncopy) (drop (Z.to_nat nwrite) data))))
        as [h1 ->]; [done|lia|].
      left. unfold write_finish. by eexists _, _, _.
    + apply Z.eqb_neq in Hp. cbn [mbind res_bind].
      assert (Hlive : live h fs (LDirect n0 db)) by done.
      pose proof (img_range h fs (inv_image _ _ Hinv) _ Hlive) as Hr.
      rewrite (Hptr (LDirect n0 db) eq_refl) in Hr. cbn [inode_ptr] in Hr.
      specialize (Hr Hp).
      destruct (Hread (inode_direct blk i0 db)) as [data_blk ->]; [lia|].
      rewrite copy_in_fits by done. cbn [mbind res_bind].
      destruct (Hwrite h (inode_direct blk i0 db)
                  (blit data_blk (Z.to_nat doff)
                     (take (Z.to_nat ncopy) (drop (Z.to_nat nwrite) data))))
        as [h1 ->]; [done|lia|].
      left. unfold write_finish. by eexists _, _, _.
  - (* behind the direct pointers *)
    unfold write_indirect. cbv zeta.
    set (off := db - POINTERS_PER_INODE).
    assert (Hoff : 0 ≤ off < 1024).
    { unfold off, POINTERS_PER_INODE, POINTERS_PER_BLOCK in *. lia. }
    assert (Hstep : ∀ fs1 blk1 ib,
              fs_inv h fs1 → disk fs1 = disk fs → meta_data fs1 = meta_data fs →
              Z.of_nat (length ib) = BLOCK_SIZE →
              inode_blocks (meta_data fs) < inode_indirect blk1 i0
              < blocks (meta_data fs) →
              (pointers ib off ≠ 0 →
               inode_blocks (meta_data fs) < pointers ib off < blocks (meta_data fs)) →
              ∃ r2,
                (if pointers ib off =? 0 then
                   '(new_block, fs2) ← find_free_block fs1;
                   if new_block =? 0 then Ok (inl (h, fs2))
                   else
                     match disk_write h (disk fs) (inode_indirect blk1 i0)
                             (set_pointers ib off new_block) with
                     | None => Ok (inl (h, fs2))
                     | Some h1 =>
                         Ok (inr (h1, fs2, set_pointers ib off new_block, zero_block))
                     end
                 else
                   match disk_read h (disk fs) (pointers ib off) with
                   | None => Ok (inl (h, fs1))
                   | Some data_blk => Ok (inr (h, fs1, ib, data_blk))
                   end) = Ok r2 ∧
                match r2 with
                | inl (h1, fs2) => h1 = h ∧ find_free_block fs2 = Ok (0, fs2)
                | inr (h1, fs2, ib', data_blk) =>
                    disk_blocks h1 (disk fs) = disk_blocks h (disk fs) ∧
                    0 ≤ pointers ib' off < blocks (meta_data fs)
                end).
    { intros fs1 blk1 ib Hinv1 Hdisk1 Hmeta1 Hlenib HrX HrE.
      destruct (pointers ib off =? 0) eqn:Hent.
      - destruct (find_free_block_total h fs1 Hinv1) as (Y & fs2 & Hfree2).
        rewrite Hfree2. cbn [mbind res_bind].
        destruct (fs_inv_alloc h fs1 Y fs2 Hinv1 Hfree2)
          as [[-> ->]|(HY & _ & _ & Hmeta2 & _ & [HrY _] & _)].
        { eexists. split; [done|]. by cbn. }
        rewrite (proj2 (Z.eqb_neq _ _) HY).
        rewrite Hmeta2, Hmeta1 in HrY.
        destruct (Hwrite h (inode_indirect blk1 i0) (set_pointers ib off Y))
          as [h1 Hw1]; [done|lia|].
        rewrite Hw1. eexists. split; [done|]. cbn.
        split; [by apply (disk_blocks_write h (disk fs) (disk fs) _ _ h1 Hw1)|].
        unfold pointers, set_pointers.
        rewrite load32_store32_eq, wrap32_small; unfold BLOCK_SIZE in *; lia.
      - apply Z.eqb_neq in Hent. specialize (HrE Hent).
        destruct (Hread (pointers ib off)) as [data_blk ->]; [lia|].
        eexists. split; [done|]. cbn. split; [done|lia]. }
    assert (Hfinish : ∀ (r2 : list Disk * FileSystem
                                + list Disk * FileSystem * Block * Block)
                             (blk1 : Block),
              match r2 with
              | inl (h1, fs2) => h1 = h ∧ find_free_block fs2 = Ok (0, fs2)
              | inr (h1, fs2, ib', data_blk) =>
                  disk_blocks h1 (disk fs) = disk_blocks h (disk fs) ∧
                  0 ≤ pointers ib' off < blocks (meta_data fs)
              end →
              (∃ h' fs' blk',
                 match r2 with
                 | inl (h1, fs2) => Ok (WReturn (-1) h1 fs2)
                 | inr (h1, fs2, indirect_blk', data_blk) =>
                     data_blk' ← copy_in data_blk doff data nwrite ncopy;
                     match disk_write h1 (disk fs) (pointers indirect_blk' off)
                             data_blk' with
                     | None => Ok (WReturn (-1) h1 fs2)
                     | Some h2 =>
                         Ok (write_finish h2 fs2 blk1 bn i0 offset nwrite ncopy)
                     end
                 end = Ok (WNext h' fs' blk')) ∨
              (∃ fs',
                 match r2 with
                 | inl (h1, fs2) => Ok (WReturn (-1) h1 fs2)
                 | inr (h1, fs2, indirect_blk', data_blk) =>
                     data_blk' ← copy_in data_blk doff data nwrite ncopy;
                     match disk_write h1 (disk fs) (pointers indirect_blk' off)
                             data_blk' with
                     | None => Ok (WReturn (-1) h1 fs2)
                     | Some h2 =>
                         Ok (write_finish h2 fs2 blk1 bn i0 offset nwrite ncopy)
                     end
                 end = Ok (WReturn (-1) h fs') ∧
                 find_free_block fs' = Ok (0, fs'))).
    { intros [[h1 fs2]|[[[h1 fs2] ib'] data_blk]] blk1.
      - intros [-> Hnone]. right. by exists fs2.
      - intros [Hg Hr]. rewrite copy_in_fits by done. cbn [mbind res_bind].
        destruct (Hwrite h1 (pointers ib' off)
                    (blit data_blk (Z.to_nat doff)
                       (take (Z.to_nat ncopy) (drop (Z.to_nat nwrite) data))))
          as [h2 ->]; [done|lia|].
        left. unfold write_finish. by eexists _, _, _. }
    destruct (inode_indirect blk i0 =? 0) eqn:Hind.
    + destruct (find_free_block_total h fs Hinv) as (X & fs1 & Hfree).
      rewrite Hfree. cbn [mbind res_bind].
      destruct (fs_inv_alloc h fs X fs1 Hinv Hfree)
        as [[-> ->]|(HX & Hinv1 & Hdisk1 & Hmeta1 & _ & [HrX _] & _)].
      { right. exists fs. by cbn. }
      rewrite (proj2 (Z.eqb_neq _ _) HX). cbn [mbind res_bind].
      rewrite bool_decide_eq_false_2 by (unfold POINTERS_PER_BLOCK; lia).
      rewrite Hmeta1 in HrX.
      assert (HnewX : inode_blocks (meta_data fs)
                      < inode_indirect (set_inode_indirect blk i0 X) i0
                      < blocks (meta_data fs)).
      { unfold inode_indirect, set_inode_indirect.
        rewrite load32_store32_eq, wrap32_small; lia. }
      assert (Hzero : pointers zero_block off ≠ 0 →
                inode_blocks (meta_data fs) < pointers zero_block off
                < blocks (meta_data fs)).
      { unfold pointers. by rewrite load32_zero_block. }
      destruct (Hstep fs1 (set_inode_indirect blk i0 X) zero_block Hinv1 Hdisk1
                  Hmeta1 length_zero_block HnewX Hzero) as (r2 & -> & Hr2).
      cbn [mbind res_bind]. by apply Hfinish.
    + apply Z.eqb_neq in Hind.
      assert (Hlive : live h fs (LIndirect n0)) by done.
      pose proof (img_range h fs (inv_image _ _ Hinv) _ Hlive) as HrX.
      rewrite (Hptr (LIndirect n0) eq_refl) in HrX. cbn [inode_ptr] in HrX.
      specialize (HrX Hind).
      destruct (Hread (inode_indirect blk i0)) as [ib Hib]; [lia|].
      rewrite Hib. cbn [mbind res_bind].
      rewrite bool_decide_eq_false_2 by (unfold POINTERS_PER_BLOCK; lia).
      pose proof (wf_store_read h _ _ _ (img_wf _ _ (inv_image _ _ Hinv)) Hib)
        as Hlenib.
      assert (HrE : pointers ib off ≠ 0 →
                inode_blocks (meta_data fs) < pointers ib off
                < blocks (meta_data fs)).
      { intros Hent.
        assert (HliveE : live h fs (LEntry n0 off)).
        { split; [|done]. split; [done|]. unfold POINTERS_PER_BLOCK. lia. }
        pose proof (img_range h fs (inv_image _ _ Hinv) _ HliveE) as HrE.
        rewrite (Hptr (LEntry n0 off) eq_refl) in HrE. cbn [inode_ptr] in HrE.
        rewrite (proj2 (Z.eqb_neq _ _) Hind), Hib in HrE. by apply HrE. }
      destruct (Hstep fs blk ib Hinv eq_refl eq_refl Hlenib HrX HrE)
        as (r2 & -> & Hr2).
      cbn [mbind res_bind]. by apply Hfinish.
Qed.

Lemma write_loop_defined n data len offset (Hlen : 0 ≤ len < 2 ^ 64) fuel :
  ∀ h fs blk db doff ncopy nwrite,
  fs_inv h fs → 0 ≤ n < table_slots fs →
  disk_read h (disk fs) (n / INODES_PER_BLOCK + 1) = Some blk →
  inode_valid blk (n mod INODES_PER_BLOCK) ≠ 0 →
  walk_inv len offset db doff ncopy nwrite → 0 ≤ db →
  doff + ncopy ≤ BLOCK_SIZE →
  len ≤ Z.of_nat (length data) →
  offset + len ≤ (POINTERS_PER_INODE + POINTERS_PER_BLOCK) * BLOCK_SIZE →
  (Z.to_nat (POINTERS_PER_INODE + POINTERS_PER_BLOCK - db) < fuel)%nat →
  ∃ r h' fs',
    write_loop fuel h fs blk (n / INODES_PER_BLOCK + 1) (n mod INODES_PER_BLOCK)
      data len offset db doff ncopy nwrite = Ok (r, h', fs') ∧
    (r = len ∨ r = -1 ∧ find_free_block fs' = Ok (0, fs')).
Proof.
  induction fuel as [|fuel IH];
    intros h fs blk db doff ncopy nwrite Hinv Hn Hblk Hvalid Hwalk Hdb Hfit
      Hdata Hmax Hfuel; [lia|].
  pose proof Hwalk as (Hdoff & Hnwrite & Hncopy & Hpos & Hdone).
  cbn [write_loop]. case_bool_decide as Hlt.
  2:{ exists nwrite, h, fs. split; [done|]. left. lia. }
  specialize (Hpos Hlt).
  assert (Hdb' : 0 ≤ db < POINTERS_PER_INODE + POINTERS_PER_BLOCK).
  { unfold POINTERS_PER_INODE, POINTERS_PER_BLOCK, BLOCK_SIZE in *. nia. }
  assert (Hncopy0 : 0 ≤ ncopy) by lia.
  destruct (write_turn_defined n data offset db doff ncopy nwrite h fs blk)
    as [(h1 & fs1 & blk1 & Hturn)|(fs1 & Hturn & Hnone)]; try done; [lia|..].
  - rewrite Hturn. cbn [mbind res_bind].
    pose proof (write_turn_inv n data offset db doff ncopy nwrite ltac:(lia) Hncopy0
                  ltac:(lia) h fs blk _ Hinv Hn Hblk Hvalid Hdb Hturn) as Hpost.
    cbn [turn_post] in Hpost.
    destruct Hpost as (Hinv1 & Hdisk1 & Hmeta1 & Hblk1 & Hvalid1).
    apply IH; try done.
    + unfold table_slots in *. by rewrite Hmeta1.
    + by rewrite Hdisk1.
    + by apply (walk_inv_next len offset Hlen db doff ncopy nwrite).
    + lia.
    + case_bool_decide; [lia|]. lia.
    + unfold POINTERS_PER_INODE, POINTERS_PER_BLOCK in *. lia.
  - rewrite Hturn. cbn [mbind res_bind]. exists (-1), h, fs1. split; [done|].
    by right.
Qed.

Lemma fs_write_defined_inv h fs n data len offset :
  fs_inv h fs → 0 ≤ n < table_slots fs →
  0 ≤ offset → 0 < len → len ≤ Z.of_nat (length data) →
  (len < BLOCK_SIZE → offset mod BLOCK_SIZE + len ≤ BLOCK_SIZE) →
  offset + len ≤ (POINTERS_PER_INODE + POINTERS_PER_BLOCK) * BLOCK_SIZE →
  ∃ r h' fs',
    fs_write h fs n data len offset = Ok (r, h', fs') ∧
    (r = len ∨
     r = -1 ∧ (fs_stat h fs n = Ok (-1) ∨ find_free_block fs' = Ok (0, fs'))).
Proof.
  intros Hinv Hn Hoff Hlen Hdata Hfit Hmax.
  destruct (table_slot_readable h fs n (inv_image _ _ Hinv) Hn) as (blk & Hblk & _).
  unfold fs_write, fs_stat. cbv zeta. rewrite Hblk.
  destruct (inode_valid blk (n mod INODES_PER_BLOCK) =? 0) eqn:Hvalid.
  { exists (-1), h, fs. split; [done|]. right. split; [done|]. by left. }
  apply Z.eqb_neq in Hvalid.
  assert (Hlen64 : 0 ≤ len < 2 ^ 64).
  { unfold POINTERS_PER_INODE, POINTERS_PER_BLOCK, BLOCK_SIZE in *. lia. }
  pose proof (Z.div_pos offset BLOCK_SIZE Hoff ltac:(unfold BLOCK_SIZE; lia)) as Hdb.
  pose proof (Z.mod_pos_bound offset BLOCK_SIZE ltac:(unfold BLOCK_SIZE; lia)) as Hmod.
  destruct (write_loop_defined n data len offset Hlen64 walk_fuel h fs blk
              (offset / BLOCK_SIZE) (offset mod BLOCK_SIZE)
              (if bool_decide (len < BLOCK_SIZE) then len
               else BLOCK_SIZE - offset mod BLOCK_SIZE) 0)
    as (r & h' & fs' & Hloop & Hr); try done.
  - by apply walk_inv_init.
  - case_bool_decide; [by apply Hfit|lia].
  - unfold walk_fuel. lia.
  - exists r, h', fs'. split; [done|]. destruct Hr as [?|[? ?]]; auto.
Qed.

(** X15. [fs_write] on a mounted engine is defined and fails only for
    want of an inode or of space. In a state reached from the mount of a
    well formed image by defined calls, take an inode of the table, a
    buffer of at least [len > 0] bytes, and a range that ends inside the
    largest file and, when [len < BLOCK_SIZE], inside the block it
    starts in. Then [fs_write] returns [len], or it returns -1 and
    either the inode is not valid or the bitmap it leaves has no block
    available. *)
Theorem fs_write_defined h0 fs0 dsk fs1 h fs n data len offset :
  fs_mount h0 fs0 dsk = Ok (true, fs1) → image_ok h0 fs1 →
  rtc fs_step (h0, fs1) (h, fs) →
  0 ≤ n < table_slots fs →
  0 ≤ offset → 0 < len → len ≤ Z.of_nat (length data) →
  (len < BLOCK_SIZE → offset mod BLOCK_SIZE + len ≤ BLOCK_SIZE) →
  offset + len ≤ (POINTERS_PER_INODE + POINTERS_PER_BLOCK) * BLOCK_SIZE →
  ∃ r h' fs',
    fs_write h fs n data len offset = Ok (r, h', fs') ∧
    (r = len ∨
     r = -1 ∧ (fs_stat h fs n = Ok (-1) ∨ find_free_block fs' = Ok (0, fs'))).
Proof.
  intros Hmount Himg Hsteps. apply fs_write_defined_inv.
  apply (fs_steps_inv (h0, fs1) (h, fs) Hsteps).
  by apply (fs_mount_inv h0 fs0 dsk fs1).
Qed.

Lemma fs_write_defined_witness :
  ∃ r h' fs',
    fs_write second_h written_fs 1 (replicate (Z.to_nat 50000) x2b) 50000 100
    = Ok (r, h', fs') ∧
    (r = 50000 ∨
     r = -1 ∧ (fs_stat second_h written_fs 1 = Ok (-1) ∨
               find_free_block fs' = Ok (0, fs'))).
Proof.
  apply (fs_write_defined [image20] fresh_fs (Some 0%nat) mounted20
           second_h written_fs 1 (replicate (Z.to_nat 50000) x2b) 50000 100).
  - exact fs_mount_image20.
  - exact image20_ok.
  - exact second_steps.
  - vm_compute. split; congruence.
  - lia.
  - lia.
  - rewrite length_replicate. lia.
  - unfold BLOCK_SIZE. lia.
  - unfold POINTERS_PER_INODE, POINTERS_PER_BLOCK, BLOCK_SIZE. lia.
Defined.

(** ** Read after write *)

(** X6. Read after write. In a state reached from the mount of a well
    formed image by defined calls, take an inode of the table, a buffer
    of at least [len > 0] bytes, and a range that ends inside the
    largest file and, when [len < BLOCK_SIZE], inside the block it
    starts in. Then [fs_write] returns [len] or -1, and when it returns
    [len], the read of the same range returns [len] and the bytes
    written. *)
Theorem fs_write_then_read h0 fs0 dsk fs1 h fs n data len offset :
  fs_mount h0 fs0 dsk = Ok (true, fs1) → image_ok h0 fs1 →
  rtc fs_step (h0, fs1) (h, fs) →
  0 ≤ n < table_slots fs →
  0 ≤ offset → 0 < len → len ≤ Z.of_nat (length data) →
  (len < BLOCK_SIZE → offset mod BLOCK_SIZE + len ≤ BLOCK_SIZE) →
  offset + len ≤ (POINTERS_PER_INODE + POINTERS_PER_BLOCK) * BLOCK_SIZE →
  ∃ r h' fs',
    fs_write h fs n data len offset = Ok (r, h', fs') ∧
    (r = len ∨ r = -1) ∧
    (r = len →
     fs_read h' fs' n len offset = Ok (len, take (Z.to_nat len) data)).
Proof.
  intros Hmount Himg Hsteps Hn Hoff Hlen Hdata Hblock Hmax.
  assert (Hinv : fs_inv h fs).
  { apply (fs_steps_inv (h0, fs1) (h, fs) Hsteps).
    by apply (fs_mount_inv h0 fs0 dsk fs1). }
  destruct (fs_write_defined_inv h fs n data len offset Hinv Hn Hoff Hlen Hdata
              Hblock Hmax) as (r & h' & fs' & Hwrite & Hr).
  exists r, h', fs'. split; [done|]. split; [destruct Hr as [?|[? _]]; auto|].
  intros ->. apply (fs_write_then_read_inv h fs); try done.
  unfold POINTERS_PER_INODE, POINTERS_PER_BLOCK, BLOCK_SIZE in Hmax. lia.
Qed.

Lemma fs_write_then_read_witness :
  (∃ r h' fs',
     fs_write created_h mounted20 0 (replicate (Z.to_nat 30000) x2a) 30000 0
     = Ok (r, h', fs') ∧
     (r = 30000 ∨ r = -1) ∧
     (r = 30000 →
      fs_read h' fs' 0 30000 0
      = Ok (30000, take (Z.to_nat 30000) (replicate (Z.to_nat 30000) x2a)))) ∧
  fst ∘ fst <$>
    fs_write created_h mounted20 0 (replicate (Z.to_nat 30000) x2a) 30000 0
  = Ok 30000.
Proof.
  split; [|vm_compute; reflexivity].
  apply (fs_write_then_read [image20] fresh_fs (Some 0%nat) mounted20
           created_h mounted20 0 (replicate (Z.to_nat 30000) x2a) 30000 0).
  - exact fs_mount_image20.
  - exact image20_ok.
  - apply rtc_once. apply (step_create _ _ 0). vm_compute. reflexivity.
  - vm_compute. split; congruence.
  - lia.
  - lia.
  - rewrite length_replicate. lia.
  - unfold BLOCK_SIZE. lia.
  - unfold POINTERS_PER_INODE, POINTERS_PER_BLOCK, BLOCK_SIZE. lia.
Defined.

(** ** fs_create: the slot it takes *)

Lemma create_scan_result blk m : 0 ≤ m → ∀ j c,
  match create_scan blk (seqZ j m) c with
  | inl (i, n) => j ≤ i < j + m ∧ n = c + (i - j) ∧ inode_valid blk i = 0
  | inr n => n = c + m
  end.
Proof.
  intros Hm. pattern m. apply natlike_ind; [| |exact Hm]; clear m Hm.
  - intros j c. rewrite seqZ_nil by lia. cbn. lia.
  - intros m Hm IH j c. rewrite seqZ_cons by lia. cbn [create_scan].
    destruct (inode_valid blk j =? 0) eqn:Hz.
    + apply Z.eqb_eq in Hz. split; [lia|]. split; [lia|done].
    + rewrite Z.pred_succ. specialize (IH (Z.succ j) (c + 1)).
      destruct (create_scan blk (seqZ (Z.succ j) m) (c + 1)) as [[i n]|n]; lia.
Qed.

Lemma create_loop_result h dsk k : 0 ≤ k → ∀ s c r h',
  create_loop h dsk (seqZ s k) c = Ok (r, h') →
  (r = -1 ∧ h' = h) ∨
  ∃ ib i blk, s ≤ ib < s + k ∧ 0 ≤ i < INODES_PER_BLOCK ∧
    r = c + (ib - s) * INODES_PER_BLOCK + i ∧
    disk_read h dsk ib = Some blk ∧ inode_valid blk i = 0 ∧
    h' = default h (disk_write h dsk ib (set_inode_valid blk i 1)).
Proof.
  intros Hk. pattern k. apply natlike_ind; [| |exact Hk]; clear k Hk.
  - intros s c r h'. rewrite seqZ_nil by lia. cbn. intros [= <- <-]. by left.
  - intros k Hk IH s c r h'. rewrite seqZ_cons by lia. cbn [create_loop].
    destruct (disk_read h dsk s) as [blk|] eqn:Hblk; [|done].
    pose proof (create_scan_result blk INODES_PER_BLOCK INODES_PER_BLOCK_nonneg 0 c)
      as Hscan.
    destruct (create_scan blk (seqZ 0 INODES_PER_BLOCK) c) as [[i n]|n].
    + intros [= <- <-]. right. exists s, i, blk.
      destruct Hscan as (Hi & -> & Hv). repeat split; try done; lia.
    + rewrite Z.pred_succ. subst n.
      intros [Hnone|(ib & i & blk' & Hib & Hi & -> & Hrest)]%IH; [by left|right].
      exists ib, i, blk'. split; [lia|]. split; [done|]. split; [|done].
      unfold INODES_PER_BLOCK. lia.
Qed.

Lemma fs_create_frame h fs r h' :
  image_ok h fs → fs_create h fs = Ok (r, h') →
  (r = -1 ∧ h' = h) ∨
  (0 ≤ r < table_slots fs ∧
   inode_slot_valid h (disk fs) r = Some false ∧
   inode_slot_valid h' (disk fs) r = Some true ∧
   (∀ m, 0 ≤ m < table_slots fs → m ≠ r → fs_stat h' fs m = fs_stat h fs m) ∧
   (∀ l, loc_ok fs l → ptr_at h' (disk fs) l = ptr_at h (disk fs) l) ∧
   (∀ l, loc_ok fs l → loc_inode l = r → ptr_at h' (disk fs) l = 0) ∧
   (∀ q, 0 ≤ q → q ≠ r / INODES_PER_BLOCK + 1 →
         disk_read h' (disk fs) q = disk_read h (disk fs) q)).
Proof.
  intros Himg Hcreate. unfold fs_create in Hcreate.
  pose proof Himg as [Hwf Hlayout Hfree _ _].
  apply create_loop_result in Hcreate
    as [?|(ib & i & blk & Hib & Hi & -> & Hblk & Hv & ->)]; [by left| |lia].
  right.
  destruct (disk_write_is_Some h (disk fs) ib blk (set_inode_valid blk i 1) Hblk)
    as [h' Hw].
  rewrite Hw. cbn [default]. change (id h') with h'.
  replace (0 + (ib - 1) * INODES_PER_BLOCK + i)
    with ((ib - 1) * INODES_PER_BLOCK + i) by lia.
  set (n0 := (ib - 1) * INODES_PER_BLOCK + i).
  destruct (inode_number_split ib i Hi) as [Hq Hr]. fold n0 in Hq, Hr.
  assert (Hn0 : 0 ≤ n0 < table_slots fs).
  { unfold n0, table_slots, INODES_PER_BLOCK in *. lia. }
  rewrite <- Hq in Hblk, Hw. rewrite <- Hr in Hv, Hw.
  pose proof (wf_store_read h _ _ _ Hwf Hblk) as Hlen.
  pose proof (inode_index_range n0) as Hi0.
  assert (Hwas : inode_slot_valid h (disk fs) n0 = Some false).
  { unfold inode_slot_valid. rewrite Hblk. simpl. by rewrite Hv. }
  assert (Hwords : ∀ w, 0 ≤ w → w ≠ 8 * (n0 mod INODES_PER_BLOCK) →
            load32 (set_inode_valid blk (n0 mod INODES_PER_BLOCK) 1) w
            = load32 blk w).
  { intros w Hw0 Hne. unfold set_inode_valid. apply load32_store32_ne; lia. }
  destruct (write_inode_block h fs n0 blk
              (set_inode_valid blk (n0 mod INODES_PER_BLOCK) 1) h' Himg Hn0 Hblk)
    as (Hwf' & Hblocks & Hdata & Hval & Hval0 & Hptr & Hptr0); [| |exact Hw|].
  { unfold set_inode_valid. by rewrite length_store32. }
  { intros w Hw0 Hout. apply Hwords; lia. }
  assert (Hsame : ∀ l, loc_ok fs l → ptr_at h' (disk fs) l = ptr_at h (disk fs) l).
  { intros l Hl. destruct (decide (loc_inode l = n0)) as [Hn|Hn]; [|by apply Hptr].
    rewrite (Hptr0 l Hn).
    pose proof (Hfree (LIndirect n0) (conj Hn0 I) Hwas) as Hzi.
    unfold ptr_at in Hzi |- *. cbn [loc_inode] in Hzi.
    rewrite Hblk in Hzi. cbn [inode_ptr] in Hzi. rewrite Hn, Hblk.
    rewrite (inode_ptr_fields h' (disk fs) blk (set_inode_valid blk _ 1)).
    - apply inode_ptr_disk. by rewrite Hzi.
    - lia.
    - destruct l; try done. apply Hl.
    - intros f Hf. apply Hwords; lia. }
  split; [done|]. split; [done|]. split; [|split; [|split; [done|split]]].
  - rewrite Hval0. unfold set_inode_valid, inode_valid.
    rewrite load32_store32_eq; [done|lia|].
    unfold INODES_PER_BLOCK, BLOCK_SIZE in *. lia.
  - intros m Hm Hne.
    apply (fs_stat_write_inode h fs n0 blk
             (set_inode_valid blk (n0 mod INODES_PER_BLOCK) 1) h' m); try done; try lia.
    intros w Hw0 Hout. apply Hwords; lia.
  - intros l Hl Hn. rewrite Hsame by done. apply Hfree; [done|by rewrite Hn].
  - intros q Hq0 Hne.
    apply (disk_read_write_ne h (disk fs) (n0 / INODES_PER_BLOCK + 1) q
             (set_inode_valid blk (n0 mod INODES_PER_BLOCK) 1) h');
      [lia|done|done|done].
Qed.

(** X14. [fs_create] takes a free slot and touches nothing else. In a
    state reached from the mount of a well formed image by defined
    calls, [fs_create] returns -1 and writes nothing, or it returns the
    number [r] of a slot of the table that was free and now is valid;
    the new inode names no block (all its pointers are 0); [fs_stat] of
    each other inode, every pointer, and every block other than the
    inode block of [r] are as before. *)
Theorem fs_create_isolation h0 fs0 dsk fs1 h fs r h' :
  fs_mount h0 fs0 dsk = Ok (true, fs1) → image_ok h0 fs1 →
  rtc fs_step (h0, fs1) (h, fs) →
  fs_create h fs = Ok (r, h') →
  (r = -1 ∧ h' = h) ∨
  (0 ≤ r < table_slots fs ∧
   inode_slot_valid h (disk fs) r = Some false ∧
   inode_slot_valid h' (disk fs) r = Some true ∧
   (∀ m, 0 ≤ m < table_slots fs → m ≠ r → fs_stat h' fs m = fs_stat h fs m) ∧
   (∀ l, loc_ok fs l → ptr_at h' (disk fs) l = ptr_at h (disk fs) l) ∧
   (∀ l, loc_ok fs l → loc_inode l = r → ptr_at h' (disk fs) l = 0) ∧
   (∀ q, 0 ≤ q → q ≠ r / INODES_PER_BLOCK + 1 →
         disk_read h' (disk fs) q = disk_read h (disk fs) q)).
Proof.
  intros Hmount Himg Hsteps. apply fs_create_frame.
  apply inv_image. apply (fs_steps_inv (h0, fs1) (h, fs) Hsteps).
  by apply (fs_mount_inv h0 fs0 dsk fs1).
Qed.

Lemma fs_create_isolation_witness :
  (1 = -1 ∧ second_h = written_h) ∨
  (0 ≤ 1 < table_slots written_fs ∧
   inode_slot_valid written_h (disk written_fs) 1 = Some false ∧
   inode_slot_valid second_h (disk written_fs) 1 = Some true ∧
   (∀ m, 0 ≤ m < table_slots written_fs → m ≠ 1 →
         fs_stat second_h written_fs m = fs_stat written_h written_fs m) ∧
   (∀ l, loc_ok written_fs l →
         ptr_at second_h (disk written_fs) l = ptr_at written_h (disk written_fs) l) ∧
   (∀ l, loc_ok written_fs l → loc_inode l = 1 →
         ptr_at second_h (disk written_fs) l = 0) ∧
   (∀ q, 0 ≤ q → q ≠ 1 / INODES_PER_BLOCK + 1 →
         disk_read second_h (disk written_fs) q
         = disk_read written_h (disk written_fs) q)).
Proof.
  apply (fs_create_isolation [image20] fresh_fs (Some 0%nat) mounted20
           written_h written_fs 1 second_h).
  - exact fs_mount_image20.
  - exact image20_ok.
  - exact written_steps.
  - vm_compute. reflexivity.
Defined.

(** ** Calls with defined behaviour *)

Lemma create_loop_total h dsk ibs : ∀ c,
  (∀ ib, ib ∈ ibs → is_Some (disk_read h dsk ib)) →
  ∃ r h', create_loop h dsk ibs c = Ok (r, h').
Proof.
  induction ibs as [|ib ibs IH]; intros c Hall; cbn [create_loop].
  { by eexists _, _. }
  destruct (Hall ib) as [blk ->]; [by left|].
  destruct (create_scan blk (seqZ 0 INODES_PER_BLOCK) c) as [[i n]|n].
  - by eexists _, _.
  - apply IH. intros ib' Hib'. apply Hall. by right.
Qed.

(** X16. On a mounted engine [fs_create], [fs_stat] and [fs_remove]
    have defined behaviour. In a state reached from the mount of a well
    formed image by defined calls, [fs_create] returns a result, and for
    every inode number of the table so do [fs_stat] and [fs_remove]: the
    inode blocks and the indirect block can be read, and every block
    [fs_remove] releases has its place in the bitmap. *)
Theorem fs_calls_defined h0 fs0 dsk fs1 h fs :
  fs_mount h0 fs0 dsk = Ok (true, fs1) → image_ok h0 fs1 →
  rtc fs_step (h0, fs1) (h, fs) →
  (∃ r h', fs_create h fs = Ok (r, h')) ∧
  (∀ n, 0 ≤ n < table_slots fs →
     (∃ s, fs_stat h fs n = Ok s) ∧
     (∃ r h' fs', fs_remove h fs n = Ok (r, h', fs'))).
Proof.
  intros Hmount Himg0 Hsteps.
  assert (Hinv : fs_inv h fs).
  { apply (fs_steps_inv (h0, fs1) (h, fs) Hsteps).
    by apply (fs_mount_inv h0 fs0 dsk fs1). }
  pose proof Hinv as [Himg (bm & Hbm & Hbmlen) _ _].
  pose proof Himg as [Hwf Hlay _ Hrange _].
  split.
  - apply create_loop_total. intros ib Hib%elem_of_seqZ.
    apply disk_read_in_range. lia.
  - intros n Hn.
    destruct (table_slot_readable h fs n Himg Hn) as (blk & Hblk & Hv).
    pose proof (table_block_range fs n Hn) as Hbn.
    split.
    { unfold fs_stat. cbv zeta. rewrite Hblk. destruct (_ =? 0); by eexists. }
    destruct (inode_valid blk (n mod INODES_PER_BLOCK) =? 0) eqn:Hz.
    { apply Z.eqb_eq in Hz. rewrite (fs_remove_invalid h fs n blk Hblk Hz).
      by eexists _, _, _. }
    apply Z.eqb_neq in Hz.
    destruct (slot_of_block n h fs blk Hblk Hz) as [Hslot Hptr].
    destruct (fs_remove_valid h fs n (n / INODES_PER_BLOCK + 1)
                (n mod INODES_PER_BLOCK) blk bm) as (h' & fs' & -> & _);
      try done; [lia|apply inode_index_range|..|by eexists _, _, _].
    + intros p Hp.
      assert (Hreach : p ∈ reachable_blocks h fs).
      { apply reachable_blocks_slots.
        exists (n / INODES_PER_BLOCK + 1), blk, (n mod INODES_PER_BLOCK).
        split; [apply elem_of_seqZ; lia|]. split; [done|].
        split; [apply inode_index_range|done]. }
      apply elem_of_reachable_blocks in Hreach as (Hnz & l & Hlive & <-).
      pose proof (Hrange l Hlive Hnz). lia.
    + intros Hind. apply disk_read_in_range.
      assert (Hlive : live h fs (LIndirect n)) by done.
      pose proof (Hrange _ Hlive) as Hr.
      rewrite (Hptr (LIndirect n) eq_refl) in Hr. cbn [inode_ptr] in Hr.
      specialize (Hr Hind). lia.
Qed.

Lemma fs_calls_defined_witness :
  (∃ r h', fs_create written_h written_fs = Ok (r, h')) ∧
  (∀ n, 0 ≤ n < table_slots written_fs →
     (∃ s, fs_stat written_h written_fs n = Ok s) ∧
     (∃ r h' fs', fs_remove written_h written_fs n = Ok (r, h', fs'))).
Proof.
  apply (fs_calls_defined [image20] fresh_fs (Some 0%nat) mounted20
           written_h written_fs).
  - exact fs_mount_image20.
  - exact image20_ok.
  - exact written_steps.
Defined.

(** ** fs_write: the rest of the file *)

Section write_rest.
Variables (n len offset : Z) (data : list byte).
Hypothesis Hlen : 0 ≤ len < 2 ^ 64.

(** The loop of [fs_write] from some turn on leaves the logical blocks
    of the file before that turn and behind the range as they are: same
    pointer, same bytes. An indirect pointer that is set stays. *)
Lemma write_loop_rest fuel : ∀ h fs blk db doff ncopy nwrite r h' fs',
  fs_inv h fs → 0 ≤ n < table_slots fs →
  disk_read h (disk fs) (n / INODES_PER_BLOCK + 1) = Some blk →
  inode_valid blk (n mod INODES_PER_BLOCK) ≠ 0 →
  walk_inv len offset db doff ncopy nwrite → 0 ≤ db →
  write_loop fuel h fs blk (n / INODES_PER_BLOCK + 1) (n mod INODES_PER_BLOCK)
    data len offset db doff ncopy nwrite = Ok (r, h', fs') →
  (∀ d, 0 ≤ d < POINTERS_PER_INODE + POINTERS_PER_BLOCK →
        d < db ∨ offset + len ≤ d * BLOCK_SIZE →
        ptr_at h' (disk fs) (lloc n d) = ptr_at h (disk fs) (lloc n d) ∧
        (ptr_at h (disk fs) (lloc n d) ≠ 0 →
         disk_read h' (disk fs) (ptr_at h (disk fs) (lloc n d))
         = disk_read h (disk fs) (ptr_at h (disk fs) (lloc n d)))) ∧
  (ptr_at h (disk fs) (LIndirect n) ≠ 0 →
   ptr_at h' (disk fs) (LIndirect n) = ptr_at h (disk fs) (LIndirect n)).
Proof.
  induction fuel as [|fuel IH];
    intros h fs blk db doff ncopy nwrite r h' fs' Hinv Hn Hblk Hvalid Hwalk Hdb;
    cbn [write_loop]; case_bool_decide as Hlt; try done;
    try (by intros [= <- <- <-]).
  intros (s & Hturn & Hrest)%bind_Ok.
  pose proof Hwalk as (Hdoff & Hnwrite & Hncopy & Hpos & Hdone).
  specialize (Hpos Hlt).
  assert (Hncopy0 : 0 ≤ ncopy) by lia.
  pose proof (write_turn_inv n data offset db doff ncopy nwrite ltac:(lia) Hncopy0
                ltac:(lia) h fs blk s Hinv Hn Hblk Hvalid Hdb Hturn) as Hpost.
  destruct s as [r0 h1 fs1|h1 fs1 blk1]; cbn [turn_post] in Hpost.
  { apply write_turn_return_same in Hturn as ->; try done.
    by injection Hrest as <- <- <-. }
  destruct Hpost as (Hinv1 & Hdisk1 & Hmeta1 & Hblk1 & Hvalid1).
  destruct (write_turn_copy _ _ _ _ _ _ _ _ _ _ _ _ _ _ Hturn) as [Hfit _].
  apply write_turn_effect in Hturn
    as (Hdblt & HY & HX & _ & Hptrs & Hvals & Hframe & _); try done; try lia.
  assert (Hn1 : 0 ≤ n < table_slots fs1).
  { unfold table_slots in *. by rewrite Hmeta1. }
  apply IH in Hrest as (Hrest1 & Hind1);
    [|done|done|by rewrite Hdisk1|done| |lia].
  2:{ by apply (walk_inv_next len offset Hlen db doff ncopy nwrite). }
  rewrite Hdisk1 in *.
  assert (Hok1 : ∀ l, loc_ok fs l → loc_ok fs1 l).
  { intros l Hl. by apply (loc_ok_meta fs fs1). }
  destruct (slot_of_block n h fs blk Hblk Hvalid) as [Hvalid_n _].
  destruct (lloc_ok fs n db Hn ltac:(lia)) as (Hl0 & Hn0 & Hdata0).
  assert (Hlive0 : live h1 fs1 (lloc n db)).
  { split; [by apply Hok1|]. rewrite Hn0, Hdisk1, Hvals by done. done. }
  assert (HliveX : live h1 fs1 (LIndirect n)).
  { split; [by apply Hok1|]. cbn [loc_inode]. rewrite Hdisk1, Hvals by done. done. }
  pose proof (table_block_range fs n Hn) as Hbn.
  split.
  - intros d Hd Hout.
    assert (Hne : d ≠ db) by (unfold BLOCK_SIZE in *; lia).
    destruct (lloc_ok fs n d Hn Hd) as (Hl & Hnl & Hdatal).
    assert (Hp1 : ptr_at h1 (disk fs) (lloc n d) = ptr_at h (disk fs) (lloc n d)).
    { destruct (Hptrs _ Hl) as [?|(_ & [Heq%lloc_inj|[_ Heq]])]; [done|done|].
      by apply Hdatal in Heq. }
    destruct (Hrest1 d Hd) as [Hp' Hc']; [lia|].
    rewrite Hp1 in Hp', Hc'. split; [done|]. intros Hnz.
    rewrite Hc' by done.
    assert (Hlive : live h fs (lloc n d)).
    { split; [done|]. by rewrite Hnl. }
    assert (Hlive1 : live h1 fs1 (lloc n d)).
    { split; [by apply Hok1|]. rewrite Hnl, Hdisk1, Hvals by done. done. }
    pose proof (img_range h fs (inv_image _ _ Hinv) _ Hlive Hnz) as Hrg.
    apply Hframe; [lia|lia| |].
    + intros Heq. apply Hne. apply (lloc_inj n).
      apply (img_nodup h1 fs1 (inv_image _ _ Hinv1)); try done;
        rewrite Hdisk1, Hp1; [done|congruence].
    + destruct (decide (db < POINTERS_PER_INODE)) as [|Hge]; [by left|right].
      intros Heq. apply (Hdatal n).
      apply (img_nodup h1 fs1 (inv_image _ _ Hinv1)); try done;
        rewrite Hdisk1, Hp1; [done|congruence].
  - intros Hnz.
    assert (Hp1 : ptr_at h1 (disk fs) (LIndirect n) = ptr_at h (disk fs) (LIndirect n)).
    { destruct (Hptrs (LIndirect n) (conj Hn I)) as [?|[? _]]; [done|congruence]. }
    rewrite Hind1; [done|]. by rewrite Hp1.
Qed.
End write_rest.

(** The block that a walk of inode [n] takes for logical block [d], on
    two devices that agree on the pointer of that block, on the block it
    names and, behind the direct pointers, on the indirect pointer. *)
Lemma read_data_block_at h h' dsk n blk blk' d :
  disk_read h dsk (n / INODES_PER_BLOCK + 1) = Some blk →
  disk_read h' dsk (n / INODES_PER_BLOCK + 1) = Some blk' →
  0 ≤ d →
  (d < POINTERS_PER_INODE + POINTERS_PER_BLOCK →
   ptr_at h' dsk (lloc n d) = ptr_at h dsk (lloc n d) ∧
   disk_read h' dsk (ptr_at h dsk (lloc n d))
   = disk_read h dsk (ptr_at h dsk (lloc n d))) →
  (POINTERS_PER_INODE ≤ d →
   ptr_at h dsk (LIndirect n) ≠ 0 ∧
   ptr_at h' dsk (LIndirect n) = ptr_at h dsk (LIndirect n) ∧
   is_Some (disk_read h dsk (ptr_at h dsk (LIndirect n))) ∧
   is_Some (disk_read h' dsk (ptr_at h dsk (LIndirect n)))) →
  read_data_block h' dsk blk' (n mod INODES_PER_BLOCK) d
  = read_data_block h dsk blk (n mod INODES_PER_BLOCK) d.
Proof.
  intros Hblk Hblk' Hd Hdata Hind.
  assert (Hat : ∀ l, loc_inode l = n →
            ptr_at h dsk l = inode_ptr h dsk blk (n mod INODES_PER_BLOCK) l).
  { intros l Hl. unfold ptr_at. by rewrite Hl, Hblk. }
  assert (Hat' : ∀ l, loc_inode l = n →
            ptr_at h' dsk l = inode_ptr h' dsk blk' (n mod INODES_PER_BLOCK) l).
  { intros l Hl. unfold ptr_at. by rewrite Hl, Hblk'. }
  unfold read_data_block. case_bool_decide as Hdir.
  - destruct Hdata as [Hp Hc]; [unfold POINTERS_PER_BLOCK; lia|].
    unfold lloc in Hp, Hc. rewrite bool_decide_eq_true_2 in Hp, Hc by done.
    rewrite Hat, Hat' in Hp by done. rewrite Hat in Hc by done.
    cbn [inode_ptr] in Hp, Hc. by rewrite Hp, Hc.
  - destruct Hind as (HX & HX' & [ib Hib] & [ib' Hib']); [lia|].
    rewrite (Hat (LIndirect n)) in HX, HX', Hib, Hib' by done.
    rewrite (Hat' (LIndirect n)) in HX' by done.
    cbn [inode_ptr] in HX, HX', Hib, Hib'.
    rewrite HX', Hib, Hib'.
    case_bool_decide as Hoff; [done|].
    destruct Hdata as [Hp Hc]; [lia|].
    unfold lloc in Hp, Hc. rewrite bool_decide_eq_false_2 in Hp, Hc by done.
    rewrite Hat, Hat' in Hp by done. rewrite Hat in Hc by done.
    cbn [inode_ptr] in Hp, Hc.
    rewrite HX', (proj2 (Z.eqb_neq _ _) HX), Hib, Hib' in Hp.
    rewrite (proj2 (Z.eqb_neq _ _) HX), Hib in Hc.
    by rewrite Hp, Hc.
Qed.

Lemma fs_write_keeps_rest_inv h fs n data len offset h' fs' s len' off' :
  fs_inv h fs → 0 ≤ n < table_slots fs →
  0 ≤ offset → 0 < len → len + offset < 2 ^ 64 →
  fs_write h fs n data len offset = Ok (len, h', fs') →
  fs_stat h fs n = Ok s →
  0 ≤ off' → 0 < len' → off' + len' ≤ s →
  (off' + len' - 1) / BLOCK_SIZE < offset / BLOCK_SIZE ∨
  (offset + len - 1) / BLOCK_SIZE < off' / BLOCK_SIZE →
  off' + len' ≤ POINTERS_PER_INODE * BLOCK_SIZE ∨
  ptr_at h (disk fs) (LIndirect n) ≠ 0 →
  fs_read h' fs' n len' off' = fs_read h fs n len' off'.
Proof.
  intros Hinv Hn Hoff Hlen Hsum Hwrite Hs Hoff' Hlen' Hin Hdisj Hcase.
  destruct (fs_write_inv h fs n data len offset len h' fs' Hinv Hn Hoff Hwrite)
    as (Hinv' & Hdisk' & Hmeta').
  destruct (fs_write_frame h fs n data len offset len h' fs' Hinv Hn Hoff Hwrite)
    as (_ & _ & _ & Hres & _).
  pose proof (table_block_range fs n Hn) as Hbn.
  pose proof (inode_index_range n) as Hi.
  pose proof (img_layout _ _ (inv_image _ _ Hinv)) as Hlay.
  pose proof (img_layout _ _ (inv_image _ _ Hinv')) as Hlay'.
  rewrite Hdisk', Hmeta' in Hlay'.
  assert (Hzero : disk_read h' (disk fs) 0 = disk_read h (disk fs) 0).
  { apply Hres; lia. }
  unfold fs_write in Hwrite. cbv zeta in Hwrite.
  unfold fs_stat in Hs. cbv zeta in Hs.
  destruct (disk_read h (disk fs) (n / INODES_PER_BLOCK + 1)) as [blk|] eqn:Hblk;
    [|done].
  destruct (inode_valid blk (n mod INODES_PER_BLOCK) =? 0) eqn:Hvalid.
  { injection Hwrite as ? _ _. lia. }
  apply Z.eqb_neq in Hvalid. injection Hs as Hs.
  pose proof (walk_inv_init len offset Hoff Hlen) as Hwalk.
  pose proof (Z.div_pos offset BLOCK_SIZE Hoff ltac:(unfold BLOCK_SIZE; lia)) as Hdb.
  pose proof (wf_store_read h _ _ _ (img_wf _ _ (inv_image _ _ Hinv)) Hblk) as Hblen.
  assert (Hbn0 : 0 ≤ n / INODES_PER_BLOCK + 1) by lia.
  assert (Hlen64 : 0 ≤ len < 2 ^ 64) by lia.
  pose proof Hwrite as Hsize.
  apply (write_loop_size _ _ len offset data Hbn0 Hi Hlen64) in Hsize
    as (_ & blk' & Hblk' & _ & Hsize); [|done|done|done|done|lia].
  rewrite bool_decide_eq_true_2 in Hsize by lia.
  apply (write_loop_rest n len offset data Hlen64) in Hwrite as [Hrest Hind];
    try done.
  rewrite Hdisk' in Hblk'.
  transitivity (fs_read h' fs n len' off').
  { unfold fs_read. by rewrite Hdisk'. }
  rewrite (fs_read_unfold h fs n len' off' blk Hblk).
  rewrite (fs_read_unfold h' fs n len' off' blk' Hblk'). cbv zeta.
  assert (Hs32 : 0 ≤ s < 2 ^ 32).
  { rewrite <- Hs. apply load32_range. }
  assert (Hclamp : clamped_length blk (n mod INODES_PER_BLOCK) len' off' = len').
  { unfold clamped_length. rewrite bool_decide_eq_false_2; [done|].
    rewrite wrap64_small by lia. lia. }
  assert (Hclamp' : clamped_length blk' (n mod INODES_PER_BLOCK) len' off' = len').
  { unfold clamped_length. rewrite bool_decide_eq_false_2; [done|].
    rewrite wrap64_small by lia. lia. }
  rewrite Hclamp, Hclamp'.
  assert (Hlen'64 : 0 ≤ len' < 2 ^ 64) by lia.
  destruct (slot_of_block n h fs blk Hblk Hvalid) as [Hvalid_n _].
  apply (read_loop_ext h h' (disk fs) blk blk' (n mod INODES_PER_BLOCK) len' len'
           off' Hlen'64).
  - by apply walk_inv_init.
  - apply Z.div_pos; [done|]. unfold BLOCK_SIZE. lia.
  - intros d Hd Hbound.
    pose proof (Z.div_pos off' BLOCK_SIZE Hoff' ltac:(unfold BLOCK_SIZE; lia)).
    assert (Hout : d < offset / BLOCK_SIZE ∨ offset + len ≤ d * BLOCK_SIZE).
    { destruct Hdisj as [Hbefore|Hafter]; [left|right].
      - assert (d ≤ (off' + len' - 1) / BLOCK_SIZE); [|lia].
        apply Z.div_le_lower_bound; unfold BLOCK_SIZE in *; lia.
      - assert ((offset + len - 1) / BLOCK_SIZE < d) as Hlt by lia.
        pose proof (Z.div_mod (offset + len - 1) BLOCK_SIZE
                      ltac:(unfold BLOCK_SIZE; lia)).
        pose proof (Z.mod_pos_bound (offset + len - 1) BLOCK_SIZE
                      ltac:(unfold BLOCK_SIZE; lia)).
        unfold BLOCK_SIZE in *. nia. }
    apply (read_data_block_at h h' (disk fs) n blk blk' d Hblk Hblk'); [lia|..].
    + intros Hd'. destruct (Hrest d ltac:(lia) Hout) as [Hp Hc].
      split; [done|].
      destruct (decide (ptr_at h (disk fs) (lloc n d) = 0)) as [->|Hnz]; [done|].
      by apply Hc.
    + intros Hd5. destruct Hcase as [Hsmall|HX].
      { exfalso. unfold POINTERS_PER_INODE, BLOCK_SIZE in *. lia. }
      split; [done|]. split; [by apply Hind|].
      assert (HliveX : live h fs (LIndirect n)) by done.
      pose proof (img_range h fs (inv_image _ _ Hinv) _ HliveX HX) as Hr.
      split; apply disk_read_in_range; lia.
Qed.

(** X17. A write leaves the rest of the file alone. In a state reached
    from the mount of a well formed image by defined calls, after a
    write to inode [n] that returns its length, a read of [n] inside the
    size the file had, over logical blocks that all lie before or all
    lie behind the blocks of the range written, gives the same result
    as before the write, provided it stays within the direct pointers
    or the inode had its indirect block. *)
Theorem fs_write_keeps_rest h0 fs0 dsk fs1 h fs n data len offset h' fs'
    s len' off' :
  fs_mount h0 fs0 dsk = Ok (true, fs1) → image_ok h0 fs1 →
  rtc fs_step (h0, fs1) (h, fs) →
  0 ≤ n < table_slots fs →
  0 ≤ offset → 0 < len → len + offset < 2 ^ 64 →
  fs_write h fs n data len offset = Ok (len, h', fs') →
  fs_stat h fs n = Ok s →
  0 ≤ off' → 0 < len' → off' + len' ≤ s →
  (off' + len' - 1) / BLOCK_SIZE < offset / BLOCK_SIZE ∨
  (offset + len - 1) / BLOCK_SIZE < off' / BLOCK_SIZE →
  off' + len' ≤ POINTERS_PER_INODE * BLOCK_SIZE ∨
  ptr_at h (disk fs) (LIndirect n) ≠ 0 →
  fs_read h' fs' n len' off' = fs_read h fs n len' off'.
Proof.
  intros Hmount Himg Hsteps. apply fs_write_keeps_rest_inv.
  apply (fs_steps_inv (h0, fs1) (h, fs) Hsteps).
  by apply (fs_mount_inv h0 fs0 dsk fs1).
Qed.

(** The file of [written_state] with its third block written again. *)
Definition overwritten_state : res (list Disk * FileSystem) :=
  '(w, h2, fs2) ← fs_write written_h written_fs 0
                     (replicate (Z.to_nat 4096) x2b) 4096 8192;
  Ok (h2, fs2).

Definition overwritten_h : list Disk := state_disks overwritten_state.
Definition overwritten_fs : FileSystem := state_engine overwritten_state.

Lemma fs_write_keeps_rest_witness :
  fs_read overwritten_h overwritten_fs 0 8192 0
  = fs_read written_h written_fs 0 8192 0.
Proof.
  apply (fs_write_keeps_rest [image20] fresh_fs (Some 0%nat) mounted20
           written_h written_fs 0 (replicate (Z.to_nat 4096) x2b) 4096 8192
           overwritten_h overwritten_fs 30000 8192 0).
  - exact fs_mount_image20.
  - exact image20_ok.
  - exact written_steps.
  - vm_compute. split; congruence.
  - lia.
  - lia.
  - lia.
  - vm_compute. reflexivity.
  - vm_compute. reflexivity.
  - lia.
  - lia.
  - lia.
  - left. vm_compute. reflexivity.
  - left. vm_compute. congruence.
Defined.

(** ** fs_read: the result of the walk *)

(** Below logical block [D + P] the look-up of a data block has a
    result: a block, or the failure of a device read. *)
Lemma read_data_block_total h dsk blk inode_i db :
  db < POINTERS_PER_INODE + POINTERS_PER_BLOCK →
  ∃ b, read_data_block h dsk blk inode_i db = Ok b.
Proof.
  intros Hdb. unfold read_data_block. case_bool_decide; [eauto|].
  destruct (disk_read h dsk (inode_indirect blk inode_i)); [|eauto].
  rewrite bool_decide_eq_false_2 by lia. eauto.
Qed.

Section read_total.
Variables (h : list Disk) (dsk : option nat) (blk : Block).
Variables (inode_i cap len offset : Z).
Hypothesis Hlen : 0 ≤ len < 2 ^ 64.
Hypothesis Hcap : len ≤ cap.
Hypothesis Hmax :
  offset + len ≤ (POINTERS_PER_INODE + POINTERS_PER_BLOCK) * BLOCK_SIZE.

(** Whether the device read of a logical block from [db] on, inside the
    range, fails. *)
Definition read_fails (db : Z) : Prop :=
  ∃ lb, db ≤ lb ∧ lb * BLOCK_SIZE < offset + len ∧
        read_data_block h dsk blk inode_i lb = Ok None.

Lemma read_loop_total fuel : ∀ db doff ncopy nread acc,
  walk_inv len offset db doff ncopy nread →
  doff + ncopy ≤ BLOCK_SIZE →
  (Z.to_nat (POINTERS_PER_INODE + POINTERS_PER_BLOCK - db) < fuel)%nat →
  ∃ r out,
    read_loop fuel h dsk blk inode_i cap len db doff ncopy nread acc
    = Ok (r, out) ∧
    (r = -1 ∨ r = len) ∧
    (r = -1 ↔ nread < len ∧ read_fails db).
Proof.
  induction fuel as [|fuel IH]; intros db doff ncopy nread acc Hwalk Hfit Hfuel;
    [lia|].
  pose proof Hwalk as (Hdoff & Hnread & Hncopy & Hpos & Hdone).
  cbn [read_loop]. case_bool_decide as Hlt.
  2:{ exists nread, acc. split; [done|]. split; [right; lia|]. split; lia. }
  specialize (Hpos Hlt).
  assert (Hdb : db < POINTERS_PER_INODE + POINTERS_PER_BLOCK).
  { unfold POINTERS_PER_INODE, POINTERS_PER_BLOCK, BLOCK_SIZE in *. lia. }
  destruct (read_data_block_total h dsk blk inode_i db Hdb) as [[b|] Hb];
    rewrite Hb; cbn [mbind res_bind].
  - unfold copy_out.
    rewrite (bool_decide_eq_false_2 (BLOCK_SIZE < doff + ncopy)) by lia.
    assert (ncopy ≤ len - nread) as Hle by (destruct Hncopy as [->|[_ ?]]; lia).
    rewrite (bool_decide_eq_false_2 (cap < nread + ncopy)) by lia.
    cbn [mbind res_bind].
    pose proof (walk_inv_next len offset Hlen db doff ncopy nread Hwalk Hlt Hfit)
      as Hnext.
    destruct (IH (db + 1) 0
                (if bool_decide (BLOCK_SIZE < wrap64 (len - (nread + ncopy)))
                 then BLOCK_SIZE else wrap64 (len - (nread + ncopy)))
                (nread + ncopy)
                (acc ++ take (Z.to_nat ncopy) (drop (Z.to_nat doff) b)) Hnext)
      as (r & out & Hloop & Hr & Hiff).
    { case_bool_decide; lia. }
    { lia. }
    exists r, out. split; [done|]. split; [done|]. rewrite Hiff.
    destruct Hnext as (_ & _ & _ & Hpos' & Hdone'). split.
    + intros [_ (lb & Hlb & Hrange & Hnone)]. split; [done|].
      exists lb. split; [lia|done].
    + intros [_ (lb & Hlb & Hrange & Hnone)].
      assert (lb ≠ db) as Hne by (intros ->; congruence).
      split; [|exists lb; split; [lia|done]].
      destruct (decide (nread + ncopy < len)) as [|Hge]; [done|].
      specialize (Hdone' ltac:(lia)). unfold BLOCK_SIZE in *. lia.
  - exists (-1), acc. split; [done|]. split; [by left|]. split; [|done].
    intros _. split; [done|]. exists db. split; [lia|]. split; [|done].
    unfold BLOCK_SIZE in *. lia.
Qed.
End read_total.

(** An image whose inode 0 is valid, 100 bytes long, with a first
    direct pointer beyond the 3 blocks of the disk. *)
Definition image3_bad_pointer : Disk :=
  [super_image 3 1 128;
   set_inode_direct (set_inode_size (set_inode_valid zero_block 0 1) 0 100) 0 0 99;
   zero_block].

(** X18. [fs_read] is defined, and it fails exactly when a device read
    fails. Let the block of the inode be readable, the offset not beyond
    the stored size, and [len] the length after the comparison with the
    size: the range of [len] bytes at [offset] ending inside the largest
    file and, when [len < BLOCK_SIZE], inside the block it starts in.
    Then [fs_read] returns [len] or -1, and it returns -1 exactly when
    [len > 0] and the device read of some logical block of the range
    fails. *)
Theorem fs_read_defined h fs n length offset blk :
  0 ≤ offset → 0 ≤ length → length + offset < 2 ^ 64 →
  disk_read h (disk fs) (n / INODES_PER_BLOCK + 1) = Some blk →
  offset ≤ inode_size blk (n mod INODES_PER_BLOCK) →
  (clamped_length blk (n mod INODES_PER_BLOCK) length offset < BLOCK_SIZE →
   offset mod BLOCK_SIZE
   + clamped_length blk (n mod INODES_PER_BLOCK) length offset ≤ BLOCK_SIZE) →
  offset + clamped_length blk (n mod INODES_PER_BLOCK) length offset
  ≤ (POINTERS_PER_INODE + POINTERS_PER_BLOCK) * BLOCK_SIZE →
  ∃ r out,
    fs_read h fs n length offset = Ok (r, out) ∧
    (r = -1 ∨ r = clamped_length blk (n mod INODES_PER_BLOCK) length offset) ∧
    (r = -1 ↔
     0 < clamped_length blk (n mod INODES_PER_BLOCK) length offset ∧
     ∃ lb, offset / BLOCK_SIZE ≤ lb ∧
       lb * BLOCK_SIZE
       < offset + clamped_length blk (n mod INODES_PER_BLOCK) length offset ∧
       read_data_block h (disk fs) blk (n mod INODES_PER_BLOCK) lb = Ok None).
Proof.
  intros Hoff Hlength Hsum Hread Hsize Hblock Hmax.
  set (i := n mod INODES_PER_BLOCK) in *.
  pose proof (load32_range blk (8 * i + 1)) as Hrange.
  fold (inode_size blk i) in Hrange.
  rewrite (fs_read_unfold _ _ _ _ _ _ Hread). fold i. cbv zeta.
  set (len := clamped_length blk i length offset) in *.
  assert (Hlen : 0 ≤ len ≤ length).
  { unfold len, clamped_length. rewrite wrap64_small by lia.
    case_bool_decide; [|lia]. rewrite wrap64_small by lia. lia. }
  destruct (decide (0 < len)) as [Hpos|Hzero].
  2:{ rewrite read_loop_done by lia. exists 0, []. split; [done|].
      split; [right; lia|]. split; [done|]. intros [? _]. lia. }
  pose proof (Z.mod_pos_bound offset BLOCK_SIZE ltac:(unfold BLOCK_SIZE; lia)).
  pose proof (Z.div_pos offset BLOCK_SIZE Hoff ltac:(unfold BLOCK_SIZE; lia)).
  destruct (read_loop_total h (disk fs) blk i length len offset ltac:(lia)
              ltac:(lia) Hmax walk_fuel (offset / BLOCK_SIZE)
              (offset mod BLOCK_SIZE)
              (if bool_decide (len < BLOCK_SIZE) then len
               else BLOCK_SIZE - offset mod BLOCK_SIZE) 0 [])
    as (r & out & Hloop & Hr & Hiff).
  { by apply walk_inv_init. }
  { case_bool_decide; [by apply Hblock|lia]. }
  { unfold walk_fuel. lia. }
  exists r, out. split; [done|]. split; [done|]. rewrite Hiff.
  unfold read_fails. split; intros [_ Hfails]; split; done.
Qed.

Lemma fs_read_defined_witness :
  (∃ r out,
     fs_read [image3_bad_pointer] mounted3_full 0 100 0 = Ok (r, out) ∧
     (r = -1 ∨
      r = clamped_length
            (set_inode_direct
               (set_inode_size (set_inode_valid zero_block 0 1) 0 100) 0 0 99)
            (0 mod INODES_PER_BLOCK) 100 0) ∧
     (r = -1 ↔
      0 < clamped_length
            (set_inode_direct
               (set_inode_size (set_inode_valid zero_block 0 1) 0 100) 0 0 99)
            (0 mod INODES_PER_BLOCK) 100 0 ∧
      ∃ lb, 0 / BLOCK_SIZE ≤ lb ∧
        lb * BLOCK_SIZE
        < 0 + clamped_length
                (set_inode_direct
                   (set_inode_size (set_inode_valid zero_block 0 1) 0 100) 0 0 99)
                (0 mod INODES_PER_BLOCK) 100 0 ∧
        read_data_block [image3_bad_pointer] (disk mounted3_full)
          (set_inode_direct
             (set_inode_size (set_inode_valid zero_block 0 1) 0 100) 0 0 99)
          (0 mod INODES_PER_BLOCK) lb = Ok None)) ∧
  fst <$> fs_read [image3_bad_pointer] mounted3_full 0 100 0 = Ok (-1) ∧
  fst <$> fs_read written_h written_fs 0 30000 0 = Ok 30000.
Proof.
  split; [|split; vm_compute; reflexivity].
  apply (fs_read_defined [image3_bad_pointer] mounted3_full 0 100 0
           (set_inode_direct
              (set_inode_size (set_inode_valid zero_block 0 1) 0 100) 0 0 99)).
  - lia.
  - lia.
  - lia.
  - vm_compute. reflexivity.
  - vm_compute. congruence.
  - intros _. vm_compute. congruence.
  - vm_compute. congruence.
Defined.
